(** * Network topology toolkit: graph model, generators, metrics, failure
      simulation and link-list checking.

    Shallow embedding of [modules/topology_builder.py], [main.py] and
    [check_links.py].  The programs are written against the [networkx]
    graph class; its data structure (two insertion-ordered dictionaries,
    [_node] and [_adj]) and the library routines the programs call are
    embedded here as well, so that every statement below is about values
    the Python code really manipulates. *)

From Stdlib Require Import List String Ascii Bool Arith ZArith QArith Lia.
From Stdlib Require Import DecimalString DecimalNat Permutation.
From Stdlib Require FinFun.
Import ListNotations.

Close Scope Q_scope.
Open Scope string_scope.
Open Scope list_scope.
Open Scope nat_scope.

(* ------------------------------------------------------------------ *)
(** * Exceptions and the result monad *)

Inductive exn : Type :=
| ValueError
| KeyError
| ZeroDivisionError
| NetworkXError
| NetworkXPointlessConcept
| OutOfFuel.

(** [OutOfFuel] is not a Python exception: it marks a traversal of the
    embedding that hit its step bound.  The bounds are shown sufficient
    below, so it never reaches a caller on a consistent graph. *)

Inductive result (A : Type) : Type :=
| Ok (a : A)
| Raise (e : exn).

Arguments Ok {A} a.
Arguments Raise {A} e.

Definition bind {A B : Type} (m : result A) (k : A -> result B) : result B :=
  match m with
  | Ok a => k a
  | Raise e => Raise e
  end.

Notation "x <- m ;; k" := (bind m (fun x => k))
  (at level 61, m at next level, right associativity).

(** String concatenation, kept apart from list append. *)
Infix "+++" := String.append (right associativity, at level 60).

(* ------------------------------------------------------------------ *)
(** * Python strings

    A Python [str] is embedded as a Rocq [string]; a character is a code
    point below 256. *)

Module PyStr.

(** [str.isspace] on one character: the code points below 256 that
    Python treats as white space. *)
Definition isspace (c : ascii) : bool :=
  let n := nat_of_ascii c in
  (((9 <=? n) && (n <=? 13)) || ((28 <=? n) && (n <=? 32))
   || (n =? 133) || (n =? 160))%nat.

(** [str.lower] on one character. *)
Definition lower_char (c : ascii) : ascii :=
  let n := nat_of_ascii c in
  if (((65 <=? n) && (n <=? 90))
      || ((192 <=? n) && (n <=? 214))
      || ((216 <=? n) && (n <=? 222)))%nat
  then ascii_of_nat (n + 32) else c.

Fixpoint lower (s : string) : string :=
  match s with
  | EmptyString => EmptyString
  | String c s' => String (lower_char c) (lower s')
  end.

Fixpoint lstrip (s : string) : string :=
  match s with
  | EmptyString => EmptyString
  | String c s' => if isspace c then lstrip s' else s
  end.

Fixpoint rstrip (s : string) : string :=
  match s with
  | EmptyString => EmptyString
  | String c s' =>
      match rstrip s' with
      | EmptyString => if isspace c then EmptyString else String c EmptyString
      | r => String c r
      end
  end.

(** [s.strip()] *)
Definition strip (s : string) : string := rstrip (lstrip s).

(** [c in s] for a one-character [c]. *)
Fixpoint contains (c : ascii) (s : string) : bool :=
  match s with
  | EmptyString => false
  | String d s' => if Ascii.eqb c d then true else contains c s'
  end.

(** [s.startswith(c)] for a one-character [c]. *)
Definition startswith (c : ascii) (s : string) : bool :=
  match s with
  | EmptyString => false
  | String d _ => Ascii.eqb c d
  end.

(** The text before the first [sep] (all of [s] when there is none). *)
Fixpoint before (sep : ascii) (s : string) : string :=
  match s with
  | EmptyString => EmptyString
  | String d s' => if Ascii.eqb sep d then EmptyString
                   else String d (before sep s')
  end.

(** The text after the first [sep] (empty when there is none). *)
Fixpoint after (sep : ascii) (s : string) : string :=
  match s with
  | EmptyString => EmptyString
  | String d s' => if Ascii.eqb sep d then s' else after sep s'
  end.

(** [s.split(sep, 1)]: at most one split, at the first separator. *)
Definition split1 (sep : ascii) (s : string) : list string :=
  if contains sep s then [before sep s; after sep s] else [s].

(** Tuple unpacking [a, b = xs]. *)
Definition unpack2 (xs : list string) : result (string * string) :=
  match xs with
  | [a; b] => Ok (a, b)
  | _ => Raise ValueError
  end.

(** [sep.join(xs)] *)
Fixpoint join (sep : string) (xs : list string) : string :=
  match xs with
  | [] => EmptyString
  | [x] => x
  | x :: rest => x +++ sep +++ join sep rest
  end.

(** [str(n)] for a natural number. *)
Definition of_nat (n : nat) : string :=
  NilEmpty.string_of_uint (Nat.to_uint n).

(** String order used by [sorted]. *)
Fixpoint insert_sorted (x : string) (xs : list string) : list string :=
  match xs with
  | [] => [x]
  | y :: ys => if String.leb x y then x :: xs else y :: insert_sorted x ys
  end.

Definition sorted (xs : list string) : list string :=
  fold_right insert_sorted [] xs.

End PyStr.

(* ------------------------------------------------------------------ *)
(** * Python dictionaries

    A [dict] keyed by strings, in insertion order: a list of key/value
    pairs in which a key occurs at most once. *)

Module Dict.

Definition t (V : Type) : Type := list (string * V).

Definition empty {V : Type} : t V := [].

(** [d.get(k)] *)
Fixpoint get {V : Type} (k : string) (d : t V) : option V :=
  match d with
  | [] => None
  | (k', v) :: d' => if String.eqb k k' then Some v else get k d'
  end.

(** [k in d] *)
Definition has {V : Type} (k : string) (d : t V) : bool :=
  match get k d with Some _ => true | None => false end.

(** [d[k] = v]: an existing key keeps its place, a new one goes last. *)
Fixpoint set {V : Type} (k : string) (v : V) (d : t V) : t V :=
  match d with
  | [] => [(k, v)]
  | (k', v') :: d' =>
      if String.eqb k k' then (k', v) :: d' else (k', v') :: set k v d'
  end.

(** [del d[k]] (the caller has checked that [k] is present). *)
Fixpoint del {V : Type} (k : string) (d : t V) : t V :=
  match d with
  | [] => []
  | (k', v') :: d' => if String.eqb k k' then d' else (k', v') :: del k d'
  end.

Definition keys {V : Type} (d : t V) : list string := map fst d.
Definition values {V : Type} (d : t V) : list V := map snd d.

(** [d.update(other)] *)
Definition update {V : Type} (d other : t V) : t V :=
  fold_left (fun acc kv => set (fst kv) (snd kv) acc) other d.

End Dict.

(** Membership in a list of strings ([x in xs]). *)
Fixpoint mem (x : string) (xs : list string) : bool :=
  match xs with
  | [] => false
  | y :: ys => if String.eqb x y then true else mem x ys
  end.

(* ------------------------------------------------------------------ *)
(** * check_links.py *)

Module CheckLinks.

Import PyStr.

(** One iteration of the [for line in f] loop of [read_links]: the
    endpoint pairs and the diagnostics the line contributes. *)
Definition read_line (line : string)
  : result (list (string * string) * list string) :=
  let line := strip line in
  if (String.eqb line "") || startswith "#" line then Ok ([], [])
  else if negb (contains "-" line) then
    Ok ([], ["Skipping invalid link line (missing '-'): " +++ line])
  else
    lr <- unpack2 (split1 "-" line) ;;
    Ok ([(strip (fst lr), strip (snd lr))], []).

Fixpoint read_lines (lines : list string)
  : result (list (string * string) * list string) :=
  match lines with
  | [] => Ok ([], [])
  | l :: rest =>
      r1 <- read_line l ;;
      r2 <- read_lines rest ;;
      Ok (fst r1 ++ fst r2, snd r1 ++ snd r2)
  end.

(** [read_links(links_file)].  The file system is a partial map from
    paths to the lines a text file yields; [None] is a path for which
    [os.path.isfile] is false.  Returns the link list and what was
    printed. *)
Definition read_links (fs : string -> option (list string)) (links_file : string)
  : result (list (string * string) * list string) :=
  match fs links_file with
  | None => Ok ([], ["Links file not found: " +++ links_file])
  | Some lines => read_lines lines
  end.

(** The parsed configurations: device name to a dictionary whose
    ["interfaces"] entry is itself a dictionary keyed by interface name.
    Only the keys matter to the check, so each inner dictionary is kept
    as its key list. *)
Definition device_cfg : Type := Dict.t (list string).
Definition configs : Type := Dict.t device_cfg.

(** [set.add] *)
Definition set_add (x : string) (xs : list string) : list string :=
  if mem x xs then xs else xs ++ [x].

Record check_state : Type := mkCheck {
  missing_devices : list string;
  missing_interfaces : list string;
  printed : list string
}.

(** Body of [for ep in [ep1, ep2]]. *)
Definition check_endpoint (parsed_configs : configs) (ep : string)
    (st : check_state) : result check_state :=
  if negb (contains ":" ep) then
    Ok (mkCheck (missing_devices st) (missing_interfaces st)
          (printed st ++ ["Invalid endpoint format (missing ':'): " +++ ep]))
  else
    di <- unpack2 (split1 ":" ep) ;;
    let dev := strip (fst di) in
    let iface := lower (strip (snd di)) in
    match Dict.get dev parsed_configs with
    | None =>
        Ok (mkCheck (set_add dev (missing_devices st))
              (missing_interfaces st) (printed st))
    | Some cfg =>
        let interfaces :=
          match Dict.get "interfaces" cfg with Some d => d | None => [] end in
        let normalized_ifaces := map lower interfaces in
        if mem iface normalized_ifaces then Ok st
        else Ok (mkCheck (missing_devices st)
                   (missing_interfaces st ++ [dev +++ ":" +++ iface])
                   (printed st))
    end.

Fixpoint check_endpoints (parsed_configs : configs) (eps : list string)
    (st : check_state) : result check_state :=
  match eps with
  | [] => Ok st
  | ep :: rest =>
      st' <- check_endpoint parsed_configs ep st ;;
      check_endpoints parsed_configs rest st'
  end.

(** The endpoints in the order the two nested loops visit them. *)
Fixpoint endpoints_of (links : list (string * string)) : list string :=
  match links with
  | [] => []
  | (ep1, ep2) :: rest => ep1 :: ep2 :: endpoints_of rest
  end.

Definition report (st : check_state) : list string :=
  (match missing_devices st with
   | [] => ["No missing devices found."]
   | ds => "Missing devices in parsed configs:"
             :: map (fun d => " - " +++ d) (sorted ds)
   end)
  ++
  (match missing_interfaces st with
   | [] => ["No missing interfaces found."]
   | ifs => String "010" "Missing interfaces in parsed configs:"
              :: map (fun i => " - " +++ i) (sorted ifs)
   end).

(** [check_links_vs_configs(parsed_configs, links)]: the final state of
    the two accumulators and everything printed. *)
Definition check_links_vs_configs (parsed_configs : configs)
    (links : list (string * string)) : result check_state :=
  st <- check_endpoints parsed_configs (endpoints_of links)
          (mkCheck [] [] []) ;;
  Ok (mkCheck (missing_devices st) (missing_interfaces st)
        (printed st ++ report st)).

End CheckLinks.

(* ------------------------------------------------------------------ *)
(** * Python values held in attribute and metric dictionaries *)

Inductive value : Type :=
| VStr (s : string)
| VInt (z : Z)
| VBool (b : bool)
| VFloat (q : Q)
| VInf
| VList (xs : list string).

Definition attrs : Type := Dict.t value.

(* ------------------------------------------------------------------ *)
(** * The graph class ([networkx.Graph])

    [_node] maps a node to its attribute dictionary, [_adj] maps a node to
    the dictionary of its neighbours, each with the edge's attribute
    dictionary.  An undirected edge [u - v] is stored twice, under
    [_adj[u][v]] and under [_adj[v][u]]; the library stores one dictionary
    object at both places and updates it through [add_edge] only, so both
    entries always hold equal contents. *)

Module Graph.

Record t : Type := mk {
  _node : Dict.t attrs;
  _adj : Dict.t (Dict.t attrs)
}.

Definition empty : t := mk [] [].

(** [list(G.nodes())] *)
Definition nodes (G : t) : list string := Dict.keys (_node G).

(** [n in G.nodes()] *)
Definition has_node (G : t) (n : string) : bool := Dict.has n (_node G).

(** [G.number_of_nodes()], [len(G)] *)
Definition number_of_nodes (G : t) : nat := List.length (_node G).

(** [G._adj[u]] for a node of the graph. *)
Definition adj_of (G : t) (u : string) : Dict.t attrs :=
  match Dict.get u (_adj G) with Some d => d | None => [] end.

(** The neighbour list the traversals iterate over: [iter(G._adj[u])]. *)
Definition nbrs (G : t) (u : string) : list string := Dict.keys (adj_of G u).

(** [G.add_node(n, **attr)] *)
Definition add_node (G : t) (n : string) (attr : attrs) : t :=
  match Dict.get n (_node G) with
  | None => mk (Dict.set n (Dict.update [] attr) (_node G))
               (Dict.set n [] (_adj G))
  | Some old => mk (Dict.set n (Dict.update old attr) (_node G)) (_adj G)
  end.

(** The implicit node creation at the head of [add_edge]. *)
Definition ensure_node (G : t) (n : string) : t :=
  if Dict.has n (_node G) then G
  else mk (Dict.set n [] (_node G)) (Dict.set n [] (_adj G)).

(** [G.add_edge(u, v, **attr)]: missing endpoints are created, an
    existing edge has its attributes updated. *)
Definition add_edge (G : t) (u v : string) (attr : attrs) : t :=
  let G2 := ensure_node (ensure_node G u) v in
  let old := match Dict.get v (adj_of G2 u) with Some d => d | None => [] end in
  let datadict := Dict.update old attr in
  let adj1 := Dict.set u (Dict.set v datadict (adj_of G2 u)) (_adj G2) in
  let adj_v := match Dict.get v adj1 with Some d => d | None => [] end in
  mk (_node G2) (Dict.set v (Dict.set u datadict adj_v) adj1).

(** [G.has_edge(u, v)] *)
Definition has_edge (G : t) (u v : string) : bool :=
  match Dict.get u (_adj G) with
  | Some d => Dict.has v d
  | None => false
  end.

(** [G.neighbors(n)] *)
Definition neighbors (G : t) (n : string) : result (list string) :=
  match Dict.get n (_adj G) with
  | Some d => Ok (Dict.keys d)
  | None => Raise NetworkXError
  end.

(** The loop [for u in nbrs: del adj[u][n]] of [remove_node]. *)
Fixpoint del_links (n : string) (us : list string) (adj : Dict.t (Dict.t attrs))
  : result (Dict.t (Dict.t attrs)) :=
  match us with
  | [] => Ok adj
  | u :: rest =>
      match Dict.get u adj with
      | None => Raise KeyError
      | Some d =>
          if Dict.has n d then del_links n rest (Dict.set u (Dict.del n d) adj)
          else Raise KeyError
      end
  end.

(** [G.remove_node(n)] *)
Definition remove_node (G : t) (n : string) : result t :=
  match Dict.get n (_adj G), Dict.has n (_node G) with
  | Some d, true =>
      adj' <- del_links n (Dict.keys d) (_adj G) ;;
      Ok (mk (Dict.del n (_node G)) (Dict.del n adj'))
  | _, _ => Raise NetworkXError
  end.

(** [G.copy()]: a fresh graph, filled by [add_nodes_from] over the node
    dictionary and [add_edges_from] over both directions of the adjacency. *)
Definition copy (G : t) : t :=
  let G1 := fold_left (fun g nd => add_node g (fst nd) (snd nd)) (_node G) empty in
  fold_left
    (fun g unb =>
       fold_left (fun g' vd => add_edge g' (fst unb) (fst vd) (snd vd))
                 (snd unb) g)
    (_adj G) G1.

(** [G.degree(n)]: a self-loop counts twice. *)
Definition degree (G : t) (n : string) : nat :=
  List.length (adj_of G n) + (if Dict.has n (adj_of G n) then 1 else 0).

(** [dict(G.degree())] *)
Definition degrees (G : t) : Dict.t nat :=
  map (fun n => (n, degree G n)) (nodes G).

(** [G.number_of_edges()]: half the degree sum. *)
Definition number_of_edges (G : t) : nat :=
  Nat.div (list_sum (Dict.values (degrees G))) 2.

(** [G.edges(data=True)]: every edge once, reported from the endpoint
    that comes first in node order. *)
Fixpoint edges_from (adj : Dict.t (Dict.t attrs)) (seen : list string)
  : list (string * string * attrs) :=
  match adj with
  | [] => []
  | (n, nb) :: rest =>
      map (fun vd => (n, fst vd, snd vd))
          (filter (fun vd => negb (mem (fst vd) seen)) nb)
      ++ edges_from rest (n :: seen)
  end.

Definition edges (G : t) : list (string * string * attrs) :=
  edges_from (_adj G) [].

(** [G.get_edge_data(u, v)]: the attribute dictionary of the edge, if
    there is one. *)
Definition get_edge_data (G : t) (u v : string) : option attrs :=
  Dict.get v (adj_of G u).

(** [G.nodes[n]]: the attribute dictionary of a node, if it exists. *)
Definition node_data (G : t) (n : string) : option attrs :=
  Dict.get n (_node G).

(** Consistency of the two dictionaries, kept by every operation of the
    class: the same keys in the same order, no repeated key, neighbours
    that are nodes, and both directions of an edge holding the same
    attributes. *)
Record wf (G : t) : Prop := mkWf {
  wf_nodes : NoDup (nodes G);
  wf_keys : Dict.keys (_adj G) = nodes G;
  wf_nbrs : forall u, NoDup (nbrs G u);
  wf_closed : forall u v, In v (nbrs G u) -> In u (nodes G) /\ In v (nodes G);
  wf_sym : forall u v, get_edge_data G u v = get_edge_data G v u
}.

End Graph.

(* ------------------------------------------------------------------ *)
(** * Library routines on graphs ([networkx] functions) *)

Module Nx.

Definition getn (k : string) (d : Dict.t nat) : nat :=
  match Dict.get k d with Some n => n | None => 0 end.

Section Traversal.

(** The adjacency the traversals run over: [adj v] is [iter(G._adj[v])]. *)
Variable adj : string -> list string.

(** ** Breadth-first search by levels *)

(** [for w in adj[v]: if w not in seen: seen.add(w); nextlevel.append(w)].
    [seen] records the level at which each node was reached. *)
Definition scan_nbrs (level : nat) (ws : list string)
    (st : Dict.t nat * list string) : Dict.t nat * list string :=
  fold_left
    (fun st w =>
       if Dict.has w (fst st) then st
       else (fst st ++ [(w, level)], snd st ++ [w]))
    ws st.

(** [for v in thislevel: ...] *)
Definition bfs_level (level : nat) (thislevel : list string) (seen : Dict.t nat)
  : Dict.t nat * list string :=
  fold_left (fun st v => scan_nbrs level (adj v) st) thislevel (seen, []).

(** [while nextlevel: ...] *)
Fixpoint bfs_loop (fuel level : nat) (thislevel : list string) (seen : Dict.t nat)
  : option (Dict.t nat) :=
  match thislevel with
  | [] => Some seen
  | _ :: _ =>
      match fuel with
      | 0 => None
      | S f =>
          let st := bfs_level (S level) thislevel seen in
          bfs_loop f (S level) (snd st) (fst st)
      end
  end.

(** [dict(nx.single_source_shortest_path_length(G, source))] *)
Definition shortest_path_length (fuel : nat) (source : string)
  : option (Dict.t nat) :=
  bfs_loop fuel 0 [source] [(source, 0)].

(** [_plain_bfs(G, source)]: the nodes reached from [source]. *)
Definition plain_bfs (fuel : nat) (source : string) : option (list string) :=
  option_map Dict.keys (shortest_path_length fuel source).

(** ** Depth-first search with discovery and low-link tracking *)

Record dfs_state : Type := mkDfs {
  visited : list string;
  discovery : Dict.t nat;
  low : Dict.t nat;
  root_children : nat;
  yielded : list string
}.

Definition set_low (k : string) (n : nat) (st : dfs_state) : dfs_state :=
  mkDfs (visited st) (discovery st) (Dict.set k n (low st))
        (root_children st) (yielded st).

(** A child seen for the first time: [low[child] = discovery[child] =
    len(discovery)] and [visited.add(child)]. *)
Definition discover (child : string) (st : dfs_state) : dfs_state :=
  let d := List.length (discovery st) in
  mkDfs (visited st ++ [child])
        (Dict.set child d (discovery st))
        (Dict.set child d (low st))
        (root_children st) (yielded st).

(** A visited child: a back edge lowers [low[parent]]. *)
Definition back_edge (parent child : string) (st : dfs_state) : dfs_state :=
  if getn child (discovery st) <=? getn parent (discovery st)
  then set_low parent
         (Nat.min (getn parent (low st)) (getn child (discovery st))) st
  else st.

Definition yield (x : string) (st : dfs_state) : dfs_state :=
  mkDfs (visited st) (discovery st) (low st) (root_children st)
        (yielded st ++ [x]).

(** [low[parent] >= discovery[grandparent]], the yield of
    [grandparent], and [low[grandparent] = min(low[parent],
    low[grandparent])]: what follows the pop of a frame that leaves more
    than one frame on the stack. *)
Definition articulation_test (grandparent parent : string) (st : dfs_state)
  : dfs_state :=
  let st' :=
    if getn grandparent (discovery st) <=? getn parent (low st)
    then yield grandparent st else st in
  set_low grandparent
    (Nat.min (getn parent (low st')) (getn grandparent (low st'))) st'.

(** [root_children += 1] *)
Definition count_root_child (st : dfs_state) : dfs_state :=
  mkDfs (visited st) (discovery st) (low st) (S (root_children st))
        (yielded st).

(** An entry of the explicit stack, [(grandparent, parent, children)]:
    the iterator [children] is kept as the entries it has still to give.
    The top of the stack is the head of the list. *)
Definition entry : Type := string * string * list string.

(** The [except StopIteration] branch, after [stack.pop()] has left
    [stack]. *)
Definition pop_frame (stack : list entry) (grandparent parent : string)
    (st : dfs_state) : dfs_state :=
  if 1 <? List.length stack then articulation_test grandparent parent st
  else
    match stack with
    | _ :: _ => count_root_child st
    | [] => st
    end.

(** One turn of [while stack]. *)
Definition dfs_step (stack : list entry) (st : dfs_state)
  : list entry * dfs_state :=
  match stack with
  | [] => ([], st)
  | (grandparent, parent, children) :: below =>
      match children with
      | child :: rest =>
          let stack' := (grandparent, parent, rest) :: below in
          if String.eqb grandparent child then (stack', st)
          else if mem child (visited st) then
            (stack', back_edge parent child st)
          else
            ((parent, child, adj child) :: stack', discover child st)
      | [] => (below, pop_frame below grandparent parent st)
      end
  end.

(** [while stack: ...], with the number of turns bounded by [fuel]. *)
Fixpoint dfs_loop (fuel : nat) (stack : list entry) (st : dfs_state)
  : option dfs_state :=
  match stack with
  | [] => Some st
  | _ :: _ =>
      match fuel with
      | 0 => None
      | S f =>
          let r := dfs_step stack st in
          dfs_loop f (fst r) (snd r)
      end
  end.

(** One round of [for start in G] in [_biconnected_dfs]: the visited set
    and the nodes yielded so far go in and come out. *)
Definition dfs_from (fuel : nat) (start : string)
    (acc : list string * list string) : option (list string * list string) :=
  if mem start (fst acc) then Some acc
  else
    let st0 := mkDfs (fst acc ++ [start]) [(start, 0)] [(start, 0)] 0 (snd acc) in
    match dfs_loop fuel [(start, start, adj start)] st0 with
    | None => None
    | Some st1 =>
        Some (visited st1,
              if 1 <? root_children st1 then yielded st1 ++ [start]
              else yielded st1)
    end.

Fixpoint dfs_all (fuel : nat) (starts : list string)
    (acc : list string * list string) : option (list string * list string) :=
  match starts with
  | [] => Some acc
  | s :: rest =>
      match dfs_from fuel s acc with
      | None => None
      | Some acc' => dfs_all fuel rest acc'
      end
  end.

End Traversal.

(** Removal of repeated yields, first occurrence kept. *)
Definition dedup (xs : list string) : list string :=
  fold_left (fun seen x => if mem x seen then seen else seen ++ [x]) xs [].

Definition lift {A : Type} (o : option A) : result A :=
  match o with Some a => Ok a | None => Raise OutOfFuel end.

(** A bound on the number of levels of a breadth-first search. *)
Definition bfs_fuel (G : Graph.t) : nat := S (Graph.number_of_nodes G).

(** A bound on the number of turns of the search loop: every adjacency
    entry is taken once and every frame is popped once. *)
Definition dfs_fuel (G : Graph.t) : nat :=
  S (list_sum (map (fun v => S (List.length (Graph.nbrs G v))) (Graph.nodes G))).

(** [nx.is_connected(G)] *)
Definition is_connected (G : Graph.t) : result bool :=
  match Graph.nodes G with
  | [] => Raise NetworkXPointlessConcept
  | s :: _ =>
      seen <- lift (plain_bfs (Graph.nbrs G) (bfs_fuel G) s) ;;
      Ok (List.length seen =? Graph.number_of_nodes G)
  end.

(** [list(nx.connected_components(G))] *)
Fixpoint components_loop (G : Graph.t) (vs : list string) (seen : list string)
  : result (list (list string)) :=
  match vs with
  | [] => Ok []
  | v :: rest =>
      if mem v seen then components_loop G rest seen
      else
        c <- lift (plain_bfs (Graph.nbrs G) (bfs_fuel G) v) ;;
        cs <- components_loop G rest (seen ++ c) ;;
        Ok (c :: cs)
  end.

Definition connected_components (G : Graph.t) : result (list (list string)) :=
  components_loop G (Graph.nodes G) [].

(** [max(xs)] over a non-empty list of naturals. *)
Definition max_nat (xs : list nat) : result nat :=
  match xs with
  | [] => Raise ValueError
  | x :: rest => Ok (fold_left Nat.max rest x)
  end.

(** [nx.eccentricity(G)] restricted to one node. *)
Definition eccentricity (G : Graph.t) (v : string) : result nat :=
  len <- lift (shortest_path_length (Graph.nbrs G) (bfs_fuel G) v) ;;
  if List.length len =? Graph.number_of_nodes G then max_nat (Dict.values len)
  else Raise NetworkXError.

Fixpoint eccentricities (G : Graph.t) (vs : list string) : result (list nat) :=
  match vs with
  | [] => Ok []
  | v :: rest =>
      e <- eccentricity G v ;;
      es <- eccentricities G rest ;;
      Ok (e :: es)
  end.

(** [nx.diameter(G)] *)
Definition diameter (G : Graph.t) : result nat :=
  es <- eccentricities G (Graph.nodes G) ;;
  max_nat es.

(** [nx.articulation_points(G)] *)
Definition articulation_points (G : Graph.t) : result (list string) :=
  r <- lift (dfs_all (Graph.nbrs G) (dfs_fuel G) (Graph.nodes G) ([], [])) ;;
  Ok (dedup (snd r)).

(** A Python float holding the quotient of two naturals. *)
Definition ratio (a b : nat) : Q :=
  Qred (Qmake (Z.of_nat a) (Pos.of_nat b)).

(** [nx.density(G)] *)
Definition density (G : Graph.t) : value :=
  let n := Graph.number_of_nodes G in
  let m := Graph.number_of_edges G in
  if (m =? 0) || (n <=? 1) then VInt 0
  else VFloat (ratio (2 * m) (n * (n - 1))).

(** The neighbours of [v] other than [v] itself, as a set. *)
Definition nbr_set (G : Graph.t) (v : string) : list string :=
  filter (fun w => negb (String.eqb w v)) (Graph.nbrs G v).

(** [nx.clustering(G)[v]]: [t] counts every triangle at [v] twice. *)
Definition clustering (G : Graph.t) (v : string) : Q :=
  let vs := nbr_set G v in
  let d := List.length vs in
  let t := list_sum
             (map (fun w => List.length
                              (filter (fun x => mem x (nbr_set G w)) vs)) vs) in
  if t =? 0 then Qmake 0 1 else ratio t (d * (d - 1)).

(** [nx.average_clustering(G)] *)
Definition average_clustering (G : Graph.t) : result Q :=
  match Graph.nodes G with
  | [] => Raise ZeroDivisionError
  | vs =>
      Ok (Qred (Qdiv (fold_left Qplus (map (clustering G) vs) (Qmake 0 1))
                     (inject_Z (Z.of_nat (List.length vs)))))
  end.

Fixpoint path_length_sum (G : Graph.t) (vs : list string) : result nat :=
  match vs with
  | [] => Ok 0
  | v :: rest =>
      len <- lift (shortest_path_length (Graph.nbrs G) (bfs_fuel G) v) ;;
      s <- path_length_sum G rest ;;
      Ok (list_sum (Dict.values len) + s)
  end.

(** [nx.average_shortest_path_length(G)] *)
Definition average_shortest_path_length (G : Graph.t) : result Q :=
  let n := Graph.number_of_nodes G in
  if n =? 0 then Raise NetworkXPointlessConcept
  else if n =? 1 then Ok (Qmake 0 1)
  else
    c <- is_connected G ;;
    if negb c then Raise NetworkXError
    else
      s <- path_length_sum G (Graph.nodes G) ;;
      Ok (ratio s (n * (n - 1))).

(** [nx.union(G, H)]: the node sets must be disjoint. *)
Definition union (G H : Graph.t) : result Graph.t :=
  if existsb (fun n => mem n (Graph.nodes H)) (Graph.nodes G)
  then Raise NetworkXError
  else
    let add_all (R X : Graph.t) : Graph.t :=
      fold_left (fun r e => Graph.add_edge r (fst (fst e)) (snd (fst e)) (snd e))
        (Graph.edges X)
        (fold_left (fun r nd => Graph.add_node r (fst nd) (snd nd))
           (Graph._node X) R) in
    Ok (add_all (add_all Graph.empty G) H).

End Nx.

(* ------------------------------------------------------------------ *)
(** * modules/topology_builder.py *)

Module Builder.

(** Keyword arguments of the [add_edge] calls. *)
Definition link (bandwidth mtu : Z) (link_type : string) : attrs :=
  [("bandwidth", VInt bandwidth); ("mtu", VInt mtu); ("up", VBool true);
   ("link_type", VStr link_type)].

(** [range(n)] for a Python integer [n]. *)
Definition range (n : Z) : list nat := seq 0 (Z.to_nat n).

Definition create_star_topology (nodes : list string) : Graph.t :=
  if List.length nodes <? 2 then Graph.empty
  else
    match nodes with
    | [] => Graph.empty
    | center :: others =>
        let G := Graph.add_node Graph.empty center
                   [("role", VStr "hub"); ("device_type", VStr "switch")] in
        fold_left
          (fun g node =>
             Graph.add_edge
               (Graph.add_node g node
                  [("role", VStr "endpoint"); ("device_type", VStr "host")])
               center node (link 1000 1500 "ethernet"))
          others G
    end.

Definition create_ring_topology (nodes : list string) : Graph.t :=
  if List.length nodes <? 3 then Graph.empty
  else
    let G := fold_left
               (fun g node => Graph.add_node g node [("device_type", VStr "router")])
               nodes Graph.empty in
    fold_left
      (fun g i =>
         let next_node := (i + 1) mod List.length nodes in
         Graph.add_edge g (nth i nodes "") (nth next_node nodes "")
           (link 1000 1500 "serial"))
      (seq 0 (List.length nodes)) G.

(** The [for node2 in nodes[i+1:]] loop of the full mesh. *)
Fixpoint mesh_edges (nodes : list string) (G : Graph.t) : Graph.t :=
  match nodes with
  | [] => G
  | node1 :: rest =>
      mesh_edges rest
        (fold_left
           (fun g node2 => Graph.add_edge g node1 node2 (link 1000 1500 "ethernet"))
           rest G)
  end.

(** [create_mesh_topology(nodes, partial=False)] *)
Definition create_mesh_topology (nodes : list string) : Graph.t :=
  mesh_edges nodes
    (fold_left
       (fun g node => Graph.add_node g node [("device_type", VStr "router")])
       nodes Graph.empty).

(** State of the tree construction loop. *)
Record tree_state : Type := mkTree {
  tree_graph : Graph.t;
  remaining_nodes : list string;
  current_level_nodes : list string;
  level : nat
}.

(** [for _ in range(children_count)] for one parent; the triple is the
    graph, the id pool and [next_level_nodes]. *)
Fixpoint attach_children (count : nat) (parent : string) (lvl : nat)
    (st : Graph.t * list string * list string)
  : Graph.t * list string * list string :=
  match count with
  | 0 => st
  | S count' =>
      match st with
      | (G, [], next) => st
      | (G, child :: pool, next) =>
          let G1 := Graph.add_node G child
                      [("role", VStr "branch"); ("device_type", VStr "switch");
                       ("level", VInt (Z.of_nat lvl))] in
          let G2 := Graph.add_edge G1 parent child (link 1000 1500 "ethernet") in
          attach_children count' parent lvl (G2, pool, next ++ [child])
      end
  end.

(** [for parent in current_level_nodes] *)
Definition tree_level (branching_factor : Z) (lvl : nat) (parents : list string)
    (G : Graph.t) (pool : list string) : Graph.t * list string * list string :=
  fold_left
    (fun st parent =>
       let children_count :=
         Z.min branching_factor (Z.of_nat (List.length (snd (fst st)))) in
       attach_children (Z.to_nat children_count) parent lvl st)
    parents (G, pool, []).

(** The condition of [while remaining_nodes and current_level_nodes]. *)
Definition tree_continue (st : tree_state) : bool :=
  match remaining_nodes st, current_level_nodes st with
  | _ :: _, _ :: _ => true
  | _, _ => false
  end.

(** One execution of the loop body. *)
Definition tree_step (branching_factor : Z) (st : tree_state) : tree_state :=
  let r := tree_level branching_factor (level st) (current_level_nodes st)
             (tree_graph st) (remaining_nodes st) in
  mkTree (fst (fst r)) (snd (fst r)) (snd r) (S (level st)).

Fixpoint tree_loop (fuel : nat) (branching_factor : Z) (st : tree_state)
  : option tree_state :=
  if tree_continue st then
    match fuel with
    | 0 => None
    | S f => tree_loop f branching_factor (tree_step branching_factor st)
    end
  else Some st.

(** The state on entry to the loop. *)
Definition tree_init (root : string) (others : list string) : tree_state :=
  mkTree
    (Graph.add_node Graph.empty root
       [("role", VStr "root"); ("device_type", VStr "switch"); ("level", VInt 0)])
    others [root] 1.

(** [create_tree_topology(nodes, branching_factor)], with the number of
    loop iterations bounded by [fuel]. *)
Definition create_tree_topology (fuel : nat) (nodes : list string)
    (branching_factor : Z) : option Graph.t :=
  match nodes with
  | [] => Some Graph.empty
  | root :: others =>
      option_map tree_graph (tree_loop fuel branching_factor (tree_init root others))
  end.

Definition spine_name (i : nat) : string := "spine" +++ PyStr.of_nat (i + 1).
Definition leaf_name (i : nat) : string := "leaf" +++ PyStr.of_nat (i + 1).
Definition host_name (leaf : string) (i : nat) : string :=
  leaf +++ "-host" +++ PyStr.of_nat (i + 1).

Definition create_spine_leaf_topology (spine_count leaf_count : Z) : Graph.t :=
  let spine_nodes := map spine_name (range spine_count) in
  let G1 := fold_left
              (fun g spine =>
                 Graph.add_node g spine
                   [("role", VStr "spine"); ("device_type", VStr "switch");
                    ("tier", VStr "spine")])
              spine_nodes Graph.empty in
  let leaf_nodes := map leaf_name (range leaf_count) in
  let G2 := fold_left
              (fun g leaf =>
                 Graph.add_node g leaf
                   [("role", VStr "leaf"); ("device_type", VStr "switch");
                    ("tier", VStr "leaf")])
              leaf_nodes G1 in
  let G3 := fold_left
              (fun g spine =>
                 fold_left
                   (fun g' leaf => Graph.add_edge g' spine leaf (link 10000 9000 "ethernet"))
                   leaf_nodes g)
              spine_nodes G2 in
  let host_count := 2%Z in
  fold_left
    (fun g leaf =>
       fold_left
         (fun g' i =>
            let host := host_name leaf i in
            Graph.add_edge
              (Graph.add_node g' host
                 [("role", VStr "host"); ("device_type", VStr "server");
                  ("tier", VStr "access")])
              leaf host (link 1000 1500 "ethernet"))
         (range host_count) g)
    leaf_nodes G3.

Definition create_bus_topology (nodes : list string) : Graph.t :=
  if List.length nodes <? 2 then Graph.empty
  else
    let G := fold_left
               (fun g node => Graph.add_node g node [("device_type", VStr "workstation")])
               nodes Graph.empty in
    fold_left
      (fun g i =>
         Graph.add_edge g (nth i nodes "") (nth (i + 1) nodes "")
           (link 100 1500 "coax"))
      (seq 0 (List.length nodes - 1)) G.

(** The section of a hybrid topology built for one named group. *)
Definition hybrid_section (group_type : string) (nodes : list string) : Graph.t :=
  if String.eqb group_type "core" then create_mesh_topology nodes
  else if String.eqb group_type "distribution" then create_ring_topology nodes
  else if String.eqb group_type "access" then create_star_topology nodes
  else create_bus_topology nodes.

Fixpoint hybrid_sections (groups : Dict.t (list string)) (G : Graph.t)
  : result Graph.t :=
  match groups with
  | [] => Ok G
  | (group_type, nodes) :: rest =>
      G' <- Nx.union G (hybrid_section group_type nodes) ;;
      hybrid_sections rest G'
  end.

Definition create_hybrid_topology (node_groups : Dict.t (list string))
  : result Graph.t :=
  G <- hybrid_sections node_groups Graph.empty ;;
  let G1 :=
    match Dict.get "core" node_groups, Dict.get "distribution" node_groups with
    | Some core_nodes, Some dist_nodes =>
        fold_left
          (fun g core =>
             fold_left
               (fun g' dist => Graph.add_edge g' core dist (link 10000 1500 "fiber"))
               (firstn 2 dist_nodes) g)
          (firstn 2 core_nodes) G
    | _, _ => G
    end in
  let G2 :=
    match Dict.get "distribution" node_groups, Dict.get "access" node_groups with
    | Some dist_nodes, Some access =>
        let access_switches := firstn 1 access in
        fold_left
          (fun g dist =>
             fold_left
               (fun g' access_sw =>
                  Graph.add_edge g' dist access_sw (link 1000 1500 "ethernet"))
               access_switches g)
          dist_nodes G1
    | _, _ => G1
    end in
  Ok G2.

(** [min(xs)] over a non-empty list of naturals. *)
Definition min_nat (xs : list nat) : result nat :=
  match xs with
  | [] => Raise ValueError
  | x :: rest => Ok (fold_left Nat.min rest x)
  end.

(** The value bound to ['diameter'] in the metrics literal. *)
Definition diameter_entry (G : Graph.t) : result value :=
  c <- Nx.is_connected G ;;
  if c then (d <- Nx.diameter G ;; Ok (VInt (Z.of_nat d))) else Ok VInf.

(** [add_topology_metrics(G)]: the entries of the dictionary literal are
    evaluated in the order written. *)
Definition add_topology_metrics (G : Graph.t) : result (Dict.t value) :=
  let node_count := VInt (Z.of_nat (Graph.number_of_nodes G)) in
  let edge_count := VInt (Z.of_nat (Graph.number_of_edges G)) in
  let density := Nx.density G in
  diameter <- diameter_entry G ;;
  average_clustering <- Nx.average_clustering G ;;
  is_connected <- Nx.is_connected G ;;
  let metrics :=
    [("node_count", node_count); ("edge_count", edge_count);
     ("density", density); ("diameter", diameter);
     ("average_clustering", VFloat average_clustering);
     ("is_connected", VBool is_connected)] in
  let degrees := Graph.degrees G in
  match degrees with
  | [] => Ok metrics
  | _ :: _ =>
      let ds := Dict.values degrees in
      mx <- Nx.max_nat ds ;;
      mn <- min_nat ds ;;
      Ok (Dict.set "min_degree" (VInt (Z.of_nat mn))
            (Dict.set "max_degree" (VInt (Z.of_nat mx))
               (Dict.set "avg_degree"
                  (VFloat (Nx.ratio (list_sum ds) (List.length degrees)))
                  metrics)))
  end.

End Builder.

(* ------------------------------------------------------------------ *)
(** * main.py *)

Module Main.

(** A diameter as the program holds it: an integer or [float('inf')]. *)
Inductive ext : Type :=
| Fin (n : nat)
| Inf.

(** [a > b] *)
Definition ext_gt (a b : ext) : bool :=
  match a, b with
  | Fin x, Fin y => y <? x
  | Fin _, Inf => false
  | Inf, Fin _ => true
  | Inf, Inf => false
  end.

(** What [print_msg] is called with, one constructor per call site; the
    arguments are the values formatted into the message. *)
Inductive msg : Type :=
| MsgAnalysisHeader
| MsgNodes (v : value)
| MsgEdges (v : value)
| MsgDensity (v : value)
| MsgConnected (v : value)
| MsgDiameter (v : value)
| MsgAveragePathLength (q : Q)
| MsgAverageClustering (v : value)
| MsgAverageDegree (v : value)
| MsgMostConnected (n : string) (d : nat)
| MsgCriticalNodes (aps : list string)
| MsgNoCriticalNodes
| MsgNodeNotFound (n : string)
| MsgSimulating (n : string)
| MsgRemoved (n : string) (connections : nat)
| MsgAffected (neighbors : list string)
| MsgCriticalFailure
| MsgSplitInto (k : nat)
| MsgComponent (i : nat) (members : list string) (size : nat)
| MsgRemainsConnected
| MsgDiameterIncreased (original new : ext)
| MsgInvalidFormat
| MsgUnknownNodes (available : list string)
| MsgAlreadyExists (node1 node2 : string)
| MsgAdded (node1 node2 : string)
| MsgErrorAdding (e : exn).

(** A run of a printing function: what it printed, and how it ended. *)
Definition run (A : Type) : Type := list msg * result A.

Definition ret {A : Type} (a : A) : run A := ([], Ok a).
Definition say (m : msg) : run unit := ([m], Ok tt).
Definition attempt {A : Type} (r : result A) : run A := ([], r).

Definition rbind {A B : Type} (m : run A) (k : A -> run B) : run B :=
  match snd m with
  | Ok a => (fst m ++ fst (k a), snd (k a))
  | Raise e => (fst m, Raise e)
  end.

Notation "x <~ m ;; k" := (rbind m (fun x => k))
  (at level 61, m at next level, right associativity).
Notation "m ;;; k" := (rbind m (fun _ => k))
  (at level 61, right associativity).

(** [metrics[k]] *)
Definition item (k : string) (d : Dict.t value) : result value :=
  match Dict.get k d with Some v => Ok v | None => Raise KeyError end.

(** [max(degrees, key=degrees.get)]: the first key of greatest value. *)
Fixpoint argmax (d : Dict.t nat) : option (string * nat) :=
  match d with
  | [] => None
  | (k, v) :: rest =>
      match argmax rest with
      | Some (k', v') => if v <? v' then Some (k', v') else Some (k, v)
      | None => Some (k, v)
      end
  end.

(** The articulation-point report at the end of [analyze_topology]. *)
Definition critical_nodes_report (G : Graph.t) : run unit :=
  c <~ attempt (Nx.is_connected G) ;;
  if c then
    articulation_points <~ attempt (Nx.articulation_points G) ;;
    match articulation_points with
    | [] => say MsgNoCriticalNodes
    | _ :: _ => say (MsgCriticalNodes articulation_points)
    end
  else ret tt.

Definition analyze_topology (G : Graph.t) : run unit :=
  say MsgAnalysisHeader ;;;
  metrics <~ attempt (Builder.add_topology_metrics G) ;;
  v <~ attempt (item "node_count" metrics) ;; say (MsgNodes v) ;;;
  v <~ attempt (item "edge_count" metrics) ;; say (MsgEdges v) ;;;
  v <~ attempt (item "density" metrics) ;; say (MsgDensity v) ;;;
  ic <~ attempt (item "is_connected" metrics) ;; say (MsgConnected ic) ;;;
  (match ic with
   | VBool true =>
       v <~ attempt (item "diameter" metrics) ;; say (MsgDiameter v) ;;;
       q <~ attempt (Nx.average_shortest_path_length G) ;;
       say (MsgAveragePathLength q)
   | _ => ret tt
   end) ;;;
  v <~ attempt (item "average_clustering" metrics) ;; say (MsgAverageClustering v) ;;;
  say (MsgAverageDegree
         (match Dict.get "avg_degree" metrics with
          | Some v => v
          | None => VInt 0
          end)) ;;;
  (match argmax (Graph.degrees G) with
   | Some (n, d) => say (MsgMostConnected n d)
   | None => ret tt
   end) ;;;
  critical_nodes_report G.

(** ** Failure simulation

    Graph objects live in a store; a reference is an index into it.
    [G.copy()] allocates, [remove_node] writes through the reference it
    is called on. *)

Definition heap : Type := list Graph.t.
Definition ref : Type := nat.

Definition deref (h : heap) (r : ref) : Graph.t := nth r h Graph.empty.

Definition store (h : heap) (r : ref) (g : Graph.t) : heap :=
  firstn r h ++ g :: skipn (S r) h.

(** Allocation of a new object: the grown store and the new reference. *)
Definition alloc (h : heap) (g : Graph.t) : heap * ref :=
  (h ++ [g], List.length h).

Fixpoint component_msgs (i : nat) (components : list (list string)) : list msg :=
  match components with
  | [] => []
  | comp :: rest => MsgComponent i comp (List.length comp) :: component_msgs (S i) rest
  end.

(** The impact analysis of [simulate_failure]; it only reads the two
    graphs. *)
Definition analyze_impact (G G_failed : Graph.t) : run unit :=
  cG <~ attempt (Nx.is_connected G) ;;
  critical <~ (if cG then (c <~ attempt (Nx.is_connected G_failed) ;; ret (negb c))
               else ret false) ;;
  if critical then
    say MsgCriticalFailure ;;;
    components <~ attempt (Nx.connected_components G_failed) ;;
    say (MsgSplitInto (List.length components)) ;;;
    (component_msgs 1 components, Ok tt)
  else
    say MsgRemainsConnected ;;;
    cF <~ attempt (Nx.is_connected G_failed) ;;
    if cF then
      new_diameter <~ attempt (Nx.diameter G_failed) ;;
      cG' <~ attempt (Nx.is_connected G) ;;
      original_diameter <~ (if cG' then (d <~ attempt (Nx.diameter G) ;; ret (Fin d))
                            else ret Inf) ;;
      if ext_gt (Fin new_diameter) original_diameter
      then say (MsgDiameterIncreased original_diameter (Fin new_diameter))
      else ret tt
    else ret tt.

(** [simulate_failure(G, node_to_fail)]: the store afterwards, and the
    run.  [G] is the caller's reference. *)
Definition simulate_failure (h : heap) (G : ref) (node_to_fail : string)
  : heap * run unit :=
  if negb (Graph.has_node (deref h G) node_to_fail) then
    (h, say (MsgNodeNotFound node_to_fail))
  else
    let (h1, G_failed) := alloc h (Graph.copy (deref h G)) in
    match Graph.neighbors (deref h1 G_failed) node_to_fail with
    | Raise e => (h1, say (MsgSimulating node_to_fail) ;;; attempt (Raise e))
    | Ok neighbors =>
        match Graph.remove_node (deref h1 G_failed) node_to_fail with
        | Raise e => (h1, say (MsgSimulating node_to_fail) ;;; attempt (Raise e))
        | Ok g =>
            let h2 := store h1 G_failed g in
            (h2,
             say (MsgSimulating node_to_fail) ;;;
             say (MsgRemoved node_to_fail (List.length neighbors)) ;;;
             say (MsgAffected neighbors) ;;;
             analyze_impact (deref h2 G) (deref h2 G_failed))
        end
    end.

(** ** Custom topology: one round of the connection loop *)

(** [c.isdigit()] and [s.isdigit()] *)
Definition isdigit_char (c : ascii) : bool :=
  let n := nat_of_ascii c in
  ((48 <=? n) && (n <=? 57)) || (n =? 178) || (n =? 179) || (n =? 185).

Fixpoint all_chars (p : ascii -> bool) (s : string) : bool :=
  match s with
  | EmptyString => true
  | String c s' => p c && all_chars p s'
  end.

Definition isdigit (s : string) : bool :=
  negb (String.eqb s "") && all_chars isdigit_char s.

(** The decimal value of a digit string, read from the left: the
    superscript digits are digits to [isdigit] but not to [int]. *)
Fixpoint decimal_digits (acc : Z) (s : string) : result Z :=
  match s with
  | EmptyString => Ok acc
  | String c s' =>
      let n := nat_of_ascii c in
      if (48 <=? n) && (n <=? 57)
      then decimal_digits (10 * acc + Z.of_nat (n - 48))%Z s'
      else Raise ValueError
  end.

(** The longest digit string [int] converts
    ([sys.int_info.default_max_str_digits]). *)
Definition int_max_str_digits : Z := 4300.

(** [int(s)] for a string that passed [isdigit]: a string of more digits
    than the limit is refused, as is one with a superscript digit. *)
Definition int_digits (acc : Z) (s : string) : result Z :=
  if (int_max_str_digits <? Z.of_nat (String.length s))%Z then Raise ValueError
  else decimal_digits acc s.

Inductive loop_signal : Type :=
| Break
| Continue.

(** One round of [while True] in [create_custom_topology]: [connection]
    is what the user typed at the prompt, [bandwidth] what was typed when
    the bandwidth was asked for.  Returns the graph afterwards. *)
Definition connection_round (nodes : list string) (G : Graph.t)
    (connection bandwidth : string) : Graph.t * run loop_signal :=
  let connection := PyStr.strip connection in
  if String.eqb (PyStr.lower connection) "done" then (G, ret Break)
  else if negb (PyStr.contains "-" connection) then
    (G, say MsgInvalidFormat ;;; ret Continue)
  else
    match PyStr.unpack2 (PyStr.split1 "-" connection) with
    | Raise e => (G, say (MsgErrorAdding e) ;;; ret Continue)
    | Ok (n1, n2) =>
        let node1 := PyStr.strip n1 in
        let node2 := PyStr.strip n2 in
        if negb (mem node1 nodes) || negb (mem node2 nodes) then
          (G, say (MsgUnknownNodes nodes) ;;; ret Continue)
        else if Graph.has_edge G node1 node2 then
          (G, say (MsgAlreadyExists node1 node2) ;;; ret Continue)
        else
          let bandwidth := PyStr.strip bandwidth in
          match (if isdigit bandwidth then int_digits 0 bandwidth
                 else Ok 1000%Z) with
          | Raise e => (G, say (MsgErrorAdding e) ;;; ret Continue)
          | Ok bw =>
              (Graph.add_edge G node1 node2
                 [("bandwidth", VInt bw); ("mtu", VInt 1500); ("up", VBool true);
                  ("link_type", VStr "ethernet")],
               say (MsgAdded node1 node2) ;;; ret Continue)
          end
    end.

End Main.

(* ------------------------------------------------------------------ *)
(** * topology_builder.py: partial meshes, dispatch by type and
      predefined sizes *)

Module Dispatch.

(** [class TopologyType(Enum)] *)
Inductive TopologyType : Type :=
| STAR
| RING
| MESH
| TREE
| BUS
| HYBRID
| SPINE_LEAF.

(** ** Partial mesh

    The two sources of randomness are resolved by the caller:
    [sample i population k] is what the [i]-th call of [random.sample]
    returns, [choice c options] what the [c]-th call of [random.choice]
    returns. *)

Section Random.

Variable sample : nat -> list string -> nat -> list string.
Variable choice : nat -> list Z -> Z.

(** [random.sample(population, k)] raises when asked for more than the
    population holds. *)
Definition random_sample (i : nat) (population : list string) (k : nat)
  : result (list string) :=
  if List.length population <? k then Raise ValueError
  else Ok (sample i population k).

(** [for target in targets: if not G.has_edge(node, target): ...]; the
    counter is the number of calls of [random.choice] made so far. *)
Definition connect_targets (node : string) (targets : list string)
    (st : Graph.t * nat) : Graph.t * nat :=
  fold_left
    (fun st target =>
       if Graph.has_edge (fst st) node target then st
       else
         (Graph.add_edge (fst st) node target
            (Builder.link (choice (snd st) [100; 1000; 10000]%Z) 1500 "ethernet"),
          S (snd st)))
    targets st.

(** [for node in nodes: targets = random.sample(...); ...], from the
    [i]-th node on. *)
Fixpoint partial_loop (i : nat) (nodes todo : list string) (st : Graph.t * nat)
  : result (Graph.t * nat) :=
  match todo with
  | [] => Ok st
  | node :: rest =>
      targets <- random_sample i
                   (filter (fun n => negb (String.eqb n node)) nodes)
                   (Nat.min 3 (List.length nodes - 1)) ;;
      partial_loop (S i) nodes rest (connect_targets node targets st)
  end.

(** [create_mesh_topology(nodes, partial)] *)
Definition create_mesh_topology (nodes : list string) (partial : bool)
  : result Graph.t :=
  if partial then
    let G := fold_left
               (fun g node => Graph.add_node g node [("device_type", VStr "router")])
               nodes Graph.empty in
    st <- partial_loop 0 nodes nodes (G, 0) ;;
    Ok (fst st)
  else Ok (Builder.create_mesh_topology nodes).

(** ** Dispatch by type *)

(** The keyword arguments [build_topology_by_type] looks up; [None] is
    an argument that was not passed. *)
Record kwargs : Type := mkKwargs {
  node_count : option Z;
  spine_count : option Z;
  leaf_count : option Z;
  partial : option bool;
  branching_factor : option Z;
  node_groups : option (Dict.t (list string))
}.

Definition no_kwargs : kwargs := mkKwargs None None None None None None.

(** [kwargs.get(key, default)] *)
Definition kwarg {A : Type} (o : option A) (default : A) : A :=
  match o with Some a => a | None => default end.

(** [f"node{i+1}"] *)
Definition node_name (i : nat) : string := "node" +++ PyStr.of_nat (i + 1).

Definition default_node_groups : Dict.t (list string) :=
  [("core", ["core1"; "core2"]);
   ("distribution", ["dist1"; "dist2"; "dist3"]);
   ("access", ["access1"; "host1"; "host2"; "host3"])].

(** The chain of comparisons on [topology_type], for a node list. *)
Definition build_from_nodes (topology_type : TopologyType) (nodes : list string)
    (kw : kwargs) : result Graph.t :=
  match topology_type with
  | STAR => Ok (Builder.create_star_topology nodes)
  | RING => Ok (Builder.create_ring_topology nodes)
  | MESH => create_mesh_topology nodes (kwarg (partial kw) false)
  | TREE =>
      Nx.lift (Builder.create_tree_topology (List.length nodes) nodes
                 (kwarg (branching_factor kw) 2%Z))
  | BUS => Ok (Builder.create_bus_topology nodes)
  | HYBRID =>
      Builder.create_hybrid_topology (kwarg (node_groups kw) default_node_groups)
  | SPINE_LEAF => Ok Graph.empty
  end.

(** [build_topology_by_type(topology_type, nodes, **kwargs)] *)
Definition build_topology_by_type (topology_type : TopologyType)
    (nodes : option (list string)) (kw : kwargs) : result Graph.t :=
  match nodes with
  | Some nodes => build_from_nodes topology_type nodes kw
  | None =>
      match topology_type with
      | SPINE_LEAF =>
          Ok (Builder.create_spine_leaf_topology
                (kwarg (spine_count kw) 2%Z) (kwarg (leaf_count kw) 4%Z))
      | _ =>
          build_from_nodes topology_type
            (map node_name (Builder.range (kwarg (node_count kw) 5%Z))) kw
      end
  end.

(** ** Predefined sizes *)

(** An entry of [size_configs]: node, spine and leaf counts. *)
Definition size_configs : Dict.t (Z * Z * Z) :=
  [("small", (4, 2, 2)); ("medium", (6, 2, 4)); ("large", (10, 3, 6))]%Z.

(** [topology_map], for the configuration chosen. *)
Definition topology_map (config : Z * Z * Z) : Dict.t (TopologyType * kwargs) :=
  let nc := fst (fst config) in
  let sc := snd (fst config) in
  let lc := snd config in
  [("star", (STAR, mkKwargs (Some nc) None None None None None));
   ("ring", (RING, mkKwargs (Some nc) None None None None None));
   ("mesh", (MESH, mkKwargs (Some nc) None None (Some true) None None));
   ("tree", (TREE, mkKwargs (Some nc) None None None (Some 2%Z) None));
   ("spine_leaf", (SPINE_LEAF, mkKwargs None (Some sc) (Some lc) None None None));
   ("bus", (BUS, mkKwargs (Some nc) None None None None None));
   ("hybrid", (HYBRID, no_kwargs))].

(** [quick_topology(topology_name, size)] *)
Definition quick_topology (topology_name size : string) : result Graph.t :=
  let config :=
    match Dict.get size size_configs with
    | Some c => c
    | None => (6, 2, 4)%Z
    end in
  match Dict.get topology_name (topology_map config) with
  | None => Ok Graph.empty
  | Some (topo_type, kw) => build_topology_by_type topo_type None kw
  end.

End Random.

End Dispatch.

(* ------------------------------------------------------------------ *)
(** * main.py: the comparison table *)

Module Compare.

(** What [compare_topologies] prints, one constructor per call site of
    [print_msg]; a row holds the values formatted into it. *)
Inductive line : Type :=
| LineTitle
| LineColumns
| LineRule
| LineRow (topo_name : string) (node_count edge_count density : value)
    (connected : bool) (avg_degree : value).

(** The truth value of a Python value. *)
Definition truthy (v : value) : bool :=
  match v with
  | VStr s => negb (String.eqb s "")
  | VInt z => negb (Z.eqb z 0)
  | VBool b => b
  | VFloat q => negb (Qeq_bool q 0)
  | VInf => true
  | VList xs => match xs with [] => false | _ :: _ => true end
  end.

Section Random.

Variable sample : nat -> list string -> nat -> list string.
Variable choice : nat -> list Z -> Z.

(** [for topo_name in topologies: ... results.append(...)] *)
Fixpoint collect (topologies : list string)
  : result (list (string * Dict.t value)) :=
  match topologies with
  | [] => Ok []
  | topo_name :: rest =>
      G <- Dispatch.quick_topology sample choice topo_name "small" ;;
      metrics <- Builder.add_topology_metrics G ;;
      results <- collect rest ;;
      Ok ((topo_name, metrics) :: results)
  end.

(** [for topo_name, metrics in results: ...]: the rows printed, and how
    the loop ended. *)
Fixpoint print_rows (results : list (string * Dict.t value))
  : list line * result unit :=
  match results with
  | [] => ([], Ok tt)
  | (topo_name, metrics) :: rest =>
      match
        (c <- Main.item "is_connected" metrics ;;
         let avg_degree :=
           match Dict.get "avg_degree" metrics with
           | Some v => v
           | None => VInt 0
           end in
         n <- Main.item "node_count" metrics ;;
         e <- Main.item "edge_count" metrics ;;
         d <- Main.item "density" metrics ;;
         Ok (LineRow topo_name n e d (truthy c) avg_degree))
      with
      | Raise e => ([], Raise e)
      | Ok row => (row :: fst (print_rows rest), snd (print_rows rest))
      end
  end.

(** [compare_topologies()] *)
Definition compare_topologies : list line * result unit :=
  match collect ["star"; "ring"; "mesh"; "tree"; "spine_leaf"; "bus"] with
  | Raise e => ([LineTitle], Raise e)
  | Ok results =>
      (LineTitle :: LineColumns :: LineRule :: fst (print_rows results),
       snd (print_rows results))
  end.

End Random.

End Compare.

(* ------------------------------------------------------------------ *)
(** * Text reports: [simple_visualize] of main.py and
      [export_topology_summary] of topology_builder.py *)

Module Reports.

(** [data.get(key, default)] on an attribute dictionary. *)
Definition attr (key : string) (default : value) (data : attrs) : value :=
  match Dict.get key data with Some v => v | None => default end.

(** ** [simple_visualize] *)

(** What is written to the file, one constructor per [f.write]. *)
Inductive vline : Type :=
| VizTitle
| VizNodes
| VizNode (node : string) (device_type role : value)
| VizConnections (total : nat)
| VizConnection (u v : string) (bandwidth link_type : value) (up : bool)
| VizAdjacency
| VizNeighbors (node text : string).

(** [for node, data in G.nodes(data=True)] *)
Definition node_lines (G : Graph.t) : list vline :=
  map (fun nd =>
         VizNode (fst nd)
           (attr "device_type" (VStr "unknown") (snd nd))
           (attr "role" (VStr "N/A") (snd nd)))
      (Graph._node G).

(** [for u, v, data in G.edges(data=True)] *)
Definition connection_lines (G : Graph.t) : list vline :=
  map (fun e =>
         VizConnection (fst (fst e)) (snd (fst e))
           (attr "bandwidth" (VStr "?") (snd e))
           (attr "link_type" (VStr "unknown") (snd e))
           (Compare.truthy (attr "up" (VBool true) (snd e))))
      (Graph.edges G).

(** [', '.join(neighbors) if neighbors else 'isolated'] *)
Definition neighbors_text (neighbors : list string) : string :=
  match neighbors with
  | [] => "isolated"
  | _ :: _ => PyStr.join ", " neighbors
  end.

(** [for node in G.nodes(): neighbors = list(G.neighbors(node)); ...]:
    the lines written, and how the loop ended. *)
Fixpoint adjacency_lines (G : Graph.t) (nodes : list string)
  : list vline * result unit :=
  match nodes with
  | [] => ([], Ok tt)
  | node :: rest =>
      match Graph.neighbors G node with
      | Raise e => ([], Raise e)
      | Ok neighbors =>
          (VizNeighbors node (neighbors_text neighbors)
             :: fst (adjacency_lines G rest),
           snd (adjacency_lines G rest))
      end
  end.

(** [simple_visualize(G, output_file)]: what the file holds, and how the
    call ended. *)
Definition simple_visualize (G : Graph.t) : list vline * result unit :=
  ([VizTitle; VizNodes] ++ node_lines G
   ++ [VizConnections (Graph.number_of_edges G)] ++ connection_lines G
   ++ [VizAdjacency] ++ fst (adjacency_lines G (Graph.nodes G)),
   snd (adjacency_lines G (Graph.nodes G))).

(** ** [export_topology_summary] *)

Inductive sline : Type :=
| SumTitle
| SumNodes (v : value)
| SumEdges (v : value)
| SumDensity (v : value)
| SumConnected (yes : bool)
| SumDiameter (v : value)
| SumClustering (v : value)
| SumAverageDegree (v : value)
| SumNodeDetails
| SumNode (node : string) (device_type role : value)
| SumEdgeDetails
| SumEdge (u v : string) (bandwidth link_type : value).

Definition write_all (written : list sline * result unit) (more : list sline)
  : list sline * result unit :=
  match snd written with
  | Ok _ => (fst written ++ more, Ok tt)
  | Raise e => written
  end.

(** One [f.write] of a looked-up entry. *)
Definition write_item (written : list sline * result unit) (key : string)
    (metrics : Dict.t value) (line : value -> sline)
  : list sline * result unit :=
  match snd written with
  | Ok _ =>
      match Main.item key metrics with
      | Ok v => (fst written ++ [line v], Ok tt)
      | Raise e => (fst written, Raise e)
      end
  | Raise e => written
  end.

(** The part of [export_topology_summary] inside [with open(...)]. *)
Definition summary_lines (G : Graph.t) (metrics : Dict.t value)
  : list sline * result unit :=
  let w := ([SumTitle], Ok tt) in
  let w := write_item w "node_count" metrics SumNodes in
  let w := write_item w "edge_count" metrics SumEdges in
  let w := write_item w "density" metrics SumDensity in
  let w := write_item w "is_connected" metrics
             (fun v => SumConnected (Compare.truthy v)) in
  let w :=
    match snd w with
    | Raise e => w
    | Ok _ =>
        match Main.item "is_connected" metrics with
        | Raise e => (fst w, Raise e)
        | Ok c =>
            if Compare.truthy c then write_item w "diameter" metrics SumDiameter
            else w
        end
    end in
  let w := write_item w "average_clustering" metrics SumClustering in
  let w := write_all w
             [SumAverageDegree
                (match Dict.get "avg_degree" metrics with
                 | Some v => v
                 | None => VInt 0
                 end)] in
  let w := write_all w
             (SumNodeDetails
                :: map (fun nd =>
                          SumNode (fst nd)
                            (attr "device_type" (VStr "unknown") (snd nd))
                            (attr "role" (VStr "N/A") (snd nd)))
                     (Graph._node G)) in
  write_all w
    (SumEdgeDetails
       :: map (fun e =>
                 SumEdge (fst (fst e)) (snd (fst e))
                   (attr "bandwidth" (VStr "unknown") (snd e))
                   (attr "link_type" (VStr "unknown") (snd e)))
            (Graph.edges G)).

(** [export_topology_summary(G, filename)]: [None] when the file was not
    opened, else what was written to it; and how the call ended. *)
Definition export_topology_summary (G : Graph.t)
  : option (list sline) * result unit :=
  match Builder.add_topology_metrics G with
  | Raise e => (None, Raise e)
  | Ok metrics =>
      (Some (fst (summary_lines G metrics)), snd (summary_lines G metrics))
  end.

End Reports.

(* ================================================================== *)
(** * Properties *)

(* ------------------------------------------------------------------ *)
(** ** Strings *)

Module PyStrFacts.

Import PyStr.

Lemma unpack2_split1 (sep : ascii) (s : string) :
  contains sep s = true ->
  unpack2 (split1 sep s) = Ok (before sep s, after sep s).
Proof.
  intros H. unfold split1. rewrite H. reflexivity.
Qed.

Lemma contains_app_sep (sep : ascii) (pre post : string) :
  contains sep (pre +++ String sep post) = true.
Proof.
  induction pre as [|c pre IH]; simpl.
  - rewrite Ascii.eqb_refl. reflexivity.
  - destruct (Ascii.eqb sep c); auto.
Qed.

Lemma before_app_sep (sep : ascii) (pre post : string) :
  contains sep pre = false ->
  before sep (pre +++ String sep post) = pre.
Proof.
  induction pre as [|c pre IH]; simpl; intros H.
  - rewrite Ascii.eqb_refl. reflexivity.
  - destruct (Ascii.eqb sep c); [discriminate|]. rewrite IH; auto.
Qed.

Lemma after_app_sep (sep : ascii) (pre post : string) :
  contains sep pre = false ->
  after sep (pre +++ String sep post) = post.
Proof.
  induction pre as [|c pre IH]; simpl; intros H.
  - rewrite Ascii.eqb_refl. reflexivity.
  - destruct (Ascii.eqb sep c); [discriminate|]. auto.
Qed.

(** A string with a separator splits around its first occurrence. *)
Lemma before_after_split (sep : ascii) (s : string) :
  contains sep s = true ->
  s = before sep s +++ String sep (after sep s)
  /\ contains sep (before sep s) = false.
Proof.
  induction s as [|c s IH]; simpl; intros H; [discriminate|].
  destruct (Ascii.eqb sep c) eqn:E.
  - apply Ascii.eqb_eq in E. subst c. split; reflexivity.
  - destruct (IH H) as [H1 H2]. split.
    + simpl. f_equal. exact H1.
    + simpl. rewrite E. exact H2.
Qed.

Lemma rstrip_head (c : ascii) (s : string) :
  isspace c = false -> exists r, rstrip (String c s) = String c r.
Proof.
  intros H. simpl. destruct (rstrip s).
  - rewrite H. eexists; reflexivity.
  - eexists; reflexivity.
Qed.

(** Stripping keeps a leading character that is not white space. *)
Lemma startswith_strip (c : ascii) (s : string) :
  isspace c = false -> startswith c s = true -> startswith c (strip s) = true.
Proof.
  intros Hc H. destruct s as [|d s]; simpl in H; [discriminate|].
  apply Ascii.eqb_eq in H. subst d.
  unfold strip. simpl lstrip. rewrite Hc.
  destruct (rstrip_head c s Hc) as [r Hr]. rewrite Hr. simpl.
  apply Ascii.eqb_refl.
Qed.

End PyStrFacts.

(* ------------------------------------------------------------------ *)
(** ** Link-list parsing and the existence check *)

Module CheckLinksFacts.

Import PyStr PyStrFacts CheckLinks.

Lemma read_line_blank (line : string) :
  strip line = "" -> read_line line = Ok ([], []).
Proof.
  intros H. unfold read_line. rewrite H. reflexivity.
Qed.

Lemma read_line_comment (line : string) :
  startswith "#" line = true -> read_line line = Ok ([], []).
Proof.
  intros H. unfold read_line.
  rewrite (startswith_strip "#" line eq_refl H).
  rewrite orb_true_r. reflexivity.
Qed.

Lemma read_line_no_dash (line : string) :
  contains "-" (strip line) = false ->
  exists diags, read_line line = Ok ([], diags).
Proof.
  intros H. unfold read_line.
  destruct (String.eqb (strip line) "" || startswith "#" (strip line)).
  - eexists; reflexivity.
  - rewrite H. simpl. eexists; reflexivity.
Qed.

(** A line that passes the three tests yields the pair split at its
    first dash. *)
Lemma read_line_accepted (line : string) :
  String.eqb (strip line) "" || startswith "#" (strip line) = false ->
  contains "-" (strip line) = true ->
  read_line line =
    Ok ([(strip (before "-" (strip line)), strip (after "-" (strip line)))], []).
Proof.
  intros H1 H2. unfold read_line. rewrite H1, H2. simpl.
  rewrite (unpack2_split1 _ _ H2). reflexivity.
Qed.

Lemma read_line_total (line : string) :
  exists links diags, read_line line = Ok (links, diags)
                      /\ (List.length links <= 1)%nat.
Proof.
  unfold read_line.
  destruct (String.eqb (strip line) "" || startswith "#" (strip line)).
  - exists [], []. split; [reflexivity | simpl; lia].
  - destruct (contains "-" (strip line)) eqn:E; simpl.
    + rewrite (unpack2_split1 _ _ E). simpl. do 2 eexists.
      split; [reflexivity | simpl; lia].
    + do 2 eexists. split; [reflexivity | simpl; lia].
Qed.

Lemma read_lines_total (lines : list string) :
  exists links diags, read_lines lines = Ok (links, diags).
Proof.
  induction lines as [|l rest IH]; simpl.
  - exists [], []. reflexivity.
  - destruct (read_line_total l) as (k1 & d1 & H1 & _).
    destruct IH as (k2 & d2 & H2).
    rewrite H1, H2. simpl. do 2 eexists. reflexivity.
Qed.

(** A line that contributes no entry leaves the entries of the lines
    after it as they are. *)
Lemma read_lines_skip (line : string) (rest : list string)
    (links : list (string * string)) (diags d : list string) :
  read_line line = Ok ([], d) ->
  read_lines rest = Ok (links, diags) ->
  read_lines (line :: rest) = Ok (links, d ++ diags).
Proof.
  intros H1 H2. simpl. rewrite H1, H2. reflexivity.
Qed.

Lemma check_endpoint_total (cfg : configs) (ep : string) (st : check_state) :
  exists st', check_endpoint cfg ep st = Ok st'.
Proof.
  unfold check_endpoint.
  destruct (contains ":" ep) eqn:E; simpl.
  - rewrite (unpack2_split1 _ _ E). simpl.
    destruct (Dict.get _ cfg).
    + destruct (mem _ _); eexists; reflexivity.
    + eexists; reflexivity.
  - eexists; reflexivity.
Qed.

Lemma check_endpoints_total (cfg : configs) (eps : list string) :
  forall st, exists st', check_endpoints cfg eps st = Ok st'.
Proof.
  induction eps as [|ep rest IH]; intros st; simpl.
  - eexists; reflexivity.
  - destruct (check_endpoint_total cfg ep st) as [st1 H1].
    rewrite H1. simpl. apply IH.
Qed.

(** An endpoint without a colon adds one diagnostic, changes neither
    accumulator, and the loop goes on with the endpoints after it. *)
Lemma check_endpoints_invalid (cfg : configs) (ep : string)
    (rest : list string) (st : check_state) :
  contains ":" ep = false ->
  check_endpoints cfg (ep :: rest) st =
  check_endpoints cfg rest
    (mkCheck (missing_devices st) (missing_interfaces st)
       (printed st ++ ["Invalid endpoint format (missing ':'): " +++ ep])).
Proof.
  intros H. simpl. unfold check_endpoint. rewrite H. reflexivity.
Qed.

End CheckLinksFacts.

(** C10.  An accepted line is split at its first dash only: when the
    stripped line is [pre-post] with no dash in [pre], the line yields
    exactly one pair, the stripped [pre] and the stripped [post], whatever
    dashes [post] holds. *)
Theorem C10_split_at_first_dash (line pre post : string) :
  PyStr.strip line = pre +++ String "-" post ->
  PyStr.contains "-" pre = false ->
  PyStr.startswith "#" (PyStr.strip line) = false ->
  CheckLinks.read_line line = Ok ([(PyStr.strip pre, PyStr.strip post)], []).
Proof.
  intros Hs Hpre Hc.
  rewrite CheckLinksFacts.read_line_accepted.
  - rewrite Hs.
    rewrite PyStrFacts.before_app_sep, PyStrFacts.after_app_sep by exact Hpre.
    reflexivity.
  - rewrite Hc, orb_false_r. rewrite Hs.
    destruct pre; reflexivity.
  - rewrite Hs. apply PyStrFacts.contains_app_sep.
Qed.

Lemma C10_split_at_first_dash_witness :
  CheckLinks.read_line "R1:Gig0/0-1 - R2:Gig0/1"
  = Ok ([("R1:Gig0/0", "1 - R2:Gig0/1")], []).
Proof.
  apply (C10_split_at_first_dash "R1:Gig0/0-1 - R2:Gig0/1" "R1:Gig0/0"
           "1 - R2:Gig0/1"); reflexivity.
Defined.

(* ------------------------------------------------------------------ *)
(** ** The tree generator terminates *)

Module TreeFacts.

Import Builder.

(** Every id taken from the pool is put on the next frontier. *)
Lemma attach_children_balance (count : nat) (parent : string) (lvl : nat) :
  forall st : Graph.t * list string * list string,
    List.length (snd (fst (attach_children count parent lvl st)))
    + List.length (snd (attach_children count parent lvl st))
    = List.length (snd (fst st)) + List.length (snd st).
Proof.
  induction count as [|count IH]; intros [[G pool] next]; simpl.
  - reflexivity.
  - destruct pool as [|child pool]; simpl.
    + reflexivity.
    + rewrite IH. simpl. rewrite length_app. simpl. lia.
Qed.

Lemma tree_level_balance (bf : Z) (lvl : nat) (parents : list string)
    (G : Graph.t) (pool : list string) :
  List.length (snd (fst (tree_level bf lvl parents G pool)))
  + List.length (snd (tree_level bf lvl parents G pool))
  = List.length pool.
Proof.
  unfold tree_level.
  assert (H : forall st : Graph.t * list string * list string,
             let r := fold_left
                        (fun st parent =>
                           attach_children
                             (Z.to_nat (Z.min bf (Z.of_nat (List.length (snd (fst st))))))
                             parent lvl st) parents st in
             List.length (snd (fst r)) + List.length (snd r)
             = List.length (snd (fst st)) + List.length (snd st)).
  { induction parents as [|p ps IH]; intros st; simpl.
    - reflexivity.
    - rewrite IH. apply attach_children_balance. }
  rewrite (H (G, pool, [])). simpl. lia.
Qed.

(** One pass of the loop body either shrinks the pool or leaves an
    empty frontier. *)
Lemma tree_step_measure (bf : Z) (st : tree_state) :
  List.length (remaining_nodes (tree_step bf st))
  < List.length (remaining_nodes st)
  \/ current_level_nodes (tree_step bf st) = [].
Proof.
  unfold tree_step. simpl.
  pose proof (tree_level_balance bf (level st) (current_level_nodes st)
                (tree_graph st) (remaining_nodes st)) as H.
  destruct (snd (tree_level bf (level st) (current_level_nodes st)
                   (tree_graph st) (remaining_nodes st))) as [|x next] eqn:E.
  - right. reflexivity.
  - left. simpl in H. lia.
Qed.

Lemma tree_continue_false (st : tree_state) :
  tree_continue st = false <->
  remaining_nodes st = [] \/ current_level_nodes st = [].
Proof.
  unfold tree_continue.
  destruct (remaining_nodes st), (current_level_nodes st); split; intros H;
    auto; try discriminate; destruct H; discriminate.
Qed.

Lemma tree_continue_true (st : tree_state) :
  tree_continue st = true <->
  remaining_nodes st <> [] /\ current_level_nodes st <> [].
Proof.
  unfold tree_continue.
  destruct (remaining_nodes st), (current_level_nodes st); split; intros H;
    try discriminate; try (split; discriminate); try reflexivity;
    destruct H as [H1 H2]; congruence.
Qed.

(** With fuel for one iteration per pooled id the loop runs to its exit:
    it performs [k] iterations, the loop condition holding before each
    of them and failing after the last. *)
Lemma tree_loop_terminates (bf : Z) :
  forall (n fuel : nat) (st : tree_state),
    List.length (remaining_nodes st) <= n -> n <= fuel ->
    exists k,
      k <= n
      /\ tree_loop fuel bf st = Some (Nat.iter k (tree_step bf) st)
      /\ tree_continue (Nat.iter k (tree_step bf) st) = false
      /\ forall j, j < k -> tree_continue (Nat.iter j (tree_step bf) st) = true.
Proof.
  induction n as [|n IH]; intros fuel st Hlen Hfuel.
  - exists 0. simpl.
    assert (Hc : tree_continue st = false).
    { apply tree_continue_false. left.
      destruct (remaining_nodes st); [reflexivity | simpl in Hlen; lia]. }
    repeat split; try lia.
    + destruct fuel; simpl; rewrite Hc; reflexivity.
    + exact Hc.
  - destruct (tree_continue st) eqn:Hc.
    + destruct fuel as [|f]; [lia|].
      assert (Hnext : exists k,
                 k <= n
                 /\ tree_loop f bf (tree_step bf st)
                    = Some (Nat.iter k (tree_step bf) (tree_step bf st))
                 /\ tree_continue (Nat.iter k (tree_step bf) (tree_step bf st)) = false
                 /\ forall j, j < k ->
                      tree_continue (Nat.iter j (tree_step bf) (tree_step bf st)) = true).
      { destruct (tree_step_measure bf st) as [Hlt | Hnil].
        - apply IH; lia.
        - exists 0. simpl.
          assert (Hc' : tree_continue (tree_step bf st) = false).
          { apply tree_continue_false. right. exact Hnil. }
          repeat split; try lia.
          + destruct f; simpl; rewrite Hc'; reflexivity.
          + exact Hc'. }
      destruct Hnext as (k & Hk & Hloop & Hend & Hbefore).
      exists (S k).
      assert (Hshift : forall j, Nat.iter j (tree_step bf) (tree_step bf st)
                                 = Nat.iter (S j) (tree_step bf) st).
      { intros j. induction j as [|j IHj]; simpl; [reflexivity|].
        rewrite IHj. reflexivity. }
      repeat split.
      * lia.
      * simpl tree_loop. rewrite Hc. rewrite Hloop. rewrite Hshift. reflexivity.
      * rewrite <- Hshift. exact Hend.
      * intros j Hj. destruct j as [|j]; [exact Hc|].
        rewrite <- Hshift. apply Hbefore. lia.
    + exists 0. simpl. repeat split; try lia.
      * destruct fuel; simpl; rewrite Hc; reflexivity.
      * exact Hc.
Qed.

End TreeFacts.

(** C8.  The tree generator terminates for every id list and every
    integer branching factor, zero and negative ones included: given fuel
    for one loop iteration per id it returns a graph, and for a non-empty
    list the construction loop stops after [k] iterations, where the pool
    and the frontier are both non-empty before each of the [k] iterations
    and one of them is empty after the last. *)
Theorem C8_tree_generator_terminates (nodes : list string)
    (branching_factor : Z) (extra : nat) :
  (exists G,
     Builder.create_tree_topology (List.length nodes + extra) nodes
       branching_factor = Some G)
  /\ forall root others, nodes = root :: others ->
       exists k,
         k <= List.length others
         /\ Builder.tree_loop (List.length nodes + extra) branching_factor
              (Builder.tree_init root others)
            = Some (Nat.iter k (Builder.tree_step branching_factor)
                      (Builder.tree_init root others))
         /\ (let final := Nat.iter k (Builder.tree_step branching_factor)
                            (Builder.tree_init root others) in
             Builder.remaining_nodes final = []
             \/ Builder.current_level_nodes final = [])
         /\ forall j, j < k ->
              let st := Nat.iter j (Builder.tree_step branching_factor)
                          (Builder.tree_init root others) in
              Builder.remaining_nodes st <> []
              /\ Builder.current_level_nodes st <> [].
Proof.
  assert (Hloop : forall root others, nodes = root :: others ->
            exists k,
              k <= List.length others
              /\ Builder.tree_loop (List.length nodes + extra) branching_factor
                   (Builder.tree_init root others)
                 = Some (Nat.iter k (Builder.tree_step branching_factor)
                           (Builder.tree_init root others))
              /\ Builder.tree_continue
                   (Nat.iter k (Builder.tree_step branching_factor)
                      (Builder.tree_init root others)) = false
              /\ forall j, j < k ->
                   Builder.tree_continue
                     (Nat.iter j (Builder.tree_step branching_factor)
                        (Builder.tree_init root others)) = true).
  { intros root others Hn.
    apply TreeFacts.tree_loop_terminates.
    - simpl. lia.
    - subst nodes. simpl. lia. }
  split.
  - destruct nodes as [|root others]; simpl.
    + eexists; reflexivity.
    + destruct (Hloop root others eq_refl) as (k & _ & Hk & _).
      simpl in Hk. rewrite Hk. simpl. eexists; reflexivity.
  - intros root others Hn.
    destruct (Hloop root others Hn) as (k & Hk & Hrun & Hend & Hbefore).
    exists k. repeat split.
    + exact Hk.
    + exact Hrun.
    + apply TreeFacts.tree_continue_false. exact Hend.
    + apply TreeFacts.tree_continue_true. apply Hbefore. assumption.
    + apply TreeFacts.tree_continue_true. apply Hbefore. assumption.
Qed.

(* ------------------------------------------------------------------ *)
(** ** Dictionaries *)

Module DictFacts.

Import Dict.

Section WithValue.

Context {V : Type}.
Implicit Types (d : Dict.t V) (k : string) (v : V).

Lemma mem_In (x : string) (xs : list string) : mem x xs = true <-> In x xs.
Proof.
  induction xs as [|y ys IH]; simpl.
  - split; [discriminate | tauto].
  - destruct (String.eqb x y) eqn:E.
    + apply String.eqb_eq in E. subst. tauto.
    + apply String.eqb_neq in E. rewrite IH. split; [tauto|].
      intros [H|H]; [congruence | exact H].
Qed.

Lemma mem_false (x : string) (xs : list string) : mem x xs = false <-> ~ In x xs.
Proof.
  rewrite <- mem_In. destruct (mem x xs); split; congruence.
Qed.

Lemma get_In k d : (exists v, get k d = Some v) <-> In k (keys d).
Proof.
  induction d as [|[k' v'] d IH]; simpl.
  - split; [intros [w H]; discriminate | tauto].
  - destruct (String.eqb k k') eqn:E.
    + apply String.eqb_eq in E. subst. split; eauto.
    + apply String.eqb_neq in E. rewrite IH. split; [tauto|].
      intros [H|H]; [congruence | exact H].
Qed.

Lemma get_None k d : get k d = None <-> ~ In k (keys d).
Proof.
  rewrite <- get_In. destruct (get k d) as [x|]; split; intros H.
  - discriminate.
  - exfalso. apply H. eauto.
  - intros [w Hw]. discriminate.
  - reflexivity.
Qed.

Lemma has_In k d : has k d = true <-> In k (keys d).
Proof.
  unfold has. rewrite <- get_In. destruct (get k d) as [x|]; split; intros H.
  - eauto.
  - reflexivity.
  - discriminate.
  - destruct H as [w Hw]. discriminate.
Qed.

Lemma has_false k d : has k d = false <-> ~ In k (keys d).
Proof.
  rewrite <- has_In. destruct (has k d); split; congruence.
Qed.

Lemma get_set_eq k v d : get k (set k v d) = Some v.
Proof.
  induction d as [|[k' v'] d IH]; simpl.
  - rewrite String.eqb_refl. reflexivity.
  - destruct (String.eqb k k') eqn:E; simpl; rewrite E; auto.
Qed.

Lemma get_set_neq k k' v d : k <> k' -> get k' (set k v d) = get k' d.
Proof.
  intros Hne. induction d as [|[k2 v2] d IH]; simpl.
  - apply String.eqb_neq in Hne. rewrite String.eqb_sym, Hne. reflexivity.
  - destruct (String.eqb k k2) eqn:E; simpl.
    + apply String.eqb_eq in E. subst k2.
      apply String.eqb_neq in Hne. rewrite String.eqb_sym, Hne. reflexivity.
    + rewrite IH. reflexivity.
Qed.

Lemma get_set k k' v d :
  get k' (set k v d) = if String.eqb k k' then Some v else get k' d.
Proof.
  destruct (String.eqb k k') eqn:E.
  - apply String.eqb_eq in E. subst. apply get_set_eq.
  - apply String.eqb_neq in E. apply get_set_neq. exact E.
Qed.

Lemma keys_set_present k v d : In k (keys d) -> keys (set k v d) = keys d.
Proof.
  induction d as [|[k' v'] d IH]; simpl; intros H; [tauto|].
  destruct (String.eqb k k') eqn:E; simpl.
  - reflexivity.
  - apply String.eqb_neq in E. f_equal. apply IH.
    destruct H; [congruence | assumption].
Qed.

Lemma keys_set_absent k v d : ~ In k (keys d) -> keys (set k v d) = keys d ++ [k].
Proof.
  induction d as [|[k' v'] d IH]; simpl; intros H; [reflexivity|].
  destruct (String.eqb k k') eqn:E; simpl.
  - apply String.eqb_eq in E. subst. tauto.
  - f_equal. apply IH. tauto.
Qed.

Lemma in_keys_set k k' v d : In k' (keys (set k v d)) <-> k' = k \/ In k' (keys d).
Proof.
  rewrite <- !get_In. rewrite get_set.
  destruct (String.eqb k k') eqn:E.
  - apply String.eqb_eq in E. subst. split; eauto.
  - apply String.eqb_neq in E. split; [tauto|]. intros [H|H]; [congruence|exact H].
Qed.

Lemma nodup_keys_set k v d : NoDup (keys d) -> NoDup (keys (set k v d)).
Proof.
  intros H. destruct (in_dec string_dec k (keys d)) as [Hin|Hout].
  - rewrite keys_set_present by exact Hin. exact H.
  - rewrite keys_set_absent by exact Hout.
    apply NoDup_app; [exact H | repeat constructor; simpl; tauto |].
    intros x Hx [Hx'|[]]. subst. tauto.
Qed.

Lemma length_set_present k v d : In k (keys d) -> List.length (set k v d) = List.length d.
Proof.
  intros H. apply keys_set_present with (v := v) in H.
  unfold keys in H. apply (f_equal (@List.length _)) in H.
  rewrite !length_map in H. exact H.
Qed.

Lemma length_set_absent k v d :
  ~ In k (keys d) -> List.length (set k v d) = S (List.length d).
Proof.
  intros H. apply keys_set_absent with (v := v) in H.
  unfold keys in H. apply (f_equal (@List.length _)) in H.
  rewrite length_app, !length_map in H. simpl in H. lia.
Qed.

Lemma get_del_neq k k' d : k <> k' -> get k' (del k d) = get k' d.
Proof.
  intros Hne. induction d as [|[k2 v2] d IH]; simpl; [reflexivity|].
  destruct (String.eqb k k2) eqn:E; simpl.
  - apply String.eqb_eq in E. subst k2.
    apply String.eqb_neq in Hne. rewrite String.eqb_sym, Hne. reflexivity.
  - rewrite IH. reflexivity.
Qed.

Lemma get_del_eq k d : NoDup (keys d) -> get k (del k d) = None.
Proof.
  induction d as [|[k2 v2] d IH]; simpl; intros H; [reflexivity|].
  inversion H as [|? ? Hnotin Hnd]; subst.
  destruct (String.eqb k k2) eqn:E; simpl.
  - apply String.eqb_eq in E. subst k2. apply get_None. exact Hnotin.
  - rewrite E. apply IH. exact Hnd.
Qed.

Lemma in_keys_del k k' d :
  NoDup (keys d) -> (In k' (keys (del k d)) <-> k' <> k /\ In k' (keys d)).
Proof.
  intros Hnd. rewrite <- !get_In.
  destruct (string_dec k k') as [->|Hne].
  - rewrite get_del_eq by exact Hnd. split.
    + intros [w H]. discriminate.
    + tauto.
  - rewrite get_del_neq by exact Hne. split; [|tauto].
    intros H. split; [congruence | exact H].
Qed.

Lemma nodup_keys_del k d : NoDup (keys d) -> NoDup (keys (del k d)).
Proof.
  induction d as [|[k2 v2] d IH]; simpl; intros H; [constructor|].
  inversion H as [|? ? Hnotin Hnd]; subst.
  destruct (String.eqb k k2) eqn:E; simpl.
  - exact Hnd.
  - constructor.
    + intros Hin. apply Hnotin. apply in_keys_del in Hin; tauto.
    + apply IH. exact Hnd.
Qed.

Lemma length_del k d :
  In k (keys d) -> S (List.length (del k d)) = List.length d.
Proof.
  induction d as [|[k2 v2] d IH]; simpl; intros H; [tauto|].
  destruct (String.eqb k k2) eqn:E; simpl.
  - reflexivity.
  - apply String.eqb_neq in E. f_equal. apply IH.
    destruct H; [congruence | assumption].
Qed.

Lemma del_absent k d : ~ In k (keys d) -> del k d = d.
Proof.
  induction d as [|[k2 v2] d IH]; simpl; intros H; [reflexivity|].
  destruct (String.eqb k k2) eqn:E.
  - apply String.eqb_eq in E. subst. tauto.
  - f_equal. apply IH. tauto.
Qed.

Lemma keys_del k d :
  NoDup (keys d) ->
  keys (del k d) = filter (fun x => negb (String.eqb x k)) (keys d).
Proof.
  induction d as [|[k2 v2] d IH]; simpl; intros H; [reflexivity|].
  inversion H as [|? ? Hnotin Hnd]; subst.
  rewrite (String.eqb_sym k2 k).
  destruct (String.eqb k k2) eqn:E; simpl.
  - apply String.eqb_eq in E. subst k2.
    symmetry. apply forallb_filter_id. apply forallb_forall.
    intros x Hx. destruct (String.eqb x k) eqn:Ex; [|reflexivity].
    apply String.eqb_eq in Ex. subst. tauto.
  - f_equal. apply IH. exact Hnd.
Qed.

End WithValue.

End DictFacts.



(* ------------------------------------------------------------------ *)
(** ** The graph class *)

Module GraphFacts.

Import Dict DictFacts Graph.

(** Decide the string comparisons of the goal from the hypotheses. *)
Ltac eqb_norm :=
  repeat first
    [ rewrite String.eqb_refl
    | match goal with
      | H : ?a <> ?b |- context [String.eqb ?a ?b] =>
          rewrite (proj2 (String.eqb_neq a b) H)
      | H : ?a <> ?b |- context [String.eqb ?b ?a] =>
          rewrite (String.eqb_sym b a), (proj2 (String.eqb_neq a b) H)
      end ];
  simpl.

Lemma in_nbrs (G : Graph.t) (u v : string) :
  In v (nbrs G u) <-> exists a, get_edge_data G u v = Some a.
Proof.
  unfold nbrs, get_edge_data. symmetry. apply get_In.
Qed.

Lemma adj_of_absent (G : Graph.t) (u : string) :
  ~ In u (keys (_adj G)) -> adj_of G u = [].
Proof.
  intros H. unfold adj_of. apply get_None in H. rewrite H. reflexivity.
Qed.

Lemma wf_empty : wf empty.
Proof.
  constructor; simpl; intros; try constructor; try reflexivity.
  - unfold nbrs, adj_of in H. simpl in H. tauto.
  - unfold nbrs, adj_of in H. simpl in H. tauto.
Qed.

(** *** [add_node] *)

Lemma nodes_add_node (G : Graph.t) (n : string) (a : attrs) :
  nodes (add_node G n a) = if has_node G n then nodes G else nodes G ++ [n].
Proof.
  unfold add_node, has_node, nodes, has.
  destruct (get n (_node G)) eqn:E; simpl.
  - apply keys_set_present. apply get_In. eauto.
  - apply keys_set_absent. apply get_None. exact E.
Qed.

Lemma in_nodes_add_node (G : Graph.t) (n x : string) (a : attrs) :
  In x (nodes (add_node G n a)) <-> x = n \/ In x (nodes G).
Proof.
  unfold add_node, nodes.
  destruct (get n (_node G)) eqn:E; simpl; apply in_keys_set.
Qed.

Lemma adj_keys_add_node (G : Graph.t) (n : string) (a : attrs) :
  keys (_adj G) = nodes G ->
  keys (_adj (add_node G n a)) = nodes (add_node G n a).
Proof.
  intros Hk. rewrite nodes_add_node. unfold add_node, has_node, has.
  destruct (get n (_node G)) eqn:E; simpl.
  - exact Hk.
  - rewrite keys_set_absent, Hk; [reflexivity|].
    rewrite Hk. apply get_None. exact E.
Qed.

Lemma adj_of_add_node (G : Graph.t) (n x : string) (a : attrs) :
  keys (_adj G) = nodes G ->
  adj_of (add_node G n a) x = adj_of G x.
Proof.
  intros Hk. unfold add_node.
  destruct (get n (_node G)) eqn:E; [reflexivity|].
  unfold adj_of at 1. simpl. rewrite get_set.
  destruct (String.eqb n x) eqn:Enx; [|reflexivity].
  apply String.eqb_eq in Enx. subst x.
  symmetry. apply adj_of_absent. rewrite Hk. apply get_None. exact E.
Qed.

Lemma nbrs_add_node (G : Graph.t) (n x : string) (a : attrs) :
  keys (_adj G) = nodes G -> nbrs (add_node G n a) x = nbrs G x.
Proof.
  intros Hk. unfold nbrs. rewrite adj_of_add_node by exact Hk. reflexivity.
Qed.

Lemma get_edge_data_add_node (G : Graph.t) (n x y : string) (a : attrs) :
  keys (_adj G) = nodes G ->
  get_edge_data (add_node G n a) x y = get_edge_data G x y.
Proof.
  intros Hk. unfold get_edge_data. rewrite adj_of_add_node by exact Hk.
  reflexivity.
Qed.

Lemma wf_add_node (G : Graph.t) (n : string) (a : attrs) :
  wf G -> wf (add_node G n a).
Proof.
  intros [Hn Hk Hnb Hc Hs]. constructor.
  - rewrite nodes_add_node. unfold has_node.
    destruct (has n (_node G)) eqn:E; [exact Hn|].
    apply has_false in E.
    apply NoDup_app; [exact Hn | repeat constructor; simpl; tauto |].
    intros x Hx [Hx'|[]]. subst. apply E. exact Hx.
  - apply adj_keys_add_node. exact Hk.
  - intros u. rewrite nbrs_add_node by exact Hk. apply Hnb.
  - intros u v. rewrite nbrs_add_node by exact Hk. intros H.
    apply Hc in H. rewrite !in_nodes_add_node. tauto.
  - intros u v. rewrite !get_edge_data_add_node by exact Hk. apply Hs.
Qed.

(** *** [add_edge] *)

Lemma nodes_ensure_node (G : Graph.t) (n : string) :
  nodes (ensure_node G n) = if has_node G n then nodes G else nodes G ++ [n].
Proof.
  unfold ensure_node, has_node, nodes.
  destruct (has n (_node G)) eqn:E; simpl.
  - reflexivity.
  - apply keys_set_absent. apply has_false. exact E.
Qed.

Lemma in_nodes_ensure_node (G : Graph.t) (n x : string) :
  In x (nodes (ensure_node G n)) <-> x = n \/ In x (nodes G).
Proof.
  rewrite nodes_ensure_node. unfold has_node.
  destruct (has n (_node G)) eqn:E.
  - apply has_In in E. split; [tauto|]. intros [->|H]; assumption.
  - rewrite in_app_iff. simpl. split; intros H.
    + destruct H as [H|[H|[]]]; auto.
    + destruct H as [H|H]; auto.
Qed.

Lemma adj_keys_ensure_node (G : Graph.t) (n : string) :
  keys (_adj G) = nodes G ->
  keys (_adj (ensure_node G n)) = nodes (ensure_node G n).
Proof.
  intros Hk. rewrite nodes_ensure_node. unfold ensure_node, has_node.
  destruct (has n (_node G)) eqn:E; simpl.
  - exact Hk.
  - rewrite keys_set_absent, Hk; [reflexivity|].
    rewrite Hk. apply has_false. exact E.
Qed.

Lemma adj_of_ensure_node (G : Graph.t) (n x : string) :
  keys (_adj G) = nodes G ->
  adj_of (ensure_node G n) x = adj_of G x.
Proof.
  intros Hk. unfold ensure_node.
  destruct (has n (_node G)) eqn:E; [reflexivity|].
  unfold adj_of at 1. simpl. rewrite get_set.
  destruct (String.eqb n x) eqn:Enx; [|reflexivity].
  apply String.eqb_eq in Enx. subst x.
  symmetry. apply adj_of_absent. rewrite Hk. apply has_false. exact E.
Qed.

(** The attribute dictionary [add_edge] stores for the edge. *)
Definition edge_datadict (G : Graph.t) (u v : string) (a : attrs) : attrs :=
  update (match get_edge_data G u v with Some d => d | None => [] end) a.

Lemma nodes_add_edge (G : Graph.t) (u v : string) (a : attrs) :
  nodes (add_edge G u v a) = nodes (ensure_node (ensure_node G u) v).
Proof. reflexivity. Qed.

Lemma in_nodes_add_edge (G : Graph.t) (u v x : string) (a : attrs) :
  In x (nodes (add_edge G u v a)) <-> x = u \/ x = v \/ In x (nodes G).
Proof.
  rewrite nodes_add_edge, !in_nodes_ensure_node. tauto.
Qed.

Lemma adj_keys_add_edge (G : Graph.t) (u v : string) (a : attrs) :
  keys (_adj G) = nodes G ->
  keys (_adj (add_edge G u v a)) = nodes (add_edge G u v a).
Proof.
  intros Hk.
  pose proof (adj_keys_ensure_node _ v (adj_keys_ensure_node G u Hk)) as Hk2.
  rewrite nodes_add_edge. unfold add_edge. simpl.
  rewrite !keys_set_present.
  - exact Hk2.
  - rewrite Hk2. apply in_nodes_ensure_node. right.
    apply in_nodes_ensure_node. left. reflexivity.
  - rewrite keys_set_present.
    + rewrite Hk2. apply in_nodes_ensure_node. left. reflexivity.
    + rewrite Hk2. apply in_nodes_ensure_node. right.
      apply in_nodes_ensure_node. left. reflexivity.
Qed.

Lemma get_edge_data_add_edge (G : Graph.t) (u v x y : string) (a : attrs) :
  keys (_adj G) = nodes G ->
  get_edge_data (add_edge G u v a) x y =
    if (String.eqb x u && String.eqb y v) || (String.eqb x v && String.eqb y u)
    then Some (edge_datadict G u v a)
    else get_edge_data G x y.
Proof.
  intros Hk.
  pose proof (adj_keys_ensure_node G u Hk) as Hk1.
  assert (Hadj : forall z, adj_of (ensure_node (ensure_node G u) v) z = adj_of G z).
  { intros z. rewrite adj_of_ensure_node by exact Hk1.
    apply adj_of_ensure_node. exact Hk. }
  assert (Hget : forall z,
            match get z (_adj (ensure_node (ensure_node G u) v)) with
            | Some d => d
            | None => []
            end = adj_of G z).
  { intros z. apply (Hadj z). }
  unfold get_edge_data at 1, add_edge, adj_of at 1, edge_datadict. simpl.
  rewrite !Hadj. rewrite !get_set.
  destruct (string_dec x u) as [Hxu|Hxu]; destruct (string_dec x v) as [Hxv|Hxv];
    destruct (string_dec y u) as [Hyu|Hyu];
    destruct (string_dec y v) as [Hyv|Hyv]; subst;
    eqb_norm; try rewrite !get_set; eqb_norm; try rewrite Hget;
    try reflexivity; try congruence.
Qed.

Lemma in_nbrs_add_edge (G : Graph.t) (u v x y : string) (a : attrs) :
  keys (_adj G) = nodes G ->
  In y (nbrs (add_edge G u v a) x) <->
  In y (nbrs G x) \/ (x = u /\ y = v) \/ (x = v /\ y = u).
Proof.
  intros Hk. rewrite !in_nbrs. rewrite get_edge_data_add_edge by exact Hk.
  destruct (string_dec x u) as [Hxu|Hxu]; destruct (string_dec x v) as [Hxv|Hxv];
    destruct (string_dec y u) as [Hyu|Hyu];
    destruct (string_dec y v) as [Hyv|Hyv]; subst; eqb_norm;
    (split; [ intros H; eauto; tauto
            | intros H; eauto; destruct H as [H | [[? ?] | [? ?]]]; eauto; congruence ]).
Qed.

Lemma adj_of_add_edge (G : Graph.t) (u v x : string) (a : attrs) :
  keys (_adj G) = nodes G ->
  adj_of (add_edge G u v a) x =
    if String.eqb x v then
      set u (edge_datadict G u v a)
        (if String.eqb u v then set v (edge_datadict G u v a) (adj_of G u)
         else adj_of G v)
    else if String.eqb x u then set v (edge_datadict G u v a) (adj_of G u)
    else adj_of G x.
Proof.
  intros Hk.
  pose proof (adj_keys_ensure_node G u Hk) as Hk1.
  assert (Hadj : forall z, adj_of (ensure_node (ensure_node G u) v) z = adj_of G z).
  { intros z. rewrite adj_of_ensure_node by exact Hk1.
    apply adj_of_ensure_node. exact Hk. }
  assert (Hget : forall z,
            match get z (_adj (ensure_node (ensure_node G u) v)) with
            | Some d => d
            | None => []
            end = adj_of G z).
  { intros z. apply (Hadj z). }
  unfold add_edge, adj_of at 1, edge_datadict, get_edge_data. simpl.
  rewrite !Hadj. rewrite !get_set.
  destruct (string_dec x u) as [Hxu|Hxu]; destruct (string_dec x v) as [Hxv|Hxv];
    subst; eqb_norm; try rewrite !get_set; eqb_norm; try rewrite Hget;
    try reflexivity.
Qed.

Lemma nodup_nbrs_add_edge (G : Graph.t) (u v x : string) (a : attrs) :
  keys (_adj G) = nodes G ->
  NoDup (nbrs G u) -> NoDup (nbrs G v) -> NoDup (nbrs G x) ->
  NoDup (nbrs (add_edge G u v a) x).
Proof.
  intros Hk Hu Hv Hx. unfold nbrs. rewrite adj_of_add_edge by exact Hk.
  destruct (String.eqb x v).
  - apply nodup_keys_set. destruct (String.eqb u v).
    + apply nodup_keys_set. exact Hu.
    + exact Hv.
  - destruct (String.eqb x u).
    + apply nodup_keys_set. exact Hu.
    + exact Hx.
Qed.

Lemma nodup_nodes_ensure_node (G : Graph.t) (n : string) :
  NoDup (nodes G) -> NoDup (nodes (ensure_node G n)).
Proof.
  intros Hn. rewrite nodes_ensure_node. unfold has_node.
  destruct (has n (_node G)) eqn:E; [exact Hn|].
  apply has_false in E.
  apply NoDup_app; [exact Hn | repeat constructor; simpl; tauto |].
  intros x Hx [Hx'|[]]. subst. apply E. exact Hx.
Qed.

Lemma wf_add_edge (G : Graph.t) (u v : string) (a : attrs) :
  wf G -> wf (add_edge G u v a).
Proof.
  intros [Hn Hk Hnb Hc Hs]. constructor.
  - rewrite nodes_add_edge. do 2 apply nodup_nodes_ensure_node. exact Hn.
  - apply adj_keys_add_edge. exact Hk.
  - intros x. apply nodup_nbrs_add_edge; auto.
  - intros x y H. apply in_nbrs_add_edge in H; [|exact Hk].
    rewrite !in_nodes_add_edge.
    destruct H as [H | [[-> ->] | [-> ->]]]; [apply Hc in H|..]; tauto.
  - intros x y. rewrite !get_edge_data_add_edge by exact Hk.
    rewrite Hs.
    replace ((String.eqb y u && String.eqb x v) || (String.eqb y v && String.eqb x u))%bool
      with ((String.eqb x u && String.eqb y v) || (String.eqb x v && String.eqb y u))%bool.
    + reflexivity.
    + rewrite orb_comm. f_equal; apply andb_comm.
Qed.

(** [add_edge] leaves the attributes of the nodes that exist alone and
    gives a node it creates none. *)
Lemma node_data_ensure_node_old (G : Graph.t) (n x : string) :
  In x (nodes G) -> node_data (ensure_node G n) x = node_data G x.
Proof.
  intros Hx. unfold ensure_node.
  destruct (has n (_node G)) eqn:E; [reflexivity|].
  unfold node_data. simpl. apply get_set_neq.
  intros ->. apply has_false in E. tauto.
Qed.

Lemma node_data_add_edge_old (G : Graph.t) (u v x : string) (a : attrs) :
  In x (nodes G) -> node_data (add_edge G u v a) x = node_data G x.
Proof.
  intros Hx. unfold add_edge, node_data. simpl.
  fold (node_data (ensure_node (ensure_node G u) v) x).
  rewrite node_data_ensure_node_old.
  - apply node_data_ensure_node_old. exact Hx.
  - apply in_nodes_ensure_node. right. exact Hx.
Qed.

(** *** [remove_node] *)

Lemma del_links_ok (n : string) (us : list string) :
  forall adj : Dict.t (Dict.t attrs),
    NoDup us ->
    (forall u, In u us -> exists d, get u adj = Some d /\ In n (keys d)) ->
    exists adj',
      del_links n us adj = Ok adj'
      /\ keys adj' = keys adj
      /\ forall x, get x adj' =
                   if mem x us then option_map (del n) (get x adj)
                   else get x adj.
Proof.
  induction us as [|u rest IH]; intros adj Hnd Hus; simpl.
  - exists adj. repeat split.
  - inversion Hnd as [|? ? Hnotin Hnd']; subst.
    destruct (Hus u (or_introl eq_refl)) as (d & Hd & Hn).
    rewrite Hd. apply has_In in Hn. rewrite Hn.
    destruct (IH (set u (del n d) adj) Hnd') as (adj' & Hok & Hkeys & Hget).
    { intros u' Hu'. destruct (Hus u' (or_intror Hu')) as (d' & Hd' & Hn').
      exists d'. split; [|exact Hn'].
      rewrite get_set_neq; [exact Hd'|]. intros ->. tauto. }
    exists adj'. split; [exact Hok|]. split.
    + rewrite Hkeys. apply keys_set_present. apply get_In. eauto.
    + intros x. rewrite Hget. rewrite get_set.
      destruct (String.eqb x u) eqn:Exu.
      * apply String.eqb_eq in Exu. subst x.
        apply mem_false in Hnotin. rewrite Hnotin.
        rewrite String.eqb_refl, Hd. reflexivity.
      * rewrite (String.eqb_sym u x), Exu. reflexivity.
Qed.

(** What [remove_node] leaves of a consistent graph. *)
Lemma remove_node_spec (G : Graph.t) (n : string) :
  wf G -> In n (nodes G) ->
  exists G',
    remove_node G n = Ok G'
    /\ nodes G' = filter (fun x => negb (String.eqb x n)) (nodes G)
    /\ (forall x, adj_of G' x = if String.eqb x n then [] else del n (adj_of G x))
    /\ (forall x, node_data G' x = if String.eqb x n then None else node_data G x)
    /\ keys (_adj G') = nodes G'.
Proof.
  intros [Hn Hk Hnb Hc Hs] Hin.
  assert (Hadjn : exists d, get n (_adj G) = Some d).
  { apply get_In. rewrite Hk. exact Hin. }
  destruct Hadjn as [d Hd].
  assert (Hdn : adj_of G n = d) by (unfold adj_of; rewrite Hd; reflexivity).
  destruct (del_links_ok n (keys d) (_adj G)) as (adj' & Hok & Hkeys & Hget).
  { rewrite <- Hdn. apply Hnb. }
  { intros u Hu. rewrite <- Hdn in Hu. fold (nbrs G n) in Hu.
    apply in_nbrs in Hu. destruct Hu as [a Ha]. rewrite Hs in Ha.
    unfold get_edge_data, adj_of in Ha.
    destruct (get u (_adj G)) as [du|] eqn:Edu; [|discriminate].
    exists du. split; [reflexivity|]. apply get_In. eauto. }
  exists (mk (del n (_node G)) (del n adj')).
  unfold remove_node. rewrite Hd.
  assert (Hhas : has n (_node G) = true) by (apply has_In; exact Hin).
  rewrite Hhas, Hok. simpl.
  assert (Hnd' : NoDup (keys adj')) by (rewrite Hkeys, Hk; exact Hn).
  split; [reflexivity|]. split; [|split; [|split]].
  - unfold nodes. simpl. apply keys_del. exact Hn.
  - intros x. unfold adj_of at 1. simpl.
    destruct (String.eqb x n) eqn:Exn.
    + apply String.eqb_eq in Exn. subst x.
      rewrite get_del_eq by exact Hnd'. reflexivity.
    + apply String.eqb_neq in Exn.
      rewrite get_del_neq by congruence. rewrite Hget.
      destruct (mem x (keys d)) eqn:Em.
      * unfold adj_of. destruct (get x (_adj G)); reflexivity.
      * apply mem_false in Em. symmetry.
        fold (adj_of G x). apply del_absent.
        intros Hin'. apply Em. rewrite <- Hdn.
        fold (nbrs G x) in Hin'. apply in_nbrs in Hin'.
        destruct Hin' as [a Ha]. rewrite Hs in Ha.
        fold (nbrs G n). apply in_nbrs. eauto.
  - intros x. unfold node_data. simpl.
    destruct (String.eqb x n) eqn:Exn.
    + apply String.eqb_eq in Exn. subst x. apply get_del_eq. exact Hn.
    + apply String.eqb_neq in Exn. apply get_del_neq. congruence.
  - unfold nodes. simpl. rewrite !keys_del by assumption.
    rewrite Hkeys, Hk. reflexivity.
Qed.

Lemma get_edge_data_removed (G G' : Graph.t) (n x y : string) :
  wf G ->
  (forall x, adj_of G' x = if String.eqb x n then [] else del n (adj_of G x)) ->
  get_edge_data G' x y =
    if String.eqb x n || String.eqb y n then None else get_edge_data G x y.
Proof.
  intros Hwf Hadj. unfold get_edge_data. rewrite Hadj.
  destruct (String.eqb x n) eqn:Exn; [reflexivity|]. simpl.
  destruct (String.eqb y n) eqn:Eyn.
  - apply String.eqb_eq in Eyn. subst y. apply get_del_eq. apply (wf_nbrs G Hwf).
  - apply String.eqb_neq in Eyn. apply get_del_neq. congruence.
Qed.

Lemma in_filter_neq (n x : string) (xs : list string) :
  In x (filter (fun y => negb (String.eqb y n)) xs) <-> In x xs /\ x <> n.
Proof.
  rewrite filter_In. rewrite negb_true_iff. rewrite String.eqb_neq. tauto.
Qed.

Lemma wf_remove_node (G G' : Graph.t) (n : string) :
  wf G -> remove_node G n = Ok G' -> In n (nodes G) -> wf G'.
Proof.
  intros Hwf Hrm Hin.
  destruct (remove_node_spec G n Hwf Hin) as (G1 & H1 & Hnodes & Hadj & _ & Hkeys).
  rewrite Hrm in H1. injection H1 as <-.
  pose proof (get_edge_data_removed G G' n) as Hed.
  constructor.
  - rewrite Hnodes. apply NoDup_filter. apply (wf_nodes G Hwf).
  - exact Hkeys.
  - intros u. unfold nbrs. rewrite Hadj. destruct (String.eqb u n).
    + constructor.
    + apply nodup_keys_del. apply (wf_nbrs G Hwf).
  - intros u v H. apply in_nbrs in H. destruct H as [a Ha].
    rewrite (Hed u v Hwf Hadj) in Ha.
    destruct (String.eqb u n) eqn:Eun; [discriminate|].
    destruct (String.eqb v n) eqn:Evn; [discriminate|]. simpl in Ha.
    apply String.eqb_neq in Eun, Evn.
    assert (Hin' : In v (nbrs G u)) by (apply in_nbrs; eauto).
    apply (wf_closed G Hwf) in Hin'.
    rewrite Hnodes, !in_filter_neq. tauto.
  - intros u v. rewrite !(Hed _ _ Hwf Hadj). rewrite orb_comm.
    rewrite (wf_sym G Hwf). reflexivity.
Qed.

Lemma in_nbrs_removed (G G' : Graph.t) (n x y : string) :
  wf G -> remove_node G n = Ok G' -> In n (nodes G) ->
  (In y (nbrs G' x) <-> In y (nbrs G x) /\ x <> n /\ y <> n).
Proof.
  intros Hwf Hrm Hin.
  destruct (remove_node_spec G n Hwf Hin) as (G1 & H1 & Hnodes & Hadj & _ & Hkeys).
  rewrite Hrm in H1. injection H1 as <-.
  rewrite !in_nbrs. rewrite (get_edge_data_removed G G' n x y Hwf Hadj).
  destruct (String.eqb x n) eqn:Exn; simpl.
  - apply String.eqb_eq in Exn. split; [intros [a Ha]; discriminate | tauto].
  - destruct (String.eqb y n) eqn:Eyn.
    + apply String.eqb_eq in Eyn. split; [intros [a Ha]; discriminate | tauto].
    + apply String.eqb_neq in Exn, Eyn. tauto.
Qed.

End GraphFacts.

Module CopyFacts.

Import Dict DictFacts Graph GraphFacts.

Lemma wf_fold_add_node (l : Dict.t attrs) :
  forall g, wf g -> wf (fold_left (fun g nd => add_node g (fst nd) (snd nd)) l g).
Proof.
  induction l as [|[n a] l IH]; intros g Hg; simpl; [exact Hg|].
  apply IH. apply wf_add_node. exact Hg.
Qed.

Lemma in_nodes_fold_add_node (l : Dict.t attrs) (x : string) :
  forall g,
    In x (nodes (fold_left (fun g nd => add_node g (fst nd) (snd nd)) l g))
    <-> In x (nodes g) \/ In x (keys l).
Proof.
  induction l as [|[n a] l IH]; intros g; simpl; [tauto|].
  rewrite IH, in_nodes_add_node. split; intros H.
  - destruct H as [[H|H]|H]; auto.
  - destruct H as [H|[H|H]]; auto.
Qed.

Lemma wf_fold_add_edge_inner (u : string) (nb : Dict.t attrs) :
  forall g, wf g ->
    wf (fold_left (fun g' vd => add_edge g' u (fst vd) (snd vd)) nb g).
Proof.
  induction nb as [|[v a] nb IH]; intros g Hg; simpl; [exact Hg|].
  apply IH. apply wf_add_edge. exact Hg.
Qed.

Lemma nodes_mono_fold_add_edge_inner (u x : string) (nb : Dict.t attrs) :
  forall g, In x (nodes g) ->
    In x (nodes (fold_left (fun g' vd => add_edge g' u (fst vd) (snd vd)) nb g)).
Proof.
  induction nb as [|[v a] nb IH]; intros g Hg; simpl; [exact Hg|].
  apply IH. apply in_nodes_add_edge. auto.
Qed.

Lemma wf_fold_add_edge (adj : Dict.t (Dict.t attrs)) :
  forall g, wf g ->
    wf (fold_left
          (fun g unb =>
             fold_left (fun g' vd => add_edge g' (fst unb) (fst vd) (snd vd))
                       (snd unb) g) adj g).
Proof.
  induction adj as [|[u nb] adj IH]; intros g Hg; simpl; [exact Hg|].
  apply IH. apply wf_fold_add_edge_inner. exact Hg.
Qed.

Lemma nodes_mono_fold_add_edge (x : string) (adj : Dict.t (Dict.t attrs)) :
  forall g, In x (nodes g) ->
    In x (nodes (fold_left
                   (fun g unb =>
                      fold_left (fun g' vd => add_edge g' (fst unb) (fst vd) (snd vd))
                                (snd unb) g) adj g)).
Proof.
  induction adj as [|[u nb] adj IH]; intros g Hg; simpl; [exact Hg|].
  apply IH. apply nodes_mono_fold_add_edge_inner. exact Hg.
Qed.

Lemma wf_copy (G : Graph.t) : wf (copy G).
Proof.
  unfold copy. apply wf_fold_add_edge. apply wf_fold_add_node. apply wf_empty.
Qed.

Lemma in_nodes_copy (G : Graph.t) (x : string) :
  In x (nodes G) -> In x (nodes (copy G)).
Proof.
  intros H. unfold copy. apply nodes_mono_fold_add_edge.
  apply in_nodes_fold_add_node. right. exact H.
Qed.

Lemma has_node_In (G : Graph.t) (n : string) :
  has_node G n = true <-> In n (nodes G).
Proof. apply has_In. Qed.

End CopyFacts.

(* ------------------------------------------------------------------ *)
(** ** Failure simulation leaves the caller's graph alone *)

Module MainFacts.

Import Main.

Lemma deref_alloc_old (h : heap) (g : Graph.t) (r : ref) :
  r < List.length h -> deref (fst (alloc h g)) r = deref h r.
Proof.
  intros H. unfold deref, alloc. simpl. apply app_nth1. exact H.
Qed.

Lemma deref_alloc_new (h : heap) (g : Graph.t) :
  deref (fst (alloc h g)) (snd (alloc h g)) = g.
Proof.
  unfold deref, alloc. simpl. rewrite app_nth2 by lia.
  rewrite Nat.sub_diag. reflexivity.
Qed.

(** Writing through the newest reference replaces the newest object. *)
Lemma store_last (h : heap) (g g' : Graph.t) :
  store (h ++ [g]) (List.length h) g' = h ++ [g'].
Proof.
  unfold store. rewrite firstn_app, firstn_all, Nat.sub_diag.
  rewrite skipn_all2 by (rewrite length_app; simpl; lia).
  simpl. rewrite app_nil_r. reflexivity.
Qed.

Lemma deref_app_old (h : heap) (g : Graph.t) (r : ref) :
  r < List.length h -> deref (h ++ [g]) r = deref h r.
Proof.
  intros H. unfold deref. apply app_nth1. exact H.
Qed.

End MainFacts.

(* ------------------------------------------------------------------ *)
(** ** Metrics *)

Module MetricsFacts.

Import Builder.

(** The keys a metrics dictionary can hold. *)
Definition metric_keys : list string :=
  ["node_count"; "edge_count"; "density"; "diameter"; "average_clustering";
   "is_connected"; "avg_degree"; "max_degree"; "min_degree"].

Definition is_list (v : value) : bool :=
  match v with VList _ => true | _ => false end.

Lemma density_not_list (G : Graph.t) : is_list (Nx.density G) = false.
Proof.
  unfold Nx.density. destruct (_ || _); reflexivity.
Qed.

Lemma diameter_entry_not_list (G : Graph.t) (v : value) :
  diameter_entry G = Ok v -> is_list v = false.
Proof.
  unfold diameter_entry.
  destruct (Nx.is_connected G) as [[|]|e]; simpl; try discriminate.
  - destruct (Nx.diameter G); simpl; try discriminate.
    intros H. injection H as <-. reflexivity.
  - intros H. injection H as <-. reflexivity.
Qed.

(** Every entry of a metrics dictionary is one of the nine scalar
    entries. *)
Lemma metrics_entries (G : Graph.t) (m : Dict.t value) :
  add_topology_metrics G = Ok m ->
  forall k v, In (k, v) m -> In k metric_keys /\ is_list v = false.
Proof.
  unfold add_topology_metrics.
  destruct (diameter_entry G) as [d|e] eqn:Ed; simpl; [|discriminate].
  destruct (Nx.average_clustering G) as [c|e]; simpl; [|discriminate].
  destruct (Nx.is_connected G) as [ic|e]; simpl; [|discriminate].
  pose proof (density_not_list G) as Hdens.
  pose proof (diameter_entry_not_list G d Ed) as Hdiam.
  destruct (Graph.degrees G) as [|p l]; simpl.
  - intros H. injection H as <-. intros k v Hin. simpl in Hin.
    unfold metric_keys.
    repeat (destruct Hin as [Hin|Hin];
            [injection Hin as <- <-; split; [simpl; tauto | assumption || reflexivity]|]).
    destruct Hin.
  - intros H. injection H as <-. intros k v Hin. simpl in Hin.
    unfold metric_keys.
    repeat (destruct Hin as [Hin|Hin];
            [injection Hin as <- <-; split; [simpl; tauto | assumption || reflexivity]|]).
    destruct Hin.
Qed.

Lemma get_In_pair {V : Type} (k : string) (v : V) (d : Dict.t V) :
  Dict.get k d = Some v -> In (k, v) d.
Proof.
  induction d as [|[k' v'] d IH]; simpl; [discriminate|].
  destruct (String.eqb k k') eqn:E.
  - apply String.eqb_eq in E. subst. intros H. injection H as ->. auto.
  - auto.
Qed.

Lemma metrics_hold_no_list (G : Graph.t) (m : Dict.t value) :
  add_topology_metrics G = Ok m ->
  forall k xs, Dict.get k m <> Some (VList xs).
Proof.
  intros Hm k xs Hget. apply get_In_pair in Hget.
  destruct (metrics_entries G m Hm _ _ Hget) as [_ H]. discriminate.
Qed.

End MetricsFacts.

(** C2.  On the empty model [add_topology_metrics] does not return a
    snapshot: the connectivity test it runs for the diameter entry raises
    at once.  The ring generator returns such a model for fewer than
    three ids. *)
Theorem C2_metrics_raise_on_empty_model :
  Builder.create_ring_topology ["a"; "b"] = Graph.empty
  /\ Builder.add_topology_metrics (Builder.create_ring_topology ["a"; "b"])
     = Raise NetworkXPointlessConcept
  /\ Builder.add_topology_metrics Graph.empty = Raise NetworkXPointlessConcept.
Proof.
  repeat split.
Qed.

(** C7 as stated fails: the three-node chain [a - b - c] is connected and
    has the articulation point [b], yet no entry of its metrics snapshot
    holds a list. *)
Lemma C7_snapshot_has_no_articulation_list :
  let G := Builder.create_bus_topology ["a"; "b"; "c"] in
  Nx.is_connected G = Ok true
  /\ Nx.articulation_points G = Ok ["b"]
  /\ exists m,
       Builder.add_topology_metrics G = Ok m
       /\ Dict.keys m = ["node_count"; "edge_count"; "density"; "diameter";
                         "average_clustering"; "is_connected"; "avg_degree";
                         "max_degree"; "min_degree"]
       /\ forall k xs, Dict.get k m <> Some (VList xs).
Proof.
  simpl. split; [reflexivity|]. split; [reflexivity|].
  eexists. split; [vm_compute; reflexivity|]. split; [reflexivity|].
  apply (MetricsFacts.metrics_hold_no_list
           (Builder.create_bus_topology ["a"; "b"; "c"])).
  vm_compute. reflexivity.
Qed.

(* ------------------------------------------------------------------ *)
(** ** Adding an edge between unknown nodes *)

Module EdgeFacts.

Import Dict DictFacts Graph GraphFacts.

Lemma has_edge_get_edge_data (G : Graph.t) (u v : string) :
  has_edge G u v = true <-> exists a, get_edge_data G u v = Some a.
Proof.
  unfold has_edge, get_edge_data, adj_of, has.
  destruct (get u (_adj G)) as [d|]; simpl.
  - destruct (get v d); split; eauto; try discriminate.
    intros [a H]. discriminate.
  - split; [discriminate|]. intros [a H]. discriminate.
Qed.




End EdgeFacts.



(* ------------------------------------------------------------------ *)
(** ** Breadth-first search reaches exactly the reachable nodes *)

Module BfsFacts.

Import Dict DictFacts Nx.

Section Reachability.

Variable adj : string -> list string.

(** [reach s x]: there is a path from [s] to [x] along [adj]. *)
Inductive reach (s : string) : string -> Prop :=
| reach_refl : reach s s
| reach_step : forall x y, reach s x -> In y (adj x) -> reach s y.

Lemma reach_trans (a b c : string) : reach a b -> reach b c -> reach a c.
Proof.
  intros Hab Hbc. induction Hbc as [|x y Hbx IH Hy]; [exact Hab|].
  eapply reach_step; eauto.
Qed.

Lemma reach_sym (a b : string) :
  (forall x y, In y (adj x) -> In x (adj y)) -> reach a b -> reach b a.
Proof.
  intros Hsym H. induction H as [|x y Hax IH Hy]; [constructor|].
  eapply reach_trans; [|exact IH].
  eapply reach_step; [constructor|]. apply Hsym. exact Hy.
Qed.

Lemma keys_app {V : Type} (d1 d2 : Dict.t V) : keys (d1 ++ d2) = keys d1 ++ keys d2.
Proof. unfold keys. apply map_app. Qed.

(** The nodes a scan of one adjacency list adds. *)
Lemma scan_nbrs_spec (lvl : nat) (ws : list string) :
  forall (seen : Dict.t nat) (next : list string),
    exists new,
      keys (fst (scan_nbrs lvl ws (seen, next))) = keys seen ++ new
      /\ snd (scan_nbrs lvl ws (seen, next)) = next ++ new
      /\ (forall x, In x new <-> In x ws /\ ~ In x (keys seen))
      /\ (NoDup (keys seen) -> NoDup (keys seen ++ new)).
Proof.
  induction ws as [|w ws IH]; intros seen next.
  - exists []. simpl. rewrite !app_nil_r.
    split; [reflexivity|]. split; [reflexivity|]. split; [|tauto].
    intros x. simpl. tauto.
  - unfold scan_nbrs in *. simpl.
    destruct (has w seen) eqn:E.
    + destruct (IH seen next) as (new & H1 & H2 & H3 & H4).
      exists new. split; [exact H1|]. split; [exact H2|]. split; [|exact H4].
      intros x. rewrite H3. apply has_In in E. split.
      * tauto.
      * intros [[->|Hx] Hn]; tauto.
    + apply has_false in E.
      destruct (IH (seen ++ [(w, lvl)]) (next ++ [w])) as (new & H1 & H2 & H3 & H4).
      exists (w :: new). rewrite keys_app in *. simpl in *.
      rewrite <- !app_assoc in *. simpl in *.
      split; [exact H1|]. split; [exact H2|]. split.
      * intros x. rewrite H3, in_app_iff. simpl. split.
        -- intros [->|[Hx Hn]]; [tauto|]. tauto.
        -- intros [[->|Hx] Hn]; [tauto|].
           destruct (string_dec w x) as [->|Hne]; [tauto|]. right. tauto.
      * intros Hnd. apply H4.
        apply NoDup_app; [exact Hnd | repeat constructor; simpl; tauto |].
        intros x Hx [->|[]]. tauto.
Qed.

(** The nodes one level adds: the unseen neighbours of the level. *)
Lemma bfs_level_spec (lvl : nat) (thislevel : list string) (seen : Dict.t nat) :
  exists new,
    keys (fst (bfs_level adj lvl thislevel seen)) = keys seen ++ new
    /\ snd (bfs_level adj lvl thislevel seen) = new
    /\ (forall x, In x new <->
                  (exists v, In v thislevel /\ In x (adj v)) /\ ~ In x (keys seen))
    /\ (NoDup (keys seen) -> NoDup (keys seen ++ new)).
Proof.
  unfold bfs_level.
  assert (Hgen : forall (seen0 : Dict.t nat) (next0 : list string),
             exists new,
               keys (fst (fold_left (fun st v => scan_nbrs lvl (adj v) st)
                            thislevel (seen0, next0))) = keys seen0 ++ new
               /\ snd (fold_left (fun st v => scan_nbrs lvl (adj v) st)
                         thislevel (seen0, next0)) = next0 ++ new
               /\ (forall x, In x new <->
                     (exists v, In v thislevel /\ In x (adj v))
                     /\ ~ In x (keys seen0))
               /\ (NoDup (keys seen0) -> NoDup (keys seen0 ++ new))).
  { induction thislevel as [|v vs IH]; intros seen0 next0; simpl.
    - exists []. rewrite !app_nil_r.
      split; [reflexivity|]. split; [reflexivity|]. split; [|tauto].
      intros x. simpl. split; [tauto|]. intros [[v [[] _]] _].
    - destruct (scan_nbrs_spec lvl (adj v) seen0 next0) as (n1 & A1 & A2 & A3 & A4).
      destruct (scan_nbrs lvl (adj v) (seen0, next0)) as [seen1 next1] eqn:E.
      simpl in A1, A2.
      destruct (IH seen1 next1) as (n2 & B1 & B2 & B3 & B4).
      exists (n1 ++ n2). rewrite B1, B2, A1, A2, <- !app_assoc.
      split; [reflexivity|]. split; [reflexivity|]. split.
      + intros x. rewrite in_app_iff, A3, B3, A1, in_app_iff. split.
        * intros [[Hx Hn]|[[v' [Hv' Hx]] Hn]].
          -- split; [exists v; tauto | exact Hn].
          -- split; [exists v'; tauto | tauto].
        * intros [[v' [[->|Hv'] Hx]] Hn]; [tauto|].
          destruct (in_dec string_dec x (adj v)) as [Hin|Hout]; [tauto|].
          right. split; [eauto|]. rewrite A3. tauto.
      + intros Hnd. rewrite app_assoc. rewrite <- A1. apply B4.
        rewrite A1. apply A4. exact Hnd. }
  destruct (Hgen seen []) as (new & H1 & H2 & H3 & H4).
  exists new. simpl in H2. auto.
Qed.

Variable nodes : list string.
Hypothesis closed : forall x y, In x nodes -> In y (adj x) -> In y nodes.

(** The loop ends within its fuel and returns the closure of what it
    started from. *)
Lemma bfs_loop_spec (s : string) :
  forall (fuel lvl : nat) (thislevel : list string) (seen : Dict.t nat),
    NoDup (keys seen) ->
    incl (keys seen) nodes ->
    incl thislevel (keys seen) ->
    (forall x, In x (keys seen) -> In x thislevel \/ incl (adj x) (keys seen)) ->
    (forall x, In x (keys seen) -> reach s x) ->
    List.length nodes < fuel + List.length (keys seen) ->
    exists seen',
      bfs_loop adj fuel lvl thislevel seen = Some seen'
      /\ NoDup (keys seen')
      /\ incl (keys seen) (keys seen')
      /\ incl (keys seen') nodes
      /\ (forall x, In x (keys seen') -> incl (adj x) (keys seen'))
      /\ (forall x, In x (keys seen') -> reach s x).
Proof.
  induction fuel as [|f IH];
    intros lvl thislevel seen Hnd Hin Hlevel Hfront Hreach Hfuel.
  - pose proof (NoDup_incl_length Hnd Hin). lia.
  - destruct thislevel as [|v vs].
    + exists seen. simpl.
      split; [reflexivity|]. split; [exact Hnd|]. split; [apply incl_refl|].
      split; [exact Hin|]. split; [|exact Hreach].
      intros x Hx. destruct (Hfront x Hx) as [[]|Hc]. exact Hc.
    + simpl bfs_loop.
      destruct (bfs_level_spec (S lvl) (v :: vs) seen) as (new & H1 & H2 & H3 & H4).
      destruct (bfs_level adj (S lvl) (v :: vs) seen) as [seen1 next] eqn:E.
      simpl in H1, H2. subst next. simpl fst. simpl snd.
      assert (Hnd1 : NoDup (keys seen1)) by (rewrite H1; auto).
      assert (Hin1 : incl (keys seen1) nodes).
      { rewrite H1. intros x Hx. apply in_app_iff in Hx. destruct Hx as [Hx|Hx].
        - auto.
        - apply H3 in Hx. destruct Hx as [[w [Hw Hx]] _].
          apply (closed w); [|exact Hx]. apply Hin, Hlevel, Hw. }
      assert (Hlevel1 : incl new (keys seen1)).
      { rewrite H1. apply incl_appr, incl_refl. }
      assert (Hfront1 : forall x, In x (keys seen1) ->
                                  In x new \/ incl (adj x) (keys seen1)).
      { intros x Hx. rewrite H1 in Hx. apply in_app_iff in Hx.
        destruct Hx as [Hx|Hx]; [|auto]. right.
        intros y Hy. rewrite H1. apply in_app_iff.
        destruct (in_dec string_dec y (keys seen)) as [Hys|Hys]; [auto|].
        destruct (Hfront x Hx) as [Hxl|Hxc].
        - right. apply H3. eauto.
        - left. apply Hxc. exact Hy. }
      assert (Hreach1 : forall x, In x (keys seen1) -> reach s x).
      { intros x Hx. rewrite H1 in Hx. apply in_app_iff in Hx.
        destruct Hx as [Hx|Hx]; [auto|].
        apply H3 in Hx. destruct Hx as [[w [Hw Hx]] _].
        eapply reach_step; [|exact Hx]. apply Hreach, Hlevel, Hw. }
      destruct new as [|n0 new'].
      * exists seen1. destruct f; simpl.
        -- split; [reflexivity|]. split; [exact Hnd1|].
           split; [rewrite H1; apply incl_appl, incl_refl|].
           split; [exact Hin1|]. split; [|exact Hreach1].
           intros x Hx. destruct (Hfront1 x Hx) as [[]|Hc]. exact Hc.
        -- split; [reflexivity|]. split; [exact Hnd1|].
           split; [rewrite H1; apply incl_appl, incl_refl|].
           split; [exact Hin1|]. split; [|exact Hreach1].
           intros x Hx. destruct (Hfront1 x Hx) as [[]|Hc]. exact Hc.
      * destruct (IH (S lvl) (n0 :: new') seen1 Hnd1 Hin1 Hlevel1 Hfront1 Hreach1)
          as (seen' & R1 & R2 & R3 & R4 & R5 & R6).
        { rewrite H1, length_app. simpl. lia. }
        exists seen'. split; [exact R1|]. split; [exact R2|].
        split; [|auto].
        intros x Hx. apply R3. rewrite H1. apply in_app_iff. auto.
Qed.

(** The search from a node of the graph returns, without repetition,
    exactly the nodes reachable from it. *)
Lemma plain_bfs_spec (fuel : nat) (s : string) :
  In s nodes -> List.length nodes <= fuel ->
  exists l,
    plain_bfs adj fuel s = Some l
    /\ NoDup l
    /\ incl l nodes
    /\ forall x, In x l <-> reach s x.
Proof.
  intros Hs Hfuel. unfold plain_bfs, shortest_path_length.
  destruct (bfs_loop_spec s fuel 0 [s] [(s, 0)])
    as (seen' & R1 & R2 & R3 & R4 & R5 & R6).
  - simpl. repeat constructor. simpl. tauto.
  - simpl. intros x [<-|[]]. exact Hs.
  - simpl. apply incl_refl.
  - simpl. intros x [<-|[]]. left. simpl. auto.
  - simpl. intros x [<-|[]]. constructor.
  - simpl. lia.
  - rewrite R1. simpl. exists (keys seen').
    split; [reflexivity|]. split; [exact R2|]. split; [exact R4|].
    intros x. split; [apply R6|].
    intros Hr. induction Hr as [|x y Hsx IHx Hy].
    + apply R3. simpl. auto.
    + apply (R5 x IHx). exact Hy.
Qed.

End Reachability.

Arguments reach adj s _ : clear implicits.

Import Graph GraphFacts.

Lemma nbrs_closed (G : Graph.t) :
  wf G -> forall x y, In x (nodes G) -> In y (nbrs G x) -> In y (nodes G).
Proof.
  intros Hwf x y _ Hy. apply (wf_closed G Hwf) in Hy. tauto.
Qed.

Lemma nbrs_sym (G : Graph.t) :
  wf G -> forall x y, In y (nbrs G x) -> In x (nbrs G y).
Proof.
  intros Hwf x y Hy. apply in_nbrs in Hy. apply in_nbrs.
  rewrite (wf_sym G Hwf). exact Hy.
Qed.

Lemma number_of_nodes_length (G : Graph.t) :
  number_of_nodes G = List.length (nodes G).
Proof.
  unfold number_of_nodes, nodes, keys. rewrite length_map. reflexivity.
Qed.

(** On a consistent graph the search from any node succeeds. *)
Lemma plain_bfs_graph (G : Graph.t) (s : string) :
  wf G -> In s (nodes G) ->
  exists l,
    plain_bfs (nbrs G) (bfs_fuel G) s = Some l
    /\ NoDup l
    /\ incl l (nodes G)
    /\ forall x, In x l <-> reach (nbrs G) s x.
Proof.
  intros Hwf Hs. apply plain_bfs_spec.
  - apply nbrs_closed. exact Hwf.
  - exact Hs.
  - unfold bfs_fuel. rewrite number_of_nodes_length. lia.
Qed.

(** [is_connected] answers, for a non-empty consistent graph, whether
    every node can be reached from the first one. *)
Lemma is_connected_spec (G : Graph.t) (s : string) (rest : list string) :
  wf G -> nodes G = s :: rest ->
  exists b,
    is_connected G = Ok b
    /\ (b = true <-> forall x, In x (nodes G) -> reach (nbrs G) s x).
Proof.
  intros Hwf Hnodes.
  assert (Hs : In s (nodes G)) by (rewrite Hnodes; simpl; auto).
  destruct (plain_bfs_graph G s Hwf Hs) as (l & Hl & Hnd & Hincl & Hreach).
  exists (List.length l =? number_of_nodes G). split.
  { unfold is_connected. rewrite Hnodes, Hl. reflexivity. }
  rewrite Nat.eqb_eq, number_of_nodes_length. split.
  - intros Hlen x Hx. apply Hreach.
    apply (NoDup_length_incl Hnd (l' := nodes G)); [lia | exact Hincl | exact Hx].
  - intros Hall.
    assert (Hincl' : incl (nodes G) l).
    { intros x Hx. apply Hreach. apply Hall. exact Hx. }
    pose proof (NoDup_incl_length Hnd Hincl).
    pose proof (NoDup_incl_length (wf_nodes G Hwf) Hincl'). lia.
Qed.

End BfsFacts.

(* ------------------------------------------------------------------ *)
(** ** Graphs built by a sequence of additions

    Every generator is a sequence of [add_node] and [add_edge] calls on
    an empty graph.  The sequence is made explicit here, and what it
    builds is read off from it. *)

Module OpsFacts.

Import Dict DictFacts Graph GraphFacts.

Inductive op : Type :=
| AddNode (n : string) (a : attrs)
| AddEdge (u v : string) (a : attrs).

Definition apply_op (g : Graph.t) (o : op) : Graph.t :=
  match o with
  | AddNode n a => add_node g n a
  | AddEdge u v a => add_edge g u v a
  end.

Definition run (ops : list op) (g : Graph.t) : Graph.t :=
  fold_left apply_op ops g.

Lemma run_app (a b : list op) (g : Graph.t) : run (a ++ b) g = run b (run a g).
Proof. unfold run. apply fold_left_app. Qed.

(** A loop whose body is a sequence of additions is the sequence of the
    bodies. *)
Lemma fold_run {A : Type} (f : A -> list op) (xs : list A) :
  forall g, fold_left (fun g x => run (f x) g) xs g = run (flat_map f xs) g.
Proof.
  induction xs as [|x xs IH]; intros g; simpl; [reflexivity|].
  rewrite IH, run_app. reflexivity.
Qed.

Lemma fold_left_ext {A B : Type} (F F' : B -> A -> B) (xs : list A) :
  (forall b x, F b x = F' b x) ->
  forall b, fold_left F xs b = fold_left F' xs b.
Proof.
  intros H. induction xs as [|x xs IH]; intros b; simpl; [reflexivity|].
  rewrite H. apply IH.
Qed.

Lemma run_map {A : Type} (f : A -> op) (xs : list A) :
  forall g, run (map f xs) g = fold_left (fun g x => apply_op g (f x)) xs g.
Proof.
  induction xs as [|x xs IH]; intros g; simpl; [reflexivity|]. apply IH.
Qed.

Lemma wf_run (ops : list op) : forall g, wf g -> wf (run ops g).
Proof.
  induction ops as [|o ops IH]; intros g Hg; simpl; [exact Hg|].
  apply IH. destruct o; simpl; [apply wf_add_node | apply wf_add_edge]; exact Hg.
Qed.

(** The ids an addition mentions. *)
Definition mentions (o : op) : list string :=
  match o with
  | AddNode n _ => [n]
  | AddEdge u v _ => [u; v]
  end.

Lemma in_nodes_run (ops : list op) (x : string) :
  forall g, In x (nodes (run ops g)) <->
            In x (nodes g) \/ In x (flat_map mentions ops).
Proof.
  induction ops as [|o ops IH]; intros g; simpl; [tauto|].
  rewrite IH, in_app_iff. destruct o as [n a|u v a]; simpl.
  - rewrite in_nodes_add_node. intuition congruence.
  - rewrite in_nodes_add_edge. intuition congruence.
Qed.

(** Whether an addition is the edge between [x] and [y]. *)
Definition links (x y : string) (o : op) : bool :=
  match o with
  | AddNode _ _ => false
  | AddEdge u v _ =>
      (String.eqb x u && String.eqb y v) || (String.eqb x v && String.eqb y u)
  end.

Lemma links_sym (x y : string) (o : op) : links x y o = links y x o.
Proof.
  destruct o as [|u v a]; simpl; [reflexivity|].
  rewrite orb_comm. f_equal; apply andb_comm.
Qed.

Lemma set_same {V : Type} (k : string) (v : V) (d : Dict.t V) :
  get k d = Some v -> set k v d = d.
Proof.
  induction d as [|[k' v'] d IH]; simpl; [discriminate|].
  destruct (String.eqb k k') eqn:E; intros H.
  - injection H as ->. reflexivity.
  - f_equal. apply IH. exact H.
Qed.

Lemma set_absent {V : Type} (k : string) (v : V) (d : Dict.t V) :
  get k d = None -> set k v d = d ++ [(k, v)].
Proof.
  induction d as [|[k' v'] d IH]; simpl; [reflexivity|].
  destruct (String.eqb k k') eqn:E; intros H; [discriminate|].
  f_equal. apply IH. exact H.
Qed.

(** Updating a dictionary with entries it already holds changes
    nothing. *)
Lemma update_same {V : Type} (a : Dict.t V) :
  forall d, (forall k v, In (k, v) a -> get k d = Some v) -> update d a = d.
Proof.
  unfold update. induction a as [|[k v] a IH]; intros d H; simpl; [reflexivity|].
  rewrite set_same by (apply H; simpl; auto).
  apply IH. intros k' v' Hin. apply H. simpl. auto.
Qed.

Lemma get_app_r {V : Type} (k : string) (d1 d2 : Dict.t V) :
  get k d1 = None -> get k (d1 ++ d2) = get k d2.
Proof.
  induction d1 as [|[k' v'] d1 IH]; simpl; [reflexivity|].
  destruct (String.eqb k k'); [discriminate | exact IH].
Qed.

Lemma nodup_get {V : Type} (k : string) (v : V) (d : Dict.t V) :
  NoDup (keys d) -> In (k, v) d -> get k d = Some v.
Proof.
  induction d as [|[k' v'] d IH]; simpl; intros Hnd Hin; [tauto|].
  inversion Hnd as [|? ? Hnotin Hnd']; subst.
  destruct Hin as [Hin|Hin].
  - injection Hin as -> ->. rewrite String.eqb_refl. reflexivity.
  - destruct (String.eqb k k') eqn:E.
    + apply String.eqb_eq in E. subst k'. exfalso. apply Hnotin.
      unfold keys. apply in_map_iff. exists (k, v). auto.
    + apply IH; assumption.
Qed.

(** Updating the empty dictionary with keyword arguments gives those
    arguments. *)
Lemma update_app {V : Type} (a : Dict.t V) :
  forall d, NoDup (keys d ++ keys a) -> update d a = d ++ a.
Proof.
  unfold update. induction a as [|[k v] a IH]; intros d H; simpl.
  - rewrite app_nil_r. reflexivity.
  - rewrite set_absent.
    + rewrite IH.
      * rewrite <- app_assoc. reflexivity.
      * unfold keys in *. rewrite map_app, <- app_assoc. exact H.
    + apply get_None. simpl in H. apply NoDup_remove_2 in H.
      rewrite in_app_iff in H. tauto.
Qed.

Lemma update_nil {V : Type} (a : Dict.t V) : NoDup (keys a) -> update [] a = a.
Proof.
  intros H. apply (update_app a []). exact H.
Qed.

Lemma update_self {V : Type} (a : Dict.t V) : NoDup (keys a) -> update a a = a.
Proof.
  intros H. apply update_same. intros k v Hin. apply nodup_get; assumption.
Qed.

Section EdgeData.

(** The attributes the construction gives the edge between two ids. *)
Variable attr_of : string -> string -> attrs.
Hypothesis attr_sym : forall x y, attr_of x y = attr_of y x.
Hypothesis attr_nodup : forall x y, NoDup (keys (attr_of x y)).

(** Every edge addition of the sequence carries those attributes. *)
Definition conforms (o : op) : Prop :=
  match o with
  | AddNode _ _ => True
  | AddEdge u v a => a = attr_of u v
  end.

(** The edges of [g] carry those attributes. *)
Definition edges_conform (g : Graph.t) : Prop :=
  forall x y, get_edge_data g x y = None
              \/ get_edge_data g x y = Some (attr_of x y).

Lemma get_edge_data_apply (g : Graph.t) (o : op) (x y : string) :
  keys (_adj g) = nodes g -> edges_conform g -> conforms o ->
  get_edge_data (apply_op g o) x y =
    if links x y o then Some (attr_of x y) else get_edge_data g x y.
Proof.
  intros Hk Hg Ho. destruct o as [n a|u v a]; simpl.
  - apply get_edge_data_add_node. exact Hk.
  - simpl in Ho. subst a. rewrite get_edge_data_add_edge by exact Hk.
    destruct ((String.eqb x u && String.eqb y v)
              || (String.eqb x v && String.eqb y u)) eqn:E; [|reflexivity].
    f_equal. unfold edge_datadict.
    assert (Hattr : attr_of u v = attr_of x y).
    { apply orb_true_iff in E. destruct E as [E|E];
        apply andb_true_iff in E; destruct E as [E1 E2];
        apply String.eqb_eq in E1, E2; subst; [reflexivity | apply attr_sym]. }
    destruct (Hg u v) as [H|H]; rewrite H.
    + rewrite update_nil by apply attr_nodup. exact Hattr.
    + rewrite update_self by apply attr_nodup. exact Hattr.
Qed.

Lemma keys_apply (g : Graph.t) (o : op) :
  keys (_adj g) = nodes g -> keys (_adj (apply_op g o)) = nodes (apply_op g o).
Proof.
  intros Hk. destruct o; simpl;
    [apply adj_keys_add_node | apply adj_keys_add_edge]; exact Hk.
Qed.

Lemma edges_conform_apply (g : Graph.t) (o : op) :
  keys (_adj g) = nodes g -> edges_conform g -> conforms o ->
  edges_conform (apply_op g o).
Proof.
  intros Hk Hg Ho x y. rewrite get_edge_data_apply by assumption.
  destruct (links x y o); [right; reflexivity | apply Hg].
Qed.

(** The edge data a sequence of additions leaves. *)
Lemma get_edge_data_run (ops : list op) (x y : string) :
  forall g,
    keys (_adj g) = nodes g -> edges_conform g -> Forall conforms ops ->
    get_edge_data (run ops g) x y =
      if existsb (links x y) ops then Some (attr_of x y)
      else get_edge_data g x y.
Proof.
  induction ops as [|o ops IH]; intros g Hk Hg Hops; simpl; [reflexivity|].
  inversion Hops as [|? ? Ho Hops']; subst.
  rewrite IH.
  - rewrite get_edge_data_apply by assumption.
    destruct (links x y o); simpl.
    + destruct (existsb (links x y) ops); reflexivity.
    + reflexivity.
  - apply keys_apply. exact Hk.
  - apply edges_conform_apply; assumption.
  - exact Hops'.
Qed.

Lemma edges_conform_empty : edges_conform empty.
Proof. intros x y. left. reflexivity. Qed.

End EdgeData.

(** Counting a duplicate-free list through another with the same
    members. *)
Lemma length_same_members (l l' : list string) :
  NoDup l -> NoDup l' -> (forall x, In x l <-> In x l') ->
  List.length l = List.length l'.
Proof.
  intros H H' Hiff.
  assert (A : List.length l <= List.length l').
  { apply NoDup_incl_length; [exact H|]. intros x Hx. apply Hiff. exact Hx. }
  assert (B : List.length l' <= List.length l).
  { apply NoDup_incl_length; [exact H'|]. intros x Hx. apply Hiff. exact Hx. }
  lia.
Qed.

(** The degree of a node without a self-loop is the number of its
    neighbours. *)
Lemma degree_no_loop (G : Graph.t) (x : string) :
  ~ In x (nbrs G x) -> degree G x = List.length (nbrs G x).
Proof.
  intros H. unfold degree. apply has_false in H. unfold nbrs in H. rewrite H.
  unfold nbrs, keys. rewrite length_map. lia.
Qed.

Lemma degree_by_members (G : Graph.t) (x : string) (l : list string) :
  wf G -> NoDup l -> (forall y, In y (nbrs G x) <-> In y l) -> ~ In x l ->
  degree G x = List.length l.
Proof.
  intros Hwf Hl Hiff Hx. rewrite degree_no_loop.
  - apply length_same_members; [apply (wf_nbrs G Hwf) | exact Hl | exact Hiff].
  - rewrite Hiff. exact Hx.
Qed.

Lemma list_sum_const (f : string -> nat) (c : nat) (l : list string) :
  (forall x, In x l -> f x = c) -> list_sum (map f l) = c * List.length l.
Proof.
  induction l as [|x l IH]; intros H; simpl; [lia|].
  rewrite H by (simpl; auto). rewrite IH by (intros y Hy; apply H; simpl; auto).
  lia.
Qed.

End OpsFacts.

(* ------------------------------------------------------------------ *)
(** ** The ring generator *)

Module RingFacts.

Import Dict DictFacts Graph GraphFacts OpsFacts BfsFacts.

Definition ring_attr : attrs := Builder.link 1000 1500 "serial".

(** The successor of an index on the ring. *)
Definition succ_index (n i : nat) : nat := (i + 1) mod n.

Lemma succ_index_small (n i : nat) : S i < n -> succ_index n i = S i.
Proof.
  intros H. unfold succ_index. rewrite Nat.add_1_r. apply Nat.mod_small. exact H.
Qed.

Lemma succ_index_wrap (n i : nat) : S i = n -> succ_index n i = 0.
Proof.
  intros H. unfold succ_index. rewrite Nat.add_1_r, H. apply Nat.Div0.mod_same.
Qed.

Lemma succ_index_lt (n i : nat) : i < n -> succ_index n i < n.
Proof.
  intros H. unfold succ_index. apply Nat.mod_upper_bound. lia.
Qed.

(** The additions the generator performs. *)
Definition ring_ops (nodes : list string) : list op :=
  map (fun n => AddNode n [("device_type", VStr "router")]) nodes
  ++ map (fun i => AddEdge (nth i nodes "")
                     (nth (succ_index (List.length nodes) i) nodes "") ring_attr)
       (seq 0 (List.length nodes)).

Lemma create_ring_run (nodes : list string) :
  3 <= List.length nodes ->
  Builder.create_ring_topology nodes = run (ring_ops nodes) empty.
Proof.
  intros H. unfold Builder.create_ring_topology.
  destruct (List.length nodes <? 3) eqn:E; [apply Nat.ltb_lt in E; lia|].
  unfold ring_ops. rewrite run_app, !run_map. reflexivity.
Qed.

Section Ring.

Variable nodes : list string.
Hypothesis nodes_distinct : NoDup nodes.
Hypothesis enough : 3 <= List.length nodes.

Let n := List.length nodes.
Let G := Builder.create_ring_topology nodes.
Let node (i : nat) : string := nth i nodes "".

Lemma ring_wf : wf G.
Proof.
  unfold G. rewrite create_ring_run by exact enough.
  apply wf_run, wf_empty.
Qed.

Lemma node_inj (i j : nat) : i < n -> j < n -> node i = node j -> i = j.
Proof.
  intros Hi Hj H. apply (proj1 (NoDup_nth nodes "") nodes_distinct); assumption.
Qed.

Lemma node_at (x : string) : In x nodes -> exists i, i < n /\ x = node i.
Proof.
  intros H. destruct (In_nth nodes x "" H) as (i & Hi & Hx). eauto.
Qed.

Lemma ring_nodes (x : string) : In x (Graph.nodes G) <-> In x nodes.
Proof.
  unfold G. rewrite create_ring_run by exact enough.
  rewrite in_nodes_run. unfold ring_ops. rewrite flat_map_app, in_app_iff.
  rewrite !in_flat_map. simpl. split.
  - intros [[]|[(o & Ho & Hx)|(o & Ho & Hx)]].
    + apply in_map_iff in Ho. destruct Ho as (m & <- & Hm).
      simpl in Hx. destruct Hx as [<-|[]]. exact Hm.
    + apply in_map_iff in Ho. destruct Ho as (i & <- & Hi).
      apply in_seq in Hi. simpl in Hx.
      destruct Hx as [<-|[<-|[]]]; apply nth_In.
      * lia.
      * apply succ_index_lt. lia.
  - intros Hx. right. left. exists (AddNode x [("device_type", VStr "router")]).
    split; [|simpl; auto]. apply in_map_iff. eauto.
Qed.

(** Two ids are adjacent exactly when they are consecutive on the ring. *)
Lemma ring_nbrs (x y : string) :
  In y (nbrs G x) <->
  exists i, i < n /\ ((x = node i /\ y = node (succ_index n i))
                      \/ (x = node (succ_index n i) /\ y = node i)).
Proof.
  rewrite in_nbrs. unfold G. rewrite create_ring_run by exact enough.
  rewrite (get_edge_data_run (fun _ _ => ring_attr)); try reflexivity.
  - unfold ring_ops. rewrite existsb_app.
    assert (Hnone : existsb (links x y)
                      (map (fun m => AddNode m [("device_type", VStr "router")]) nodes)
                    = false).
    { clear. induction nodes as [|m ms IH]; simpl; [reflexivity | exact IH]. }
    rewrite Hnone. clear Hnone. simpl orb.
    destruct (existsb _ _) eqn:E.
    + apply existsb_exists in E. destruct E as (o & Ho & Hl).
      apply in_map_iff in Ho. destruct Ho as (i & <- & Hi).
      apply in_seq in Hi. simpl in Hl.
      split; [intros _ | eauto].
      exists i. split; [lia|].
      apply orb_true_iff in Hl. destruct Hl as [Hl|Hl];
        apply andb_true_iff in Hl; destruct Hl as [H1 H2];
        apply String.eqb_eq in H1, H2; auto.
    + split; [intros [a Ha]; discriminate|].
      intros (i & Hi & Hxy). exfalso.
      assert (Ht : existsb (links x y)
                     (map (fun i => AddEdge (nth i nodes "")
                                      (nth (succ_index (List.length nodes) i) nodes "")
                                      ring_attr)
                          (seq 0 (List.length nodes))) = true).
      { apply existsb_exists.
        exists (AddEdge (node i) (node (succ_index n i)) ring_attr). split.
        - apply in_map_iff. exists i. split; [reflexivity|].
          apply in_seq. fold n. lia.
        - simpl. destruct Hxy as [[-> ->]|[-> ->]];
            rewrite !String.eqb_refl; simpl; auto using orb_true_r. }
      congruence.
  - intros a b. repeat constructor; simpl; intuition discriminate.
  - apply edges_conform_empty.
  - unfold ring_ops. apply Forall_app. split; apply Forall_forall;
      intros o Ho; apply in_map_iff in Ho; destruct Ho as (m & <- & _);
      simpl; auto.
Qed.

(** The predecessor of an index on the ring. *)
Definition pred_index (i : nat) : nat := if i =? 0 then n - 1 else i - 1.

Lemma succ_pred (i : nat) : i < n -> succ_index n (pred_index i) = i.
Proof.
  intros H. unfold pred_index. destruct (i =? 0) eqn:E.
  - apply Nat.eqb_eq in E. subst i. apply succ_index_wrap. fold n. lia.
  - apply Nat.eqb_neq in E. rewrite succ_index_small; lia.
Qed.

Lemma succ_index_inj (i j : nat) :
  i < n -> j < n -> succ_index n i = succ_index n j -> i = j.
Proof.
  intros Hi Hj.
  destruct (Nat.eq_dec (S i) n) as [Ei|Ei];
    destruct (Nat.eq_dec (S j) n) as [Ej|Ej];
    try rewrite (succ_index_wrap n i Ei);
    try rewrite (succ_index_wrap n j Ej);
    try rewrite (succ_index_small n i) by lia;
    try rewrite (succ_index_small n j) by lia; lia.
Qed.

Lemma ring_nbrs_of_node (j : nat) (y : string) :
  j < n ->
  (In y (nbrs G (node j)) <-> In y [node (succ_index n j); node (pred_index j)]).
Proof.
  intros Hj. rewrite ring_nbrs. simpl. split.
  - intros (i & Hi & [[Hx Hy]|[Hx Hy]]).
    + apply node_inj in Hx; try assumption. subst i. auto.
    + apply node_inj in Hx; [|assumption | apply succ_index_lt; assumption].
      right. left. subst y. f_equal.
      apply succ_index_inj; [unfold pred_index; destruct (j =? 0); lia | exact Hi |].
      rewrite succ_pred by exact Hj. exact Hx.
  - intros [<-|[<-|[]]].
    + exists j. auto.
    + exists (pred_index j). split.
      * unfold pred_index. destruct (j =? 0); lia.
      * right. rewrite succ_pred by exact Hj. auto.
Qed.

Lemma ring_degree (x : string) : In x nodes -> degree G x = 2.
Proof.
  intros Hx. destruct (node_at x Hx) as (j & Hj & ->).
  assert (Hsj : succ_index n j < n) by (apply succ_index_lt; exact Hj).
  assert (Hpj : pred_index j < n) by (unfold pred_index; destruct (j =? 0); lia).
  assert (Hsp : succ_index n j <> pred_index j).
  { unfold pred_index. destruct (Nat.eq_dec (S j) n) as [E|E].
    - rewrite (succ_index_wrap n j E). destruct (j =? 0) eqn:E0.
      + apply Nat.eqb_eq in E0. unfold n in *. lia.
      + unfold n in *. lia.
    - rewrite (succ_index_small n j) by lia. destruct (j =? 0) eqn:E0.
      + apply Nat.eqb_eq in E0. unfold n in *. lia.
      + apply Nat.eqb_neq in E0. lia. }
  assert (Hs : succ_index n j <> j).
  { destruct (Nat.eq_dec (S j) n) as [E|E].
    - rewrite (succ_index_wrap n j E). lia.
    - rewrite (succ_index_small n j) by lia. lia. }
  assert (Hp : pred_index j <> j).
  { unfold pred_index. destruct (j =? 0) eqn:E0.
    - apply Nat.eqb_eq in E0. lia.
    - apply Nat.eqb_neq in E0. lia. }
  rewrite (degree_by_members G (node j)
             [node (succ_index n j); node (pred_index j)]).
  - reflexivity.
  - apply ring_wf.
  - repeat constructor; simpl; [|tauto].
    intros [H|[]]. apply node_inj in H; auto.
  - intros y. apply ring_nbrs_of_node. exact Hj.
  - simpl. intros [H|[H|[]]]; apply node_inj in H; auto.
Qed.

Lemma ring_node_count : List.length (Graph.nodes G) = n.
Proof.
  apply length_same_members.
  - apply (wf_nodes G ring_wf).
  - exact nodes_distinct.
  - apply ring_nodes.
Qed.

Lemma ring_edge_count : number_of_edges G = n.
Proof.
  unfold number_of_edges, degrees, values. rewrite map_map.
  rewrite (list_sum_const _ 2).
  - rewrite ring_node_count. rewrite Nat.mul_comm. apply Nat.div_mul. lia.
  - intros x Hx. simpl. apply ring_degree. apply ring_nodes. exact Hx.
Qed.

Lemma ring_reach_from_first (i : nat) :
  i < n -> reach (nbrs G) (node 0) (node i).
Proof.
  induction i as [|i IH]; intros Hi; [constructor|].
  eapply reach_step; [apply IH; lia|].
  apply ring_nbrs. exists i. split; [lia|]. left.
  rewrite succ_index_small by exact Hi. auto.
Qed.

Lemma ring_connected : Nx.is_connected G = Ok true.
Proof.
  destruct (Graph.nodes G) as [|s rest] eqn:E.
  - pose proof ring_node_count as H. rewrite E in H. simpl in H. lia.
  - destruct (is_connected_spec G s rest ring_wf E) as (b & Hb & Hiff).
    rewrite Hb. f_equal. apply Hiff. intros x Hx.
    assert (Hs : In s nodes) by (apply ring_nodes; rewrite E; simpl; auto).
    apply ring_nodes in Hx.
    destruct (node_at s Hs) as (i & Hi & ->).
    destruct (node_at x Hx) as (j & Hj & ->).
    apply (reach_trans _ _ (node 0)).
    + apply reach_sym; [apply nbrs_sym, ring_wf|].
      apply ring_reach_from_first. exact Hi.
    + apply ring_reach_from_first. exact Hj.
Qed.

End Ring.

End RingFacts.

(** C4.  For a list of [N >= 3] distinct ids the ring generator builds a
    graph on exactly these ids with [N] edges, every node of degree 2,
    and connected; for fewer than three ids it returns the empty graph. *)
Theorem C4_ring_generator (nodes : list string) :
  (NoDup nodes -> 3 <= List.length nodes ->
   let G := Builder.create_ring_topology nodes in
   Graph.number_of_edges G = List.length nodes
   /\ (forall x, In x nodes -> Graph.degree G x = 2)
   /\ (forall x, In x (Graph.nodes G) <-> In x nodes)
   /\ Nx.is_connected G = Ok true)
  /\ (List.length nodes < 3 -> Builder.create_ring_topology nodes = Graph.empty).
Proof.
  split.
  - intros Hnd Hlen G. repeat split.
    + apply RingFacts.ring_edge_count; assumption.
    + intros x Hx. apply RingFacts.ring_degree; assumption.
    + apply RingFacts.ring_nodes; assumption.
    + apply RingFacts.ring_nodes; assumption.
    + apply RingFacts.ring_connected; assumption.
  - intros Hlen. unfold Builder.create_ring_topology.
    apply Nat.ltb_lt in Hlen. rewrite Hlen. reflexivity.
Qed.

(* ------------------------------------------------------------------ *)
(** ** The spine-leaf generator *)

Module SpineLeafFacts.

Import Dict DictFacts Graph GraphFacts OpsFacts PyStr PyStrFacts.
Import Builder.

(** *** The generated names are pairwise distinct *)

Lemma of_nat_inj (a b : nat) : of_nat a = of_nat b -> a = b.
Proof.
  unfold of_nat. intros H.
  apply (f_equal NilEmpty.uint_of_string) in H.
  rewrite !NilEmpty.usu in H. injection H as H.
  apply (f_equal Nat.of_uint) in H.
  rewrite !DecimalNat.Unsigned.of_to in H. exact H.
Qed.

Lemma string_of_uint_no_dash (d : Decimal.uint) :
  contains "-" (NilEmpty.string_of_uint d) = false.
Proof.
  induction d; simpl; auto.
Qed.

Lemma of_nat_no_dash (n : nat) : contains "-" (of_nat n) = false.
Proof. apply string_of_uint_no_dash. Qed.

Lemma append_inj_l (p s1 s2 : string) : p +++ s1 = p +++ s2 -> s1 = s2.
Proof.
  induction p as [|c p IH]; simpl; intros H; [exact H|].
  injection H as H. auto.
Qed.

Lemma spine_name_inj (i j : nat) : spine_name i = spine_name j -> i = j.
Proof.
  unfold spine_name. intros H. apply append_inj_l, of_nat_inj in H. lia.
Qed.

Lemma leaf_name_inj (i j : nat) : leaf_name i = leaf_name j -> i = j.
Proof.
  unfold leaf_name. intros H. apply append_inj_l, of_nat_inj in H. lia.
Qed.

Lemma spine_not_leaf (i j : nat) : spine_name i <> leaf_name j.
Proof. unfold spine_name, leaf_name. simpl. discriminate. Qed.

Lemma leaf_no_dash (j : nat) : contains "-" (leaf_name j) = false.
Proof. unfold leaf_name. simpl. apply of_nat_no_dash. Qed.

Lemma spine_no_dash (j : nat) : contains "-" (spine_name j) = false.
Proof. unfold spine_name. simpl. apply of_nat_no_dash. Qed.

Lemma host_name_split (l : string) (k : nat) :
  host_name l k = l +++ String "-" ("host" +++ of_nat (k + 1)).
Proof. reflexivity. Qed.

Lemma host_has_dash (l : string) (k : nat) : contains "-" (host_name l k) = true.
Proof. rewrite host_name_split. apply contains_app_sep. Qed.

Lemma host_name_inj (j j' k k' : nat) :
  host_name (leaf_name j) k = host_name (leaf_name j') k' -> j = j' /\ k = k'.
Proof.
  rewrite !host_name_split. intros H.
  pose proof (f_equal (before "-") H) as Hb.
  pose proof (f_equal (after "-") H) as Ha.
  rewrite !before_app_sep in Hb by apply leaf_no_dash.
  rewrite !after_app_sep in Ha by apply leaf_no_dash.
  split.
  - apply leaf_name_inj. exact Hb.
  - apply append_inj_l, of_nat_inj in Ha. lia.
Qed.

Lemma host_not_leaf (l : string) (j k : nat) : host_name l k <> leaf_name j.
Proof.
  intros H. pose proof (host_has_dash l k) as Hd.
  rewrite H, leaf_no_dash in Hd. discriminate.
Qed.

Lemma host_not_spine (l : string) (j k : nat) : host_name l k <> spine_name j.
Proof.
  intros H. pose proof (host_has_dash l k) as Hd.
  rewrite H, spine_no_dash in Hd. discriminate.
Qed.

Lemma fold_left_cong {A B : Type} (F F' : B -> A -> B) (xs : list A) (b b' : B) :
  (forall b x, F b x = F' b x) -> b = b' ->
  fold_left F xs b = fold_left F' xs b'.
Proof.
  intros H ->. apply fold_left_ext. exact H.
Qed.

(** *** The additions the generator performs *)

Definition spine_attrs : attrs :=
  [("role", VStr "spine"); ("device_type", VStr "switch"); ("tier", VStr "spine")].
Definition leaf_attrs : attrs :=
  [("role", VStr "leaf"); ("device_type", VStr "switch"); ("tier", VStr "leaf")].
Definition host_attrs : attrs :=
  [("role", VStr "host"); ("device_type", VStr "server"); ("tier", VStr "access")].
Definition core_link : attrs := link 10000 9000 "ethernet".
Definition access_link : attrs := link 1000 1500 "ethernet".

Definition hosts_of (leaf : string) : list string :=
  map (host_name leaf) (range 2).

Section SpineLeaf.

Variables spine_count leaf_count : Z.

Let S := Z.to_nat spine_count.
Let L := Z.to_nat leaf_count.
Let spines := map spine_name (range spine_count).
Let leaves := map leaf_name (range leaf_count).
Let G := create_spine_leaf_topology spine_count leaf_count.


Definition core_ops : list op :=
  flat_map (fun s => map (fun l => AddEdge s l core_link) leaves) spines.

Definition access_ops : list op :=
  flat_map
    (fun l => flat_map
                (fun i => [AddNode (host_name l i) host_attrs;
                           AddEdge l (host_name l i) access_link])
                (range 2))
    leaves.

Definition spine_leaf_ops : list op :=
  map (fun s => AddNode s spine_attrs) spines
  ++ map (fun l => AddNode l leaf_attrs) leaves
  ++ core_ops ++ access_ops.

Lemma create_spine_leaf_run : G = run spine_leaf_ops empty.
Proof.
  unfold G, create_spine_leaf_topology, spine_leaf_ops.
  rewrite !run_app, !run_map.
  unfold core_ops, access_ops. rewrite <- !fold_run.
  fold spines. fold leaves.
  apply fold_left_cong.
  - intros g l. rewrite <- fold_run. reflexivity.
  - apply fold_left_cong; [|reflexivity].
    intros g s. rewrite run_map. reflexivity.
Qed.

(** The attributes of the edge between two ids: the core links are
    those with a spine endpoint. *)
Definition attr_of (x y : string) : attrs :=
  if mem x spines || mem y spines then core_link else access_link.

Lemma in_spines (x : string) : In x spines <-> exists i, i < S /\ x = spine_name i.
Proof.
  unfold spines, range. rewrite in_map_iff. split.
  - intros (i & <- & Hi). apply in_seq in Hi. exists i.
    split; [exact (proj2 Hi) | reflexivity].
  - intros (i & Hi & ->). exists i. split; [reflexivity|]. apply in_seq.
    split; [apply Nat.le_0_l | exact Hi].
Qed.

Lemma in_leaves (x : string) : In x leaves <-> exists j, j < L /\ x = leaf_name j.
Proof.
  unfold leaves, range. rewrite in_map_iff. split.
  - intros (i & <- & Hi). apply in_seq in Hi. exists i.
    split; [exact (proj2 Hi) | reflexivity].
  - intros (i & Hi & ->). exists i. split; [reflexivity|]. apply in_seq.
    split; [apply Nat.le_0_l | exact Hi].
Qed.

Lemma in_hosts_of (l x : string) :
  In x (hosts_of l) <-> exists k, k < 2 /\ x = host_name l k.
Proof.
  unfold hosts_of, range. rewrite in_map_iff. split.
  - intros (i & <- & Hi). apply in_seq in Hi. exists i.
    split; [exact (proj2 Hi) | reflexivity].
  - intros (i & Hi & ->). exists i. split; [reflexivity|]. apply in_seq.
    split; [apply Nat.le_0_l | exact Hi].
Qed.

Lemma leaf_not_in_spines (l : string) : In l leaves -> ~ In l spines.
Proof.
  intros Hl Hs. apply in_leaves in Hl. apply in_spines in Hs.
  destruct Hl as (j & _ & ->). destruct Hs as (i & _ & H).
  symmetry in H. exact (spine_not_leaf i j H).
Qed.

Lemma host_not_in_spines (l h : string) : In h (hosts_of l) -> ~ In h spines.
Proof.
  intros Hh Hs. apply in_hosts_of in Hh. apply in_spines in Hs.
  destruct Hh as (k & _ & ->). destruct Hs as (i & _ & H).
  exact (host_not_spine l i k H).
Qed.

Lemma host_not_in_leaves (l h : string) : In h (hosts_of l) -> ~ In h leaves.
Proof.
  intros Hh Hs. apply in_hosts_of in Hh. apply in_leaves in Hs.
  destruct Hh as (k & _ & ->). destruct Hs as (i & _ & H).
  exact (host_not_leaf l i k H).
Qed.

Lemma attr_of_sym (x y : string) : attr_of x y = attr_of y x.
Proof. unfold attr_of. rewrite orb_comm. reflexivity. Qed.

Lemma attr_of_nodup (x y : string) : NoDup (keys (attr_of x y)).
Proof.
  unfold attr_of. destruct (_ || _); simpl;
    repeat constructor; simpl; intuition discriminate.
Qed.

Lemma ops_conform : Forall (conforms attr_of) spine_leaf_ops.
Proof.
  unfold spine_leaf_ops. repeat (apply Forall_app; split).
  - apply Forall_forall. intros o Ho. apply in_map_iff in Ho.
    destruct Ho as (s & <- & _). exact I.
  - apply Forall_forall. intros o Ho. apply in_map_iff in Ho.
    destruct Ho as (s & <- & _). exact I.
  - apply Forall_forall. intros o Ho. unfold core_ops in Ho.
    apply in_flat_map in Ho. destruct Ho as (s & Hs & Ho).
    apply in_map_iff in Ho. destruct Ho as (l & <- & Hl). simpl.
    unfold attr_of. apply mem_In in Hs. rewrite Hs. reflexivity.
  - apply Forall_forall. intros o Ho. unfold access_ops in Ho.
    apply in_flat_map in Ho. destruct Ho as (l & Hl & Ho).
    apply in_flat_map in Ho. destruct Ho as (i & Hi & Ho).
    simpl in Ho. destruct Ho as [<-|[<-|[]]]; simpl; [exact I|].
    unfold attr_of.
    assert (H1 : mem l spines = false).
    { apply mem_false. apply leaf_not_in_spines. exact Hl. }
    assert (H2 : mem (host_name l i) spines = false).
    { apply mem_false. apply (host_not_in_spines l).
      unfold hosts_of. apply in_map. exact Hi. }
    rewrite H1, H2. reflexivity.
Qed.

(** Which pairs of ids the generator links. *)
Definition adjacent (x y : string) : Prop :=
  (In x spines /\ In y leaves) \/ (In y spines /\ In x leaves)
  \/ (In x leaves /\ In y (hosts_of x)) \/ (In y leaves /\ In x (hosts_of y)).

Lemma links_eq (x y u v : string) (a : attrs) :
  links x y (AddEdge u v a) = true <-> (x = u /\ y = v) \/ (x = v /\ y = u).
Proof.
  simpl. rewrite orb_true_iff, !andb_true_iff, !String.eqb_eq. tauto.
Qed.

Lemma linked_iff_adjacent (x y : string) :
  existsb (links x y) spine_leaf_ops = true <-> adjacent x y.
Proof.
  rewrite existsb_exists. unfold spine_leaf_ops, adjacent. split.
  - intros (o & Ho & Hl). rewrite !in_app_iff in Ho.
    destruct Ho as [Ho|[Ho|[Ho|Ho]]].
    + apply in_map_iff in Ho. destruct Ho as (s & <- & _). discriminate.
    + apply in_map_iff in Ho. destruct Ho as (s & <- & _). discriminate.
    + unfold core_ops in Ho. apply in_flat_map in Ho.
      destruct Ho as (s & Hs & Ho). apply in_map_iff in Ho.
      destruct Ho as (l & <- & Hl'). apply links_eq in Hl.
      destruct Hl as [[-> ->]|[-> ->]]; tauto.
    + unfold access_ops in Ho. apply in_flat_map in Ho.
      destruct Ho as (l & Hl' & Ho). apply in_flat_map in Ho.
      destruct Ho as (i & Hi & Ho). simpl in Ho.
      destruct Ho as [<-|[<-|[]]]; [discriminate|].
      assert (Hh : In (host_name l i) (hosts_of l)).
      { unfold hosts_of. apply in_map. exact Hi. }
      apply links_eq in Hl. destruct Hl as [[-> ->]|[-> ->]]; tauto.
  - intros [[Hx Hy]|[[Hy Hx]|[[Hx Hy]|[Hy Hx]]]].
    + exists (AddEdge x y core_link). split; [|apply links_eq; tauto].
      rewrite !in_app_iff. right. right. left. unfold core_ops.
      apply in_flat_map. exists x. split; [exact Hx|].
      apply in_map_iff. eauto.
    + exists (AddEdge y x core_link). split; [|apply links_eq; tauto].
      rewrite !in_app_iff. right. right. left. unfold core_ops.
      apply in_flat_map. exists y. split; [exact Hy|].
      apply in_map_iff. eauto.
    + unfold hosts_of in Hy. apply in_map_iff in Hy.
      destruct Hy as (i & <- & Hi).
      exists (AddEdge x (host_name x i) access_link).
      split; [|apply links_eq; tauto].
      rewrite !in_app_iff. right. right. right. unfold access_ops.
      apply in_flat_map. exists x. split; [exact Hx|].
      apply in_flat_map. exists i. split; [exact Hi|]. simpl. auto.
    + unfold hosts_of in Hx. apply in_map_iff in Hx.
      destruct Hx as (i & <- & Hi).
      exists (AddEdge y (host_name y i) access_link).
      split; [|apply links_eq; tauto].
      rewrite !in_app_iff. right. right. right. unfold access_ops.
      apply in_flat_map. exists y. split; [exact Hy|].
      apply in_flat_map. exists i. split; [exact Hi|]. simpl. auto.
Qed.

Lemma sl_wf : wf G.
Proof. rewrite create_spine_leaf_run. apply wf_run, wf_empty. Qed.

Lemma sl_edge_data (x y : string) :
  get_edge_data G x y =
    if existsb (links x y) spine_leaf_ops then Some (attr_of x y) else None.
Proof.
  rewrite create_spine_leaf_run.
  apply (get_edge_data_run attr_of attr_of_sym attr_of_nodup).
  - reflexivity.
  - apply edges_conform_empty.
  - apply ops_conform.
Qed.

Lemma sl_nbrs (x y : string) : In y (nbrs G x) <-> adjacent x y.
Proof.
  rewrite in_nbrs, sl_edge_data, <- linked_iff_adjacent.
  destruct (existsb (links x y) spine_leaf_ops); split; eauto; try discriminate.
  intros [a Ha]. discriminate.
Qed.

Lemma nodup_map_inj {A : Type} (f : A -> string) (l : list A) :
  (forall a b, f a = f b -> a = b) -> NoDup l -> NoDup (map f l).
Proof.
  intros Hinj. induction 1 as [|a l Ha Hl IH]; simpl; constructor; [|exact IH].
  intros Hin. apply in_map_iff in Hin. destruct Hin as (b & Hb & Hin).
  apply Hinj in Hb. subst. tauto.
Qed.

Lemma nodup_spines : NoDup spines.
Proof. apply nodup_map_inj; [apply spine_name_inj | apply seq_NoDup]. Qed.

Lemma nodup_leaves : NoDup leaves.
Proof. apply nodup_map_inj; [apply leaf_name_inj | apply seq_NoDup]. Qed.

Lemma nodup_hosts_of (l : string) : In l leaves -> NoDup (hosts_of l).
Proof.
  intros Hl. apply in_leaves in Hl. destruct Hl as (j & _ & ->).
  apply nodup_map_inj; [|apply seq_NoDup].
  intros a b H. apply host_name_inj in H. tauto.
Qed.

Lemma length_spines : List.length spines = S.
Proof. unfold spines, range. rewrite length_map, length_seq. reflexivity. Qed.

Lemma length_leaves : List.length leaves = L.
Proof. unfold leaves, range. rewrite length_map, length_seq. reflexivity. Qed.

Lemma spine_degree (s : string) : In s spines -> degree G s = L.
Proof.
  intros Hs. rewrite <- length_leaves.
  apply (degree_by_members G s leaves sl_wf nodup_leaves).
  - intros y. rewrite sl_nbrs. unfold adjacent. split; [|tauto].
    intros [[_ H]|[[_ H]|[[H _]|[_ H]]]].
    + exact H.
    + exfalso. exact (leaf_not_in_spines s H Hs).
    + exfalso. exact (leaf_not_in_spines s H Hs).
    + exfalso. exact (host_not_in_spines y s H Hs).
  - intros H. exact (leaf_not_in_spines s H Hs).
Qed.

Lemma leaf_degree (l : string) : In l leaves -> degree G l = S + 2.
Proof.
  intros Hl.
  assert (Hlen : List.length (spines ++ hosts_of l) = S + 2).
  { rewrite length_app, length_spines. unfold hosts_of, range.
    rewrite length_map, length_seq. reflexivity. }
  rewrite <- Hlen.
  apply (degree_by_members G l (spines ++ hosts_of l) sl_wf).
  - apply NoDup_app; [apply nodup_spines | apply nodup_hosts_of; exact Hl |].
    intros x Hx Hh. exact (host_not_in_spines l x Hh Hx).
  - intros y. rewrite sl_nbrs, in_app_iff. unfold adjacent. split.
    + intros [[H _]|[[H _]|[[_ H]|[_ H]]]].
      * exfalso. exact (leaf_not_in_spines l Hl H).
      * auto.
      * auto.
      * exfalso. exact (host_not_in_leaves y l H Hl).
    + intros [H|H]; tauto.
  - rewrite in_app_iff. intros [H|H].
    + exact (leaf_not_in_spines l Hl H).
    + exact (host_not_in_leaves l l H Hl).
Qed.

Lemma host_degree (l h : string) :
  In l leaves -> In h (hosts_of l) -> degree G h = 1.
Proof.
  intros Hl Hh.
  apply (degree_by_members G h [l] sl_wf).
  - repeat constructor. simpl. tauto.
  - intros y. rewrite sl_nbrs. unfold adjacent. simpl. split.
    + intros [[H _]|[[_ H]|[[H _]|[Hy H]]]].
      * exfalso. exact (host_not_in_spines l h Hh H).
      * exfalso. exact (host_not_in_leaves l h Hh H).
      * exfalso. exact (host_not_in_leaves l h Hh H).
      * left. apply in_leaves in Hl, Hy. apply in_hosts_of in Hh, H.
        destruct Hl as (j & _ & ->). destruct Hy as (j' & _ & ->).
        destruct Hh as (k & _ & ->). destruct H as (k' & _ & H).
        apply host_name_inj in H. destruct H as [-> _]. reflexivity.
    + intros [<-|[]]. tauto.
  - simpl. intros [<-|[]]. exact (host_not_in_leaves l l Hh Hl).
Qed.

(** *** Counting the edges *)

Definition all_hosts : list string := flat_map hosts_of leaves.
Definition all_nodes : list string := spines ++ leaves ++ all_hosts.

Lemma in_all_hosts (x : string) :
  In x all_hosts <-> exists l, In l leaves /\ In x (hosts_of l).
Proof. unfold all_hosts. apply in_flat_map. Qed.

Lemma nodup_flat_hosts (ls : list string) :
  NoDup ls -> incl ls leaves -> NoDup (flat_map hosts_of ls).
Proof.
  induction 1 as [|l ls Hl Hls IH]; intros Hincl; [constructor|].
  change (flat_map hosts_of (l :: ls)) with (hosts_of l ++ flat_map hosts_of ls).
  assert (Hin : In l leaves) by (apply Hincl; simpl; auto).
  apply NoDup_app.
  - apply nodup_hosts_of. exact Hin.
  - apply IH. intros x Hx. apply Hincl. simpl. auto.
  - intros x Hx Hx'. apply in_flat_map in Hx'. destruct Hx' as (l' & Hl' & Hx').
    assert (Hin' : In l' leaves) by (apply Hincl; simpl; auto).
    apply in_leaves in Hin, Hin'. apply in_hosts_of in Hx, Hx'.
    destruct Hin as (j & _ & ->). destruct Hin' as (j' & _ & ->).
    destruct Hx as (k & _ & ->). destruct Hx' as (k' & _ & H).
    apply host_name_inj in H. destruct H as [H _].
    apply Hl. rewrite H. exact Hl'.
Qed.

Lemma nodup_all_nodes : NoDup all_nodes.
Proof.
  unfold all_nodes. apply NoDup_app; [apply nodup_spines | |].
  - apply NoDup_app; [apply nodup_leaves | |].
    + apply nodup_flat_hosts; [apply nodup_leaves | apply incl_refl].
    + intros x Hx Hh. apply in_all_hosts in Hh. destruct Hh as (l & _ & Hh).
      exact (host_not_in_leaves l x Hh Hx).
  - intros x Hx Hx'. apply in_app_iff in Hx'. destruct Hx' as [Hx'|Hx'].
    + exact (leaf_not_in_spines x Hx' Hx).
    + apply in_all_hosts in Hx'. destruct Hx' as (l & _ & Hh).
      exact (host_not_in_spines l x Hh Hx).
Qed.

Lemma sl_nodes (x : string) : In x (Graph.nodes G) <-> In x all_nodes.
Proof.
  rewrite create_spine_leaf_run, in_nodes_run. unfold all_nodes.
  rewrite !in_app_iff, in_all_hosts. unfold spine_leaf_ops.
  rewrite !flat_map_app, !in_app_iff, !in_flat_map. split.
  - intros [[]|[(o & Ho & Hx)|[(o & Ho & Hx)|[(o & Ho & Hx)|(o & Ho & Hx)]]]].
    + apply in_map_iff in Ho. destruct Ho as (s & <- & Hs).
      simpl in Hx. destruct Hx as [<-|[]]. auto.
    + apply in_map_iff in Ho. destruct Ho as (s & <- & Hs).
      simpl in Hx. destruct Hx as [<-|[]]. auto.
    + unfold core_ops in Ho. apply in_flat_map in Ho.
      destruct Ho as (s & Hs & Ho). apply in_map_iff in Ho.
      destruct Ho as (l & <- & Hl). simpl in Hx.
      destruct Hx as [<-|[<-|[]]]; auto.
    + unfold access_ops in Ho. apply in_flat_map in Ho.
      destruct Ho as (l & Hl & Ho). apply in_flat_map in Ho.
      destruct Ho as (i & Hi & Ho).
      assert (Hh : In (host_name l i) (hosts_of l)).
      { unfold hosts_of. apply in_map. exact Hi. }
      simpl in Ho. destruct Ho as [<-|[<-|[]]]; simpl in Hx.
      * destruct Hx as [<-|[]]. right. right. eauto.
      * destruct Hx as [<-|[<-|[]]]; [auto|]. right. right. eauto.
  - intros [Hx|[Hx|(l & Hl & Hx)]].
    + right. left. exists (AddNode x spine_attrs). split; [|simpl; auto].
      apply in_map_iff. eauto.
    + right. right. left. exists (AddNode x leaf_attrs). split; [|simpl; auto].
      apply in_map_iff. eauto.
    + right. right. right. right.
      unfold hosts_of in Hx. apply in_map_iff in Hx. destruct Hx as (i & <- & Hi).
      exists (AddNode (host_name l i) host_attrs). split; [|simpl; auto].
      unfold access_ops. apply in_flat_map. exists l. split; [exact Hl|].
      apply in_flat_map. exists i. split; [exact Hi|]. simpl. auto.
Qed.

Lemma list_sum_perm (l l' : list nat) : Permutation l l' -> list_sum l = list_sum l'.
Proof.
  induction 1; simpl; lia.
Qed.

Lemma length_all_hosts : List.length all_hosts = 2 * L.
Proof.
  unfold all_hosts. rewrite <- length_leaves.
  induction leaves as [|l ls IH]; simpl; [reflexivity|].
  rewrite IH. lia.
Qed.

Lemma sl_degree_sum :
  list_sum (map (degree G) (Graph.nodes G)) = 2 * (S * L + 2 * L).
Proof.
  rewrite (list_sum_perm _ (map (degree G) all_nodes)).
  - unfold all_nodes. rewrite !map_app, !list_sum_app.
    rewrite (list_sum_const (degree G) L spines)
      by (intros; apply spine_degree; assumption).
    rewrite (list_sum_const (degree G) (S + 2) leaves)
      by (intros; apply leaf_degree; assumption).
    rewrite (list_sum_const (degree G) 1 all_hosts).
    + rewrite length_spines, length_leaves, length_all_hosts. lia.
    + intros x Hx. apply in_all_hosts in Hx. destruct Hx as (l & Hl & Hx).
      apply (host_degree l); assumption.
  - apply Permutation_map. apply NoDup_Permutation.
    + apply (wf_nodes G sl_wf).
    + apply nodup_all_nodes.
    + apply sl_nodes.
Qed.

Lemma sl_edge_count : number_of_edges G = S * L + 2 * L.
Proof.
  unfold number_of_edges, degrees, values. rewrite map_map.
  change (map (fun x => snd (x, degree G x)) (Graph.nodes G))
    with (map (degree G) (Graph.nodes G)).
  rewrite sl_degree_sum. rewrite Nat.mul_comm. apply Nat.div_mul. lia.
Qed.

Lemma core_edge_data (s l : string) :
  In s spines -> In l leaves -> get_edge_data G s l = Some core_link.
Proof.
  intros Hs Hl. rewrite sl_edge_data.
  assert (H : existsb (links s l) spine_leaf_ops = true).
  { apply linked_iff_adjacent. unfold adjacent. tauto. }
  rewrite H. unfold attr_of. apply mem_In in Hs. rewrite Hs. reflexivity.
Qed.

Lemma access_edge_data (l h : string) :
  In l leaves -> In h (hosts_of l) -> get_edge_data G l h = Some access_link.
Proof.
  intros Hl Hh. rewrite sl_edge_data.
  assert (H : existsb (links l h) spine_leaf_ops = true).
  { apply linked_iff_adjacent. unfold adjacent. tauto. }
  rewrite H. unfold attr_of.
  assert (H1 : mem l spines = false).
  { apply mem_false. apply leaf_not_in_spines. exact Hl. }
  assert (H2 : mem h spines = false).
  { apply mem_false. apply (host_not_in_spines l). exact Hh. }
  rewrite H1, H2. reflexivity.
Qed.

End SpineLeaf.

End SpineLeafFacts.

(** C5.  For [S >= 0] spines and [L >= 0] leaves the spine-leaf generator
    builds [S*L + 2*L] edges: every spine is linked to every leaf with
    bandwidth 10000 and mtu 9000, every leaf to its two hosts with
    bandwidth 1000 and mtu 1500, and there is no other edge; every spine
    has degree [L] and every leaf degree [S + 2]. *)
Theorem C5_spine_leaf_generator (spine_count leaf_count : Z) :
  (0 <= spine_count)%Z -> (0 <= leaf_count)%Z ->
  let G := Builder.create_spine_leaf_topology spine_count leaf_count in
  let S := Z.to_nat spine_count in
  let L := Z.to_nat leaf_count in
  Z.of_nat (Graph.number_of_edges G)
  = (spine_count * leaf_count + 2 * leaf_count)%Z
  /\ (forall i j, i < S -> j < L ->
        Graph.get_edge_data G (Builder.spine_name i) (Builder.leaf_name j)
        = Some (Builder.link 10000 9000 "ethernet"))
  /\ (forall j k, j < L -> k < 2 ->
        Graph.get_edge_data G (Builder.leaf_name j)
          (Builder.host_name (Builder.leaf_name j) k)
        = Some (Builder.link 1000 1500 "ethernet"))
  /\ (forall x y, In y (Graph.nbrs G x) ->
        (exists i j, i < S /\ j < L
           /\ ((x = Builder.spine_name i /\ y = Builder.leaf_name j)
               \/ (x = Builder.leaf_name j /\ y = Builder.spine_name i)))
        \/ (exists j k, j < L /\ k < 2
              /\ ((x = Builder.leaf_name j
                   /\ y = Builder.host_name (Builder.leaf_name j) k)
                  \/ (x = Builder.host_name (Builder.leaf_name j) k
                      /\ y = Builder.leaf_name j))))
  /\ (forall i, i < S -> Graph.degree G (Builder.spine_name i) = L)
  /\ (forall j, j < L -> Graph.degree G (Builder.leaf_name j) = S + 2).
Proof.
  intros HS HL G S L. subst G S L.
  assert (Hsp : forall i, i < Z.to_nat spine_count ->
                  In (Builder.spine_name i)
                     (map Builder.spine_name (Builder.range spine_count))).
  { intros i Hi. apply SpineLeafFacts.in_spines. eauto. }
  assert (Hlf : forall j, j < Z.to_nat leaf_count ->
                  In (Builder.leaf_name j)
                     (map Builder.leaf_name (Builder.range leaf_count))).
  { intros j Hj. apply SpineLeafFacts.in_leaves. eauto. }
  assert (Hho : forall l k, k < 2 ->
                  In (Builder.host_name l k) (SpineLeafFacts.hosts_of l)).
  { intros l k Hk. apply SpineLeafFacts.in_hosts_of. eauto. }
  split; [|split; [|split; [|split; [|split]]]].
  - rewrite SpineLeafFacts.sl_edge_count. lia.
  - intros i j Hi Hj. apply SpineLeafFacts.core_edge_data; auto.
  - intros j k Hj Hk. apply SpineLeafFacts.access_edge_data; auto.
  - intros x y Hxy. apply SpineLeafFacts.sl_nbrs in Hxy.
    destruct Hxy as [[Hx Hy]|[[Hy Hx]|[[Hx Hy]|[Hy Hx]]]].
    + apply SpineLeafFacts.in_spines in Hx. apply SpineLeafFacts.in_leaves in Hy.
      destruct Hx as (i & Hi & ->). destruct Hy as (j & Hj & ->).
      left. exists i, j. auto.
    + apply SpineLeafFacts.in_spines in Hy. apply SpineLeafFacts.in_leaves in Hx.
      destruct Hx as (j & Hj & ->). destruct Hy as (i & Hi & ->).
      left. exists i, j. auto.
    + apply SpineLeafFacts.in_leaves in Hx. destruct Hx as (j & Hj & ->).
      apply SpineLeafFacts.in_hosts_of in Hy. destruct Hy as (k & Hk & ->).
      right. exists j, k. auto.
    + apply SpineLeafFacts.in_leaves in Hy. destruct Hy as (j & Hj & ->).
      apply SpineLeafFacts.in_hosts_of in Hx. destruct Hx as (k & Hk & ->).
      right. exists j, k. auto.
  - intros i Hi. apply SpineLeafFacts.spine_degree. auto.
  - intros j Hj. apply SpineLeafFacts.leaf_degree. auto.
Qed.

Lemma C5_spine_leaf_generator_witness :
  Z.of_nat (Graph.number_of_edges (Builder.create_spine_leaf_topology 2 3))
  = (2 * 3 + 2 * 3)%Z.
Proof.
  exact (proj1 (C5_spine_leaf_generator 2 3 (proj1 (Z.leb_le 0 2) eq_refl)
                  (proj1 (Z.leb_le 0 3) eq_refl))).
Defined.

Lemma C4_ring_generator_witness :
  Graph.number_of_edges (Builder.create_ring_topology ["a"; "b"; "c"; "d"]) = 4
  /\ Nx.is_connected (Builder.create_ring_topology ["a"; "b"; "c"; "d"]) = Ok true.
Proof.
  assert (Hnd : NoDup ["a"; "b"; "c"; "d"]).
  { repeat constructor; simpl; intuition discriminate. }
  assert (Hlen : 3 <= List.length ["a"; "b"; "c"; "d"]) by (simpl; lia).
  destruct (proj1 (C4_ring_generator ["a"; "b"; "c"; "d"]) Hnd Hlen)
    as (H1 & _ & _ & H4).
  split; [exact H1 | exact H4].
Defined.

(* ------------------------------------------------------------------ *)
(** ** The articulation-point search

    The loop of [_biconnected_dfs] is followed through a derivation,
    [visits], with one rule for each branch of the loop body and the
    search below a newly discovered child as a premise.  The invariants
    are proved on derivations; [visits_exists] and [visits_loop] then show
    that the loop carries out the derivation of the start frame within
    the turns [dfs_fuel] allows. *)

Module DfsFacts.

Import Dict DictFacts Nx BfsFacts.

Lemma getn_set_eq (k : string) (n : nat) (d : Dict.t nat) :
  getn k (set k n d) = n.
Proof. unfold getn. rewrite get_set_eq. reflexivity. Qed.

Lemma getn_set_neq (k k' : string) (n : nat) (d : Dict.t nat) :
  k <> k' -> getn k' (set k n d) = getn k' d.
Proof. intros H. unfold getn. rewrite get_set_neq by exact H. reflexivity. Qed.

Lemma nodup_app_disjoint (l new : list string) :
  NoDup (l ++ new) -> forall x, In x new -> ~ In x l.
Proof.
  induction l as [|y l IH]; simpl; intros Hnd x Hx Hx'; [tauto|].
  inversion Hnd as [|? ? Hy Hl]; subst. destruct Hx' as [->|Hx'].
  - apply Hy. apply in_app_iff. auto.
  - exact (IH Hl x Hx Hx').
Qed.

(** What the pop of the frame of [child] does, seen from the frame of
    its parent: [root] tells whether [parent] is the start node, that is,
    whether one frame is left on the stack. *)
Definition pop_child (root : bool) (parent child : string) (st : dfs_state)
  : dfs_state :=
  if root then count_root_child st else articulation_test parent child st.

(** Discovery time and low-link of a node in a search state. *)
Definition dsc (st : dfs_state) (x : string) : nat := getn x (discovery st).
Definition lw (st : dfs_state) (x : string) : nat := getn x (low st).

Section Search.

Variable adj : string -> list string.
Variable nodes : list string.
Hypothesis closed : forall x y, In x nodes -> In y (adj x) -> In y nodes.
Hypothesis sym : forall x y, In y (adj x) -> In x (adj y).

(** Consistency of the bookkeeping: discovery times are the positions in
    the order of visit. *)
Record wfst (st : dfs_state) : Prop := mkWfst {
  ws_nodup : NoDup (visited st);
  ws_keys : keys (discovery st) = visited st;
  ws_bound : forall x, In x (visited st) -> dsc st x < List.length (visited st);
  ws_inj : forall x y, In x (visited st) -> In y (visited st) ->
                       dsc st x = dsc st y -> x = y;
  ws_nodes : incl (visited st) nodes
}.

(** How a later state of the search on [p] relates to an earlier one. *)
Definition extends (st st' : dfs_state) (p : string) : Prop :=
  (exists new, visited st' = visited st ++ new
               /\ forall x, In x new -> List.length (visited st) <= dsc st' x)
  /\ (forall x, In x (visited st) -> dsc st' x = dsc st x)
  /\ (forall x, In x (visited st) -> x <> p -> lw st' x = lw st x)
  /\ lw st' p <= lw st p
  /\ (exists o, yielded st' = yielded st ++ o).

Lemma extends_refl (st : dfs_state) (p : string) : extends st st p.
Proof.
  unfold extends. split; [|split; [|split; [|split]]]; auto.
  - exists []. rewrite app_nil_r. split; [reflexivity|]. intros x [].
  - exists []. rewrite app_nil_r. reflexivity.
Qed.

Lemma extends_visited (st st' : dfs_state) (p : string) :
  extends st st' p -> forall x, In x (visited st) -> In x (visited st').
Proof.
  intros [(new & Hv & _) _] x Hx. rewrite Hv. apply in_app_iff. auto.
Qed.

Lemma extends_length (st st' : dfs_state) (p : string) :
  extends st st' p -> List.length (visited st) <= List.length (visited st').
Proof.
  intros [(new & Hv & _) _]. rewrite Hv, length_app. lia.
Qed.

Lemma extends_trans (st st1 st2 : dfs_state) (p : string) :
  extends st st1 p -> extends st1 st2 p -> extends st st2 p.
Proof.
  intros H1 H2.
  pose proof (extends_visited _ _ _ H1) as Hin.
  destruct H1 as ((n1 & V1 & B1) & D1 & L1 & P1 & (o1 & O1)).
  destruct H2 as ((n2 & V2 & B2) & D2 & L2 & P2 & (o2 & O2)).
  unfold extends. split; [|split; [|split; [|split]]].
  - exists (n1 ++ n2). split.
    + rewrite V2, V1, app_assoc. reflexivity.
    + intros x Hx. apply in_app_iff in Hx. destruct Hx as [Hx|Hx].
      * rewrite D2 by (rewrite V1; apply in_app_iff; auto). apply B1. exact Hx.
      * apply B2 in Hx. rewrite V1, length_app in Hx. lia.
  - intros x Hx. rewrite D2 by (apply Hin; exact Hx). apply D1. exact Hx.
  - intros x Hx Hp. rewrite L2 by (try apply Hin; assumption). apply L1; assumption.
  - lia.
  - exists (o1 ++ o2). rewrite O2, O1, app_assoc. reflexivity.
Qed.

(** *** The three steps of the search *)

Lemma length_discovery (st : dfs_state) :
  wfst st -> List.length (discovery st) = List.length (visited st).
Proof.
  intros H. rewrite <- (ws_keys st H). unfold keys. rewrite length_map. reflexivity.
Qed.

Lemma visited_discover (c : string) (st : dfs_state) :
  visited (discover c st) = visited st ++ [c].
Proof. reflexivity. Qed.

Lemma dsc_discover_new (c : string) (st : dfs_state) :
  wfst st -> dsc (discover c st) c = List.length (visited st).
Proof.
  intros H. unfold dsc, discover. simpl. rewrite getn_set_eq.
  apply length_discovery. exact H.
Qed.

Lemma dsc_discover_old (c x : string) (st : dfs_state) :
  x <> c -> dsc (discover c st) x = dsc st x.
Proof.
  intros H. unfold dsc, discover. simpl. apply getn_set_neq. congruence.
Qed.

Lemma lw_discover_new (c : string) (st : dfs_state) :
  wfst st -> lw (discover c st) c = List.length (visited st).
Proof.
  intros H. unfold lw, discover. simpl. rewrite getn_set_eq.
  apply length_discovery. exact H.
Qed.

Lemma lw_discover_old (c x : string) (st : dfs_state) :
  x <> c -> lw (discover c st) x = lw st x.
Proof.
  intros H. unfold lw, discover. simpl. apply getn_set_neq. congruence.
Qed.

Lemma wfst_discover (c : string) (st : dfs_state) :
  wfst st -> ~ In c (visited st) -> In c nodes -> wfst (discover c st).
Proof.
  intros H Hc Hn. pose proof (dsc_discover_new c st H) as Hnew.
  destruct H as [Hnd Hk Hb Hi Hs]. constructor.
  - rewrite visited_discover. apply NoDup_app; [exact Hnd | repeat constructor; simpl; tauto |].
    intros x Hx [->|[]]. tauto.
  - unfold discover. simpl. rewrite keys_set_absent by (rewrite Hk; exact Hc).
    rewrite Hk. reflexivity.
  - intros x Hx. rewrite visited_discover, length_app in *. simpl.
    apply in_app_iff in Hx. destruct Hx as [Hx|[<-|[]]].
    + rewrite dsc_discover_old by (intros ->; tauto). apply Hb in Hx. lia.
    + rewrite Hnew. lia.
  - intros x y Hx Hy. rewrite visited_discover in *.
    apply in_app_iff in Hx, Hy.
    destruct Hx as [Hx|[<-|[]]]; destruct Hy as [Hy|[<-|[]]].
    + rewrite !dsc_discover_old by (intros ->; tauto). apply Hi; assumption.
    + rewrite Hnew, dsc_discover_old by (intros ->; tauto).
      intros E. apply Hb in Hx. lia.
    + rewrite Hnew, dsc_discover_old by (intros ->; tauto).
      intros E. apply Hb in Hy. lia.
    + reflexivity.
  - rewrite visited_discover. intros x Hx. apply in_app_iff in Hx.
    destruct Hx as [Hx|[<-|[]]]; auto.
Qed.

Lemma extends_discover (c p : string) (st : dfs_state) :
  wfst st -> ~ In c (visited st) -> In p (visited st) ->
  extends st (discover c st) p.
Proof.
  intros H Hc Hp.
  assert (Hpc : p <> c) by (intros ->; tauto).
  unfold extends. split; [|split; [|split; [|split]]].
  - exists [c]. split; [reflexivity|]. intros x [<-|[]].
    rewrite dsc_discover_new by exact H. lia.
  - intros x Hx. apply dsc_discover_old. intros ->. tauto.
  - intros x Hx _. apply lw_discover_old. intros ->. tauto.
  - rewrite lw_discover_old by exact Hpc. lia.
  - exists []. rewrite app_nil_r. reflexivity.
Qed.

(** States that differ in [low], the yields and the child count only. *)
Definition same_search (st st' : dfs_state) : Prop :=
  visited st' = visited st /\ discovery st' = discovery st.

Lemma wfst_same (st st' : dfs_state) : same_search st st' -> wfst st -> wfst st'.
Proof.
  intros [Hv Hd] [Hnd Hk Hb Hi Hs].
  constructor; unfold dsc in *; rewrite ?Hv, ?Hd; assumption.
Qed.

Lemma same_back_edge (p c : string) (st : dfs_state) :
  same_search st (back_edge p c st).
Proof.
  unfold back_edge. destruct (_ <=? _); split; reflexivity.
Qed.

Lemma same_pop_child (root : bool) (p c : string) (st : dfs_state) :
  same_search st (pop_child root p c st).
Proof.
  unfold pop_child, articulation_test, count_root_child. destruct root; [split; reflexivity|].
  destruct (_ <=? _); split; reflexivity.
Qed.

Lemma dsc_same (st st' : dfs_state) (x : string) :
  same_search st st' -> dsc st' x = dsc st x.
Proof. intros [_ Hd]. unfold dsc. rewrite Hd. reflexivity. Qed.

Lemma lw_back_edge (p c x : string) (st : dfs_state) :
  lw (back_edge p c st) x =
    if String.eqb p x then
      (if dsc st c <=? dsc st p then Nat.min (lw st p) (dsc st c) else lw st p)
    else lw st x.
Proof.
  unfold back_edge, lw, dsc.
  destruct (getn c (discovery st) <=? getn p (discovery st)); simpl.
  - destruct (String.eqb p x) eqn:E.
    + apply String.eqb_eq in E. subst. apply getn_set_eq.
    + apply String.eqb_neq in E. apply getn_set_neq. exact E.
  - destruct (String.eqb p x) eqn:E; [|reflexivity].
    apply String.eqb_eq in E. subst. reflexivity.
Qed.

Lemma yielded_back_edge (p c : string) (st : dfs_state) :
  yielded (back_edge p c st) = yielded st
  /\ root_children (back_edge p c st) = root_children st.
Proof.
  unfold back_edge. destruct (_ <=? _); split; reflexivity.
Qed.

Lemma lw_pop_child (root : bool) (p c x : string) (st : dfs_state) :
  lw (pop_child root p c st) x =
    if root then lw st x
    else if String.eqb p x then Nat.min (lw st c) (lw st p) else lw st x.
Proof.
  unfold pop_child, articulation_test, count_root_child, lw. destruct root; [reflexivity|].
  destruct (getn p (discovery st) <=? getn c (low st)); simpl;
    (destruct (String.eqb p x) eqn:E;
     [ apply String.eqb_eq in E; subst; apply getn_set_eq
     | apply String.eqb_neq in E; apply getn_set_neq; exact E ]).
Qed.

Lemma yielded_pop_child (root : bool) (p c : string) (st : dfs_state) :
  yielded (pop_child root p c st) =
    if root then yielded st
    else if dsc st p <=? lw st c then yielded st ++ [p] else yielded st.
Proof.
  unfold pop_child, articulation_test, count_root_child, dsc, lw. destruct root; [reflexivity|].
  destruct (getn p (discovery st) <=? getn c (low st)); reflexivity.
Qed.

Lemma root_children_pop_child (root : bool) (p c : string) (st : dfs_state) :
  root_children (pop_child root p c st) =
    if root then S (root_children st) else root_children st.
Proof.
  unfold pop_child, articulation_test, count_root_child. destruct root; [reflexivity|].
  destruct (_ <=? _); reflexivity.
Qed.

Lemma extends_same (st st' : dfs_state) (p : string) :
  same_search st st' ->
  (forall x, x <> p -> lw st' x = lw st x) ->
  lw st' p <= lw st p ->
  (exists o, yielded st' = yielded st ++ o) ->
  extends st st' p.
Proof.
  intros Hs Hl Hp Ho. pose proof (dsc_same st st') as Hd.
  destruct Hs as [Hv Hdisc].
  unfold extends. split; [|split; [|split; [|split]]]; auto.
  - exists []. rewrite app_nil_r. split; [exact Hv|]. intros x [].
  - intros x _. apply Hd. split; assumption.
Qed.

Lemma extends_back_edge (p c : string) (st : dfs_state) :
  extends st (back_edge p c st) p.
Proof.
  apply extends_same.
  - apply same_back_edge.
  - intros x Hx. rewrite lw_back_edge.
    apply String.eqb_neq in Hx. rewrite String.eqb_sym, Hx. reflexivity.
  - rewrite lw_back_edge, String.eqb_refl. destruct (_ <=? _); lia.
  - exists []. rewrite app_nil_r. apply yielded_back_edge.
Qed.

Lemma extends_pop_child (root : bool) (p c : string) (st : dfs_state) :
  extends st (pop_child root p c st) p.
Proof.
  apply extends_same.
  - apply same_pop_child.
  - intros x Hx. rewrite lw_pop_child. destruct root; [reflexivity|].
    apply String.eqb_neq in Hx. rewrite String.eqb_sym, Hx. reflexivity.
  - rewrite lw_pop_child. destruct root; [lia|].
    rewrite String.eqb_refl. lia.
  - rewrite yielded_pop_child. destruct root.
    + exists []. rewrite app_nil_r. reflexivity.
    + destruct (_ <=? _); [eauto|]. exists []. rewrite app_nil_r. reflexivity.
Qed.

(** What the search below a child does, seen from its parent. *)
Lemma extends_via_child (c p : string) (st st2 : dfs_state) :
  wfst st -> ~ In c (visited st) -> In p (visited st) ->
  extends (discover c st) st2 c -> extends st st2 p.
Proof.
  intros H Hc Hp H2.
  pose proof (extends_discover c p st H Hc Hp) as H1.
  assert (Hpc : p <> c) by (intros ->; tauto).
  pose proof (extends_visited _ _ _ H1) as Hin.
  destruct H1 as ((n1 & V1 & B1) & D1 & L1 & P1 & (o1 & O1)).
  destruct H2 as ((n2 & V2 & B2) & D2 & L2 & P2 & (o2 & O2)).
  unfold extends. split; [|split; [|split; [|split]]].
  - exists (n1 ++ n2). split.
    + rewrite V2, V1, app_assoc. reflexivity.
    + intros x Hx. apply in_app_iff in Hx. destruct Hx as [Hx|Hx].
      * rewrite D2 by (rewrite V1; apply in_app_iff; auto). apply B1. exact Hx.
      * apply B2 in Hx. rewrite V1, length_app in Hx. lia.
  - intros x Hx. rewrite D2 by (apply Hin; exact Hx). apply D1. exact Hx.
  - intros x Hx Hxp. rewrite L2.
    + apply L1; assumption.
    + apply Hin. exact Hx.
    + intros ->. tauto.
  - rewrite L2 by (try apply Hin; assumption). exact P1.
  - exists (o1 ++ o2). rewrite O2, O1, app_assoc. reflexivity.
Qed.

(** *** The search as a derivation

    [visits root gp p cs st st']: handling the children [cs] of [p]
    (whose parent is [gp]) takes the search from [st] to [st']. *)

Inductive visits : bool -> string -> string -> list string ->
                   dfs_state -> dfs_state -> Prop :=
| visits_nil : forall root gp p st,
    visits root gp p [] st st
| visits_skip : forall root gp p rest st st',
    visits root gp p rest st st' ->
    visits root gp p (gp :: rest) st st'
| visits_back : forall root gp p c rest st st',
    c <> gp -> In c (visited st) ->
    visits root gp p rest (back_edge p c st) st' ->
    visits root gp p (c :: rest) st st'
| visits_tree : forall root gp p c rest st st2 st',
    c <> gp -> ~ In c (visited st) ->
    visits false p c (adj c) (discover c st) st2 ->
    visits root gp p rest (pop_child root p c st2) st' ->
    visits root gp p (c :: rest) st st'.

(** The standing assumptions on a frame of the search. *)
Record frame (root : bool) (gp p : string) (cs : list string)
    (st : dfs_state) : Prop := mkFrame {
  fr_wf : wfst st;
  fr_p : In p (visited st);
  fr_gp : In gp (visited st);
  fr_cs : incl cs (adj p);
  fr_node : In p nodes;
  fr_below : root = false -> dsc st gp < dsc st p;
  fr_top : root = true -> gp = p /\ dsc st p = 0
}.

Lemma frame_skip root gp p c rest st :
  frame root gp p (c :: rest) st -> frame root gp p rest st.
Proof.
  intros [A B C D E F G]. constructor; auto.
  intros x Hx. apply D. simpl. auto.
Qed.

Lemma frame_same root gp p c rest st st' :
  same_search st st' ->
  frame root gp p (c :: rest) st -> frame root gp p rest st'.
Proof.
  intros Hs [A B C D E F G]. pose proof (dsc_same st st') as Hd.
  destruct Hs as [Hv Hdisc].
  constructor; rewrite ?Hv, ?Hd by (split; assumption); auto.
  - apply (wfst_same st); [split|]; assumption.
  - intros x Hx. apply D. simpl. auto.
Qed.

Lemma frame_child root gp p c rest st :
  frame root gp p (c :: rest) st -> ~ In c (visited st) ->
  frame false p c (adj c) (discover c st).
Proof.
  intros [A B C D E F G] Hc.
  assert (Hcn : In c nodes).
  { apply (closed p); [exact E|]. apply D. simpl. auto. }
  constructor.
  - apply wfst_discover; assumption.
  - rewrite visited_discover. apply in_app_iff. simpl. auto.
  - rewrite visited_discover. apply in_app_iff. auto.
  - apply incl_refl.
  - exact Hcn.
  - intros _. rewrite dsc_discover_new by exact A.
    rewrite dsc_discover_old by (intros ->; tauto).
    apply (ws_bound st A). exact B.
  - discriminate.
Qed.

(** *** The structure of a search *)

Lemma visits_extends :
  forall (root : bool) (gp p : string) (cs : list string) (st st' : dfs_state),
    visits root gp p cs st st' ->
    frame root gp p cs st ->
    wfst st' /\ extends st st' p
    /\ (root = false -> root_children st' = root_children st)
    /\ incl cs (visited st').
Proof.
  induction 1 as [root gp p st
                 |root gp p rest st st' Hrest IH
                 |root gp p c rest st st' Hne Hc Hrest IH
                 |root gp p c rest st st2 st' Hne Hc Hchild IHc Hrest IH];
    intros Hfr.
  - split; [apply (fr_wf _ _ _ _ _ Hfr)|]. split; [apply extends_refl|].
    split; [reflexivity|]. intros x [].
  - destruct (IH (frame_skip _ _ _ _ _ _ Hfr)) as (A & B & C & D).
    split; [exact A|]. split; [exact B|]. split; [exact C|].
    intros x [<-|Hx]; [|apply D; exact Hx].
    apply (extends_visited _ _ _ B). apply (fr_gp _ _ _ _ _ Hfr).
  - pose proof (same_back_edge p c st) as Hsame.
    pose proof (extends_back_edge p c st) as Hext.
    destruct (IH (frame_same _ _ _ _ _ _ _ Hsame Hfr)) as (A & B & C & D).
    split; [exact A|]. split; [eapply extends_trans; eassumption|].
    split.
    { intros Hr. rewrite (C Hr). apply yielded_back_edge. }
    intros x [<-|Hx]; [|apply D; exact Hx].
    apply (extends_visited _ _ _ B). destruct Hsame as [Hv _]. rewrite Hv. exact Hc.
  - pose proof (frame_child _ _ _ _ _ _ Hfr Hc) as Hfc.
    destruct (IHc Hfc) as (A2 & B2 & C2 & D2).
    pose proof (extends_via_child c p st st2 (fr_wf _ _ _ _ _ Hfr) Hc
                  (fr_p _ _ _ _ _ Hfr) B2) as Hst2.
    pose proof (same_pop_child root p c st2) as Hsame.
    pose proof (extends_pop_child root p c st2) as Hext3.
    assert (Hfr3 : frame root gp p rest (pop_child root p c st2)).
    { destruct Hfr as [A B C D E F G].
      pose proof (dsc_same st2 (pop_child root p c st2) gp Hsame) as Hd1.
      pose proof (dsc_same st2 (pop_child root p c st2) p Hsame) as Hd2.
      destruct Hst2 as (_ & Hdsc & _).
      destruct Hsame as [Hv Hdisc].
      constructor; rewrite ?Hv; auto.
      - apply (wfst_same st2); [split|]; assumption.
      - apply (extends_visited _ _ _ B2). rewrite visited_discover.
        apply in_app_iff. auto.
      - apply (extends_visited _ _ _ B2). rewrite visited_discover.
        apply in_app_iff. auto.
      - intros x Hx. apply D. simpl. auto.
      - intros Hr. rewrite Hd1, Hd2, !Hdsc by assumption. auto.
      - intros Hr. destruct (G Hr) as [G1 G2]. split; [exact G1|].
        rewrite Hd2, Hdsc by assumption. exact G2. }
    destruct (IH Hfr3) as (A & B & C & D).
    split; [exact A|]. split.
    { eapply extends_trans; [|exact B].
      eapply extends_trans; eassumption. }
    split.
    { intros Hr. rewrite (C Hr), root_children_pop_child. subst root.
      rewrite (C2 eq_refl). reflexivity. }
    intros x [<-|Hx]; [|apply D; exact Hx].
    apply (extends_visited _ _ _ B). destruct Hsame as [Hv _]. rewrite Hv.
    apply (extends_visited _ _ _ B2). rewrite visited_discover.
    apply in_app_iff. simpl. auto.
Qed.

(** The frame of the rest of the children, after the search below one
    of them. *)
Lemma frame_rest root gp p c rest st st2 :
  frame root gp p (c :: rest) st -> ~ In c (visited st) ->
  visits false p c (adj c) (discover c st) st2 ->
  frame root gp p rest (pop_child root p c st2).
Proof.
  intros Hfr Hc Hchild.
  pose proof (frame_child _ _ _ _ _ _ Hfr Hc) as Hfc.
  destruct (visits_extends _ _ _ _ _ _ Hchild Hfc) as (A2 & B2 & C2 & D2).
  pose proof (extends_via_child c p st st2 (fr_wf _ _ _ _ _ Hfr) Hc
                (fr_p _ _ _ _ _ Hfr) B2) as Hst2.
  pose proof (same_pop_child root p c st2) as Hsame.
  destruct Hfr as [A B C D E F G].
  pose proof (dsc_same st2 (pop_child root p c st2) gp Hsame) as Hd1.
  pose proof (dsc_same st2 (pop_child root p c st2) p Hsame) as Hd2.
  destruct Hst2 as (_ & Hdsc & _).
  destruct Hsame as [Hv Hdisc].
  constructor; rewrite ?Hv; auto.
  - apply (wfst_same st2); [split|]; assumption.
  - apply (extends_visited _ _ _ B2). rewrite visited_discover.
    apply in_app_iff. auto.
  - apply (extends_visited _ _ _ B2). rewrite visited_discover.
    apply in_app_iff. auto.
  - intros x Hx. apply D. simpl. auto.
  - intros Hr. rewrite Hd1, Hd2, !Hdsc by assumption. auto.
  - intros Hr. destruct (G Hr) as [G1 G2]. split; [exact G1|].
    rewrite Hd2, Hdsc by assumption. exact G2.
Qed.

(** *** Finished nodes have all their neighbours visited *)

Lemma extends_cases (st st' : dfs_state) (p w : string) :
  extends st st' p -> In w (visited st') ->
  In w (visited st)
  \/ (~ In w (visited st) /\ List.length (visited st) <= dsc st' w).
Proof.
  intros [(new & Hv & Hb) _] Hw. rewrite Hv in Hw. apply in_app_iff in Hw.
  destruct (in_dec string_dec w (visited st)) as [Hin|Hout]; [auto|].
  destruct Hw as [Hw|Hw]; [tauto|]. right. split; [exact Hout | apply Hb; exact Hw].
Qed.

Lemma extends_dsc (st st' : dfs_state) (p x : string) :
  extends st st' p -> In x (visited st) -> dsc st' x = dsc st x.
Proof. intros (_ & D & _) Hx. apply D. exact Hx. Qed.

(** [fin p st]: every node discovered after [p] has all its neighbours
    visited. *)
Definition fin (p : string) (st : dfs_state) : Prop :=
  forall w, In w (visited st) -> dsc st p < dsc st w -> incl (adj w) (visited st).

Lemma fin_same (p : string) (st st' : dfs_state) :
  same_search st st' -> fin p st -> fin p st'.
Proof.
  intros Hs Hf w Hw Hlt. rewrite !(dsc_same st st') in Hlt by exact Hs.
  destruct Hs as [Hv _]. rewrite Hv in *. apply Hf; assumption.
Qed.

Lemma fin_discover (c : string) (st : dfs_state) :
  wfst st -> ~ In c (visited st) -> In c nodes -> fin c (discover c st).
Proof.
  intros Hwf Hc Hn w Hw Hlt.
  pose proof (ws_bound _ (wfst_discover c st Hwf Hc Hn) w Hw) as Hb.
  rewrite dsc_discover_new in Hlt by exact Hwf.
  rewrite visited_discover, length_app in Hb. simpl in Hb. lia.
Qed.

(** After the search below a child [c] of [p], the nodes discovered
    after [p] are finished. *)
Lemma fin_after_child (p c : string) (st st2 : dfs_state) :
  wfst st -> In p (visited st) -> ~ In c (visited st) ->
  extends (discover c st) st2 c ->
  incl (adj c) (visited st2) ->
  fin p st -> fin c st2 -> fin p st2.
Proof.
  intros Hwf Hp Hc Hext Hadj Hfp Hfc w Hw Hlt.
  assert (Hc1 : In c (visited (discover c st))).
  { rewrite visited_discover. apply in_app_iff. simpl. auto. }
  assert (Hold : forall x, In x (visited st) -> dsc st2 x = dsc st x).
  { intros x Hx. rewrite (extends_dsc _ _ _ _ Hext).
    - apply dsc_discover_old. intros ->. tauto.
    - rewrite visited_discover. apply in_app_iff. auto. }
  assert (Hdc : dsc st2 c = List.length (visited st)).
  { rewrite (extends_dsc _ _ _ _ Hext) by exact Hc1.
    apply dsc_discover_new. exact Hwf. }
  destruct (extends_cases _ _ _ _ Hext Hw) as [Hw1|[Hw1 Hge]].
  - rewrite visited_discover in Hw1. apply in_app_iff in Hw1.
    destruct Hw1 as [Hw1|[<-|[]]].
    + rewrite (Hold w Hw1), (Hold p Hp) in Hlt.
      intros y Hy. apply (extends_visited _ _ _ Hext).
      rewrite visited_discover. apply in_app_iff. left.
      apply (Hfp w Hw1 Hlt). exact Hy.
    + exact Hadj.
  - apply Hfc; [exact Hw|]. rewrite Hdc.
    rewrite visited_discover, length_app in Hge. simpl in Hge. lia.
Qed.

Lemma visits_fin :
  forall (root : bool) (gp p : string) (cs : list string) (st st' : dfs_state),
    visits root gp p cs st st' ->
    frame root gp p cs st -> fin p st -> fin p st'.
Proof.
  induction 1 as [root gp p st
                 |root gp p rest st st' Hrest IH
                 |root gp p c rest st st' Hne Hc Hrest IH
                 |root gp p c rest st st2 st' Hne Hc Hchild IHc Hrest IH];
    intros Hfr Hfin.
  - exact Hfin.
  - apply IH; [eapply frame_skip; eassumption | exact Hfin].
  - apply IH.
    + eapply frame_same; [apply same_back_edge | eassumption].
    + eapply fin_same; [apply same_back_edge | exact Hfin].
  - pose proof (frame_child _ _ _ _ _ _ Hfr Hc) as Hfc.
    destruct (visits_extends _ _ _ _ _ _ Hchild Hfc) as (A2 & B2 & C2 & D2).
    apply IH.
    + eapply frame_rest; eassumption.
    + eapply fin_same; [apply same_pop_child|].
      apply (fin_after_child p c st st2); auto.
      * apply (fr_wf _ _ _ _ _ Hfr).
      * apply (fr_p _ _ _ _ _ Hfr).
      * apply IHc; [exact Hfc|].
        apply fin_discover; [apply (fr_wf _ _ _ _ _ Hfr) | exact Hc
                            | apply (fr_node _ _ _ _ _ Hfc)].
Qed.

(** *** The low-link is below every early neighbour of the subtree *)

(** For a search on [p] below its parent [gp]: [low[p]] ends at most at
    the discovery time of any neighbour, discovered before [gp], of [p]
    (among the children handled) or of a node discovered in the search. *)
Definition low_bound (gp p : string) (cs : list string)
    (st st' : dfs_state) : Prop :=
  (forall w, In w cs -> In w (visited st) -> dsc st w < dsc st gp ->
             lw st' p <= dsc st w)
  /\ (forall u w, In u (visited st') -> ~ In u (visited st) ->
                  In w (adj u) -> In w (visited st') ->
                  dsc st' w < dsc st' gp -> lw st' p <= dsc st' w).

Lemma visits_low_bound :
  forall (root : bool) (gp p : string) (cs : list string) (st st' : dfs_state),
    visits root gp p cs st st' ->
    root = false -> frame root gp p cs st -> low_bound gp p cs st st'.
Proof.
  induction 1 as [root gp p st
                 |root gp p rest st st' Hrest IH
                 |root gp p c rest st st' Hne Hc Hrest IH
                 |root gp p c rest st st2 st' Hne Hc Hchild IHc Hrest IH];
    intros Hroot Hfr.
  - split.
    + intros w [].
    + intros u w Hu Hnu. tauto.
  - destruct (IH Hroot (frame_skip _ _ _ _ _ _ Hfr)) as [L1 L2].
    split; [|exact L2].
    intros w [<-|Hw] Hv Hlt; [lia | auto].
  - pose proof (same_back_edge p c st) as Hsame.
    pose proof (frame_same _ _ _ _ _ _ _ Hsame Hfr) as Hfr1.
    destruct (IH Hroot Hfr1) as [L1 L2].
    destruct (visits_extends _ _ _ _ _ _ Hrest Hfr1) as (_ & (_ & _ & _ & Hmono & _) & _).
    pose proof (dsc_same st (back_edge p c st)) as Hd.
    destruct Hsame as [Hv Hdisc].
    split.
    + intros w [<-|Hw] Hin Hlt.
      * pose proof (fr_below _ _ _ _ _ Hfr Hroot) as Hgp.
        rewrite lw_back_edge, String.eqb_refl in Hmono.
        assert (E : (dsc st c <=? dsc st p) = true) by (apply Nat.leb_le; lia).
        rewrite E in Hmono. lia.
      * specialize (L1 w Hw). rewrite Hv, !Hd in L1 by (split; assumption).
        auto.
    + intros u w Hu Hnu. apply (L2 u w); [exact Hu | rewrite Hv; exact Hnu].
  - pose proof (frame_child _ _ _ _ _ _ Hfr Hc) as Hfc.
    pose proof (frame_rest _ _ _ _ _ _ _ Hfr Hc Hchild) as Hfr3.
    destruct (visits_extends _ _ _ _ _ _ Hchild Hfc) as (A2 & B2 & C2 & D2).
    destruct (visits_extends _ _ _ _ _ _ Hrest Hfr3) as (A3 & B3 & C3 & D3).
    destruct (IHc eq_refl Hfc) as [K1 K2].
    destruct (IH Hroot Hfr3) as [L1 L2].
    pose proof (fr_wf _ _ _ _ _ Hfr) as Hwf.
    pose proof (fr_p _ _ _ _ _ Hfr) as Hp.
    pose proof (fr_gp _ _ _ _ _ Hfr) as Hgp.
    pose proof (fr_below _ _ _ _ _ Hfr Hroot) as Hlt_gp.
    pose proof (extends_via_child c p st st2 Hwf Hc Hp B2) as Hst2.
    pose proof (same_pop_child root p c st2) as Hsame.
    pose proof (dsc_same st2 (pop_child root p c st2)) as Hd3.
    assert (Hv3 : visited (pop_child root p c st2) = visited st2) by apply Hsame.
    assert (Hold2 : forall x, In x (visited st) -> dsc st2 x = dsc st x).
    { intros x Hx. apply (extends_dsc _ _ _ _ Hst2). exact Hx. }
    assert (Hin2 : forall x, In x (visited st) -> In x (visited st2)).
    { apply (extends_visited _ _ _ Hst2). }
    assert (Hold' : forall x, In x (visited st2) -> dsc st' x = dsc st2 x).
    { intros x Hx. rewrite (extends_dsc _ _ _ _ B3) by (rewrite Hv3; exact Hx).
      apply Hd3. exact Hsame. }
    assert (Hlow : lw st' p <= lw st2 c).
    { destruct B3 as (_ & _ & _ & Hmono & _).
      rewrite lw_pop_child in Hmono. subst root.
      rewrite String.eqb_refl in Hmono. lia. }
    split.
    + intros w [<-|Hw] Hin Hlt; [tauto|].
      specialize (L1 w Hw). rewrite Hv3 in L1.
      rewrite !Hd3, !Hold2 in L1 by (try exact Hsame; assumption).
      apply L1; auto.
    + intros u w Hu Hnu Hw Hwin Hlt.
      destruct (in_dec string_dec u (visited st2)) as [Hu2|Hu2].
      * (* [u] was discovered in the search below [c]. *)
        assert (Hsmall : dsc st' w < List.length (visited st)).
        { rewrite (Hold' gp (Hin2 gp Hgp)), (Hold2 gp Hgp) in Hlt.
          pose proof (ws_bound _ Hwf p Hp). lia. }
        assert (Hwv : In w (visited st)).
        { destruct (extends_cases _ _ _ _ B3 Hwin) as [Hw3|[Hw3 Hge]].
          - rewrite Hv3 in Hw3.
            destruct (extends_cases _ _ _ _ Hst2 Hw3) as [Hw0|[Hw0 Hge]];
              [exact Hw0|].
            rewrite (Hold' w Hw3) in Hsmall. lia.
          - rewrite Hv3 in Hge. pose proof (extends_length _ _ _ Hst2). lia. }
        rewrite (Hold' w (Hin2 w Hwv)), (Hold2 w Hwv).
        rewrite (Hold' w (Hin2 w Hwv)), (Hold2 w Hwv) in Hlt.
        rewrite (Hold' gp (Hin2 gp Hgp)), (Hold2 gp Hgp) in Hlt.
        assert (Hw1 : In w (visited (discover c st))).
        { rewrite visited_discover. apply in_app_iff. auto. }
        assert (Hwc : w <> c) by (intros ->; tauto).
        assert (Hpc : p <> c) by (intros ->; tauto).
        destruct (in_dec string_dec u (visited (discover c st))) as [Hu1|Hu1].
        -- rewrite visited_discover in Hu1. apply in_app_iff in Hu1.
           destruct Hu1 as [Hu1|[<-|[]]]; [tauto|].
           specialize (K1 w Hw Hw1).
           rewrite !dsc_discover_old in K1 by assumption.
           assert (Hwp : dsc st w < dsc st p) by lia. specialize (K1 Hwp). lia.
        -- specialize (K2 u w Hu2 Hu1 Hw (Hin2 w Hwv)).
           rewrite (Hold2 w Hwv), (Hold2 p Hp) in K2.
           assert (Hwp : dsc st w < dsc st p) by lia. specialize (K2 Hwp). lia.
      * apply (L2 u w); auto. rewrite Hv3. exact Hu2.
Qed.

(** *** A yielded node separates the graph *)

(** [C] is closed under adjacency except for edges into [x]. *)
Definition closed_mod (x : string) (C : list string) : Prop :=
  forall u w, In u C -> In w (adj u) -> In w C \/ w = x.

(** [x] separates: a non-empty set of nodes, without [x], is closed
    under adjacency up to [x], and leaves another node outside. *)
Definition sep (x : string) : Prop :=
  In x nodes
  /\ exists C, C <> [] /\ incl C nodes /\ ~ In x C /\ closed_mod x C
               /\ exists z, In z nodes /\ ~ In z C /\ z <> x.

(** The nodes discovered below a child [c] of [p] are closed up to [p],
    unless one of them has a neighbour discovered before [p]. *)
Lemma subtree_closed (root : bool) (gp p c : string) (rest new : list string)
    (st st2 : dfs_state) :
  frame root gp p (c :: rest) st -> ~ In c (visited st) ->
  visits false p c (adj c) (discover c st) st2 ->
  fin p st ->
  visited st2 = visited st ++ new ->
  (forall u w, In u new -> In w (adj u) -> In w (visited st) ->
               dsc st w < dsc st p -> False) ->
  closed_mod p new /\ In c new /\ incl new nodes
  /\ (forall x, In x new -> ~ In x (visited st)).
Proof.
  intros Hfr Hc Hchild Hfin Hv2 Hearly.
  pose proof (frame_child _ _ _ _ _ _ Hfr Hc) as Hfc.
  destruct (visits_extends _ _ _ _ _ _ Hchild Hfc) as (A2 & B2 & C2 & D2).
  pose proof (fr_wf _ _ _ _ _ Hfr) as Hwf.
  pose proof (fr_p _ _ _ _ _ Hfr) as Hp.
  pose proof (extends_via_child c p st st2 Hwf Hc Hp B2) as Hst2.
  assert (Hfc2 : fin c st2).
  { apply (visits_fin _ _ _ _ _ _ Hchild Hfc).
    apply fin_discover; [exact Hwf | exact Hc | apply (fr_node _ _ _ _ _ Hfc)]. }
  assert (Hc1 : In c (visited (discover c st))).
  { rewrite visited_discover. apply in_app_iff. simpl. auto. }
  assert (Hdc : dsc st2 c = List.length (visited st)).
  { rewrite (extends_dsc _ _ _ _ B2) by exact Hc1.
    apply dsc_discover_new. exact Hwf. }
  assert (Hdisj : forall x, In x new -> ~ In x (visited st)).
  { apply nodup_app_disjoint. rewrite <- Hv2. apply (ws_nodup _ A2). }
  assert (Hin2 : forall x, In x new -> In x (visited st2)).
  { intros x Hx. rewrite Hv2. apply in_app_iff. auto. }
  assert (Hcnew : In c new).
  { assert (H : In c (visited st2)) by (apply (extends_visited _ _ _ B2); exact Hc1).
    rewrite Hv2 in H. apply in_app_iff in H. tauto. }
  split; [|split; [exact Hcnew|split; [|exact Hdisj]]].
  - intros u w Hu Hw.
    assert (Hadj : incl (adj u) (visited st2)).
    { destruct (string_dec u c) as [->|Huc]; [exact D2|].
      apply Hfc2; [apply Hin2; exact Hu|].
      destruct (extends_cases _ _ _ _ B2 (Hin2 u Hu)) as [Hu1|[_ Hge]].
      - rewrite visited_discover in Hu1. apply in_app_iff in Hu1.
        destruct Hu1 as [Hu1|[<-|[]]]; [|tauto].
        exfalso. exact (Hdisj u Hu Hu1).
      - rewrite visited_discover, length_app in Hge. simpl in Hge. lia. }
    specialize (Hadj w Hw). rewrite Hv2 in Hadj. apply in_app_iff in Hadj.
    destruct Hadj as [Hwold|Hwnew]; [|auto].
    destruct (string_dec w p) as [->|Hwp]; [auto|]. exfalso.
    destruct (Nat.lt_trichotomy (dsc st w) (dsc st p)) as [Hlt|[Heq|Hgt]].
    + exact (Hearly u w Hu Hw Hwold Hlt).
    + apply Hwp. apply (ws_inj _ Hwf); assumption.
    + apply (Hdisj u Hu). apply (Hfin w Hwold Hgt). apply sym. exact Hw.
  - intros x Hx. apply (ws_nodes _ A2). apply Hin2. exact Hx.
Qed.

(** What the start node has seen of its search-tree children. *)
Definition root_inv (p : string) (st : dfs_state) : Prop :=
  (1 <= root_children st ->
   exists C, C <> [] /\ incl C (visited st) /\ incl C nodes /\ ~ In p C
             /\ closed_mod p C)
  /\ (2 <= root_children st -> sep p).

Lemma visits_sep :
  forall (root : bool) (gp p : string) (cs : list string) (st st' : dfs_state),
    visits root gp p cs st st' ->
    frame root gp p cs st -> fin p st ->
    (forall x, In x (yielded st) -> sep x) ->
    (root = true -> root_inv p st) ->
    (forall x, In x (yielded st') -> sep x)
    /\ (root = true -> root_inv p st').
Proof.
  induction 1 as [root gp p st
                 |root gp p rest st st' Hrest IH
                 |root gp p c rest st st' Hne Hc Hrest IH
                 |root gp p c rest st st2 st' Hne Hc Hchild IHc Hrest IH];
    intros Hfr Hfin Hsep Hroot.
  - auto.
  - apply IH; auto. eapply frame_skip; eassumption.
  - pose proof (same_back_edge p c st) as Hsame.
    destruct (yielded_back_edge p c st) as [Hy Hrc].
    apply IH.
    + eapply frame_same; eassumption.
    + eapply fin_same; eassumption.
    + rewrite Hy. exact Hsep.
    + intros Hr. destruct (Hroot Hr) as [R1 R2]. unfold root_inv.
      rewrite Hrc. destruct Hsame as [Hv _]. rewrite Hv. auto.
  - pose proof (frame_child _ _ _ _ _ _ Hfr Hc) as Hfc.
    pose proof (frame_rest _ _ _ _ _ _ _ Hfr Hc Hchild) as Hfr3.
    destruct (visits_extends _ _ _ _ _ _ Hchild Hfc) as (A2 & B2 & C2 & D2).
    pose proof (fr_wf _ _ _ _ _ Hfr) as Hwf.
    pose proof (fr_p _ _ _ _ _ Hfr) as Hp.
    pose proof (fr_gp _ _ _ _ _ Hfr) as Hgp.
    pose proof (extends_via_child c p st st2 Hwf Hc Hp B2) as Hst2.
    pose proof (same_pop_child root p c st2) as Hsame.
    assert (Hfinc : fin c (discover c st)).
    { apply fin_discover; [exact Hwf | exact Hc | apply (fr_node _ _ _ _ _ Hfc)]. }
    destruct (IHc Hfc Hfinc Hsep ltac:(discriminate)) as [Hsep2 _].
    assert (Hfin2 : fin p st2).
    { apply (fin_after_child p c st st2); auto.
      apply (visits_fin _ _ _ _ _ _ Hchild Hfc Hfinc). }
    assert (Hold2 : forall x, In x (visited st) -> dsc st2 x = dsc st x).
    { intros x Hx. apply (extends_dsc _ _ _ _ Hst2). exact Hx. }
    destruct Hst2 as ((new & Hv2 & Hb2) & Hst2').
    apply IH.
    + exact Hfr3.
    + eapply fin_same; eassumption.
    + rewrite yielded_pop_child. destruct root; [exact Hsep2|].
      destruct (dsc st2 p <=? lw st2 c) eqn:Etest; [|exact Hsep2].
      apply Nat.leb_le in Etest.
      intros x Hx. apply in_app_iff in Hx.
      destruct Hx as [Hx|[<-|[]]]; [apply Hsep2; exact Hx|].
      (* the articulation test succeeded for [p] *)
      destruct (visits_low_bound _ _ _ _ _ _ Hchild eq_refl Hfc) as [K1 K2].
      pose proof (fr_below _ _ _ _ _ Hfr eq_refl) as Hbelow.
      assert (Hpc : p <> c) by (intros ->; tauto).
      destruct (subtree_closed false gp p c rest new st st2 Hfr Hc Hchild Hfin Hv2)
        as (Hcl & Hcnew & Hnodes & Hdisj).
      { intros u w Hu Hw Hwold Hlt.
        assert (Hwc : w <> c) by (intros ->; tauto).
        assert (Hw1 : In w (visited (discover c st))).
        { rewrite visited_discover. apply in_app_iff. auto. }
        assert (Hu2 : In u (visited st2)).
        { rewrite Hv2. apply in_app_iff. auto. }
        assert (Hunew : ~ In u (visited st)).
        { apply (nodup_app_disjoint (visited st) new); [|exact Hu].
          rewrite <- Hv2. apply (ws_nodup _ A2). }
        rewrite (Hold2 p Hp) in Etest.
        destruct (string_dec u c) as [->|Huc].
        - specialize (K1 w Hw Hw1).
          rewrite !dsc_discover_old in K1 by assumption.
          specialize (K1 Hlt). lia.
        - assert (Hu1 : ~ In u (visited (discover c st))).
          { rewrite visited_discover. intros H. apply in_app_iff in H.
            destruct H as [H|[H|[]]]; [tauto | congruence]. }
          assert (Hw2 : In w (visited st2)).
          { rewrite Hv2. apply in_app_iff. auto. }
          specialize (K2 u w Hu2 Hu1 Hw Hw2).
          rewrite (Hold2 w Hwold), (Hold2 p Hp) in K2.
          specialize (K2 Hlt). lia. }
      split; [apply (fr_node _ _ _ _ _ Hfr)|].
      exists new. split; [intros ->; destruct Hcnew|].
      split; [exact Hnodes|]. split; [intros H; exact (Hdisj p H Hp)|].
      split; [exact Hcl|].
      exists gp. split; [apply (ws_nodes _ Hwf); exact Hgp|].
      split; [intros H; exact (Hdisj gp H Hgp)|].
      intros ->. lia.
    + intros Hr. subst root.
      destruct (fr_top _ _ _ _ _ Hfr eq_refl) as [-> Hzero].
      destruct (subtree_closed true p p c rest new st st2 Hfr Hc Hchild Hfin Hv2)
        as (Hcl & Hcnew & Hnodes & Hdisj).
      { intros u w Hu Hw Hwold Hlt. lia. }
      destruct (Hroot eq_refl) as [R1 R2].
      unfold root_inv. rewrite root_children_pop_child, (C2 eq_refl).
      destruct Hsame as [Hv3 _]. rewrite Hv3.
      split.
      * intros _. destruct (root_children st) as [|k] eqn:Ek.
        -- exists new. split; [intros ->; destruct Hcnew|].
           split; [rewrite Hv2; apply incl_appr, incl_refl|].
           split; [exact Hnodes|]. split; [intros H; exact (Hdisj p H Hp)|].
           exact Hcl.
        -- destruct R1 as (C & N1 & N2 & N3 & N4 & N5); [lia|].
           exists C. split; [exact N1|].
           split; [rewrite Hv2; apply incl_appl; exact N2|]. auto.
      * intros Hk. simpl in Hk.
        destruct R1 as (C & N1 & N2 & N3 & N4 & N5); [lia|].
        split; [apply (fr_node _ _ _ _ _ Hfr)|].
        exists C. split; [exact N1|]. split; [exact N3|]. split; [exact N4|].
        split; [exact N5|].
        exists c. split; [apply Hnodes; exact Hcnew|].
        split; [intros H; apply Hc; apply N2; exact H|].
        intros ->. tauto.
Qed.

(** *** Every low-link is witnessed by an edge *)

(** [low[v]] is the discovery time of [v], or of a neighbour of a node
    discovered no earlier than [v]. *)
Definition wit (st : dfs_state) : Prop :=
  forall v, In v (visited st) ->
    lw st v = dsc st v
    \/ exists x y, In x (visited st) /\ dsc st v <= dsc st x
                   /\ In y (adj x) /\ In y (visited st) /\ dsc st y = lw st v.

Lemma wit_back_edge (p c : string) (st : dfs_state) :
  In p (visited st) -> In c (visited st) -> In c (adj p) ->
  wit st -> wit (back_edge p c st).
Proof.
  intros Hp Hc Hadj Hw v Hv.
  pose proof (same_back_edge p c st) as Hsame.
  pose proof (dsc_same st (back_edge p c st)) as Hd.
  destruct Hsame as [Hvis Hdisc]. rewrite Hvis in *.
  assert (Hd' : forall x, dsc (back_edge p c st) x = dsc st x).
  { intros x. apply Hd. split; assumption. }
  rewrite lw_back_edge.
  destruct (String.eqb p v) eqn:E.
  - apply String.eqb_eq in E. subst v.
    destruct (dsc st c <=? dsc st p) eqn:Et.
    + destruct (Nat.le_gt_cases (lw st p) (dsc st c)) as [Hle|Hgt].
      * rewrite Nat.min_l by exact Hle.
        destruct (Hw p Hp) as [H|(x & y & H1 & H2 & H3 & H4 & H5)].
        -- left. rewrite Hd'. exact H.
        -- right. exists x, y. rewrite ?Hvis, !Hd'. auto.
      * rewrite Nat.min_r by lia. right. exists p, c.
        rewrite ?Hvis, !Hd'. auto.
    + destruct (Hw p Hp) as [H|(x & y & H1 & H2 & H3 & H4 & H5)].
      * left. rewrite Hd'. exact H.
      * right. exists x, y. rewrite ?Hvis, !Hd'. auto.
  - destruct (Hw v Hv) as [H|(x & y & H1 & H2 & H3 & H4 & H5)].
    + left. rewrite Hd'. exact H.
    + right. exists x, y. rewrite ?Hvis, !Hd'. auto.
Qed.

Lemma wit_discover (c : string) (st : dfs_state) :
  wfst st -> ~ In c (visited st) -> wit st -> wit (discover c st).
Proof.
  intros Hwf Hc Hw v Hv. rewrite visited_discover in Hv.
  apply in_app_iff in Hv. destruct Hv as [Hv|[<-|[]]].
  - assert (Hvc : v <> c) by (intros ->; tauto).
    rewrite lw_discover_old, dsc_discover_old by exact Hvc.
    destruct (Hw v Hv) as [H|(x & y & H1 & H2 & H3 & H4 & H5)]; [auto|].
    right. exists x, y. rewrite visited_discover, !in_app_iff.
    rewrite !dsc_discover_old by (intros ->; tauto). auto 10.
  - left. rewrite lw_discover_new, dsc_discover_new by exact Hwf. reflexivity.
Qed.

Lemma wit_pop_child (root : bool) (p c : string) (st : dfs_state) :
  In p (visited st) -> In c (visited st) -> In c (adj p) ->
  dsc st p <= dsc st c ->
  wit st -> wit (pop_child root p c st).
Proof.
  intros Hp Hc Hadj Hpc Hw v Hv.
  pose proof (same_pop_child root p c st) as Hsame.
  pose proof (dsc_same st (pop_child root p c st)) as Hd.
  destruct Hsame as [Hvis Hdisc]. rewrite Hvis in Hv.
  assert (Hd' : forall x, dsc (pop_child root p c st) x = dsc st x).
  { intros x. apply Hd. split; assumption. }
  assert (Hkeep : forall u, lw (pop_child root p c st) u = lw st u ->
            In u (visited st) ->
            lw (pop_child root p c st) u = dsc (pop_child root p c st) u
            \/ exists x y, In x (visited (pop_child root p c st))
                 /\ dsc (pop_child root p c st) u <= dsc (pop_child root p c st) x
                 /\ In y (adj x) /\ In y (visited (pop_child root p c st))
                 /\ dsc (pop_child root p c st) y = lw (pop_child root p c st) u).
  { intros u Hu Hin. rewrite Hu.
    destruct (Hw u Hin) as [H|(x & y & H1 & H2 & H3 & H4 & H5)].
    - left. rewrite Hd'. exact H.
    - right. exists x, y. rewrite ?Hvis, !Hd'. auto. }
  pose proof (lw_pop_child root p c v st) as Hlw.
  destruct root; [apply Hkeep; assumption|].
  destruct (String.eqb p v) eqn:E; [|apply Hkeep; assumption].
  apply String.eqb_eq in E. subst v.
  destruct (Nat.le_gt_cases (lw st p) (lw st c)) as [Hle|Hgt].
  - rewrite Nat.min_r in Hlw by exact Hle. apply Hkeep; assumption.
  - rewrite Nat.min_l in Hlw by lia. rewrite Hlw.
    destruct (Hw c Hc) as [H|(x & y & H1 & H2 & H3 & H4 & H5)].
    + right. exists p, c. rewrite ?Hvis, !Hd'. auto.
    + right. exists x, y. rewrite ?Hvis, !Hd'.
      split; [exact H1|]. split; [lia|]. auto.
Qed.

Lemma visits_wit :
  forall (root : bool) (gp p : string) (cs : list string) (st st' : dfs_state),
    visits root gp p cs st st' ->
    frame root gp p cs st -> wit st -> wit st'.
Proof.
  induction 1 as [root gp p st
                 |root gp p rest st st' Hrest IH
                 |root gp p c rest st st' Hne Hc Hrest IH
                 |root gp p c rest st st2 st' Hne Hc Hchild IHc Hrest IH];
    intros Hfr Hw.
  - exact Hw.
  - apply IH; [eapply frame_skip; eassumption | exact Hw].
  - apply IH.
    + eapply frame_same; [apply same_back_edge | eassumption].
    + apply wit_back_edge; auto.
      * apply (fr_p _ _ _ _ _ Hfr).
      * apply (fr_cs _ _ _ _ _ Hfr). simpl. auto.
  - pose proof (frame_child _ _ _ _ _ _ Hfr Hc) as Hfc.
    pose proof (frame_rest _ _ _ _ _ _ _ Hfr Hc Hchild) as Hfr3.
    destruct (visits_extends _ _ _ _ _ _ Hchild Hfc) as (A2 & B2 & C2 & D2).
    apply IH; [exact Hfr3|].
    apply wit_pop_child.
    + apply (extends_visited _ _ _ B2). apply (fr_gp _ _ _ _ _ Hfc).
    + apply (extends_visited _ _ _ B2). apply (fr_p _ _ _ _ _ Hfc).
    + apply (fr_cs _ _ _ _ _ Hfr). simpl. auto.
    + pose proof (fr_below _ _ _ _ _ Hfc eq_refl) as Hlt.
      rewrite !(extends_dsc _ _ _ _ B2);
        [lia | apply (fr_p _ _ _ _ _ Hfc) | apply (fr_gp _ _ _ _ _ Hfc)].
    + apply IHc; [exact Hfc|].
      apply wit_discover; [apply (fr_wf _ _ _ _ _ Hfr) | exact Hc | exact Hw].
Qed.

Lemma visits_yield_mono :
  forall (root : bool) (gp p : string) (cs : list string) (st st' : dfs_state),
    visits root gp p cs st st' -> frame root gp p cs st ->
    forall x, In x (yielded st) -> In x (yielded st').
Proof.
  intros root gp p cs st st' Hv Hfr x Hx.
  destruct (visits_extends _ _ _ _ _ _ Hv Hfr) as (_ & (_ & _ & _ & _ & (o & Ho)) & _).
  rewrite Ho. apply in_app_iff. auto.
Qed.

(** *** Connections that avoid a node *)

(** The adjacency that is left when [a] is taken out. *)
Definition avoid (a x : string) : list string :=
  if String.eqb x a then []
  else filter (fun y => negb (String.eqb y a)) (adj x).

Lemma in_avoid (a x y : string) :
  In y (avoid a x) <-> In y (adj x) /\ x <> a /\ y <> a.
Proof.
  unfold avoid. destruct (String.eqb x a) eqn:E.
  - apply String.eqb_eq in E. simpl. tauto.
  - apply String.eqb_neq in E. rewrite filter_In, negb_true_iff, String.eqb_neq.
    tauto.
Qed.

Definition conn (a u w : string) : Prop := reach (avoid a) u w.

Lemma avoid_sym (a x y : string) : In y (avoid a x) -> In x (avoid a y).
Proof. rewrite !in_avoid. intros (H1 & H2 & H3). auto. Qed.

Lemma conn_sym (a u w : string) : conn a u w -> conn a w u.
Proof. apply reach_sym. apply avoid_sym. Qed.

Lemma conn_step (a u x y : string) :
  conn a u x -> In y (adj x) -> x <> a -> y <> a -> conn a u y.
Proof.
  intros H Hy Hx Hya. eapply reach_step; [exact H|]. apply in_avoid. auto.
Qed.

Section Avoiding.

Variable a : string.

(** What is known of the visited nodes other than [a]: all are connected
    to [beta] without passing [a]; or, while the search is below the
    child [c] of [a], those found before [c] are connected to [beta] and
    those found since to [c]. *)
Definition hb (beta : string) (b : option string) (st : dfs_state) : Prop :=
  forall u, In u (visited st) -> u <> a ->
    match b with
    | None => conn a beta u
    | Some c => if dsc st u <? dsc st c then conn a beta u else conn a c u
    end.

Definition mode (b : option string) (p : string) (st : dfs_state) : Prop :=
  match b with
  | None => True
  | Some c => p <> a /\ In a (visited st) /\ In c (visited st) /\ c <> a
              /\ dsc st c <= dsc st p
  end.

Lemma hb_same (beta : string) (b : option string) (st st' : dfs_state) :
  same_search st st' -> hb beta b st -> hb beta b st'.
Proof.
  intros [Hv Hd] H u Hu Hne. unfold dsc. rewrite Hd. rewrite Hv in Hu.
  apply H; assumption.
Qed.

Lemma visits_conn (beta : string) :
  forall (root : bool) (gp p : string) (cs : list string) (st st' : dfs_state),
    visits root gp p cs st st' ->
    forall b, frame root gp p cs st -> wit st ->
      (p = a -> root = false) ->
      mode b p st ->
      In a (yielded st) \/ hb beta b st ->
      In a (yielded st') \/ hb beta b st'.
Proof.
  induction 1 as [root gp p st
                 |root gp p rest st st' Hrest IH
                 |root gp p c rest st st' Hne Hc Hrest IH
                 |root gp p c rest st st2 st' Hne Hc Hchild IHc Hrest IH];
    intros b Hfr Hw Hpa Hm Hor.
  - exact Hor.
  - apply IH; auto. eapply frame_skip; eassumption.
  - pose proof (same_back_edge p c st) as Hsame.
    apply IH; auto.
    + eapply frame_same; eassumption.
    + apply wit_back_edge; auto.
      * apply (fr_p _ _ _ _ _ Hfr).
      * apply (fr_cs _ _ _ _ _ Hfr). simpl. auto.
    + destruct b as [c0|]; [|exact I]. destruct Hm as (m1 & m2 & m3 & m4 & m5).
      destruct Hsame as [Hv Hd]. unfold mode, dsc in *. rewrite Hv, Hd. auto.
    + destruct Hor as [Hin|Hhb].
      * left. rewrite (proj1 (yielded_back_edge p c st)). exact Hin.
      * right. eapply hb_same; eassumption.
  - pose proof (frame_child _ _ _ _ _ _ Hfr Hc) as Hfc.
    pose proof (frame_rest _ _ _ _ _ _ _ Hfr Hc Hchild) as Hfr3.
    destruct (visits_extends _ _ _ _ _ _ Hchild Hfc) as (A2 & B2 & C2 & D2).
    pose proof (fr_wf _ _ _ _ _ Hfr) as Hwf.
    pose proof (fr_p _ _ _ _ _ Hfr) as Hp.
    assert (Hcadj : In c (adj p)) by (apply (fr_cs _ _ _ _ _ Hfr); simpl; auto).
    assert (Hw1 : wit (discover c st)) by (apply wit_discover; assumption).
    assert (Hw2 : wit st2) by (apply (visits_wit _ _ _ _ _ _ Hchild Hfc Hw1)).
    assert (Hpc : p <> c) by (intros ->; tauto).
    assert (Hd1c : dsc (discover c st) c = List.length (visited st))
      by (apply dsc_discover_new; exact Hwf).
    assert (Hd1 : forall x, In x (visited st) -> dsc (discover c st) x = dsc st x).
    { intros x Hx. apply dsc_discover_old. intros ->. tauto. }
    pose proof (ws_bound _ Hwf) as Hb.
    assert (Hc2 : In c (visited st2)).
    { apply (extends_visited _ _ _ B2). apply (fr_p _ _ _ _ _ Hfc). }
    assert (Hp2 : In p (visited st2)).
    { apply (extends_visited _ _ _ B2). apply (fr_gp _ _ _ _ _ Hfc). }
    assert (Hlt2 : dsc st2 p < dsc st2 c).
    { pose proof (fr_below _ _ _ _ _ Hfc eq_refl) as Hlt.
      rewrite !(extends_dsc _ _ _ _ B2);
        [exact Hlt | apply (fr_p _ _ _ _ _ Hfc) | apply (fr_gp _ _ _ _ _ Hfc)]. }
    assert (Hw3 : wit (pop_child root p c st2)).
    { apply wit_pop_child; auto. lia. }
    assert (E3 : extends st (pop_child root p c st2) p).
    { eapply extends_trans; [|apply extends_pop_child].
      apply (extends_via_child c); assumption. }
    assert (Hout3 : In a (yielded st2) -> In a (yielded (pop_child root p c st2))).
    { destruct (extends_pop_child root p c st2) as (_ & _ & _ & _ & (o & Ho)).
      rewrite Ho. intros Hin. apply in_app_iff. auto. }
    assert (Hsame3 : same_search st2 (pop_child root p c st2))
      by apply same_pop_child.
    destruct Hor as [Hin|Hhb].
    { left. eapply visits_yield_mono; [|exact Hfr|exact Hin].
      eapply visits_tree; eassumption. }
    apply IH; [exact Hfr3 | exact Hw3 | exact Hpa | |].
    { destruct b as [c0|]; [|exact I]. destruct Hm as (m1 & m2 & m3 & m4 & m5).
      unfold mode. rewrite !(extends_dsc _ _ _ _ E3) by assumption.
      repeat split; auto; apply (extends_visited _ _ _ E3); assumption. }
    destruct (string_dec p a) as [Hpa'|Hpa'].
    + (* the parent is [a]: the nodes below [c] are collected around [c] *)
      subst p. pose proof (Hpa eq_refl) as Hroot. subst root.
      destruct b as [c0|]; [destruct Hm as [m1 _]; congruence|].
      assert (Hca : c <> a) by congruence.
      destruct (IHc (Some c) Hfc Hw1) as [Hin2|Hhb2].
      * intros ->. congruence.
      * unfold mode. rewrite visited_discover, !in_app_iff. simpl. auto 10.
      * right. intros u Hu Hua. rewrite visited_discover in Hu.
        apply in_app_iff in Hu. destruct Hu as [Hu|[<-|[]]].
        -- rewrite Hd1 by exact Hu. rewrite Hd1c.
           specialize (Hb u Hu). apply Nat.ltb_lt in Hb. rewrite Hb.
           apply (Hhb u Hu Hua).
        -- rewrite Nat.ltb_irrefl. constructor.
      * left. auto.
      * rewrite yielded_pop_child.
        destruct (dsc st2 a <=? lw st2 c) eqn:Et.
        { left. apply in_app_iff. simpl. auto. }
        right. apply Nat.leb_gt in Et.
        apply (hb_same beta None st2); [exact Hsame3|].
        assert (Hbc : conn a beta c).
        { destruct (Hw2 c Hc2) as [Heq|(x & y & X1 & X2 & X3 & X4 & X5)].
          - exfalso. lia.
          - assert (Hxa : x <> a) by (intros ->; lia).
            assert (Hya : y <> a) by (intros ->; lia).
            pose proof (Hhb2 x X1 Hxa) as Hx. simpl in Hx.
            pose proof (Hhb2 y X4 Hya) as Hy. simpl in Hy.
            assert (Ex : (dsc st2 x <? dsc st2 c) = false)
              by (apply Nat.ltb_ge; exact X2).
            assert (Ey : (dsc st2 y <? dsc st2 c) = true)
              by (apply Nat.ltb_lt; lia).
            rewrite Ex in Hx. rewrite Ey in Hy.
            eapply reach_trans; [|apply conn_sym; exact Hx].
            apply (conn_step a beta y x); auto. }
        intros u Hu Hua. specialize (Hhb2 u Hu Hua). simpl in Hhb2.
        destruct (dsc st2 u <? dsc st2 c); [exact Hhb2|].
        eapply reach_trans; eassumption.
    + destruct (string_dec c a) as [Hca|Hca].
      * (* the child is [a] *)
        subst c.
        destruct b as [c0|]; [destruct Hm as (_ & m2 & _); tauto|].
        destruct (IHc None Hfc Hw1) as [Hin2|Hhb2].
        -- reflexivity.
        -- exact I.
        -- right. intros u Hu Hua. rewrite visited_discover in Hu.
           apply in_app_iff in Hu. destruct Hu as [Hu|[Hu|[]]]; [|congruence].
           apply (Hhb u Hu Hua).
        -- left. auto.
        -- right. eapply hb_same; eassumption.
      * (* neither is [a]: the child is connected through its parent *)
        destruct (IHc b Hfc Hw1) as [Hin2|Hhb2].
        -- intros ->. congruence.
        -- destruct b as [c0|]; [|exact I].
           destruct Hm as (m1 & m2 & m3 & m4 & m5). unfold mode.
           rewrite visited_discover, !in_app_iff. rewrite Hd1c, Hd1 by exact m3.
           specialize (Hb c0 m3). repeat split; auto. lia.
        -- right. intros u Hu Hua. rewrite visited_discover in Hu.
           apply in_app_iff in Hu. destruct Hu as [Hu|[<-|[]]].
           ++ pose proof (Hhb u Hu Hua) as H. destruct b as [c0|]; [|exact H].
              destruct Hm as (m1 & m2 & m3 & m4 & m5).
              rewrite !Hd1 by assumption. exact H.
           ++ pose proof (Hhb p Hp Hpa') as H. destruct b as [c0|].
              ** destruct Hm as (m1 & m2 & m3 & m4 & m5).
                 rewrite Hd1c, Hd1 by exact m3.
                 assert (E1 : (List.length (visited st) <? dsc st c0) = false).
                 { apply Nat.ltb_ge. specialize (Hb c0 m3). lia. }
                 assert (E2 : (dsc st p <? dsc st c0) = false)
                   by (apply Nat.ltb_ge; exact m5).
                 rewrite E1. rewrite E2 in H.
                 apply (conn_step a c0 p c); auto.
              ** apply (conn_step a beta p c); auto.
        -- left. auto.
        -- right. eapply hb_same; eassumption.
Qed.

End Avoiding.

(** *** The start node *)

(** What the search from the start node [a] knows after some of its
    children: [a] was yielded, or it has two children, or nothing else
    was found, or all that was found hangs together without [a]. *)
Definition start_inv (a : string) (st : dfs_state) : Prop :=
  In a (yielded st)
  \/ 2 <= root_children st
  \/ (root_children st = 0 /\ forall u, In u (visited st) -> u = a)
  \/ (root_children st = 1
      /\ exists beta, forall u, In u (visited st) -> u <> a -> conn a beta u).

Lemma start_inv_same (a : string) (st st' : dfs_state) :
  visited st' = visited st -> yielded st' = yielded st ->
  root_children st' = root_children st ->
  start_inv a st -> start_inv a st'.
Proof.
  intros Hv Hy Hr. unfold start_inv. rewrite Hv, Hy, Hr. tauto.
Qed.

Lemma visits_start (a : string) :
  forall (root : bool) (gp p : string) (cs : list string) (st st' : dfs_state),
    visits root gp p cs st st' ->
    root = true -> p = a ->
    frame root gp p cs st -> wit st ->
    start_inv a st -> start_inv a st'.
Proof.
  induction 1 as [root gp p st
                 |root gp p rest st st' Hrest IH
                 |root gp p c rest st st' Hne Hc Hrest IH
                 |root gp p c rest st st2 st' Hne Hc Hchild IHc Hrest IH];
    intros Hroot Hpa Hfr Hw Hinv.
  - exact Hinv.
  - apply IH; auto. eapply frame_skip; eassumption.
  - pose proof (same_back_edge p c st) as Hsame.
    apply IH; auto.
    + eapply frame_same; eassumption.
    + apply wit_back_edge; auto.
      * apply (fr_p _ _ _ _ _ Hfr).
      * apply (fr_cs _ _ _ _ _ Hfr). simpl. auto.
    + apply (start_inv_same a st); [apply Hsame | apply yielded_back_edge.. | exact Hinv].
  - clear IHc. subst root p.
    pose proof (frame_child _ _ _ _ _ _ Hfr Hc) as Hfc.
    pose proof (frame_rest _ _ _ _ _ _ _ Hfr Hc Hchild) as Hfr3.
    destruct (visits_extends _ _ _ _ _ _ Hchild Hfc) as (A2 & B2 & C2 & D2).
    pose proof (fr_wf _ _ _ _ _ Hfr) as Hwf.
    pose proof (fr_p _ _ _ _ _ Hfr) as Hp.
    assert (Hcadj : In c (adj a)) by (apply (fr_cs _ _ _ _ _ Hfr); simpl; auto).
    assert (Hw1 : wit (discover c st)) by (apply wit_discover; assumption).
    assert (Hw2 : wit st2) by (apply (visits_wit _ _ _ _ _ _ Hchild Hfc Hw1)).
    assert (Hca : c <> a) by (intros ->; tauto).
    assert (Hc2 : In c (visited st2)).
    { apply (extends_visited _ _ _ B2). apply (fr_p _ _ _ _ _ Hfc). }
    assert (Hp2 : In a (visited st2)).
    { apply (extends_visited _ _ _ B2). apply (fr_gp _ _ _ _ _ Hfc). }
    assert (Hlt2 : dsc st2 a < dsc st2 c).
    { pose proof (fr_below _ _ _ _ _ Hfc eq_refl) as Hlt.
      rewrite !(extends_dsc _ _ _ _ B2);
        [exact Hlt | apply (fr_p _ _ _ _ _ Hfc) | apply (fr_gp _ _ _ _ _ Hfc)]. }
    assert (Hw3 : wit (pop_child true a c st2)).
    { apply wit_pop_child; auto. lia. }
    assert (Hrc2 : root_children st2 = root_children st).
    { rewrite C2 by reflexivity. reflexivity. }
    apply IH; auto.
    unfold start_inv.
    rewrite root_children_pop_child, yielded_pop_child, Hrc2.
    destruct B2 as (_ & _ & _ & _ & (o & Ho)).
    destruct Hinv as [Hin|[Htwo|[[Hz Hall]|[Hone _]]]].
    + left. rewrite Ho. apply in_app_iff. auto.
    + right. left. lia.
    + destruct (visits_conn a c _ _ _ _ _ _ Hchild (Some c) Hfc Hw1) as [Hin2|Hhb2].
      * intros ->. congruence.
      * unfold mode. rewrite visited_discover, !in_app_iff. simpl. auto 10.
      * right. intros u Hu Hua. rewrite visited_discover in Hu.
        apply in_app_iff in Hu. destruct Hu as [Hu|[<-|[]]].
        -- apply Hall in Hu. congruence.
        -- rewrite Nat.ltb_irrefl. constructor.
      * left. exact Hin2.
      * right. right. right. split; [lia|]. exists c.
        intros u Hu Hua. rewrite (proj1 (same_pop_child true a c st2)) in Hu.
        specialize (Hhb2 u Hu Hua). simpl in Hhb2.
        destruct (_ <? _); exact Hhb2.
    + right. left. lia.
Qed.

(** *** The search returns *)

(** The work left: one step for each unvisited node and for each entry
    of its adjacency list. *)
Definition work (V l : list string) : nat :=
  list_sum (map (fun v => S (List.length (adj v)))
                (filter (fun v => negb (mem v V)) l)).

Lemma work_mono (V V' l : list string) :
  incl V V' -> work V' l <= work V l.
Proof.
  intros Hincl. unfold work. induction l as [|x l IH]; simpl; [lia|].
  destruct (mem x V') eqn:E'; destruct (mem x V) eqn:E; simpl; try lia.
  apply mem_In in E. apply mem_false in E'. exfalso. auto.
Qed.

Lemma work_discover (V l : list string) (c : string) :
  In c l -> ~ In c V ->
  work (V ++ [c]) l + S (List.length (adj c)) <= work V l.
Proof.
  intros Hc Hn. induction l as [|x l IH]; [destruct Hc|].
  destruct (string_dec x c) as [->|Hxc].
  - pose proof (work_mono V (V ++ [c]) l) as Hm. unfold work in *. simpl.
    assert (E1 : mem c (V ++ [c]) = true)
      by (apply mem_In, in_app_iff; simpl; auto).
    assert (E2 : mem c V = false) by (apply mem_false; exact Hn).
    rewrite E1, E2. simpl.
    assert (incl V (V ++ [c])) by (intros y Hy; apply in_app_iff; auto).
    specialize (Hm H). lia.
  - destruct Hc as [Hc|Hc]; [congruence|]. specialize (IH Hc).
    unfold work in *. simpl.
    assert (E : mem x (V ++ [c]) = mem x V).
    { destruct (mem x V) eqn:E.
      - apply mem_In. apply mem_In in E. apply in_app_iff. auto.
      - apply mem_false. apply mem_false in E. rewrite in_app_iff. simpl.
        intros [H|[H|[]]]; [tauto | congruence]. }
    rewrite E. destruct (mem x V); simpl; lia.
Qed.

(** A derivation exists for every frame. *)
Lemma visits_exists :
  forall (m : nat) (root : bool) (gp p : string) (cs : list string)
         (st : dfs_state),
    frame root gp p cs st ->
    List.length cs + work (visited st) nodes <= m ->
    exists st', visits root gp p cs st st'.
Proof.
  induction m as [|m IH]; intros root gp p cs st Hfr Hm.
  - destruct cs; simpl in *; [eexists; constructor | lia].
  - destruct cs as [|c rest]; [eexists; constructor|]. simpl in *.
    destruct (string_dec c gp) as [->|Hne].
    + destruct (IH root gp p rest st) as [st' H'];
        [eapply frame_skip; eassumption | lia |].
      exists st'. apply visits_skip. exact H'.
    + destruct (in_dec string_dec c (visited st)) as [Hc|Hc].
      * destruct (IH root gp p rest (back_edge p c st)) as [st' H'].
        -- eapply frame_same; [apply same_back_edge | eassumption].
        -- rewrite (proj1 (same_back_edge p c st)). lia.
        -- exists st'. apply visits_back; assumption.
      * pose proof (frame_child _ _ _ _ _ _ Hfr Hc) as Hfc.
        destruct (IH false p c (adj c) (discover c st) Hfc) as [st2 H2].
        { rewrite visited_discover.
          pose proof (work_discover (visited st) nodes c
                        (fr_node _ _ _ _ _ Hfc) Hc). lia. }
        destruct (IH root gp p rest (pop_child root p c st2)) as [st' H'].
        -- eapply frame_rest; eassumption.
        -- destruct (visits_extends _ _ _ _ _ _ H2 Hfc) as (_ & B2 & _).
           rewrite (proj1 (same_pop_child root p c st2)).
           pose proof (work_mono (visited st) (visited st2) nodes) as Hmono.
           assert (Hincl : incl (visited st) (visited st2)).
           { intros x Hx. apply (extends_visited _ _ _ B2).
             rewrite visited_discover. apply in_app_iff. auto. }
           specialize (Hmono Hincl). lia.
        -- exists st'. eapply visits_tree; eassumption.
Qed.

(** *** The loop carries out the derivation *)

(** Whether the frame above [below] is that of the start node. *)
Definition at_start (below : list entry) : bool :=
  match below with [] => true | _ :: _ => false end.

Lemma pop_frame_child (below : list entry) (gp p c : string)
    (rest : list string) (st : dfs_state) :
  pop_frame ((gp, p, rest) :: below) p c st = pop_child (at_start below) p c st.
Proof.
  unfold pop_frame, pop_child. destruct below; reflexivity.
Qed.

Lemma dfs_loop_next (f : nat) (gp p c : string) (rest : list string)
    (below : list entry) (st : dfs_state) :
  dfs_loop adj (S f) ((gp, p, c :: rest) :: below) st =
    if String.eqb gp c then dfs_loop adj f ((gp, p, rest) :: below) st
    else if mem c (visited st) then
      dfs_loop adj f ((gp, p, rest) :: below) (back_edge p c st)
    else
      dfs_loop adj f ((p, c, adj c) :: (gp, p, rest) :: below) (discover c st).
Proof.
  cbn [dfs_loop dfs_step].
  destruct (String.eqb gp c); [reflexivity|].
  destruct (mem c (visited st)); reflexivity.
Qed.

Lemma dfs_loop_pop (f : nat) (gp p : string) (below : list entry)
    (st : dfs_state) :
  dfs_loop adj (S f) ((gp, p, []) :: below) st =
    dfs_loop adj f below (pop_frame below gp p st).
Proof. reflexivity. Qed.

(** From a stack whose top frame has the children [cs] still to give, the
    loop reaches the stack whose top frame is exhausted, in the state the
    derivation ends in, and within the turns the work left pays for. *)
Lemma visits_loop :
  forall (root : bool) (gp p : string) (cs : list string) (st st' : dfs_state),
    visits root gp p cs st st' ->
    frame root gp p cs st ->
    forall below, root = at_start below ->
    exists n,
      n + work (visited st') nodes <= List.length cs + work (visited st) nodes
      /\ forall k, dfs_loop adj (n + k) ((gp, p, cs) :: below) st
                   = dfs_loop adj k ((gp, p, []) :: below) st'.
Proof.
  induction 1 as [root gp p st
                 |root gp p rest st st' Hrest IH
                 |root gp p c rest st st' Hne Hc Hrest IH
                 |root gp p c rest st st2 st' Hne Hc Hchild IHc Hrest IH];
    intros Hfr below Hroot.
  - exists 0. split; [lia | reflexivity].
  - destruct (IH (frame_skip _ _ _ _ _ _ Hfr) below Hroot) as (n & Hn & Hloop).
    exists (S n). split; [simpl; lia|]. intros k.
    change (S n + k) with (S (n + k)).
    rewrite dfs_loop_next, String.eqb_refl. apply Hloop.
  - destruct (IH (frame_same _ _ _ _ _ _ _ (same_back_edge p c st) Hfr)
                below Hroot) as (n & Hn & Hloop).
    rewrite (proj1 (same_back_edge p c st)) in Hn.
    exists (S n). split; [simpl; lia|]. intros k.
    change (S n + k) with (S (n + k)).
    assert (E1 : String.eqb gp c = false) by (apply String.eqb_neq; congruence).
    assert (E2 : mem c (visited st) = true) by (apply mem_In; exact Hc).
    rewrite dfs_loop_next, E1, E2. apply Hloop.
  - pose proof (frame_child _ _ _ _ _ _ Hfr Hc) as Hfc.
    pose proof (frame_rest _ _ _ _ _ _ _ Hfr Hc Hchild) as Hfr3.
    destruct (IHc Hfc ((gp, p, rest) :: below) eq_refl) as (n1 & Hn1 & Hloop1).
    destruct (IH Hfr3 below Hroot) as (n2 & Hn2 & Hloop2).
    rewrite (proj1 (same_pop_child root p c st2)) in Hn2.
    rewrite visited_discover in Hn1.
    pose proof (work_discover (visited st) nodes c (fr_node _ _ _ _ _ Hfc) Hc)
      as Hw.
    exists (S (n1 + S n2)). split; [simpl; lia|]. intros k.
    replace (S (n1 + S n2) + k) with (S (n1 + S (n2 + k))) by lia.
    assert (E1 : String.eqb gp c = false) by (apply String.eqb_neq; congruence).
    assert (E2 : mem c (visited st) = false) by (apply mem_false; exact Hc).
    rewrite dfs_loop_next, E1, E2, Hloop1, dfs_loop_pop, pop_frame_child.
    rewrite <- Hroot. apply Hloop2.
Qed.

(** *** The search from the first node *)

Lemma closed_reach (V : list string) (s x : string) :
  (forall w, In w V -> incl (adj w) V) -> In s V -> reach adj s x -> In x V.
Proof.
  intros Hcl Hs H. induction H as [|y z Hy IH Hz]; [exact Hs|].
  apply (Hcl y IH). exact Hz.
Qed.

Lemma work_nil (l : list string) :
  work [] l = list_sum (map (fun v => S (List.length (adj v))) l).
Proof.
  unfold work. induction l as [|x l IH]; simpl; [reflexivity|].
  f_equal. f_equal. exact IH.
Qed.

(** The state in which the search from [start] begins. *)
Definition start_state (start : string) : dfs_state :=
  mkDfs [start] [(start, 0)] [(start, 0)] 0 [].

Lemma dsc_start (start : string) : dsc (start_state start) start = 0.
Proof. unfold dsc, start_state, getn. simpl. rewrite String.eqb_refl. reflexivity. Qed.

Lemma wfst_start (start : string) : In start nodes -> wfst (start_state start).
Proof.
  intros Hs. constructor; simpl.
  - repeat constructor. simpl. tauto.
  - reflexivity.
  - intros x [<-|[]]. rewrite dsc_start. lia.
  - intros x y [<-|[]] [<-|[]] _. reflexivity.
  - intros x [<-|[]]. exact Hs.
Qed.

Lemma frame_start (start : string) :
  In start nodes -> frame true start start (adj start) (start_state start).
Proof.
  intros Hs. constructor; simpl; auto.
  - apply wfst_start. exact Hs.
  - apply incl_refl.
  - discriminate.
  - intros _. split; [reflexivity | apply dsc_start].
Qed.

(** The first round of the search: it returns; what it visited is closed
    under adjacency; every node it yields separates the graph; and the
    visited nodes stay connected when a node it did not yield is taken
    out. *)
Lemma dfs_from_first (fuel : nat) (start : string) :
  In start nodes -> S (work [] nodes) <= fuel ->
  exists V out,
    dfs_from adj fuel start ([], []) = Some (V, out)
    /\ In start V
    /\ (forall w, In w V -> incl (adj w) V)
    /\ (forall x, In x out -> sep x)
    /\ (forall a, In a V -> ~ In a out ->
          (forall u, In u V -> u = a)
          \/ exists beta, forall u, In u V -> u <> a -> conn a beta u).
Proof.
  intros Hs Hfuel.
  pose proof (frame_start start Hs) as Hfr.
  pose proof (work_discover [] nodes start Hs (fun H => H)) as Hwork.
  destruct (visits_exists fuel true start start (adj start)
              (start_state start) Hfr) as [st1 Hv].
  { simpl in *. lia. }
  destruct (visits_loop _ _ _ _ _ _ Hv Hfr [] eq_refl) as (n & Hn & Hloop).
  assert (Hrun : dfs_loop adj fuel [(start, start, adj start)] (start_state start)
                 = Some st1).
  { replace fuel with (n + S (fuel - S n)) by (simpl in *; lia).
    rewrite Hloop, dfs_loop_pop. destruct (fuel - S n); reflexivity. }
  destruct (visits_extends _ _ _ _ _ _ Hv Hfr) as (A1 & B1 & _ & D1).
  assert (Hfin0 : fin start (start_state start)).
  { intros w [<-|[]] Hlt. lia. }
  pose proof (visits_fin _ _ _ _ _ _ Hv Hfr Hfin0) as Hfin.
  assert (Hwit0 : wit (start_state start)).
  { intros v [<-|[]]. left. reflexivity. }
  destruct (visits_sep _ _ _ _ _ _ Hv Hfr Hfin0) as [Hsep Hroot].
  { intros x []. }
  { intros _. split; simpl; intros H; lia. }
  specialize (Hroot eq_refl).
  assert (Hstart1 : In start (visited st1)).
  { apply (extends_visited _ _ _ B1). simpl. auto. }
  assert (Hd1 : dsc st1 start = 0).
  { rewrite (extends_dsc _ _ _ _ B1) by (simpl; auto). apply dsc_start. }
  exists (visited st1),
         (if 1 <? root_children st1 then yielded st1 ++ [start] else yielded st1).
  split.
  { unfold dfs_from. simpl. unfold start_state in Hrun. rewrite Hrun. reflexivity. }
  split; [exact Hstart1|]. split; [|split].
  - intros w Hw. destruct (string_dec w start) as [->|Hne]; [exact D1|].
    apply (Hfin w Hw).
    destruct (Nat.eq_dec (dsc st1 w) 0) as [Hz|Hz]; [|lia].
    exfalso. apply Hne. apply (ws_inj _ A1); [exact Hw | exact Hstart1 | lia].
  - intros x Hx. destruct (1 <? root_children st1) eqn:E.
    + apply in_app_iff in Hx. destruct Hx as [Hx|[<-|[]]]; [auto|].
      apply Nat.ltb_lt in E. apply (proj2 Hroot). lia.
    + auto.
  - intros a Ha Hout.
    assert (Hy : ~ In a (yielded st1)).
    { intros H. apply Hout. destruct (_ <? _); [apply in_app_iff|]; auto. }
    destruct (string_dec start a) as [Hsa|Hsa].
    + subst a.
      assert (Hrc : root_children st1 <= 1).
      { destruct (1 <? root_children st1) eqn:E.
        - exfalso. apply Hout. apply in_app_iff. simpl. auto.
        - apply Nat.ltb_ge in E. exact E. }
      destruct (visits_start start _ _ _ _ _ _ Hv eq_refl eq_refl Hfr Hwit0)
        as [H|[H|[[_ H]|[_ H]]]].
      * right. right. left. simpl. split; [reflexivity|].
        intros u [<-|[]]. reflexivity.
      * tauto.
      * lia.
      * left. exact H.
      * right. exact H.
    + right. exists start.
      destruct (visits_conn a start _ _ _ _ _ _ Hv None Hfr Hwit0) as [H|H].
      * intros H. congruence.
      * exact I.
      * right. intros u [<-|[]] _. constructor.
      * tauto.
      * exact H.
Qed.

Lemma dfs_all_skip (fuel : nat) (starts V out : list string) :
  incl starts V -> dfs_all adj fuel starts (V, out) = Some (V, out).
Proof.
  induction starts as [|s rest IH]; intros Hincl; simpl; [reflexivity|].
  unfold dfs_from. simpl.
  assert (E : mem s V = true) by (apply mem_In, Hincl; simpl; auto).
  rewrite E. apply IH. intros x Hx. apply Hincl. simpl. auto.
Qed.

(** On a connected graph the first round visits every node, and the
    other rounds have nothing left to do. *)
Lemma dfs_all_connected (fuel : nat) (start : string) (rest : list string) :
  nodes = start :: rest ->
  (forall x, In x nodes -> reach adj start x) ->
  S (work [] nodes) <= fuel ->
  exists V out,
    dfs_all adj fuel nodes ([], []) = Some (V, out)
    /\ (forall x, In x out -> sep x)
    /\ (forall a, In a nodes -> ~ In a out ->
          (forall u, In u nodes -> u = a)
          \/ exists beta, forall u, In u nodes -> u <> a -> conn a beta u).
Proof.
  intros Hnodes Hreach Hfuel.
  assert (Hs : In start nodes) by (rewrite Hnodes; simpl; auto).
  destruct (dfs_from_first fuel start Hs Hfuel)
    as (V & out & Hrun & HsV & Hcl & Hsep & Hconn).
  assert (Hall : incl nodes V).
  { intros x Hx. apply (closed_reach V start x Hcl HsV). apply Hreach. exact Hx. }
  exists V, out. split.
  { rewrite Hnodes. simpl. rewrite Hrun. apply dfs_all_skip.
    intros x Hx. apply Hall. rewrite Hnodes. simpl. auto. }
  split; [exact Hsep|].
  intros a Ha Hout. destruct (Hconn a (Hall a Ha) Hout) as [H|[beta H]].
  - left. intros u Hu. apply H. apply Hall. exact Hu.
  - right. exists beta. intros u Hu. apply H. apply Hall. exact Hu.
Qed.

End Search.

End DfsFacts.

(* ------------------------------------------------------------------ *)
(** ** Articulation points and the removal of a node *)

Module CutFacts.

Import Dict DictFacts Graph GraphFacts Nx BfsFacts DfsFacts.

Lemma in_dedup_from (xs : list string) :
  forall (seen : list string) (x : string),
    In x (fold_left (fun seen x => if mem x seen then seen else seen ++ [x]) xs seen)
    <-> In x seen \/ In x xs.
Proof.
  induction xs as [|y xs IH]; intros seen x; simpl; [tauto|].
  rewrite IH. destruct (mem y seen) eqn:E.
  - apply mem_In in E. split; [tauto|]. intros [H|[<-|H]]; auto.
  - rewrite in_app_iff. simpl. tauto.
Qed.

Lemma in_dedup (x : string) (xs : list string) : In x (dedup xs) <-> In x xs.
Proof. unfold dedup. rewrite in_dedup_from. simpl. tauto. Qed.

Lemma reach_incl (adj1 adj2 : string -> list string) (s x : string) :
  (forall u w, In w (adj1 u) -> In w (adj2 u)) ->
  reach adj1 s x -> reach adj2 s x.
Proof.
  intros Hincl H. induction H as [|y z Hy IH Hz]; [constructor|].
  eapply reach_step; [exact IH | apply Hincl; exact Hz].
Qed.

Lemma is_connected_nodes (G : Graph.t) (b : bool) :
  is_connected G = Ok b -> exists s rest, nodes G = s :: rest.
Proof.
  unfold is_connected. destruct (nodes G) as [|s rest]; [discriminate|]. eauto.
Qed.

Lemma is_connected_reach (G : Graph.t) (s : string) (rest : list string) (b : bool) :
  wf G -> nodes G = s :: rest -> is_connected G = Ok b ->
  (b = true <-> forall x, In x (nodes G) -> reach (nbrs G) s x).
Proof.
  intros Hwf Hnodes Hb.
  destruct (is_connected_spec G s rest Hwf Hnodes) as (b' & Hb' & Hiff).
  rewrite Hb in Hb'. injection Hb' as <-. exact Hiff.
Qed.

(** What the computation yields on a connected graph. *)
Lemma articulation_points_spec (G : Graph.t) :
  wf G -> is_connected G = Ok true ->
  exists aps,
    articulation_points G = Ok aps
    /\ (forall x, In x aps -> sep (nbrs G) (nodes G) x)
    /\ (forall a, In a (nodes G) -> ~ In a aps ->
          (forall u, In u (nodes G) -> u = a)
          \/ exists beta, forall u, In u (nodes G) -> u <> a ->
                                    conn (nbrs G) a beta u).
Proof.
  intros Hwf Hconn.
  destruct (is_connected_nodes G true Hconn) as (s & rest & Hnodes).
  pose proof (proj1 (is_connected_reach G s rest true Hwf Hnodes Hconn) eq_refl)
    as Hreach.
  destruct (dfs_all_connected (nbrs G) (nodes G) (nbrs_closed G Hwf)
              (nbrs_sym G Hwf) (dfs_fuel G) s rest Hnodes Hreach)
    as (V & out & Hrun & Hsep & Hkeep).
  { unfold dfs_fuel. rewrite work_nil. lia. }
  exists (dedup out). split.
  { unfold articulation_points. rewrite Hrun. reflexivity. }
  split.
  - intros x Hx. apply Hsep. apply in_dedup. exact Hx.
  - intros a Ha Hout. apply Hkeep; [exact Ha|].
    intros H. apply Hout. apply in_dedup. exact H.
Qed.

(** *** Counting the components *)

Lemma components_loop_total (G : Graph.t) :
  wf G -> forall vs seen, incl vs (nodes G) ->
  exists cs, components_loop G vs seen = Ok cs.
Proof.
  intros Hwf. induction vs as [|v vs IH]; intros seen Hincl; simpl; [eauto|].
  assert (Hvs : incl vs (nodes G)) by (intros x Hx; apply Hincl; simpl; auto).
  destruct (mem v seen); [apply IH; exact Hvs|].
  destruct (plain_bfs_graph G v Hwf) as (l & Hl & _); [apply Hincl; simpl; auto|].
  rewrite Hl. simpl. destruct (IH (seen ++ l) Hvs) as [cs Hcs].
  rewrite Hcs. simpl. eauto.
Qed.

Lemma components_loop_seen (G : Graph.t) (vs seen : list string) :
  incl vs seen -> components_loop G vs seen = Ok [].
Proof.
  induction vs as [|v vs IH]; intros Hincl; simpl; [reflexivity|].
  assert (E : mem v seen = true) by (apply mem_In, Hincl; simpl; auto).
  rewrite E. apply IH. intros x Hx. apply Hincl. simpl. auto.
Qed.

Lemma components_loop_more (G : Graph.t) :
  wf G -> forall vs seen, incl vs (nodes G) ->
  (exists x, In x vs /\ ~ In x seen) ->
  exists c cs, components_loop G vs seen = Ok (c :: cs).
Proof.
  intros Hwf. induction vs as [|v vs IH]; intros seen Hincl (x & Hx & Hn).
  - destruct Hx.
  - assert (Hvs : incl vs (nodes G)) by (intros y Hy; apply Hincl; simpl; auto).
    simpl. destruct (mem v seen) eqn:E.
    + apply mem_In in E. apply IH; [exact Hvs|]. exists x. split; [|exact Hn].
      destruct Hx as [<-|Hx]; [tauto | exact Hx].
    + destruct (plain_bfs_graph G v Hwf) as (l & Hl & _); [apply Hincl; simpl; auto|].
      rewrite Hl. simpl.
      destruct (components_loop_total G Hwf vs (seen ++ l) Hvs) as [cs Hcs].
      rewrite Hcs. simpl. eauto.
Qed.

Lemma missing_node (l l' : list string) :
  incl l' l \/ exists x, In x l' /\ ~ In x l.
Proof.
  induction l' as [|y l' [IH|(x & Hx & Hn)]].
  - left. intros x [].
  - destruct (in_dec string_dec y l) as [Hy|Hy].
    + left. intros x [<-|Hx]; auto.
    + right. exists y. simpl. auto.
  - right. exists x. simpl. auto.
Qed.

(** A connected graph has one component, any other graph with a node has
    at least two. *)
Lemma component_count (G : Graph.t) (b : bool) :
  wf G -> is_connected G = Ok b ->
  exists cs,
    connected_components G = Ok cs
    /\ if b then List.length cs = 1 else 2 <= List.length cs.
Proof.
  intros Hwf Hb.
  destruct (is_connected_nodes G b Hb) as (s & rest & Hnodes).
  assert (Hs : In s (nodes G)) by (rewrite Hnodes; simpl; auto).
  destruct (plain_bfs_graph G s Hwf Hs) as (l & Hl & Hnd & Hincl & Hreach).
  assert (Hlen : b = (List.length l =? number_of_nodes G)).
  { unfold is_connected in Hb. rewrite Hnodes, Hl in Hb. simpl in Hb.
    congruence. }
  assert (Hrest : incl rest (nodes G)).
  { intros x Hx. rewrite Hnodes. simpl. auto. }
  unfold connected_components. rewrite Hnodes. simpl. rewrite Hl. simpl.
  destruct (missing_node l rest) as [Hall|(x & Hx & Hn)].
  - rewrite (components_loop_seen G rest l Hall). simpl.
    exists [l]. split; [reflexivity|].
    assert (Hfull : incl (nodes G) l).
    { intros y Hy. rewrite Hnodes in Hy. destruct Hy as [<-|Hy]; [|auto].
      apply Hreach. constructor. }
    pose proof (NoDup_incl_length Hnd Hincl).
    pose proof (NoDup_incl_length (wf_nodes G Hwf) Hfull).
    destruct b; [reflexivity|]. symmetry in Hlen. apply Nat.eqb_neq in Hlen.
    rewrite number_of_nodes_length in Hlen. lia.
  - destruct (components_loop_more G Hwf rest l Hrest) as (c & cs & Hcs); [eauto|].
    rewrite Hcs. simpl. exists (l :: c :: cs). split; [reflexivity|].
    destruct b; [|simpl; lia].
    exfalso. apply Hn. symmetry in Hlen. apply Nat.eqb_eq in Hlen.
    rewrite number_of_nodes_length in Hlen.
    apply (NoDup_length_incl Hnd (l' := nodes G)); [lia | exact Hincl|].
    apply Hrest. exact Hx.
Qed.

(** *** Taking a node out *)

Lemma removed_nodes (G G' : Graph.t) (v : string) :
  wf G -> In v (nodes G) -> remove_node G v = Ok G' ->
  forall x, In x (nodes G') <-> In x (nodes G) /\ x <> v.
Proof.
  intros Hwf Hv Hrm x.
  destruct (remove_node_spec G v Hwf Hv) as (G1 & H1 & Hnodes & _).
  rewrite Hrm in H1. injection H1 as <-. rewrite Hnodes. apply in_filter_neq.
Qed.

(** A node that separates the graph leaves it disconnected. *)
Lemma sep_disconnects (G : Graph.t) (v : string) :
  wf G -> sep (nbrs G) (nodes G) v ->
  exists G', remove_node G v = Ok G' /\ wf G' /\ is_connected G' = Ok false.
Proof.
  intros Hwf (Hv & C & Hne & HC & HvC & Hcl & z & Hz & HzC & Hzv).
  destruct (remove_node_spec G v Hwf Hv) as (G' & Hrm & _).
  pose proof (wf_remove_node G G' v Hwf Hrm Hv) as Hwf'.
  pose proof (removed_nodes G G' v Hwf Hv Hrm) as Hin.
  pose proof (in_nbrs_removed G G' v) as Hnb.
  exists G'. split; [exact Hrm|]. split; [exact Hwf'|].
  assert (Hstay : forall s x, In s C -> reach (nbrs G') s x -> In x C).
  { intros s x Hs H. induction H as [|y w Hy IH Hw]; [exact Hs|].
    apply (Hnb y w Hwf Hrm Hv) in Hw. destruct Hw as (Hw & _ & Hwv).
    destruct (Hcl y w IH Hw) as [H|H]; [exact H | congruence]. }
  destruct (nodes G') as [|s rest] eqn:Hnodes.
  { exfalso. apply (proj2 (Hin z)). auto. }
  destruct (is_connected_spec G' s rest Hwf' Hnodes) as (b & Hb & Hiff).
  destruct b; [|exact Hb]. exfalso.
  pose proof (proj1 Hiff eq_refl) as Hall.
  destruct C as [|c0 C0]; [congruence|].
  assert (Hc0 : In c0 (nodes G')).
  { rewrite Hnodes. apply Hin. split; [apply HC; simpl; auto|].
    intros ->. apply HvC. simpl. auto. }
  assert (Hz' : In z (nodes G')).
  { rewrite Hnodes. apply Hin. auto. }
  destruct (in_dec string_dec s (c0 :: C0)) as [Hs|Hs].
  - apply HzC. apply (Hstay s z Hs). apply Hall. exact Hz'.
  - apply Hs. apply (Hstay c0 s); [simpl; auto|].
    apply reach_sym; [apply (nbrs_sym G' Hwf')|]. apply Hall. exact Hc0.
Qed.

(** If the other nodes hang together without [v], the graph without [v]
    is connected. *)
Lemma conn_connected (G : Graph.t) (v beta z : string) :
  wf G -> In v (nodes G) -> In z (nodes G) -> z <> v ->
  (forall u, In u (nodes G) -> u <> v -> conn (nbrs G) v beta u) ->
  exists G', remove_node G v = Ok G' /\ wf G' /\ is_connected G' = Ok true.
Proof.
  intros Hwf Hv Hz Hzv Hall.
  destruct (remove_node_spec G v Hwf Hv) as (G' & Hrm & _).
  pose proof (wf_remove_node G G' v Hwf Hrm Hv) as Hwf'.
  pose proof (removed_nodes G G' v Hwf Hv Hrm) as Hin.
  pose proof (in_nbrs_removed G G' v) as Hnb.
  exists G'. split; [exact Hrm|]. split; [exact Hwf'|].
  destruct (nodes G') as [|s rest] eqn:Hnodes.
  { exfalso. apply (proj2 (Hin z)). auto. }
  destruct (is_connected_spec G' s rest Hwf' Hnodes) as (b & Hb & Hiff).
  rewrite Hb. f_equal. apply Hiff. intros x Hx.
  assert (Hs : In s (s :: rest)) by (simpl; auto).
  rewrite Hnodes in Hx.
  apply Hin in Hs, Hx.
  apply (reach_incl (avoid (nbrs G) v)).
  { intros u w Hw. apply in_avoid in Hw. apply (Hnb u w Hwf Hrm Hv). exact Hw. }
  apply (reach_trans _ s beta x).
  - apply conn_sym; [apply (nbrs_sym G Hwf)|]. apply Hall; tauto.
  - apply Hall; tauto.
Qed.

End CutFacts.

(** C6.  Let [G] be a connected graph, consistent as every graph of the
    class is ([Graph.wf], kept by [add_node], [add_edge], [remove_node]
    and [copy]).  The articulation-point computation returns a list of
    nodes of [G], and [G] has one connected component.  Removing a node of
    that list leaves a graph that is not connected: it has two components
    or more, so the component count increases.  When [G] has three nodes
    or more, removing a node that is not in the list leaves a graph that
    is still connected. *)
Theorem C6_articulation_points_are_the_cut_nodes (G : Graph.t) :
  Graph.wf G -> Nx.is_connected G = Ok true ->
  exists aps,
    Nx.articulation_points G = Ok aps
    /\ (exists cs, Nx.connected_components G = Ok cs /\ List.length cs = 1)
    /\ (forall v, In v aps ->
          In v (Graph.nodes G)
          /\ exists G' cs,
               Graph.remove_node G v = Ok G'
               /\ Nx.is_connected G' = Ok false
               /\ Nx.connected_components G' = Ok cs
               /\ 1 < List.length cs)
    /\ (3 <= Graph.number_of_nodes G ->
        forall v, In v (Graph.nodes G) -> ~ In v aps ->
          exists G',
            Graph.remove_node G v = Ok G'
            /\ Nx.is_connected G' = Ok true).
Proof.
  intros Hwf Hconn.
  destruct (CutFacts.articulation_points_spec G Hwf Hconn)
    as (aps & Haps & Hsep & Hkeep).
  exists aps. split; [exact Haps|]. split; [|split].
  - destruct (CutFacts.component_count G true Hwf Hconn) as (cs & Hcs & Hlen).
    exists cs. auto.
  - intros v Hv. pose proof (Hsep v Hv) as Hs. split; [apply Hs|].
    destruct (CutFacts.sep_disconnects G v Hwf Hs) as (G' & Hrm & Hwf' & Hdis).
    destruct (CutFacts.component_count G' false Hwf' Hdis) as (cs & Hcs & Hlen).
    exists G', cs. repeat split; auto.
  - intros Hn v Hv Hout.
    rewrite BfsFacts.number_of_nodes_length in Hn.
    assert (Hz : exists z, In z (Graph.nodes G) /\ z <> v).
    { pose proof (Graph.wf_nodes G Hwf) as Hnd.
      destruct (Graph.nodes G) as [|s [|t rest]]; simpl in Hn; try lia.
      destruct (string_dec s v) as [->|Hsv].
      - exists t. split; [simpl; auto|]. intros ->.
        inversion Hnd as [|? ? Hnotin _]. apply Hnotin. simpl. auto.
      - exists s. simpl. auto. }
    destruct Hz as (z & Hz & Hzv).
    destruct (Hkeep v Hv Hout) as [Hone|[beta Hall]].
    + exfalso. apply Hzv. apply Hone. exact Hz.
    + destruct (CutFacts.conn_connected G v beta z Hwf Hv Hz Hzv Hall)
        as (G' & Hrm & _ & Hc).
      exists G'. auto.
Qed.

Lemma C6_articulation_points_are_the_cut_nodes_witness :
  let G := Builder.create_bus_topology ["a"; "b"; "c"; "d"] in
  exists aps,
    Nx.articulation_points G = Ok aps
    /\ (exists cs, Nx.connected_components G = Ok cs /\ List.length cs = 1)
    /\ (forall v, In v aps ->
          In v (Graph.nodes G)
          /\ exists G' cs,
               Graph.remove_node G v = Ok G'
               /\ Nx.is_connected G' = Ok false
               /\ Nx.connected_components G' = Ok cs
               /\ 1 < List.length cs)
    /\ (3 <= Graph.number_of_nodes G ->
        forall v, In v (Graph.nodes G) -> ~ In v aps ->
          exists G',
            Graph.remove_node G v = Ok G'
            /\ Nx.is_connected G' = Ok true).
Proof.
  apply (C6_articulation_points_are_the_cut_nodes
           (Builder.create_bus_topology ["a"; "b"; "c"; "d"])).
  - cbv [Builder.create_bus_topology fold_left seq List.length Nat.ltb Nat.leb
           Nat.sub Nat.add nth].
    repeat first [apply GraphFacts.wf_add_edge | apply GraphFacts.wf_add_node].
    apply GraphFacts.wf_empty.
  - reflexivity.
Defined.

(* ------------------------------------------------------------------ *)
(** ** The copy of a graph

    [simulate_failure] removes the node from [G.copy()].  The copy has
    the nodes and the neighbours of the graph it was made from, so what
    was shown for the removal from a graph holds for the removal from
    its copy. *)

Module ShapeFacts.

Import Dict DictFacts Graph GraphFacts Nx BfsFacts OpsFacts DfsFacts CutFacts.

(** Two graphs with the same nodes and the same neighbours. *)
Definition same_shape (G H : Graph.t) : Prop :=
  (forall x, In x (nodes H) <-> In x (nodes G))
  /\ (forall x y, In y (nbrs H x) <-> In y (nbrs G x)).

Lemma sep_shape (G H : Graph.t) (v : string) :
  same_shape G H -> sep (nbrs G) (nodes G) v -> sep (nbrs H) (nodes H) v.
Proof.
  intros [Hn Hb] (Hv & C & Hne & HC & HvC & Hcl & z & Hz & HzC & Hzv).
  split; [apply Hn; exact Hv|].
  exists C. split; [exact Hne|]. split.
  { intros x Hx. apply Hn. apply HC. exact Hx. }
  split; [exact HvC|]. split.
  { intros u w Hu Hw. apply (Hcl u w Hu). apply Hb. exact Hw. }
  exists z. split; [apply Hn; exact Hz|]. auto.
Qed.

Lemma conn_shape (G H : Graph.t) (v beta u : string) :
  same_shape G H -> conn (nbrs G) v beta u -> conn (nbrs H) v beta u.
Proof.
  intros [Hn Hb]. apply reach_incl. intros x y Hy.
  apply in_avoid in Hy. apply in_avoid. rewrite Hb. exact Hy.
Qed.

(** *** The additions a copy is made of *)

Definition copy_ops (G : Graph.t) : list op :=
  map (fun nd => AddNode (fst nd) (snd nd)) (_node G)
  ++ flat_map
       (fun unb => map (fun vd => AddEdge (fst unb) (fst vd) (snd vd)) (snd unb))
       (_adj G).

Lemma copy_run (G : Graph.t) : copy G = OpsFacts.run (copy_ops G) empty.
Proof.
  unfold copy, copy_ops. rewrite run_app, run_map, <- fold_run.
  apply fold_left_ext. intros g unb. rewrite run_map. reflexivity.
Qed.

Lemma in_nbrs_run (ops : list op) (x y : string) :
  forall g, keys (_adj g) = nodes g ->
    (In y (nbrs (OpsFacts.run ops g) x)
     <-> In y (nbrs g x) \/ existsb (links x y) ops = true).
Proof.
  induction ops as [|o ops IH]; intros g Hk; simpl.
  - split; [auto | intros [H|H]; [exact H | discriminate]].
  - rewrite IH by (apply keys_apply; exact Hk). rewrite orb_true_iff.
    destruct o as [n a|u v a]; simpl.
    + rewrite nbrs_add_node by exact Hk.
      split; [tauto|]. intros [H|[H|H]]; auto. discriminate.
    + rewrite in_nbrs_add_edge by exact Hk.
      rewrite orb_true_iff, !andb_true_iff, !String.eqb_eq. tauto.
Qed.

Lemma in_adj_nbrs (G : Graph.t) (u : string) (nb : Dict.t attrs) :
  NoDup (keys (_adj G)) -> In (u, nb) (_adj G) -> nbrs G u = keys nb.
Proof.
  intros Hnd Hin. unfold nbrs, adj_of.
  rewrite (nodup_get u nb (_adj G) Hnd Hin). reflexivity.
Qed.

Lemma nbrs_in_adj (G : Graph.t) (u v : string) :
  In v (nbrs G u) ->
  exists nb vd, In (u, nb) (_adj G) /\ In vd nb /\ fst vd = v.
Proof.
  unfold nbrs, adj_of. destruct (get u (_adj G)) as [nb|] eqn:E; [|intros []].
  intros Hv. apply in_map_iff in Hv. destruct Hv as (vd & Hfst & Hvd).
  exists nb, vd. split; [|auto].
  revert E. clear. induction (_adj G) as [|[k d] l IH]; simpl; [discriminate|].
  destruct (String.eqb u k) eqn:Ek.
  - apply String.eqb_eq in Ek. subst. intros H. injection H as ->. auto.
  - auto.
Qed.

(** The edge additions of the copy are the adjacency entries. *)
Lemma copy_links (G : Graph.t) (x y : string) :
  NoDup (keys (_adj G)) ->
  (existsb (links x y) (copy_ops G) = true
   <-> In y (nbrs G x) \/ In x (nbrs G y)).
Proof.
  intros Hnd. rewrite existsb_exists. unfold copy_ops. split.
  - intros (o & Ho & Hl). apply in_app_iff in Ho. destruct Ho as [Ho|Ho].
    + apply in_map_iff in Ho. destruct Ho as (nd & <- & _). discriminate.
    + apply in_flat_map in Ho. destruct Ho as ([u nb] & Hunb & Ho).
      apply in_map_iff in Ho. destruct Ho as (vd & <- & Hvd). simpl in Hl.
      assert (Hv : In (fst vd) (nbrs G u)).
      { rewrite (in_adj_nbrs G u nb Hnd Hunb). apply in_map. exact Hvd. }
      apply orb_true_iff in Hl. rewrite !andb_true_iff, !String.eqb_eq in Hl.
      destruct Hl as [[-> ->]|[-> ->]]; auto.
  - assert (Hedge : forall u v, In v (nbrs G u) ->
              exists o, In o (copy_ops G) /\ links u v o = true).
    { intros u v Hv. destruct (nbrs_in_adj G u v Hv) as (nb & vd & H1 & H2 & H3).
      exists (AddEdge u (fst vd) (snd vd)). split.
      - apply in_app_iff. right. apply in_flat_map. exists (u, nb).
        split; [exact H1|]. apply in_map_iff. exists vd. auto.
      - simpl. subst v. rewrite !String.eqb_refl. reflexivity. }
    intros [H|H].
    + exact (Hedge x y H).
    + destruct (Hedge y x H) as (o & Ho & Hl). exists o.
      rewrite links_sym. auto.
Qed.

Lemma copy_shape (G : Graph.t) : wf G -> same_shape G (copy G).
Proof.
  intros Hwf.
  assert (Hnd : NoDup (keys (_adj G))).
  { rewrite (wf_keys G Hwf). apply (wf_nodes G Hwf). }
  split.
  - intros x. split; [|apply CopyFacts.in_nodes_copy].
    rewrite copy_run, in_nodes_run. intros [[]|Hx].
    apply in_flat_map in Hx. destruct Hx as (o & Ho & Hx).
    unfold copy_ops in Ho. apply in_app_iff in Ho. destruct Ho as [Ho|Ho].
    + apply in_map_iff in Ho. destruct Ho as (nd & <- & Hnd').
      simpl in Hx. destruct Hx as [<-|[]]. unfold nodes. apply in_map. exact Hnd'.
    + apply in_flat_map in Ho. destruct Ho as ([u nb] & Hunb & Ho).
      apply in_map_iff in Ho. destruct Ho as (vd & <- & Hvd).
      assert (Hv : In (fst vd) (nbrs G u)).
      { rewrite (in_adj_nbrs G u nb Hnd Hunb). apply in_map. exact Hvd. }
      apply (wf_closed G Hwf) in Hv. simpl in Hx.
      destruct Hx as [<-|[<-|[]]]; tauto.
  - intros x y. rewrite copy_run, in_nbrs_run by reflexivity.
    rewrite copy_links by exact Hnd. split.
    + intros [[]|[H|H]]; [exact H | apply (nbrs_sym G Hwf); exact H].
    + auto.
Qed.

End ShapeFacts.

(* ------------------------------------------------------------------ *)
(** ** What the failure simulation reports *)

Module FailureFacts.

Import Main.

(** The run of [simulate_failure] on a node of the graph: the three
    messages on the removal, then the impact analysis of the caller's
    graph and the copy without the node. *)
Lemma simulate_failure_run (h : heap) (G : ref) (v : string) :
  G < List.length h -> Graph.has_node (deref h G) v = true ->
  exists ns G_failed,
    Graph.neighbors (Graph.copy (deref h G)) v = Ok ns
    /\ Graph.remove_node (Graph.copy (deref h G)) v = Ok G_failed
    /\ snd (simulate_failure h G v) =
         (say (MsgSimulating v) ;;;
          say (MsgRemoved v (List.length ns)) ;;;
          say (MsgAffected ns) ;;;
          analyze_impact (deref h G) G_failed).
Proof.
  intros HG Hhas.
  assert (Hin : In v (Graph.nodes (Graph.copy (deref h G)))).
  { apply CopyFacts.in_nodes_copy. apply CopyFacts.has_node_In. exact Hhas. }
  destruct (GraphFacts.remove_node_spec _ v (CopyFacts.wf_copy (deref h G)) Hin)
    as (g & Hg & _).
  assert (Hnb : exists ns, Graph.neighbors (Graph.copy (deref h G)) v = Ok ns).
  { unfold Graph.neighbors.
    destruct (Dict.get v (Graph._adj (Graph.copy (deref h G)))) eqn:E;
      [eexists; reflexivity|].
    apply DictFacts.get_None in E.
    rewrite (Graph.wf_keys _ (CopyFacts.wf_copy (deref h G))) in E. tauto. }
  destruct Hnb as [ns Hns]. exists ns, g.
  split; [exact Hns|]. split; [exact Hg|].
  unfold simulate_failure. rewrite Hhas. simpl.
  assert (Hnew : deref (h ++ [Graph.copy (deref h G)]) (List.length h)
                 = Graph.copy (deref h G)).
  { apply (MainFacts.deref_alloc_new h). }
  rewrite Hnew, Hns, Hg. simpl.
  rewrite MainFacts.store_last.
  rewrite (MainFacts.deref_app_old h g G HG).
  assert (Hlast : deref (h ++ [g]) (List.length h) = g).
  { apply (MainFacts.deref_alloc_new h g). }
  rewrite Hlast. reflexivity.
Qed.

Lemma analyze_impact_critical (G G_failed : Graph.t) (cs : list (list string)) :
  Nx.is_connected G = Ok true ->
  Nx.is_connected G_failed = Ok false ->
  Nx.connected_components G_failed = Ok cs ->
  analyze_impact G G_failed
  = (MsgCriticalFailure :: MsgSplitInto (List.length cs) :: component_msgs 1 cs,
     Ok tt).
Proof.
  intros H1 H2 H3. unfold analyze_impact, rbind, attempt, say, ret.
  rewrite H1. simpl. rewrite H2. simpl. rewrite H3. reflexivity.
Qed.

Lemma analyze_impact_connected (G G_failed : Graph.t) :
  Nx.is_connected G = Ok true ->
  Nx.is_connected G_failed = Ok true ->
  exists more r, analyze_impact G G_failed = (MsgRemainsConnected :: more, r).
Proof.
  intros H1 H2. unfold analyze_impact, rbind at 1 2 3, attempt, say, ret.
  rewrite H1. simpl. rewrite H2. simpl.
  unfold rbind at 1. simpl. eauto.
Qed.

(** On a connected graph of three nodes or more the simulation reports a
    critical failure, with two components or more, for the nodes the
    articulation-point computation returns, and reports that the network
    remains connected for the other nodes. *)
Lemma simulate_failure_reports_cut_nodes (h : heap) (G : ref) (v : string) :
  G < List.length h ->
  Graph.wf (deref h G) ->
  Nx.is_connected (deref h G) = Ok true ->
  3 <= Graph.number_of_nodes (deref h G) ->
  In v (Graph.nodes (deref h G)) ->
  exists aps ns,
    Nx.articulation_points (deref h G) = Ok aps
    /\ (In v aps ->
        exists cs,
          2 <= List.length cs
          /\ snd (simulate_failure h G v)
             = ([MsgSimulating v; MsgRemoved v (List.length ns); MsgAffected ns;
                 MsgCriticalFailure; MsgSplitInto (List.length cs)]
                ++ component_msgs 1 cs, Ok tt))
    /\ (~ In v aps ->
        exists more r,
          snd (simulate_failure h G v)
          = ([MsgSimulating v; MsgRemoved v (List.length ns); MsgAffected ns;
              MsgRemainsConnected] ++ more, r)).
Proof.
  intros HG Hwf Hconn Hn Hv.
  assert (Hhas : Graph.has_node (deref h G) v = true)
    by (apply CopyFacts.has_node_In; exact Hv).
  destruct (simulate_failure_run h G v HG Hhas) as (ns & g & Hns & Hg & Hrun).
  destruct (CutFacts.articulation_points_spec (deref h G) Hwf Hconn)
    as (aps & Haps & Hsep & Hkeep).
  pose proof (ShapeFacts.copy_shape (deref h G) Hwf) as Hshape.
  pose proof (CopyFacts.wf_copy (deref h G)) as Hwfc.
  exists aps, ns. split; [exact Haps|]. split.
  - intros Hin.
    pose proof (ShapeFacts.sep_shape _ _ v Hshape (Hsep v Hin)) as Hs.
    destruct (CutFacts.sep_disconnects _ v Hwfc Hs) as (g' & Hg' & Hwf' & Hdis).
    rewrite Hg in Hg'. injection Hg' as <-.
    destruct (CutFacts.component_count g false Hwf' Hdis) as (cs & Hcs & Hlen).
    exists cs. split; [exact Hlen|].
    rewrite Hrun, (analyze_impact_critical _ _ cs Hconn Hdis Hcs). reflexivity.
  - intros Hout.
    rewrite BfsFacts.number_of_nodes_length in Hn.
    assert (Hz : exists z, In z (Graph.nodes (deref h G)) /\ z <> v).
    { pose proof (Graph.wf_nodes _ Hwf) as Hnd.
      destruct (Graph.nodes (deref h G)) as [|s [|t rest]]; simpl in Hn; try lia.
      destruct (string_dec s v) as [->|Hsv].
      - exists t. split; [simpl; auto|]. intros ->.
        inversion Hnd as [|? ? Hnotin _]. apply Hnotin. simpl. auto.
      - exists s. simpl. auto. }
    destruct Hz as (z & Hz & Hzv).
    destruct (Hkeep v Hv Hout) as [Hone|[beta Hall]].
    { exfalso. apply Hzv. apply Hone. exact Hz. }
    destruct (CutFacts.conn_connected (Graph.copy (deref h G)) v beta z Hwfc)
      as (g' & Hg' & _ & Hc).
    + apply (proj1 Hshape). exact Hv.
    + apply (proj1 Hshape). exact Hz.
    + exact Hzv.
    + intros u Hu Huv. apply (ShapeFacts.conn_shape _ _ v beta u Hshape).
      apply Hall; [apply (proj1 Hshape); exact Hu | exact Huv].
    + rewrite Hg in Hg'. injection Hg' as <-.
      destruct (analyze_impact_connected _ _ Hconn Hc) as (more & r & Hrun').
      exists more, r. rewrite Hrun, Hrun'. reflexivity.
Qed.

End FailureFacts.

(* ------------------------------------------------------------------ *)
(** ** Counting nodes, degrees and edges of a generated graph *)

Module GenFacts.

Import Dict DictFacts Graph GraphFacts OpsFacts BfsFacts ShapeFacts.

Lemma list_sum_permutation (l l' : list nat) :
  Permutation l l' -> list_sum l = list_sum l'.
Proof.
  intros H. induction H as [|x l l' H IH|x y l|l l' l'' H1 IH1 H2 IH2]; simpl.
  - reflexivity.
  - rewrite IH. reflexivity.
  - rewrite !Nat.add_assoc, (Nat.add_comm y x). reflexivity.
  - rewrite IH1. exact IH2.
Qed.

(** The node list of a consistent graph is a rearrangement of any
    duplicate-free list with the same members. *)
Lemma nodes_permutation (G : Graph.t) (l : list string) :
  wf G -> NoDup l -> (forall x, In x (nodes G) <-> In x l) ->
  Permutation (nodes G) l.
Proof.
  intros Hwf Hl Hiff. apply NoDup_Permutation; [apply (wf_nodes G Hwf) | exact Hl | exact Hiff].
Qed.

Lemma number_of_nodes_members (G : Graph.t) (l : list string) :
  wf G -> NoDup l -> (forall x, In x (nodes G) <-> In x l) ->
  number_of_nodes G = List.length l.
Proof.
  intros Hwf Hl Hiff. rewrite number_of_nodes_length.
  apply Permutation_length. apply nodes_permutation; assumption.
Qed.

(** The degree sum may be taken over any such list. *)
Lemma degree_sum_members (G : Graph.t) (l : list string) :
  wf G -> NoDup l -> (forall x, In x (nodes G) <-> In x l) ->
  list_sum (values (degrees G)) = list_sum (map (degree G) l).
Proof.
  intros Hwf Hl Hiff. unfold degrees, values. rewrite map_map. simpl.
  apply list_sum_permutation. apply Permutation_map.
  apply nodes_permutation; assumption.
Qed.

(** A graph all of whose nodes are reached from one of them is
    connected. *)
Lemma connected_from (G : Graph.t) (s : string) :
  wf G -> In s (nodes G) ->
  (forall x, In x (nodes G) -> reach (nbrs G) s x) ->
  Nx.is_connected G = Ok true.
Proof.
  intros Hwf Hs Hall.
  destruct (nodes G) as [|s0 rest] eqn:E; [destruct Hs|].
  destruct (is_connected_spec G s0 rest Hwf E) as (b & Hb & Hiff).
  rewrite Hb. f_equal. apply Hiff. rewrite E. intros x Hx.
  apply (reach_trans _ _ s).
  - apply reach_sym; [apply (nbrs_sym G Hwf)|]. apply Hall. simpl. auto.
  - apply Hall. exact Hx.
Qed.

(** A graph with a node that is not reached from another is not
    connected. *)
Lemma disconnected_by (G : Graph.t) (s x : string) :
  wf G -> In s (nodes G) -> In x (nodes G) -> ~ reach (nbrs G) s x ->
  Nx.is_connected G = Ok false.
Proof.
  intros Hwf Hs Hx Hno.
  destruct (nodes G) as [|s0 rest] eqn:E; [destruct Hs|].
  destruct (is_connected_spec G s0 rest Hwf E) as (b & Hb & Hiff).
  rewrite Hb. f_equal. destruct b; [|reflexivity]. exfalso. apply Hno.
  pose proof (proj1 Hiff eq_refl) as Hall. rewrite E in Hall.
  apply (reach_trans _ _ s0).
  - apply reach_sym; [apply (nbrs_sym G Hwf)|]. apply Hall. exact Hs.
  - apply Hall. exact Hx.
Qed.

(** What a sequence of additions to the empty graph builds. *)
Lemma in_nodes_built (ops : list op) (x : string) :
  In x (nodes (OpsFacts.run ops empty)) <-> In x (flat_map mentions ops).
Proof.
  rewrite in_nodes_run. simpl. tauto.
Qed.

Lemma in_nbrs_built (ops : list op) (x y : string) :
  In y (nbrs (OpsFacts.run ops empty) x) <-> existsb (links x y) ops = true.
Proof.
  rewrite in_nbrs_run by reflexivity. simpl. tauto.
Qed.

Lemma links_true (x y u v : string) (a : attrs) :
  links x y (AddEdge u v a) = true <-> (x = u /\ y = v) \/ (x = v /\ y = u).
Proof.
  simpl. rewrite orb_true_iff, !andb_true_iff, !String.eqb_eq. tauto.
Qed.

(** All edges of a construction that gives every edge the same
    attributes carry them. *)
Lemma edge_data_built (a : attrs) (ops : list op) (x y : string) :
  NoDup (keys a) ->
  Forall (conforms (fun _ _ => a)) ops ->
  get_edge_data (OpsFacts.run ops empty) x y =
    if existsb (links x y) ops then Some a else None.
Proof.
  intros Ha Hops.
  apply (get_edge_data_run (fun _ _ => a) (fun _ _ => eq_refl) (fun _ _ => Ha)
           ops x y empty eq_refl).
  - apply edges_conform_empty.
  - exact Hops.
Qed.

Lemma has_edge_nbrs (G : Graph.t) (x y : string) :
  has_edge G x y = true <-> In y (nbrs G x).
Proof.
  rewrite EdgeFacts.has_edge_get_edge_data. symmetry. apply in_nbrs.
Qed.

End GenFacts.

(* ------------------------------------------------------------------ *)
(** ** The star generator *)

Module StarFacts.

Import Dict DictFacts Graph GraphFacts OpsFacts BfsFacts ShapeFacts GenFacts.

Definition star_link : attrs := Builder.link 1000 1500 "ethernet".

(** The additions the generator performs. *)
Definition star_ops (center : string) (others : list string) : list op :=
  AddNode center [("role", VStr "hub"); ("device_type", VStr "switch")]
  :: flat_map
       (fun node =>
          [AddNode node [("role", VStr "endpoint"); ("device_type", VStr "host")];
           AddEdge center node star_link])
       others.

Lemma create_star_run (center : string) (others : list string) :
  others <> [] ->
  Builder.create_star_topology (center :: others)
  = OpsFacts.run (star_ops center others) empty.
Proof.
  intros H. unfold Builder.create_star_topology.
  destruct others as [|o os]; [congruence|].
  change (List.length (center :: o :: os) <? 2) with false. cbv iota.
  unfold star_ops.
  change (OpsFacts.run (?a :: ?l) empty) with (OpsFacts.run l (apply_op empty a)).
  rewrite <- fold_run. reflexivity.
Qed.

Section Star.

Variable center : string.
Variable others : list string.
Hypothesis distinct : NoDup (center :: others).
Hypothesis enough : others <> [].

Let G := Builder.create_star_topology (center :: others).

Lemma center_fresh : ~ In center others.
Proof. exact (proj1 (proj1 (NoDup_cons_iff center others) distinct)). Qed.

Lemma star_wf : wf G.
Proof.
  unfold G. rewrite create_star_run by exact enough. apply wf_run, wf_empty.
Qed.

Lemma star_nodes (x : string) : In x (nodes G) <-> In x (center :: others).
Proof.
  unfold G. rewrite create_star_run by exact enough.
  rewrite in_nodes_built. unfold star_ops. simpl. rewrite in_flat_map. split.
  - intros [H|(o & Ho & Hx)]; [auto|].
    apply in_flat_map in Ho. destruct Ho as (node & Hnode & Ho).
    simpl in Ho. destruct Ho as [<-|[<-|[]]]; simpl in Hx.
    + destruct Hx as [<-|[]]. auto.
    + destruct Hx as [<-|[<-|[]]]; auto.
  - intros [H|H]; [auto|]. right.
    exists (AddEdge center x star_link). split; [|simpl; auto].
    apply in_flat_map. exists x. simpl. auto.
Qed.

(** The hub is linked to every other id, and there is no other link. *)
Lemma star_nbrs (x y : string) :
  In y (nbrs G x) <->
  (x = center /\ In y others) \/ (y = center /\ In x others).
Proof.
  unfold G. rewrite create_star_run by exact enough.
  rewrite in_nbrs_built, existsb_exists. unfold star_ops. split.
  - intros (o & [<-|Ho] & Hl); [discriminate|].
    apply in_flat_map in Ho. destruct Ho as (node & Hnode & Ho).
    simpl in Ho. destruct Ho as [<-|[<-|[]]]; [discriminate|].
    apply links_true in Hl. destruct Hl as [[-> ->]|[-> ->]]; auto.
  - intros H.
    assert (Hedge : forall node, In node others ->
              In (AddEdge center node star_link) (star_ops center others)).
    { intros node Hnode. right. apply in_flat_map. exists node. simpl. auto. }
    destruct H as [[-> Hy]|[-> Hx]].
    + exists (AddEdge center y star_link). split; [apply Hedge; exact Hy|].
      apply links_true. auto.
    + exists (AddEdge center x star_link). split; [apply Hedge; exact Hx|].
      apply links_true. auto.
Qed.

Lemma star_degree_hub : degree G center = List.length others.
Proof.
  apply degree_by_members.
  - apply star_wf.
  - exact (proj2 (proj1 (NoDup_cons_iff center others) distinct)).
  - intros y. rewrite star_nbrs. pose proof center_fresh. tauto.
  - apply center_fresh.
Qed.

Lemma star_degree_leaf (x : string) : In x others -> degree G x = 1.
Proof.
  intros Hx. apply (degree_by_members G x [center]).
  - apply star_wf.
  - repeat constructor. simpl. tauto.
  - intros y. rewrite star_nbrs. simpl. pose proof center_fresh.
    split.
    + intros [[-> H1]|[-> H1]]; [tauto | auto].
    + intros [<-|[]]. auto.
  - simpl. intros [H|[]]. apply center_fresh. rewrite H. exact Hx.
Qed.

Lemma star_node_count : number_of_nodes G = S (List.length others).
Proof.
  apply (number_of_nodes_members G (center :: others));
    [apply star_wf | exact distinct | apply star_nodes].
Qed.

Lemma star_edge_count : number_of_edges G = List.length others.
Proof.
  unfold number_of_edges.
  rewrite (degree_sum_members G (center :: others) star_wf distinct star_nodes).
  change (list_sum (map (degree G) (center :: others)))
    with (degree G center + list_sum (map (degree G) others)).
  rewrite star_degree_hub.
  rewrite (list_sum_const (degree G) 1 others) by (intros x Hx; apply star_degree_leaf; exact Hx).
  replace (List.length others + 1 * List.length others)
    with (List.length others * 2) by lia.
  apply Nat.div_mul. lia.
Qed.

Lemma star_connected : Nx.is_connected G = Ok true.
Proof.
  apply (connected_from G center).
  - apply star_wf.
  - apply star_nodes. simpl. auto.
  - intros x Hx. apply star_nodes in Hx. destruct Hx as [<-|Hx]; [constructor|].
    eapply reach_step; [constructor|]. apply star_nbrs. auto.
Qed.

Lemma star_edge_data (x y : string) :
  In y (nbrs G x) -> get_edge_data G x y = Some star_link.
Proof.
  intros H. pose proof H as H'. unfold G in *.
  rewrite create_star_run in * by exact enough.
  apply in_nbrs_built in H'.
  rewrite (edge_data_built star_link).
  - rewrite H'. reflexivity.
  - unfold star_link, Builder.link. simpl.
    repeat constructor; simpl; intuition discriminate.
  - apply Forall_forall. intros o [<-|Ho]; [exact I|].
    apply in_flat_map in Ho. destruct Ho as (node & _ & Ho).
    simpl in Ho. destruct Ho as [<-|[<-|[]]]; simpl; auto.
Qed.

End Star.

End StarFacts.

(** X1.  For two or more distinct ids the star generator builds a graph
    on exactly these ids in which the first id is linked to every other
    one and nothing else is linked: [N - 1] edges, each with bandwidth
    1000 and mtu 1500, the hub of degree [N - 1], every other node of
    degree 1, and the graph connected.  For fewer than two ids it
    returns the empty graph. *)
Theorem X1_star_generator (center : string) (others : list string) :
  NoDup (center :: others) -> others <> [] ->
  let G := Builder.create_star_topology (center :: others) in
  (forall x, In x (Graph.nodes G) <-> In x (center :: others))
  /\ Graph.number_of_nodes G = S (List.length others)
  /\ Graph.number_of_edges G = List.length others
  /\ (forall x y, Graph.has_edge G x y = true <->
        (x = center /\ In y others) \/ (y = center /\ In x others))
  /\ (forall x y, Graph.has_edge G x y = true ->
        Graph.get_edge_data G x y = Some (Builder.link 1000 1500 "ethernet"))
  /\ Graph.degree G center = List.length others
  /\ (forall x, In x others -> Graph.degree G x = 1)
  /\ Nx.is_connected G = Ok true
  /\ Builder.create_star_topology [] = Graph.empty
  /\ Builder.create_star_topology [center] = Graph.empty.
Proof.
  intros Hnd Hne G. subst G.
  split; [apply StarFacts.star_nodes; assumption|].
  split; [apply StarFacts.star_node_count; assumption|].
  split; [apply StarFacts.star_edge_count; assumption|].
  split.
  { intros x y. rewrite GenFacts.has_edge_nbrs.
    apply StarFacts.star_nbrs; assumption. }
  split.
  { intros x y H. apply StarFacts.star_edge_data; [assumption..|].
    apply GenFacts.has_edge_nbrs. exact H. }
  split; [apply StarFacts.star_degree_hub; assumption|].
  split; [apply StarFacts.star_degree_leaf; assumption|].
  split; [apply StarFacts.star_connected; assumption|].
  split; reflexivity.
Qed.

Lemma X1_star_generator_witness :
  let G := Builder.create_star_topology ["hub"; "a"; "b"; "c"] in
  Graph.number_of_edges G = 3
  /\ Graph.degree G "hub" = 3
  /\ Nx.is_connected G = Ok true.
Proof.
  assert (Hnd : NoDup ["hub"; "a"; "b"; "c"]).
  { repeat constructor; simpl; intuition discriminate. }
  assert (Hne : ["a"; "b"; "c"] <> []) by discriminate.
  destruct (X1_star_generator "hub" ["a"; "b"; "c"] Hnd Hne)
    as (_ & _ & H3 & _ & _ & H6 & _ & H8 & _).
  split; [exact H3|]. split; [exact H6 | exact H8].
Defined.

(* ------------------------------------------------------------------ *)
(** ** How additions change the edge count *)

Module CountFacts.

Import Dict DictFacts Graph GraphFacts OpsFacts BfsFacts ShapeFacts GenFacts.

Lemma length_nbrs (G : Graph.t) (x : string) :
  List.length (nbrs G x) = List.length (adj_of G x).
Proof. unfold nbrs, keys. apply length_map. Qed.

Lemma degree_nbrs (G : Graph.t) (x : string) :
  degree G x
  = List.length (nbrs G x) + (if mem x (nbrs G x) then 1 else 0).
Proof.
  unfold degree. rewrite length_nbrs. f_equal.
  destruct (has x (adj_of G x)) eqn:E.
  - apply has_In in E. apply mem_In in E. unfold nbrs. rewrite E. reflexivity.
  - apply has_false in E. apply mem_false in E. unfold nbrs. rewrite E. reflexivity.
Qed.

Lemma mem_same (x : string) (l l' : list string) :
  (In x l <-> In x l') -> mem x l = mem x l'.
Proof.
  intros H. destruct (mem x l') eqn:E.
  - apply mem_In. apply H. apply mem_In. exact E.
  - apply mem_false. rewrite H. apply mem_false. exact E.
Qed.

(** A node outside the graph has no neighbours. *)
Lemma nbrs_outside (G : Graph.t) (x : string) :
  wf G -> ~ In x (nodes G) -> nbrs G x = [].
Proof.
  intros Hwf Hx. unfold nbrs. rewrite adj_of_absent; [reflexivity|].
  rewrite (wf_keys G Hwf). exact Hx.
Qed.

Lemma degree_outside (G : Graph.t) (x : string) :
  wf G -> ~ In x (nodes G) -> degree G x = 0.
Proof.
  intros Hwf Hx. rewrite degree_nbrs, (nbrs_outside G x Hwf Hx). reflexivity.
Qed.

(** A new edge raises the degree of each endpoint by one (a new
    self-loop raises the degree of its node by two). *)
Lemma degree_add_edge_new (G : Graph.t) (u v x : string) (a : attrs) :
  wf G -> ~ In v (nbrs G u) ->
  degree (add_edge G u v a) x
  = degree G x + (if String.eqb x u then 1 else 0)
    + (if String.eqb x v then 1 else 0).
Proof.
  intros Hwf Hnew.
  assert (Hk : keys (_adj G) = nodes G) by apply (wf_keys G Hwf).
  pose proof (wf_add_edge G u v a Hwf) as Hwf'.
  assert (Hnew' : ~ In u (nbrs G v)).
  { intros H. apply Hnew. apply (nbrs_sym G Hwf). exact H. }
  rewrite !degree_nbrs.
  destruct (string_dec x u) as [Hxu|Hxu]; destruct (string_dec x v) as [Hxv|Hxv];
    subst; eqb_norm.
  - (* a self-loop *)
    rewrite (length_same_members (nbrs (add_edge G v v a) v) (nbrs G v ++ [v])).
    + rewrite length_app. simpl.
      assert (E1 : mem v (nbrs (add_edge G v v a) v) = true).
      { apply mem_In. apply in_nbrs_add_edge; auto. }
      assert (E2 : mem v (nbrs G v) = false) by (apply mem_false; exact Hnew).
      rewrite E1, E2. lia.
    + apply (wf_nbrs _ Hwf').
    + apply NoDup_app; [apply (wf_nbrs G Hwf) | repeat constructor; simpl; tauto|].
      intros y Hy [<-|[]]. tauto.
    + intros y. rewrite in_nbrs_add_edge by exact Hk. rewrite in_app_iff. simpl.
      intuition congruence.
  - rewrite (length_same_members (nbrs (add_edge G u v a) u) (nbrs G u ++ [v])).
    + rewrite length_app. simpl.
      rewrite (mem_same u (nbrs (add_edge G u v a) u) (nbrs G u)); [lia|].
      rewrite in_nbrs_add_edge by exact Hk. intuition congruence.
    + apply (wf_nbrs _ Hwf').
    + apply NoDup_app; [apply (wf_nbrs G Hwf) | repeat constructor; simpl; tauto|].
      intros y Hy [<-|[]]. tauto.
    + intros y. rewrite in_nbrs_add_edge by exact Hk. rewrite in_app_iff. simpl.
      intuition congruence.
  - rewrite (length_same_members (nbrs (add_edge G u v a) v) (nbrs G v ++ [u])).
    + rewrite length_app. simpl.
      rewrite (mem_same v (nbrs (add_edge G u v a) v) (nbrs G v)); [lia|].
      rewrite in_nbrs_add_edge by exact Hk. intuition congruence.
    + apply (wf_nbrs _ Hwf').
    + apply NoDup_app; [apply (wf_nbrs G Hwf) | repeat constructor; simpl; tauto|].
      intros y Hy [<-|[]]. tauto.
    + intros y. rewrite in_nbrs_add_edge by exact Hk. rewrite in_app_iff. simpl.
      intuition congruence.
  - rewrite (length_same_members (nbrs (add_edge G u v a) x) (nbrs G x)).
    + rewrite (mem_same x (nbrs (add_edge G u v a) x) (nbrs G x)); [lia|].
      rewrite in_nbrs_add_edge by exact Hk. intuition congruence.
    + apply (wf_nbrs _ Hwf').
    + apply (wf_nbrs G Hwf).
    + intros y. rewrite in_nbrs_add_edge by exact Hk. intuition congruence.
Qed.

(** Adding an edge that is there, or a node, leaves every degree as it
    was. *)
Lemma degree_add_edge_old (G : Graph.t) (u v x : string) (a : attrs) :
  wf G -> In v (nbrs G u) ->
  degree (add_edge G u v a) x = degree G x.
Proof.
  intros Hwf Hold.
  assert (Hk : keys (_adj G) = nodes G) by apply (wf_keys G Hwf).
  pose proof (wf_add_edge G u v a Hwf) as Hwf'.
  assert (Hold' : In u (nbrs G v)) by (apply (nbrs_sym G Hwf); exact Hold).
  assert (Hsame : forall y, In y (nbrs (add_edge G u v a) x) <-> In y (nbrs G x)).
  { intros y. rewrite in_nbrs_add_edge by exact Hk. split; [|auto].
    intros [H|[[-> ->]|[-> ->]]]; assumption. }
  rewrite !degree_nbrs.
  rewrite (length_same_members _ _ (wf_nbrs _ Hwf' x) (wf_nbrs G Hwf x) Hsame).
  rewrite (mem_same x _ _ (Hsame x)). reflexivity.
Qed.

Lemma degree_add_node (G : Graph.t) (n x : string) (a : attrs) :
  wf G -> degree (add_node G n a) x = degree G x.
Proof.
  intros Hwf. unfold degree.
  rewrite adj_of_add_node by apply (wf_keys G Hwf). reflexivity.
Qed.

(** *** Sums over the node list *)

Lemma list_sum_map_add {A : Type} (f g : A -> nat) (l : list A) :
  list_sum (map (fun x => f x + g x) l) = list_sum (map f l) + list_sum (map g l).
Proof.
  induction l as [|x l IH]; simpl; [reflexivity|]. rewrite IH. lia.
Qed.

Lemma list_sum_map_ext {A : Type} (f g : A -> nat) (l : list A) :
  (forall x, In x l -> f x = g x) -> list_sum (map f l) = list_sum (map g l).
Proof.
  induction l as [|x l IH]; intros H; simpl; [reflexivity|].
  rewrite H by (simpl; auto). rewrite IH; [reflexivity|].
  intros y Hy. apply H. simpl. auto.
Qed.

Lemma list_sum_indicator (u : string) (l : list string) :
  NoDup l ->
  list_sum (map (fun x => if String.eqb x u then 1 else 0) l)
  = if mem u l then 1 else 0.
Proof.
  induction 1 as [|y l Hy Hl IH]; simpl; [reflexivity|].
  rewrite IH. rewrite (String.eqb_sym y u).
  destruct (String.eqb u y) eqn:E; [|reflexivity].
  apply String.eqb_eq in E. subst y.
  apply mem_false in Hy. rewrite Hy. reflexivity.
Qed.

(** The degree sum of [G] over the nodes of a graph that has the nodes of
    [G] and others. *)
Lemma degree_sum_ensure (G H : Graph.t) (n : string) :
  wf G -> (forall x, In x (nodes G) -> In x (nodes H)) ->
  list_sum (map (degree G) (nodes (ensure_node H n)))
  = list_sum (map (degree G) (nodes H)).
Proof.
  intros Hwf Hincl. rewrite nodes_ensure_node.
  destruct (has_node H n) eqn:E; [reflexivity|].
  rewrite map_app, list_sum_app. simpl.
  rewrite degree_outside; [lia | exact Hwf|].
  intros Hn. apply Hincl in Hn. apply has_false in E. apply E. exact Hn.
Qed.

Definition degree_sum (G : Graph.t) : nat := list_sum (values (degrees G)).

Lemma degree_sum_map (G : Graph.t) :
  degree_sum G = list_sum (map (degree G) (nodes G)).
Proof.
  unfold degree_sum, degrees, values. rewrite map_map. reflexivity.
Qed.

Lemma degree_sum_add_edge_new (G : Graph.t) (u v : string) (a : attrs) :
  wf G -> ~ In v (nbrs G u) ->
  degree_sum (add_edge G u v a) = degree_sum G + 2.
Proof.
  intros Hwf Hnew. rewrite !degree_sum_map.
  pose proof (wf_add_edge G u v a Hwf) as Hwf'.
  rewrite (list_sum_map_ext _
             (fun x => (degree G x + (if String.eqb x u then 1 else 0))
                       + (if String.eqb x v then 1 else 0)))
    by (intros x _; apply degree_add_edge_new; assumption).
  rewrite list_sum_map_add, list_sum_map_add.
  rewrite !list_sum_indicator by apply (wf_nodes _ Hwf').
  assert (Eu : mem u (nodes (add_edge G u v a)) = true).
  { apply mem_In. apply in_nodes_add_edge. auto. }
  assert (Ev : mem v (nodes (add_edge G u v a)) = true).
  { apply mem_In. apply in_nodes_add_edge. auto. }
  rewrite Eu, Ev. rewrite nodes_add_edge.
  rewrite (degree_sum_ensure G (ensure_node G u) v Hwf).
  - rewrite (degree_sum_ensure G G u Hwf); [lia | auto].
  - intros x Hx. apply in_nodes_ensure_node. auto.
Qed.

Lemma degree_sum_add_edge_old (G : Graph.t) (u v : string) (a : attrs) :
  wf G -> In v (nbrs G u) ->
  degree_sum (add_edge G u v a) = degree_sum G.
Proof.
  intros Hwf Hold. rewrite !degree_sum_map.
  rewrite (list_sum_map_ext _ (degree G))
    by (intros x _; apply degree_add_edge_old; assumption).
  rewrite nodes_add_edge.
  rewrite (degree_sum_ensure G (ensure_node G u) v Hwf).
  - apply (degree_sum_ensure G G u Hwf). auto.
  - intros x Hx. apply in_nodes_ensure_node. auto.
Qed.

Lemma degree_sum_add_node (G : Graph.t) (n : string) (a : attrs) :
  wf G -> degree_sum (add_node G n a) = degree_sum G.
Proof.
  intros Hwf. rewrite !degree_sum_map.
  rewrite (list_sum_map_ext _ (degree G))
    by (intros x _; apply degree_add_node; assumption).
  rewrite nodes_add_node. destruct (has_node G n) eqn:E; [reflexivity|].
  rewrite map_app, list_sum_app. simpl.
  rewrite degree_outside; [lia | exact Hwf|].
  apply has_false in E. exact E.
Qed.

(** *** The edge count *)

Lemma number_of_edges_sum (G : Graph.t) : number_of_edges G = Nat.div (degree_sum G) 2.
Proof. reflexivity. Qed.

(** A new edge is one more edge; an edge that is there, and a node, are
    none. *)
Lemma number_of_edges_add_edge_new (G : Graph.t) (u v : string) (a : attrs) :
  wf G -> ~ In v (nbrs G u) ->
  number_of_edges (add_edge G u v a) = S (number_of_edges G).
Proof.
  intros Hwf Hnew. rewrite !number_of_edges_sum.
  rewrite degree_sum_add_edge_new by assumption.
  replace (degree_sum G + 2) with (degree_sum G + 1 * 2) by lia.
  rewrite Nat.div_add by lia. lia.
Qed.

Lemma number_of_edges_add_edge_old (G : Graph.t) (u v : string) (a : attrs) :
  wf G -> In v (nbrs G u) ->
  number_of_edges (add_edge G u v a) = number_of_edges G.
Proof.
  intros Hwf Hold. rewrite !number_of_edges_sum.
  rewrite degree_sum_add_edge_old by assumption. reflexivity.
Qed.

Lemma number_of_edges_add_node (G : Graph.t) (n : string) (a : attrs) :
  wf G -> number_of_edges (add_node G n a) = number_of_edges G.
Proof.
  intros Hwf. rewrite !number_of_edges_sum.
  rewrite degree_sum_add_node by assumption. reflexivity.
Qed.

End CountFacts.

(* ------------------------------------------------------------------ *)
(** ** The edge count of a sequence of additions *)

Module BuiltFacts.

Import Dict DictFacts Graph GraphFacts OpsFacts BfsFacts ShapeFacts GenFacts
       CountFacts.

Definition is_edge (o : op) : bool :=
  match o with AddEdge _ _ _ => true | AddNode _ _ => false end.

(** The number of edge additions. *)
Definition count_edges (ops : list op) : nat := List.length (filter is_edge ops).

(** No edge is added twice. *)
Inductive fresh : list op -> Prop :=
| fresh_nil : fresh []
| fresh_node : forall n a ops, fresh ops -> fresh (AddNode n a :: ops)
| fresh_edge : forall u v a ops,
    existsb (links u v) ops = false -> fresh ops ->
    fresh (AddEdge u v a :: ops).

Lemma links_edge_sym (u v u' v' : string) (a a' : attrs) :
  links u v (AddEdge u' v' a) = links u' v' (AddEdge u v a').
Proof.
  simpl. rewrite (String.eqb_sym u u'), (String.eqb_sym v v'),
    (String.eqb_sym u v'), (String.eqb_sym v u').
  rewrite (andb_comm (String.eqb v' u)). reflexivity.
Qed.

(** When no edge is added twice, and none of them is in the graph at the
    start, every edge addition is one more edge. *)
Lemma number_of_edges_run (ops : list op) :
  forall g, wf g -> fresh ops ->
    (forall u v a, In (AddEdge u v a) ops -> ~ In v (nbrs g u)) ->
    number_of_edges (OpsFacts.run ops g) = number_of_edges g + count_edges ops.
Proof.
  induction ops as [|o ops IH]; intros g Hwf Hfresh Hnew.
  - unfold count_edges. simpl. lia.
  - inversion Hfresh as [|n a ops' Hf|u v a ops' Hno Hf]; subst.
    + change (OpsFacts.run (AddNode n a :: ops) g)
        with (OpsFacts.run ops (add_node g n a)).
      rewrite IH.
      * rewrite number_of_edges_add_node by exact Hwf. reflexivity.
      * apply wf_add_node. exact Hwf.
      * exact Hf.
      * intros u v b Hin. rewrite nbrs_add_node by apply (wf_keys g Hwf).
        apply (Hnew u v b). simpl. auto.
    + change (OpsFacts.run (AddEdge u v a :: ops) g)
        with (OpsFacts.run ops (add_edge g u v a)).
      rewrite IH.
      * rewrite number_of_edges_add_edge_new.
        -- unfold count_edges. simpl. lia.
        -- exact Hwf.
        -- apply (Hnew u v a). simpl. auto.
      * apply wf_add_edge. exact Hwf.
      * exact Hf.
      * intros u' v' b Hin.
        rewrite in_nbrs_add_edge by apply (wf_keys g Hwf).
        intros [H|H].
        -- apply (Hnew u' v' b); [simpl; auto | exact H].
        -- assert (Hl : links u v (AddEdge u' v' b) = true).
           { rewrite (links_edge_sym u v u' v' b a). apply links_true. exact H. }
           assert (Hex : existsb (links u v) ops = true).
           { apply existsb_exists. eauto. }
           congruence.
Qed.

Lemma number_of_edges_built (ops : list op) :
  fresh ops -> number_of_edges (OpsFacts.run ops empty) = count_edges ops.
Proof.
  intros Hf. rewrite number_of_edges_run; [reflexivity | apply wf_empty | exact Hf|].
  intros u v a _ [].
Qed.

Lemma fresh_app_nodes (l : list op) (ops : list op) :
  (forall o, In o l -> is_edge o = false) -> fresh ops -> fresh (l ++ ops).
Proof.
  induction l as [|o l IH]; intros Hl Hf; simpl; [exact Hf|].
  assert (Ho : is_edge o = false) by (apply Hl; simpl; auto).
  destruct o as [n a|u v a]; [|discriminate].
  constructor. apply IH; [|exact Hf]. intros o Hin. apply Hl. simpl. auto.
Qed.

Lemma count_edges_app (l ops : list op) :
  count_edges (l ++ ops) = count_edges l + count_edges ops.
Proof. unfold count_edges. rewrite filter_app, length_app. reflexivity. Qed.

Lemma count_edges_nodes (l : list op) :
  (forall o, In o l -> is_edge o = false) -> count_edges l = 0.
Proof.
  unfold count_edges. induction l as [|o l IH]; intros H; simpl; [reflexivity|].
  rewrite H by (simpl; auto). apply IH. intros o' Ho'. apply H. simpl. auto.
Qed.

Lemma count_edges_edges (l : list op) :
  (forall o, In o l -> is_edge o = true) -> count_edges l = List.length l.
Proof.
  unfold count_edges. induction l as [|o l IH]; intros H; simpl; [reflexivity|].
  rewrite H by (simpl; auto). simpl. f_equal. apply IH.
  intros o' Ho'. apply H. simpl. auto.
Qed.

(** Edge additions out of a duplicate-free list, no two of them between
    the same pair of ids. *)
Lemma fresh_map {A : Type} (e : A -> op) (l : list A) :
  NoDup l ->
  (forall x, In x l -> exists u v a, e x = AddEdge u v a) ->
  (forall x y u v a, In x l -> In y l -> e x = AddEdge u v a ->
                     links u v (e y) = true -> x = y) ->
  fresh (map e l).
Proof.
  induction 1 as [|x l Hx Hl IH]; intros Hedge Hinj; simpl; [constructor|].
  destruct (Hedge x (or_introl eq_refl)) as (u & v & a & Hex).
  rewrite Hex. constructor.
  - destruct (existsb (links u v) (map e l)) eqn:E; [|reflexivity].
    apply existsb_exists in E. destruct E as (o & Ho & Hlk).
    apply in_map_iff in Ho. destruct Ho as (y & <- & Hy).
    exfalso. apply Hx.
    rewrite (Hinj x y u v a); simpl; auto.
  - apply IH.
    + intros y Hy. apply Hedge. simpl. auto.
    + intros y z u' v' a' Hy Hz. apply Hinj; simpl; auto.
Qed.

End BuiltFacts.

(* ------------------------------------------------------------------ *)
(** ** The bus generator *)

Module BusFacts.

Import Dict DictFacts Graph GraphFacts OpsFacts BfsFacts ShapeFacts GenFacts
       CountFacts BuiltFacts.

Definition bus_link : attrs := Builder.link 100 1500 "coax".

(** The additions the generator performs. *)
Definition bus_ops (nodes : list string) : list op :=
  map (fun n => AddNode n [("device_type", VStr "workstation")]) nodes
  ++ map (fun i => AddEdge (nth i nodes "") (nth (i + 1) nodes "") bus_link)
       (seq 0 (List.length nodes - 1)).

Lemma create_bus_run (nodes : list string) :
  2 <= List.length nodes ->
  Builder.create_bus_topology nodes = OpsFacts.run (bus_ops nodes) empty.
Proof.
  intros H. unfold Builder.create_bus_topology.
  destruct (List.length nodes <? 2) eqn:E; [apply Nat.ltb_lt in E; lia|].
  unfold bus_ops. rewrite run_app, !run_map. reflexivity.
Qed.

Section Bus.

Variable nodes : list string.
Hypothesis nodes_distinct : NoDup nodes.
Hypothesis enough : 2 <= List.length nodes.

Let n := List.length nodes.
Let G := Builder.create_bus_topology nodes.
Let node (i : nat) : string := nth i nodes "".

Lemma bus_wf : wf G.
Proof.
  unfold G. rewrite create_bus_run by exact enough. apply wf_run, wf_empty.
Qed.

Lemma bus_node_inj (i j : nat) : i < n -> j < n -> node i = node j -> i = j.
Proof.
  intros Hi Hj H. apply (proj1 (NoDup_nth nodes "") nodes_distinct); assumption.
Qed.

Lemma bus_node_at (x : string) : In x nodes -> exists i, i < n /\ x = node i.
Proof.
  intros H. destruct (In_nth nodes x "" H) as (i & Hi & Hx). eauto.
Qed.

Lemma bus_nodes (x : string) : In x (Graph.nodes G) <-> In x nodes.
Proof.
  unfold G. rewrite create_bus_run by exact enough.
  rewrite in_nodes_built. unfold bus_ops. rewrite flat_map_app, in_app_iff.
  rewrite !in_flat_map. split.
  - intros [(o & Ho & Hx)|(o & Ho & Hx)].
    + apply in_map_iff in Ho. destruct Ho as (m & <- & Hm).
      simpl in Hx. destruct Hx as [<-|[]]. exact Hm.
    + apply in_map_iff in Ho. destruct Ho as (i & <- & Hi).
      apply in_seq in Hi. simpl in Hx.
      destruct Hx as [<-|[<-|[]]]; apply nth_In; lia.
  - intros Hx. left. exists (AddNode x [("device_type", VStr "workstation")]).
    split; [|simpl; auto]. apply in_map_iff. eauto.
Qed.

(** Two ids are linked exactly when they are next to each other in the
    list. *)
Lemma bus_nbrs (x y : string) :
  In y (nbrs G x) <->
  exists i, i + 1 < n /\ ((x = node i /\ y = node (i + 1))
                          \/ (x = node (i + 1) /\ y = node i)).
Proof.
  unfold G. rewrite create_bus_run by exact enough.
  rewrite in_nbrs_built, existsb_exists. unfold bus_ops. split.
  - intros (o & Ho & Hl). apply in_app_iff in Ho. destruct Ho as [Ho|Ho].
    + apply in_map_iff in Ho. destruct Ho as (m & <- & _). discriminate.
    + apply in_map_iff in Ho. destruct Ho as (i & <- & Hi).
      apply in_seq in Hi. apply links_true in Hl.
      exists i. split; [unfold n; lia | exact Hl].
  - intros (i & Hi & Hxy).
    exists (AddEdge (node i) (node (i + 1)) bus_link). split.
    + apply in_app_iff. right. apply in_map_iff. exists i.
      split; [reflexivity|]. apply in_seq. unfold n in Hi. lia.
    + apply links_true. exact Hxy.
Qed.

Lemma bus_degree_first : degree G (node 0) = 1.
Proof.
  apply (degree_by_members G (node 0) [node 1]).
  - apply bus_wf.
  - repeat constructor. simpl. tauto.
  - intros y. rewrite bus_nbrs. simpl. split.
    + intros (i & Hi & [[H1 H2]|[H1 H2]]).
      * apply bus_node_inj in H1; [|unfold n in *; lia..]. subst i. auto.
      * apply bus_node_inj in H1; [|unfold n in *; lia..]. lia.
    + intros [<-|[]]. exists 0. split; [unfold n; lia|]. auto.
  - simpl. intros [H|[]]. apply bus_node_inj in H; unfold n in *; lia.
Qed.

Lemma bus_degree_last : degree G (node (n - 1)) = 1.
Proof.
  apply (degree_by_members G (node (n - 1)) [node (n - 2)]).
  - apply bus_wf.
  - repeat constructor. simpl. tauto.
  - intros y. rewrite bus_nbrs. simpl. split.
    + intros (i & Hi & [[H1 H2]|[H1 H2]]).
      * apply bus_node_inj in H1; [|unfold n in *; lia..]. lia.
      * apply bus_node_inj in H1; [|unfold n in *; lia..].
        left. rewrite H2. f_equal. lia.
    + intros [<-|[]]. exists (n - 2). split; [unfold n in *; lia|]. right.
      split; f_equal; unfold n in *; lia.
  - simpl. intros [H|[]]. apply bus_node_inj in H; unfold n in *; lia.
Qed.

Lemma bus_degree_inner (i : nat) :
  0 < i -> i + 1 < n -> degree G (node i) = 2.
Proof.
  intros H0 Hi.
  apply (degree_by_members G (node i) [node (i - 1); node (i + 1)]).
  - apply bus_wf.
  - repeat constructor; simpl; [|tauto].
    intros [H|[]]. apply bus_node_inj in H; unfold n in *; lia.
  - intros y. rewrite bus_nbrs. simpl. split.
    + intros (j & Hj & [[H1 H2]|[H1 H2]]).
      * apply bus_node_inj in H1; [|unfold n in *; lia..]. subst j. auto.
      * apply bus_node_inj in H1; [|unfold n in *; lia..].
        left. rewrite H2. f_equal. lia.
    + intros [<-|[<-|[]]].
      * exists (i - 1). split; [unfold n in *; lia|]. right.
        split; f_equal; lia.
      * exists i. split; [exact Hi|]. auto.
  - simpl. intros [H|[H|[]]]; apply bus_node_inj in H; unfold n in *; lia.
Qed.

Lemma bus_fresh : fresh (bus_ops nodes).
Proof.
  unfold bus_ops. apply fresh_app_nodes.
  { intros o Ho. apply in_map_iff in Ho. destruct Ho as (m & <- & _). reflexivity. }
  apply fresh_map.
  - apply seq_NoDup.
  - intros i _. eauto.
  - intros i j u v a Hi Hj He Hl. injection He as <- <- <-.
    apply in_seq in Hi, Hj. apply links_true in Hl.
    destruct Hl as [[H1 H2]|[H1 H2]].
    + apply bus_node_inj in H1; unfold n in *; lia.
    + apply bus_node_inj in H1; [|unfold n in *; lia..].
      apply bus_node_inj in H2; unfold n in *; lia.
Qed.

Lemma bus_edge_count : number_of_edges G = n - 1.
Proof.
  unfold G. rewrite create_bus_run by exact enough.
  rewrite number_of_edges_built by apply bus_fresh.
  unfold bus_ops. rewrite count_edges_app.
  rewrite count_edges_nodes, count_edges_edges.
  - rewrite length_map, length_seq. reflexivity.
  - intros o Ho. apply in_map_iff in Ho. destruct Ho as (i & <- & _). reflexivity.
  - intros o Ho. apply in_map_iff in Ho. destruct Ho as (m & <- & _). reflexivity.
Qed.

Lemma bus_node_count : number_of_nodes G = n.
Proof.
  apply (number_of_nodes_members G nodes);
    [apply bus_wf | exact nodes_distinct | apply bus_nodes].
Qed.

Lemma bus_reach_from_first (i : nat) :
  i < n -> reach (nbrs G) (node 0) (node i).
Proof.
  induction i as [|i IH]; intros Hi; [constructor|].
  eapply reach_step; [apply IH; lia|].
  apply bus_nbrs. exists i. split; [lia|]. left.
  split; [reflexivity|]. f_equal. lia.
Qed.

Lemma bus_connected : Nx.is_connected G = Ok true.
Proof.
  apply (connected_from G (node 0)).
  - apply bus_wf.
  - apply bus_nodes. apply nth_In. lia.
  - intros x Hx. apply bus_nodes in Hx.
    destruct (bus_node_at x Hx) as (i & Hi & ->).
    apply bus_reach_from_first. exact Hi.
Qed.

Lemma bus_edge_data (x y : string) :
  In y (nbrs G x) -> get_edge_data G x y = Some bus_link.
Proof.
  intros H. pose proof H as H'. unfold G in *.
  rewrite create_bus_run in * by exact enough.
  apply in_nbrs_built in H'.
  rewrite (edge_data_built bus_link).
  - rewrite H'. reflexivity.
  - unfold bus_link, Builder.link. simpl.
    repeat constructor; simpl; intuition discriminate.
  - apply Forall_forall. intros o Ho. unfold bus_ops in Ho.
    apply in_app_iff in Ho. destruct Ho as [Ho|Ho];
      apply in_map_iff in Ho; destruct Ho as (m & <- & _); simpl; auto.
Qed.

End Bus.

End BusFacts.

(** X2.  For a list of [N >= 2] distinct ids the bus generator builds a
    graph on exactly these ids in which two ids are linked exactly when
    they are next to each other in the list: [N - 1] edges, each with
    bandwidth 100 and mtu 1500, the first and the last id of degree 1,
    every id in between of degree 2, and the graph connected.  For fewer
    than two ids it returns the empty graph. *)
Theorem X2_bus_generator (nodes : list string) :
  (NoDup nodes -> 2 <= List.length nodes ->
   let G := Builder.create_bus_topology nodes in
   let n := List.length nodes in
   (forall x, In x (Graph.nodes G) <-> In x nodes)
   /\ Graph.number_of_nodes G = n
   /\ Graph.number_of_edges G = n - 1
   /\ (forall x y, Graph.has_edge G x y = true <->
         exists i, i + 1 < n
           /\ ((x = nth i nodes "" /\ y = nth (i + 1) nodes "")
               \/ (x = nth (i + 1) nodes "" /\ y = nth i nodes "")))
   /\ (forall x y, Graph.has_edge G x y = true ->
         Graph.get_edge_data G x y = Some (Builder.link 100 1500 "coax"))
   /\ Graph.degree G (nth 0 nodes "") = 1
   /\ Graph.degree G (nth (n - 1) nodes "") = 1
   /\ (forall i, 0 < i -> i + 1 < n -> Graph.degree G (nth i nodes "") = 2)
   /\ Nx.is_connected G = Ok true)
  /\ (List.length nodes < 2 -> Builder.create_bus_topology nodes = Graph.empty).
Proof.
  split.
  - intros Hnd Hlen G n. subst G n.
    split; [apply BusFacts.bus_nodes; assumption|].
    split; [apply BusFacts.bus_node_count; assumption|].
    split; [apply BusFacts.bus_edge_count; assumption|].
    split.
    { intros x y. rewrite GenFacts.has_edge_nbrs.
      apply BusFacts.bus_nbrs; assumption. }
    split.
    { intros x y H. apply BusFacts.bus_edge_data; [assumption..|].
      apply GenFacts.has_edge_nbrs. exact H. }
    split; [apply BusFacts.bus_degree_first; assumption|].
    split; [apply BusFacts.bus_degree_last; assumption|].
    split; [apply BusFacts.bus_degree_inner; assumption|].
    apply BusFacts.bus_connected; assumption.
  - intros H. unfold Builder.create_bus_topology.
    apply Nat.ltb_lt in H. rewrite H. reflexivity.
Qed.

Lemma X2_bus_generator_witness :
  let G := Builder.create_bus_topology ["a"; "b"; "c"; "d"] in
  Graph.number_of_edges G = 3
  /\ Graph.degree G "a" = 1
  /\ Graph.degree G "b" = 2
  /\ Nx.is_connected G = Ok true.
Proof.
  assert (Hnd : NoDup ["a"; "b"; "c"; "d"]).
  { repeat constructor; simpl; intuition discriminate. }
  assert (Hlen : 2 <= List.length ["a"; "b"; "c"; "d"]) by (simpl; lia).
  destruct (proj1 (X2_bus_generator ["a"; "b"; "c"; "d"]) Hnd Hlen)
    as (_ & _ & H3 & _ & _ & H6 & _ & H8 & H9).
  split; [exact H3|]. split; [exact H6|].
  split; [apply (H8 1); simpl; lia | exact H9].
Defined.

(* ------------------------------------------------------------------ *)
(** ** The full-mesh generator *)

Module MeshFacts.

Import Dict DictFacts Graph GraphFacts OpsFacts BfsFacts ShapeFacts GenFacts
       CountFacts BuiltFacts.

Definition mesh_link : attrs := Builder.link 1000 1500 "ethernet".

(** The edge additions of the two nested loops. *)
Fixpoint mesh_edge_ops (nodes : list string) : list op :=
  match nodes with
  | [] => []
  | node1 :: rest =>
      map (fun node2 => AddEdge node1 node2 mesh_link) rest ++ mesh_edge_ops rest
  end.

Definition mesh_ops (nodes : list string) : list op :=
  map (fun n => AddNode n [("device_type", VStr "router")]) nodes
  ++ mesh_edge_ops nodes.

Lemma mesh_edges_run (nodes : list string) :
  forall g, Builder.mesh_edges nodes g = OpsFacts.run (mesh_edge_ops nodes) g.
Proof.
  induction nodes as [|a rest IH]; intros g; simpl; [reflexivity|].
  rewrite IH, run_app, run_map. reflexivity.
Qed.

Lemma create_mesh_run (nodes : list string) :
  Builder.create_mesh_topology nodes = OpsFacts.run (mesh_ops nodes) empty.
Proof.
  unfold Builder.create_mesh_topology, mesh_ops.
  rewrite mesh_edges_run, run_app, run_map. reflexivity.
Qed.

Lemma in_mesh_edge_ops (o : op) (nodes : list string) :
  In o (mesh_edge_ops nodes) ->
  exists a b, o = AddEdge a b mesh_link /\ In a nodes /\ In b nodes
              /\ (NoDup nodes -> a <> b).
Proof.
  induction nodes as [|c rest IH]; simpl; [tauto|].
  intros H. apply in_app_iff in H. destruct H as [H|H].
  - apply in_map_iff in H. destruct H as (b & <- & Hb).
    exists c, b. repeat split; auto.
    intros Hnd ->. inversion Hnd. tauto.
  - destruct (IH H) as (a & b & -> & Ha & Hb & Hne).
    exists a, b. repeat split; auto.
    intros Hnd. apply Hne. inversion Hnd. assumption.
Qed.

Lemma mesh_edge_ops_complete (nodes : list string) (x y : string) :
  In x nodes -> In y nodes -> x <> y ->
  existsb (links x y) (mesh_edge_ops nodes) = true.
Proof.
  induction nodes as [|c rest IH]; simpl; [tauto|].
  intros Hx Hy Hne. rewrite existsb_app. apply orb_true_iff.
  destruct Hx as [->|Hx]; destruct Hy as [->|Hy]; [congruence| | |].
  - left. apply existsb_exists. exists (AddEdge x y mesh_link).
    split; [apply in_map_iff; eauto | apply links_true; auto].
  - left. apply existsb_exists. exists (AddEdge y x mesh_link).
    split; [apply in_map_iff; eauto | apply links_true; auto].
  - right. apply IH; assumption.
Qed.

Lemma length_filter_neq (x : string) (l : list string) :
  NoDup l -> In x l ->
  S (List.length (filter (fun y => negb (String.eqb y x)) l)) = List.length l.
Proof.
  induction 1 as [|z l Hz Hl IH]; simpl; [tauto|].
  intros [->|Hx].
  - rewrite String.eqb_refl. simpl. f_equal.
    clear IH Hl. induction l as [|w l IHl]; simpl; [reflexivity|].
    destruct (String.eqb w x) eqn:E.
    + apply String.eqb_eq in E. subst. simpl in Hz. tauto.
    + simpl. f_equal. apply IHl. simpl in Hz. tauto.
  - destruct (String.eqb z x) eqn:E.
    + apply String.eqb_eq in E. subst. tauto.
    + simpl. f_equal. apply IH. exact Hx.
Qed.

Lemma even_product (k : nat) : 2 * Nat.div (k * (k - 1)) 2 = k * (k - 1).
Proof.
  assert (H : Nat.modulo (k * (k - 1)) 2 = 0).
  { destruct k as [|k]; [reflexivity|].
    replace (S k - 1) with k by lia.
    induction k as [|k IH]; [reflexivity|].
    replace (S (S k) * S k) with (S k * k + 2 * S k) by lia.
    rewrite Nat.Div0.add_mod, IH.
    replace (2 * S k) with (S k * 2) by lia.
    rewrite Nat.Div0.mod_mul. reflexivity. }
  pose proof (Nat.div_mod_eq (k * (k - 1)) 2). lia.
Qed.

Lemma ratio_same (k : nat) : 0 < k -> Nx.ratio k k = Qmake 1 1.
Proof.
  intros Hk. unfold Nx.ratio.
  change (Qmake 1 1) with (Qred (Qmake 1 1)).
  apply Qred_complete. unfold Qeq. simpl.
  rewrite Z.mul_1_r. destruct k as [|k]; [lia|].
  rewrite Pos.mul_1_l || idtac.
  rewrite <- Pos.of_nat_succ. rewrite Zpos_P_of_succ_nat. lia.
Qed.

Lemma nonempty_has (l : list string) : l <> [] -> exists s, In s l.
Proof. destruct l as [|s l]; [congruence|]. intros _. exists s. simpl. auto. Qed.

Section Mesh.

Variable nodes : list string.
Hypothesis nodes_distinct : NoDup nodes.

Let n := List.length nodes.
Let G := Builder.create_mesh_topology nodes.

Lemma mesh_wf : wf G.
Proof. unfold G. rewrite create_mesh_run. apply wf_run, wf_empty. Qed.

Lemma mesh_nodes (x : string) : In x (Graph.nodes G) <-> In x nodes.
Proof.
  unfold G. rewrite create_mesh_run, in_nodes_built.
  unfold mesh_ops. rewrite flat_map_app, in_app_iff, !in_flat_map. split.
  - intros [(o & Ho & Hx)|(o & Ho & Hx)].
    + apply in_map_iff in Ho. destruct Ho as (m & <- & Hm).
      simpl in Hx. destruct Hx as [<-|[]]. exact Hm.
    + apply in_mesh_edge_ops in Ho. destruct Ho as (a & b & -> & Ha & Hb & _).
      simpl in Hx. destruct Hx as [<-|[<-|[]]]; assumption.
  - intros Hx. left. exists (AddNode x [("device_type", VStr "router")]).
    split; [|simpl; auto]. apply in_map_iff. eauto.
Qed.

(** Every two distinct ids are linked, and no id is linked to itself. *)
Lemma mesh_nbrs (x y : string) :
  In y (nbrs G x) <-> In x nodes /\ In y nodes /\ x <> y.
Proof.
  unfold G. rewrite create_mesh_run, in_nbrs_built.
  unfold mesh_ops. rewrite existsb_app, orb_true_iff. split.
  - intros [H|H]; apply existsb_exists in H; destruct H as (o & Ho & Hl).
    + apply in_map_iff in Ho. destruct Ho as (m & <- & _). discriminate.
    + apply in_mesh_edge_ops in Ho. destruct Ho as (a & b & -> & Ha & Hb & Hne).
      specialize (Hne nodes_distinct).
      apply links_true in Hl. destruct Hl as [[-> ->]|[-> ->]]; auto.
  - intros (Hx & Hy & Hne). right. apply mesh_edge_ops_complete; assumption.
Qed.

Lemma mesh_degree (x : string) : In x nodes -> degree G x = n - 1.
Proof.
  intros Hx.
  rewrite (degree_by_members G x (filter (fun y => negb (String.eqb y x)) nodes)).
  - pose proof (length_filter_neq x nodes nodes_distinct Hx). unfold n. lia.
  - apply mesh_wf.
  - apply NoDup_filter. exact nodes_distinct.
  - intros y. rewrite mesh_nbrs, in_filter_neq. split.
    + intros (_ & Hy & Hne). split; [exact Hy | congruence].
    + intros (Hy & Hne). repeat split; [exact Hx | exact Hy | congruence].
  - rewrite in_filter_neq. tauto.
Qed.

Lemma mesh_node_count : number_of_nodes G = n.
Proof.
  apply (number_of_nodes_members G nodes);
    [apply mesh_wf | exact nodes_distinct | apply mesh_nodes].
Qed.

Lemma mesh_degree_sum : degree_sum G = n * (n - 1).
Proof.
  unfold degree_sum.
  rewrite (degree_sum_members G nodes mesh_wf nodes_distinct mesh_nodes).
  rewrite (list_sum_const (degree G) (n - 1) nodes) by apply mesh_degree.
  unfold n. lia.
Qed.

Lemma mesh_edge_count : number_of_edges G = Nat.div (n * (n - 1)) 2.
Proof.
  rewrite number_of_edges_sum, mesh_degree_sum. reflexivity.
Qed.

(** The full mesh on two or more ids has density one. *)
Lemma mesh_density : 2 <= n -> Nx.density G = VFloat (Qmake 1 1).
Proof.
  intros Hn. unfold Nx.density. rewrite mesh_node_count, mesh_edge_count.
  pose proof (even_product n) as He.
  assert (Hpos : 2 <= n * (n - 1)) by nia.
  destruct (Nat.div (n * (n - 1)) 2 =? 0) eqn:E0.
  { apply Nat.eqb_eq in E0. lia. }
  destruct (n <=? 1) eqn:E1.
  { apply Nat.leb_le in E1. lia. }
  simpl orb. cbv iota. rewrite He. f_equal. apply ratio_same. lia.
Qed.

Lemma mesh_connected : nodes <> [] -> Nx.is_connected G = Ok true.
Proof.
  intros Hne. destruct (nonempty_has nodes Hne) as [s Hs].
  apply (connected_from G s).
  - apply mesh_wf.
  - apply mesh_nodes. exact Hs.
  - intros x Hx. apply mesh_nodes in Hx.
    destruct (string_dec s x) as [Hsx|Hsx]; [rewrite Hsx; constructor|].
    eapply reach_step; [constructor|]. apply mesh_nbrs.
    repeat split; auto.
Qed.

Lemma mesh_edge_data (x y : string) :
  In y (nbrs G x) -> get_edge_data G x y = Some mesh_link.
Proof.
  intros H. pose proof H as H'. unfold G in *.
  rewrite create_mesh_run in *.
  apply in_nbrs_built in H'.
  rewrite (edge_data_built mesh_link).
  - rewrite H'. reflexivity.
  - unfold mesh_link, Builder.link. simpl.
    repeat constructor; simpl; intuition discriminate.
  - apply Forall_forall. intros o Ho. unfold mesh_ops in Ho.
    apply in_app_iff in Ho. destruct Ho as [Ho|Ho].
    + apply in_map_iff in Ho. destruct Ho as (m & <- & _). exact I.
    + apply in_mesh_edge_ops in Ho. destruct Ho as (a & b & -> & _). reflexivity.
Qed.

End Mesh.

End MeshFacts.

(** X3.  For a list of [N] distinct ids the full-mesh generator builds a
    graph on exactly these ids in which every two distinct ids are linked
    and no id is linked to itself: [N(N-1)/2] edges, each with bandwidth
    1000 and mtu 1500, every node of degree [N - 1]; the graph is
    connected when there is an id, and its density is one when there are
    two or more. *)
Theorem X3_full_mesh_generator (nodes : list string) :
  NoDup nodes ->
  let G := Builder.create_mesh_topology nodes in
  let n := List.length nodes in
  (forall x, In x (Graph.nodes G) <-> In x nodes)
  /\ Graph.number_of_nodes G = n
  /\ 2 * Graph.number_of_edges G = n * (n - 1)
  /\ (forall x y, Graph.has_edge G x y = true <->
        In x nodes /\ In y nodes /\ x <> y)
  /\ (forall x y, Graph.has_edge G x y = true ->
        Graph.get_edge_data G x y = Some (Builder.link 1000 1500 "ethernet"))
  /\ (forall x, In x nodes -> Graph.degree G x = n - 1)
  /\ (nodes <> [] -> Nx.is_connected G = Ok true)
  /\ (2 <= n -> Nx.density G = VFloat (Qmake 1 1)).
Proof.
  intros Hnd G n. subst G n.
  split; [apply MeshFacts.mesh_nodes; assumption|].
  split; [apply MeshFacts.mesh_node_count; assumption|].
  split.
  { rewrite MeshFacts.mesh_edge_count by assumption.
    apply MeshFacts.even_product. }
  split.
  { intros x y. rewrite GenFacts.has_edge_nbrs.
    apply MeshFacts.mesh_nbrs; assumption. }
  split.
  { intros x y H. apply MeshFacts.mesh_edge_data.
    apply GenFacts.has_edge_nbrs. exact H. }
  split; [apply MeshFacts.mesh_degree; assumption|].
  split; [apply MeshFacts.mesh_connected; assumption|].
  apply MeshFacts.mesh_density; assumption.
Qed.

Lemma X3_full_mesh_generator_witness :
  let G := Builder.create_mesh_topology ["a"; "b"; "c"; "d"] in
  2 * Graph.number_of_edges G = 12
  /\ Graph.degree G "a" = 3
  /\ Nx.is_connected G = Ok true
  /\ Nx.density G = VFloat (Qmake 1 1).
Proof.
  assert (Hnd : NoDup ["a"; "b"; "c"; "d"]).
  { repeat constructor; simpl; intuition discriminate. }
  destruct (X3_full_mesh_generator ["a"; "b"; "c"; "d"] Hnd)
    as (_ & _ & H3 & _ & _ & H6 & H7 & H8).
  split; [exact H3|]. split; [apply H6; simpl; auto|].
  split; [apply H7; discriminate | apply H8; simpl; lia].
Defined.

(* ------------------------------------------------------------------ *)
(** ** The tree generator builds a tree *)

Module TreeShape.

Import Dict DictFacts Graph GraphFacts OpsFacts BfsFacts ShapeFacts GenFacts
       CountFacts Builder.

Definition branch_attr (lvl : nat) : attrs :=
  [("role", VStr "branch"); ("device_type", VStr "switch");
   ("level", VInt (Z.of_nat lvl))].

Definition tree_link : attrs := link 1000 1500 "ethernet".

(** Hanging a new id under a node of the graph. *)
Definition attach (G : Graph.t) (parent child : string) (lvl : nat) : Graph.t :=
  add_edge (add_node G child (branch_attr lvl)) parent child tree_link.

Lemma ensure_node_present (G : Graph.t) (n : string) :
  has_node G n = true -> ensure_node G n = G.
Proof. intros H. unfold ensure_node, has_node in *. rewrite H. reflexivity. Qed.

Section Tree.

Variable all : list string.
Variable root : string.
Hypothesis all_distinct : NoDup all.

(** What holds of the graph and the pool throughout the construction:
    the nodes are the ids taken so far, in the order taken; there is one
    edge less than there are nodes; every node is reached from the
    root. *)
Record tree_inv (G : Graph.t) (pool : list string) : Prop := mkTreeInv {
  ti_wf : wf G;
  ti_nodes : nodes G ++ pool = all;
  ti_root : In root (nodes G);
  ti_edges : S (number_of_edges G) = number_of_nodes G;
  ti_reach : forall x, In x (nodes G) -> reach (nbrs G) root x
}.

Lemma pool_fresh (G : Graph.t) (child : string) (pool : list string) :
  tree_inv G (child :: pool) -> ~ In child (nodes G).
Proof.
  intros H Hin. pose proof all_distinct as Hnd.
  rewrite <- (ti_nodes G _ H) in Hnd.
  apply NoDup_remove_2 in Hnd. apply Hnd. apply in_app_iff. auto.
Qed.

Lemma nodes_attach (G : Graph.t) (parent child : string) (lvl : nat) :
  In parent (nodes G) -> ~ In child (nodes G) ->
  nodes (attach G parent child lvl) = nodes G ++ [child].
Proof.
  intros Hp Hc. unfold attach. rewrite nodes_add_edge.
  assert (E0 : has_node G child = false) by (apply has_false; exact Hc).
  assert (Hn1 : nodes (add_node G child (branch_attr lvl)) = nodes G ++ [child]).
  { rewrite nodes_add_node, E0. reflexivity. }
  assert (E1 : has_node (add_node G child (branch_attr lvl)) parent = true).
  { apply CopyFacts.has_node_In. rewrite Hn1. apply in_app_iff. auto. }
  assert (E2 : has_node (add_node G child (branch_attr lvl)) child = true).
  { apply CopyFacts.has_node_In. rewrite Hn1. apply in_app_iff. simpl. auto. }
  rewrite (ensure_node_present _ parent E1), (ensure_node_present _ child E2).
  exact Hn1.
Qed.

Lemma in_nbrs_attach (G : Graph.t) (parent child : string) (lvl : nat)
    (x y : string) :
  wf G ->
  (In y (nbrs (attach G parent child lvl) x) <->
   In y (nbrs G x) \/ (x = parent /\ y = child) \/ (x = child /\ y = parent)).
Proof.
  intros Hwf. unfold attach.
  rewrite in_nbrs_add_edge
    by (apply adj_keys_add_node; apply (wf_keys G Hwf)).
  rewrite nbrs_add_node by apply (wf_keys G Hwf). tauto.
Qed.

Lemma attach_inv (G : Graph.t) (parent child : string) (pool : list string)
    (lvl : nat) :
  tree_inv G (child :: pool) -> In parent (nodes G) ->
  tree_inv (attach G parent child lvl) pool.
Proof.
  intros H Hp. pose proof (pool_fresh G child pool H) as Hc.
  destruct H as [Hwf Hnodes Hroot Hedges Hreach].
  pose proof (nodes_attach G parent child lvl Hp Hc) as Hn.
  assert (Hwf1 : wf (add_node G child (branch_attr lvl)))
    by (apply wf_add_node; exact Hwf).
  constructor.
  - unfold attach. apply wf_add_edge. exact Hwf1.
  - rewrite Hn, <- app_assoc. exact Hnodes.
  - rewrite Hn. apply in_app_iff. auto.
  - rewrite number_of_nodes_length, Hn, length_app. simpl.
    unfold attach. rewrite number_of_edges_add_edge_new.
    + rewrite number_of_edges_add_node by exact Hwf.
      rewrite number_of_nodes_length in Hedges. lia.
    + exact Hwf1.
    + rewrite nbrs_add_node by apply (wf_keys G Hwf).
      intros Hin. apply (wf_closed G Hwf) in Hin. tauto.
  - intros x Hx. rewrite Hn in Hx. apply in_app_iff in Hx.
    assert (Hmono : forall z, reach (nbrs G) root z ->
                      reach (nbrs (attach G parent child lvl)) root z).
    { intros z. apply CutFacts.reach_incl. intros u w Hw.
      apply in_nbrs_attach; [exact Hwf | auto]. }
    destruct Hx as [Hx|[<-|[]]].
    + apply Hmono. apply Hreach. exact Hx.
    + eapply reach_step; [apply Hmono; apply Hreach; exact Hp|].
      apply in_nbrs_attach; [exact Hwf | auto].
Qed.

(** The children one parent receives. *)
Lemma attach_children_inv (count : nat) (parent : string) (lvl : nat) :
  forall (G : Graph.t) (pool next : list string),
    tree_inv G pool -> In parent (nodes G) -> incl next (nodes G) ->
    let r := attach_children count parent lvl (G, pool, next) in
    tree_inv (fst (fst r)) (snd (fst r))
    /\ incl (nodes G) (nodes (fst (fst r)))
    /\ incl (snd r) (nodes (fst (fst r)))
    /\ (next <> [] -> snd r <> [])
    /\ (0 < count -> pool <> [] -> snd r <> []).
Proof.
  induction count as [|count IH]; intros G pool next Hinv Hp Hnext; simpl.
  - split; [exact Hinv|]. split; [apply incl_refl|]. split; [exact Hnext|].
    split; [auto|]. intros H. lia.
  - destruct pool as [|child pool]; simpl.
    + split; [exact Hinv|]. split; [apply incl_refl|]. split; [exact Hnext|].
      split; [auto|]. intros _ H. congruence.
    + pose proof (pool_fresh G child pool Hinv) as Hc.
      pose proof (attach_inv G parent child pool lvl Hinv Hp) as Hinv'.
      pose proof (nodes_attach G parent child lvl Hp Hc) as Hn.
      fold (branch_attr lvl). fold tree_link. fold (attach G parent child lvl).
      destruct (IH (attach G parent child lvl) pool (next ++ [child]) Hinv')
        as (A & B & C & D & E).
      * rewrite Hn. apply in_app_iff. auto.
      * rewrite Hn. intros z Hz. apply in_app_iff in Hz. apply in_app_iff.
        destruct Hz as [Hz|Hz]; auto.
      * split; [exact A|]. split.
        { intros z Hz. apply B. rewrite Hn. apply in_app_iff. auto. }
        split; [exact C|].
        assert (Hne : next ++ [child] <> []) by (destruct next; discriminate).
        split; intros; apply D; exact Hne.
Qed.

(** One level: every parent of the frontier in turn. *)
Lemma tree_level_inv (bf : Z) (lvl : nat) (parents : list string) :
  forall (G : Graph.t) (pool next : list string),
    tree_inv G pool -> incl parents (nodes G) -> incl next (nodes G) ->
    let r := fold_left
               (fun st parent =>
                  attach_children
                    (Z.to_nat (Z.min bf (Z.of_nat (List.length (snd (fst st))))))
                    parent lvl st)
               parents (G, pool, next) in
    tree_inv (fst (fst r)) (snd (fst r))
    /\ incl (snd r) (nodes (fst (fst r)))
    /\ (next <> [] -> snd r <> [])
    /\ ((1 <= bf)%Z -> parents <> [] -> pool <> [] -> snd r <> []).
Proof.
  induction parents as [|p ps IH]; intros G pool next Hinv Hps Hnext; simpl.
  - split; [exact Hinv|]. split; [exact Hnext|]. split; [auto|].
    intros _ H. congruence.
  - destruct (attach_children_inv
                (Z.to_nat (Z.min bf (Z.of_nat (List.length pool)))) p lvl
                G pool next Hinv) as (A & B & C & D & E).
    { apply Hps. simpl. auto. }
    { exact Hnext. }
    destruct (attach_children
                (Z.to_nat (Z.min bf (Z.of_nat (List.length pool)))) p lvl
                (G, pool, next)) as [[G1 pool1] next1] eqn:Er.
    simpl in A, B, C, D, E.
    destruct (IH G1 pool1 next1 A) as (A' & B' & C' & D').
    { intros z Hz. apply B. apply Hps. simpl. auto. }
    { exact C. }
    split; [exact A'|]. split; [exact B'|]. split.
    + intros Hne. apply C'. apply D. exact Hne.
    + intros Hbf _ Hpool. apply C'. apply E; [|exact Hpool].
      destruct pool as [|c pool']; [congruence|]. simpl List.length. lia.
Qed.

(** The state of the loop: the invariant, and a frontier of nodes. *)
Definition state_inv (st : tree_state) : Prop :=
  tree_inv (tree_graph st) (remaining_nodes st)
  /\ incl (current_level_nodes st) (nodes (tree_graph st)).

Lemma tree_step_inv (bf : Z) (st : tree_state) :
  state_inv st -> state_inv (tree_step bf st).
Proof.
  intros [Hinv Hcur]. unfold tree_step, tree_level, state_inv. simpl.
  destruct (tree_level_inv bf (level st) (current_level_nodes st)
              (tree_graph st) (remaining_nodes st) [] Hinv Hcur)
    as (A & B & _).
  { intros z []. }
  split; assumption.
Qed.

Lemma tree_step_frontier (bf : Z) (st : tree_state) :
  (1 <= bf)%Z -> state_inv st -> tree_continue st = true ->
  current_level_nodes (tree_step bf st) <> [].
Proof.
  intros Hbf [Hinv Hcur] Hc. apply TreeFacts.tree_continue_true in Hc.
  destruct Hc as [Hrem Hfront].
  unfold tree_step, tree_level. simpl.
  destruct (tree_level_inv bf (level st) (current_level_nodes st)
              (tree_graph st) (remaining_nodes st) [] Hinv Hcur)
    as (_ & _ & _ & D).
  { intros z []. }
  apply D; assumption.
Qed.

Lemma iter_inv (bf : Z) (st : tree_state) (k : nat) :
  (1 <= bf)%Z -> state_inv st -> current_level_nodes st <> [] ->
  (forall j, j < k -> tree_continue (Nat.iter j (tree_step bf) st) = true) ->
  state_inv (Nat.iter k (tree_step bf) st)
  /\ current_level_nodes (Nat.iter k (tree_step bf) st) <> [].
Proof.
  intros Hbf Hinv Hfront. induction k as [|k IH]; intros Hc; simpl.
  - auto.
  - destruct IH as [A B]; [intros j Hj; apply Hc; lia|].
    split.
    + apply tree_step_inv. exact A.
    + apply tree_step_frontier; [exact Hbf | exact A | apply Hc; lia].
Qed.

End Tree.

(** With a branching factor of one or more every id ends up in the
    tree. *)
Lemma tree_complete (root : string) (others : list string) (bf : Z)
    (fuel : nat) :
  NoDup (root :: others) -> (1 <= bf)%Z -> List.length others <= fuel ->
  exists G,
    create_tree_topology fuel (root :: others) bf = Some G
    /\ tree_inv (root :: others) root G [].
Proof.
  intros Hnd Hbf Hfuel.
  destruct (TreeFacts.tree_loop_terminates bf (List.length others) fuel
              (tree_init root others)) as (k & Hk & Hrun & Hend & Hbefore).
  { simpl. lia. }
  { exact Hfuel. }
  assert (H0 : state_inv (root :: others) root (tree_init root others)).
  { split; simpl.
    - constructor; simpl.
      + apply wf_add_node, wf_empty.
      + reflexivity.
      + auto.
      + rewrite number_of_edges_add_node by apply wf_empty. reflexivity.
      + intros x [<-|[]]. constructor.
    - intros z [<-|[]]. simpl. auto. }
  destruct (iter_inv (root :: others) root Hnd bf (tree_init root others) k
              Hbf H0) as [[Hinv Hcur] Hfront].
  { simpl. discriminate. }
  { exact Hbefore. }
  apply TreeFacts.tree_continue_false in Hend.
  destruct Hend as [Hrem|Hfr]; [|contradiction].
  exists (tree_graph (Nat.iter k (tree_step bf) (tree_init root others))).
  split.
  - simpl. rewrite Hrun. reflexivity.
  - rewrite Hrem in Hinv. exact Hinv.
Qed.

(** With a branching factor of zero or less no id is attached. *)
Lemma tree_level_none (bf : Z) (lvl : nat) (parents : list string) :
  (bf <= 0)%Z ->
  forall st,
    fold_left
      (fun st parent =>
         attach_children
           (Z.to_nat (Z.min bf (Z.of_nat (List.length (snd (fst st))))))
           parent lvl st)
      parents st = st.
Proof.
  intros Hbf. induction parents as [|p ps IH]; intros st; simpl; [reflexivity|].
  replace (Z.to_nat (Z.min bf (Z.of_nat (List.length (snd (fst st)))))) with 0 by lia.
  simpl. apply IH.
Qed.

Lemma tree_root_only (root : string) (others : list string) (bf : Z)
    (fuel : nat) :
  (bf <= 0)%Z -> 1 <= fuel ->
  create_tree_topology fuel (root :: others) bf
  = Some (add_node empty root
            [("role", VStr "root"); ("device_type", VStr "switch");
             ("level", VInt 0)]).
Proof.
  intros Hbf Hfuel. unfold create_tree_topology.
  destruct fuel as [|f]; [lia|].
  destruct others as [|o os].
  - reflexivity.
  - cbn [tree_loop tree_continue tree_init remaining_nodes current_level_nodes].
    unfold tree_step, tree_level.
    cbn [tree_graph remaining_nodes current_level_nodes level tree_init].
    rewrite (tree_level_none bf 1 [root] Hbf). simpl.
    destruct f; reflexivity.
Qed.

End TreeShape.

(** X4.  For distinct ids and a branching factor of one or more the tree
    generator, given fuel for one loop iteration per id, returns a graph
    whose nodes are the ids in the order given, with [N - 1] edges, and
    in which every node is reached from the first id: a tree on all the
    ids.  With a branching factor of zero or less it returns the graph
    of the first id alone, whatever other ids are given. *)
Theorem X4_tree_generator (root : string) (others : list string)
    (branching_factor : Z) (fuel : nat) :
  (NoDup (root :: others) -> (1 <= branching_factor)%Z ->
   List.length others <= fuel ->
   exists G,
     Builder.create_tree_topology fuel (root :: others) branching_factor = Some G
     /\ Graph.nodes G = root :: others
     /\ Graph.number_of_edges G = List.length others
     /\ Nx.is_connected G = Ok true)
  /\ ((branching_factor <= 0)%Z -> 1 <= fuel ->
      exists G,
        Builder.create_tree_topology fuel (root :: others) branching_factor = Some G
        /\ Graph.nodes G = [root]
        /\ Graph.number_of_edges G = 0).
Proof.
  split.
  - intros Hnd Hbf Hfuel.
    destruct (TreeShape.tree_complete root others branching_factor fuel
                Hnd Hbf Hfuel) as (G & Hrun & [Hwf Hnodes Hroot Hedges Hreach]).
    rewrite app_nil_r in Hnodes.
    exists G. split; [exact Hrun|]. split; [exact Hnodes|]. split.
    + rewrite BfsFacts.number_of_nodes_length, Hnodes in Hedges.
      simpl in Hedges. lia.
    + apply (GenFacts.connected_from G root Hwf Hroot Hreach).
  - intros Hbf Hfuel. eexists. split.
    + apply TreeShape.tree_root_only; assumption.
    + split; [reflexivity|].
      rewrite CountFacts.number_of_edges_add_node by apply GraphFacts.wf_empty.
      reflexivity.
Qed.

Lemma X4_tree_generator_witness :
  exists G,
    Builder.create_tree_topology 5 ["r"; "a"; "b"; "c"; "d"] 2 = Some G
    /\ Graph.nodes G = ["r"; "a"; "b"; "c"; "d"]
    /\ Graph.number_of_edges G = 4
    /\ Nx.is_connected G = Ok true.
Proof.
  apply (proj1 (X4_tree_generator "r" ["a"; "b"; "c"; "d"] 2 5)).
  - repeat constructor; simpl; intuition discriminate.
  - lia.
  - simpl. lia.
Defined.

(* ------------------------------------------------------------------ *)
(** ** The spine-leaf fabric as a whole *)

Module FabricFacts.

Import Dict DictFacts Graph GraphFacts OpsFacts BfsFacts ShapeFacts GenFacts
       SpineLeafFacts.

Section Fabric.

Variables spine_count leaf_count : Z.

Let S := Z.to_nat spine_count.
Let L := Z.to_nat leaf_count.
Let G := Builder.create_spine_leaf_topology spine_count leaf_count.

Lemma fabric_node_count : number_of_nodes G = S + 3 * L.
Proof.
  rewrite (number_of_nodes_members G (all_nodes spine_count leaf_count)).
  - unfold all_nodes. rewrite !length_app, length_spines, length_leaves.
    rewrite (length_all_hosts 0 leaf_count). unfold S, L. lia.
  - apply sl_wf.
  - apply nodup_all_nodes.
  - apply sl_nodes.
Qed.

Lemma spine_is_node (i : nat) : i < S -> In (Builder.spine_name i) (nodes G).
Proof.
  intros Hi. apply sl_nodes. unfold all_nodes. apply in_app_iff. left.
  apply in_spines. eauto.
Qed.

(** With a spine and a leaf, everything hangs on the first spine. *)
Lemma fabric_reach (x : string) :
  0 < S -> 0 < L -> In x (nodes G) ->
  reach (nbrs G) (Builder.spine_name 0) x.
Proof.
  intros HS HL Hx.
  assert (Hs0 : In (Builder.spine_name 0)
                   (map Builder.spine_name (Builder.range spine_count))).
  { apply in_spines. exists 0. auto. }
  assert (Hl0 : In (Builder.leaf_name 0)
                   (map Builder.leaf_name (Builder.range leaf_count))).
  { apply in_leaves. exists 0. auto. }
  assert (Hleaf : forall l,
            In l (map Builder.leaf_name (Builder.range leaf_count)) ->
            reach (nbrs G) (Builder.spine_name 0) l).
  { intros l Hl. eapply reach_step; [constructor|].
    apply sl_nbrs. left. auto. }
  apply sl_nodes in Hx. unfold all_nodes in Hx.
  rewrite !in_app_iff in Hx. destruct Hx as [Hx|[Hx|Hx]].
  - eapply reach_step; [apply (Hleaf _ Hl0)|].
    apply sl_nbrs. right. left. auto.
  - apply Hleaf. exact Hx.
  - apply in_all_hosts in Hx. destruct Hx as (l & Hl & Hh).
    eapply reach_step; [apply (Hleaf l Hl)|].
    apply sl_nbrs. right. right. left. auto.
Qed.

Lemma fabric_connected : 0 < S -> 0 < L -> Nx.is_connected G = Ok true.
Proof.
  intros HS HL. apply (connected_from G (Builder.spine_name 0)).
  - apply sl_wf.
  - apply spine_is_node. exact HS.
  - intros x Hx. apply fabric_reach; assumption.
Qed.

(** Without leaves the spines have no link at all. *)
Lemma spines_alone (x y : string) : L = 0 -> ~ In y (nbrs G x).
Proof.
  intros HL H. apply sl_nbrs in H.
  assert (Hno : forall z, ~ In z (map Builder.leaf_name (Builder.range leaf_count))).
  { intros z Hz. apply in_leaves in Hz. destruct Hz as (j & Hj & _).
    unfold L in HL. lia. }
  destruct H as [[_ H]|[[_ H]|[[H _]|[H _]]]]; exact (Hno _ H).
Qed.

Lemma fabric_split : 2 <= S -> L = 0 -> Nx.is_connected G = Ok false.
Proof.
  intros HS HL.
  apply (disconnected_by G (Builder.spine_name 0) (Builder.spine_name 1)).
  - apply sl_wf.
  - apply spine_is_node. lia.
  - apply spine_is_node. lia.
  - intros H.
    assert (Hstay : forall z, reach (nbrs G) (Builder.spine_name 0) z ->
                      z = Builder.spine_name 0).
    { intros z Hz. induction Hz as [|u w Hu IH Hw]; [reflexivity|].
      exfalso. exact (spines_alone u w HL Hw). }
    apply Hstay in H. apply spine_name_inj in H. discriminate.
Qed.

End Fabric.

End FabricFacts.

(** X5.  The spine-leaf generator builds [S + 3L] nodes: every spine
    has degree [L], every leaf degree [S + 2] and every host degree 1.
    With a spine and a leaf or more the fabric is connected; with two
    spines or more and no leaf it is not, the spines being linked through
    the leaves only. *)
Theorem X5_spine_leaf_fabric (spine_count leaf_count : Z) :
  let G := Builder.create_spine_leaf_topology spine_count leaf_count in
  let S := Z.to_nat spine_count in
  let L := Z.to_nat leaf_count in
  Graph.number_of_nodes G = S + 3 * L
  /\ (forall i, i < S -> Graph.degree G (Builder.spine_name i) = L)
  /\ (forall j, j < L -> Graph.degree G (Builder.leaf_name j) = S + 2)
  /\ (forall j k, j < L -> k < 2 ->
        Graph.degree G (Builder.host_name (Builder.leaf_name j) k) = 1)
  /\ (0 < S -> 0 < L -> Nx.is_connected G = Ok true)
  /\ (2 <= S -> L = 0 -> Nx.is_connected G = Ok false).
Proof.
  intros G S L. subst G S L.
  split; [apply FabricFacts.fabric_node_count|].
  split.
  { intros i Hi. apply SpineLeafFacts.spine_degree.
    apply SpineLeafFacts.in_spines. eauto. }
  split.
  { intros j Hj. apply SpineLeafFacts.leaf_degree.
    apply SpineLeafFacts.in_leaves. eauto. }
  split.
  { intros j k Hj Hk.
    apply (SpineLeafFacts.host_degree spine_count leaf_count (Builder.leaf_name j)).
    - apply SpineLeafFacts.in_leaves. eauto.
    - apply SpineLeafFacts.in_hosts_of. eauto. }
  split; [apply FabricFacts.fabric_connected|].
  apply FabricFacts.fabric_split.
Qed.

Lemma X5_spine_leaf_fabric_witness :
  Nx.is_connected (Builder.create_spine_leaf_topology 2 4) = Ok true
  /\ Graph.number_of_nodes (Builder.create_spine_leaf_topology 2 4) = 14
  /\ Nx.is_connected (Builder.create_spine_leaf_topology 2 0) = Ok false.
Proof.
  split; [|split].
  - apply (X5_spine_leaf_fabric 2 4); simpl; lia.
  - exact (proj1 (X5_spine_leaf_fabric 2 4)).
  - apply (X5_spine_leaf_fabric 2 0); simpl; lia.
Defined.

(* ------------------------------------------------------------------ *)
(** ** The cut nodes of the generated topologies *)

Module CutShapes.

Import Dict DictFacts Graph GraphFacts BfsFacts DfsFacts CutFacts.

Lemma nodup_dedup_from (xs : list string) :
  forall seen, NoDup seen ->
    NoDup (fold_left (fun seen x => if mem x seen then seen else seen ++ [x]) xs seen).
Proof.
  induction xs as [|x xs IH]; intros seen Hnd; simpl; [exact Hnd|].
  apply IH. destruct (mem x seen) eqn:E; [exact Hnd|].
  apply mem_false in E. apply NoDup_app; [exact Hnd | repeat constructor; simpl; tauto|].
  intros y Hy [<-|[]]. exact (E Hy).
Qed.

Lemma nodup_dedup (xs : list string) : NoDup (Nx.dedup xs).
Proof. apply nodup_dedup_from. constructor. Qed.

(** A set closed up to [v] holds whatever is reached without [v]. *)
Lemma closed_mod_conn (adj : string -> list string) (v c z : string) (C : list string) :
  closed_mod adj v C -> In c C -> conn adj v c z -> In z C.
Proof.
  intros Hcl Hc H. induction H as [|u w Hu IH Hw]; [exact Hc|].
  apply in_avoid in Hw. destruct Hw as (Hw & _ & Hwv).
  destruct (Hcl u w IH Hw) as [H|H]; [exact H | contradiction].
Qed.

(** A node all others get around does not separate. *)
Lemma conn_not_sep (adj : string -> list string) (nodes : list string) (v beta : string) :
  (forall x y, In y (adj x) -> In x (adj y)) ->
  (forall u, In u nodes -> u <> v -> conn adj v beta u) ->
  ~ sep adj nodes v.
Proof.
  intros Hsym Hall (_ & C & Hne & HC & HvC & Hcl & z & Hz & HzC & Hzv).
  destruct C as [|c C']; [congruence|].
  assert (Hc : In c (c :: C')) by (simpl; auto).
  assert (Hcv : c <> v) by (intros ->; exact (HvC Hc)).
  apply HzC. apply (closed_mod_conn adj v c z); [exact Hcl | exact Hc |].
  eapply reach_trans; [|apply Hall; assumption].
  apply conn_sym; [exact Hsym|]. apply Hall; [apply HC; exact Hc | exact Hcv].
Qed.

(** The reported nodes of a connected graph are the separating ones, each
    reported once. *)
Lemma aps_iff_sep (G : Graph.t) :
  wf G -> Nx.is_connected G = Ok true ->
  exists aps,
    Nx.articulation_points G = Ok aps
    /\ NoDup aps
    /\ forall v, In v aps <-> sep (nbrs G) (nodes G) v.
Proof.
  intros Hwf Hconn.
  destruct (articulation_points_spec G Hwf Hconn) as (aps & Haps & Hsep & Hrest).
  exists aps. split; [exact Haps|]. split.
  { unfold Nx.articulation_points in Haps.
    destruct (Nx.lift _) as [r|e]; simpl in Haps; [|discriminate].
    injection Haps as <-. apply nodup_dedup. }
  intros v. split; [apply Hsep|]. intros Hv.
  destruct (in_dec string_dec v aps) as [Hin|Hout]; [exact Hin|]. exfalso.
  pose proof Hv as (Hvn & C & Hne & HC & HvC & Hcl & z & Hz & HzC & Hzv).
  destruct (Hrest v Hvn Hout) as [Hone|(beta & Hall)].
  - apply Hzv. apply Hone. exact Hz.
  - exact (conn_not_sep (nbrs G) (nodes G) v beta (nbrs_sym G Hwf) Hall Hv).
Qed.

Lemma no_sep_none (G : Graph.t) :
  wf G -> Nx.is_connected G = Ok true ->
  (forall v, ~ sep (nbrs G) (nodes G) v) ->
  Nx.articulation_points G = Ok [].
Proof.
  intros Hwf Hconn Hno.
  destruct (aps_iff_sep G Hwf Hconn) as (aps & Haps & _ & Hiff).
  rewrite Haps. destruct aps as [|a aps]; [reflexivity|].
  exfalso. apply (Hno a). apply Hiff. simpl. auto.
Qed.

Lemma one_sep_single (G : Graph.t) (c : string) :
  wf G -> Nx.is_connected G = Ok true ->
  (forall v, sep (nbrs G) (nodes G) v <-> v = c) ->
  Nx.articulation_points G = Ok [c].
Proof.
  intros Hwf Hconn Hone.
  destruct (aps_iff_sep G Hwf Hconn) as (aps & Haps & Hnd & Hiff).
  rewrite Haps. f_equal.
  assert (Hc : In c aps) by (apply Hiff, Hone; reflexivity).
  assert (Hall : forall v, In v aps -> v = c) by (intros v Hv; apply Hone, Hiff, Hv).
  destruct aps as [|a aps]; [destruct Hc|].
  assert (a = c) by (apply Hall; simpl; auto). subst a.
  destruct aps as [|b aps]; [reflexivity|].
  assert (b = c) by (apply Hall; simpl; auto). subst b.
  apply NoDup_cons_iff in Hnd. simpl in Hnd. tauto.
Qed.

(** Separation takes three nodes: the cut node, one inside and one
    outside the set it cuts off. *)
Lemma sep_three (adj : string -> list string) (nodes : list string) (v : string) :
  sep adj nodes v ->
  exists c z, In c nodes /\ In z nodes /\ c <> v /\ z <> v /\ c <> z.
Proof.
  intros (_ & C & Hne & HC & HvC & _ & z & Hz & HzC & Hzv).
  destruct C as [|c C']; [congruence|].
  assert (Hc : In c (c :: C')) by (simpl; auto).
  exists c, z. split; [apply HC; exact Hc|]. split; [exact Hz|].
  split; [intros ->; exact (HvC Hc)|]. split; [exact Hzv|].
  intros ->. exact (HzC Hc).
Qed.

(** *** Star *)

Lemma star_sep_hub (center l1 l2 : string) (rest : list string) :
  NoDup (center :: l1 :: l2 :: rest) ->
  let G := Builder.create_star_topology (center :: l1 :: l2 :: rest) in
  forall v, sep (nbrs G) (nodes G) v <-> v = center.
Proof.
  intros Hnd G v.
  assert (Hne : l1 :: l2 :: rest <> []) by discriminate.
  pose proof (StarFacts.star_nbrs center _ Hne) as Hnb.
  pose proof (StarFacts.star_nodes center _ Hne) as Hn.
  fold G in Hnb, Hn.
  pose proof (proj1 (NoDup_cons_iff _ _) Hnd) as [Hc Hnd'].
  pose proof (proj1 (NoDup_cons_iff _ _) Hnd') as [H12 _].
  split.
  - intros Hsep. destruct (string_dec v center) as [E|E]; [exact E|]. exfalso.
    revert Hsep. apply (conn_not_sep _ _ v center).
    + apply nbrs_sym. apply StarFacts.star_wf. exact Hne.
    + intros u Hu Huv. apply Hn in Hu. destruct Hu as [<-|Hu]; [constructor|].
      eapply reach_step; [constructor|]. apply in_avoid.
      split; [apply Hnb; left; auto|]. auto.
  - intros ->. split; [apply Hn; simpl; auto|].
    exists [l1]. split; [discriminate|]. split.
    { intros x [<-|[]]. apply Hn. simpl. auto. }
    split.
    { intros [E|[]]. apply Hc. rewrite <- E. simpl. auto. }
    split.
    { intros u w [<-|[]] Hw. apply Hnb in Hw.
      destruct Hw as [[E _]|[E _]]; [|right; exact E].
      exfalso. apply Hc. rewrite <- E. simpl. auto. }
    exists l2. split; [apply Hn; simpl; auto|]. split.
    { intros [E|[]]. apply H12. rewrite E. simpl. auto. }
    intros E. apply Hc. rewrite <- E. simpl. auto.
Qed.

Lemma star_pair_no_sep (center l : string) :
  let G := Builder.create_star_topology [center; l] in
  forall v, ~ sep (nbrs G) (nodes G) v.
Proof.
  intros G v Hsep.
  assert (Hne : [l] <> []) by discriminate.
  pose proof (StarFacts.star_nodes center _ Hne) as Hn. fold G in Hn.
  destruct (sep_three _ _ _ Hsep) as (c & z & Hc & Hz & Hcv & Hzv & Hcz).
  destruct Hsep as (Hv & _).
  apply Hn in Hc, Hz, Hv. simpl in Hc, Hz, Hv.
  destruct Hc as [Hc|[Hc|[]]], Hz as [Hz|[Hz|[]]], Hv as [Hv|[Hv|[]]]; congruence.
Qed.

(** *** Full mesh *)

Lemma mesh_no_sep (ns : list string) :
  NoDup ns ->
  let G := Builder.create_mesh_topology ns in
  forall v, ~ sep (nbrs G) (nodes G) v.
Proof.
  intros Hnd G v (_ & C & Hne & HC & HvC & Hcl & z & Hz & HzC & Hzv).
  destruct C as [|c C']; [congruence|].
  assert (Hc : In c (c :: C')) by (simpl; auto).
  assert (Hw : In z (nbrs G c)).
  { apply (MeshFacts.mesh_nbrs ns Hnd).
    split; [apply MeshFacts.mesh_nodes, HC, Hc|].
    split; [apply MeshFacts.mesh_nodes, Hz|].
    intros ->. exact (HzC Hc). }
  destruct (Hcl c z Hc Hw) as [H|H]; [exact (HzC H) | exact (Hzv H)].
Qed.

End CutShapes.

(** X6.  In a star of three nodes or more the hub is the one articulation
    point; a star of two nodes has none. *)
Theorem X6_star_single_point_of_failure (center : string) (others : list string) :
  NoDup (center :: others) ->
  (2 <= List.length others ->
   Nx.articulation_points (Builder.create_star_topology (center :: others))
   = Ok [center])
  /\ (List.length others = 1 ->
      Nx.articulation_points (Builder.create_star_topology (center :: others))
      = Ok []).
Proof.
  intros Hnd. split; intros Hlen.
  - destruct others as [|l1 [|l2 rest]]; simpl in Hlen; try lia.
    apply CutShapes.one_sep_single.
    + apply StarFacts.star_wf. discriminate.
    + apply StarFacts.star_connected. discriminate.
    + apply CutShapes.star_sep_hub. exact Hnd.
  - destruct others as [|l [|l2 rest]]; simpl in Hlen; try lia.
    apply CutShapes.no_sep_none.
    + apply StarFacts.star_wf. discriminate.
    + apply StarFacts.star_connected. discriminate.
    + apply CutShapes.star_pair_no_sep.
Qed.

Lemma X6_star_single_point_of_failure_witness :
  Nx.articulation_points (Builder.create_star_topology ["hub"; "a"; "b"; "c"])
  = Ok ["hub"].
Proof.
  apply (X6_star_single_point_of_failure "hub" ["a"; "b"; "c"]).
  - repeat constructor; simpl; intuition discriminate.
  - simpl. lia.
Defined.

(** X7.  A full mesh has no articulation point. *)
Theorem X7_full_mesh_no_single_point_of_failure (nodes : list string) :
  NoDup nodes ->
  Nx.articulation_points (Builder.create_mesh_topology nodes) = Ok [].
Proof.
  intros Hnd. destruct nodes as [|n ns] eqn:E; [reflexivity|]. rewrite <- E in *.
  apply CutShapes.no_sep_none.
  - apply MeshFacts.mesh_wf.
  - apply MeshFacts.mesh_connected; [exact Hnd | rewrite E; discriminate].
  - apply CutShapes.mesh_no_sep. exact Hnd.
Qed.

Lemma X7_full_mesh_no_single_point_of_failure_witness :
  Nx.articulation_points (Builder.create_mesh_topology ["a"; "b"; "c"; "d"]) = Ok [].
Proof.
  apply (X7_full_mesh_no_single_point_of_failure ["a"; "b"; "c"; "d"]).
  repeat constructor; simpl; intuition discriminate.
Defined.

(** *** Bus *)

Module BusCuts.

Import Dict DictFacts Graph GraphFacts BfsFacts DfsFacts CutFacts CutShapes.

Lemma in_firstn (i : nat) (l : list string) (x : string) :
  i <= List.length l ->
  (In x (firstn i l) <-> exists j, j < i /\ x = nth j l "").
Proof.
  intros Hi. split.
  - intros H. destruct (In_nth _ _ "" H) as (j & Hj & E).
    rewrite firstn_length_le in Hj by exact Hi.
    rewrite nth_firstn in E. apply Nat.ltb_lt in Hj as Hlt. rewrite Hlt in E.
    exists j. auto.
  - intros (j & Hj & ->).
    assert (E : nth j l "" = nth j (firstn i l) "").
    { rewrite nth_firstn. apply Nat.ltb_lt in Hj. rewrite Hj. reflexivity. }
    rewrite E. apply nth_In. rewrite firstn_length_le by exact Hi. exact Hj.
Qed.

Lemma nodup_firstn (i : nat) (l : list string) : NoDup l -> NoDup (firstn i l).
Proof.
  revert i. induction l as [|x l IH]; intros i Hnd; [rewrite firstn_nil; constructor|].
  destruct i as [|i]; simpl; [constructor|].
  apply NoDup_cons_iff in Hnd. destruct Hnd as [Hx Hnd].
  constructor; [|apply IH; exact Hnd].
  intros H. apply Hx. rewrite <- (firstn_skipn i l). apply in_app_iff. auto.
Qed.

(** The nodes of a list other than its ends. *)
Definition inner (l : list string) : list string :=
  firstn (List.length l - 2) (tl l).

Lemma in_inner (l : list string) (v : string) :
  In v (inner l) <-> exists i, 0 < i /\ i + 1 < List.length l /\ v = nth i l "".
Proof.
  unfold inner. destruct l as [|a rest]; simpl.
  { split; [intros [] | intros (i & _ & H & _); lia]. }
  rewrite in_firstn by lia. split.
  - intros (j & Hj & ->). exists (S j). split; [lia|]. split; [lia | reflexivity].
  - intros (i & H0 & H1 & ->). destruct i as [|j]; [lia|].
    exists j. split; [lia | reflexivity].
Qed.

Lemma length_inner (l : list string) : List.length (inner l) = List.length l - 2.
Proof.
  unfold inner. rewrite length_firstn. destruct l as [|a rest]; simpl; lia.
Qed.

Lemma nodup_inner (l : list string) : NoDup l -> NoDup (inner l).
Proof.
  intros Hnd. unfold inner. apply nodup_firstn.
  destruct l as [|a rest]; simpl; [constructor|].
  apply NoDup_cons_iff in Hnd. tauto.
Qed.

Section Bus.

Variable ns : list string.
Hypothesis distinct : NoDup ns.
Hypothesis long : 2 <= List.length ns.

Let n := List.length ns.
Let G := Builder.create_bus_topology ns.
Let at_ (i : nat) : string := nth i ns "".

Lemma at_inj (i j : nat) : i < n -> j < n -> at_ i = at_ j -> i = j.
Proof. apply BusFacts.bus_node_inj. exact distinct. Qed.

Lemma at_node (i : nat) : i < n -> In (at_ i) (nodes G).
Proof. intros Hi. apply BusFacts.bus_nodes; [exact long|]. apply nth_In. exact Hi. Qed.

Lemma next_nbr (i : nat) : i + 1 < n -> In (at_ (i + 1)) (nbrs G (at_ i)).
Proof. intros Hi. apply BusFacts.bus_nbrs; [exact long|]. exists i. auto. Qed.

(** An inner node cuts the part before it from the part after it. *)
Lemma inner_sep (i : nat) : 0 < i -> i + 1 < n -> sep (nbrs G) (nodes G) (at_ i).
Proof.
  intros H0 H1.
  assert (Hle : i <= List.length ns) by (fold n; lia).
  split; [apply at_node; lia|].
  exists (firstn i ns). split.
  { intros E. apply (f_equal (@List.length string)) in E.
    rewrite firstn_length_le in E by exact Hle. simpl in E. lia. }
  split.
  { intros x Hx. apply (in_firstn i ns x Hle) in Hx. destruct Hx as (j & Hj & ->).
    apply at_node. lia. }
  split.
  { intros Hx. apply (in_firstn i ns _ Hle) in Hx. destruct Hx as (j & Hj & E).
    apply at_inj in E; lia. }
  split.
  { intros u w Hu Hw. apply (in_firstn i ns u Hle) in Hu. destruct Hu as (j & Hj & ->).
    apply (BusFacts.bus_nbrs ns long) in Hw.
    destruct Hw as (k & Hk & [[E ->]|[E ->]]); apply at_inj in E; try (fold n; lia).
    - subst k. destruct (Nat.eq_dec (j + 1) i) as [<-|Hne]; [right; reflexivity|].
      left. apply (in_firstn i ns _ Hle). exists (j + 1). split; [lia | reflexivity].
    - left. apply (in_firstn i ns _ Hle). exists k. split; [lia | reflexivity]. }
  exists (at_ (i + 1)). split; [apply at_node; exact H1|]. split.
  - intros Hx. apply (in_firstn i ns _ Hle) in Hx. destruct Hx as (j & Hj & E).
    apply at_inj in E; lia.
  - intros E. apply at_inj in E; lia.
Qed.

(** Without the first node the rest still hangs on the second. *)
Lemma first_around (j : nat) :
  1 <= j -> j < n -> conn (nbrs G) (at_ 0) (at_ 1) (at_ j).
Proof.
  induction j as [|j IH]; intros H1 Hj; [lia|].
  destruct j as [|j]; [constructor|].
  eapply reach_step; [apply IH; lia|].
  apply in_avoid. split; [|split].
  - replace (S (S j)) with (S j + 1) by lia. apply next_nbr. lia.
  - intros E. apply at_inj in E; lia.
  - intros E. apply at_inj in E; lia.
Qed.

(** Without the last node the rest still hangs on the first. *)
Lemma last_around (j : nat) :
  j + 1 < n -> conn (nbrs G) (at_ (n - 1)) (at_ 0) (at_ j).
Proof.
  induction j as [|j IH]; intros Hj; [constructor|].
  eapply reach_step; [apply IH; lia|].
  apply in_avoid. split; [|split].
  - replace (S j) with (j + 1) by lia. apply next_nbr. lia.
  - intros E. apply at_inj in E; lia.
  - intros E. apply at_inj in E; lia.
Qed.

Lemma bus_sep (v : string) :
  sep (nbrs G) (nodes G) v <-> exists i, 0 < i /\ i + 1 < n /\ v = at_ i.
Proof.
  split.
  - intros Hsep. pose proof Hsep as (Hv & _).
    apply (BusFacts.bus_nodes ns long) in Hv.
    destruct (BusFacts.bus_node_at ns v Hv) as (i & Hi & E). fold n in Hi.
    destruct (Nat.eq_dec i 0) as [H0|H0].
    { exfalso. revert Hsep. apply (conn_not_sep _ _ v (at_ 1)).
      - apply nbrs_sym. apply BusFacts.bus_wf. exact long.
      - intros u Hu Huv. apply (BusFacts.bus_nodes ns long) in Hu.
        destruct (BusFacts.bus_node_at ns u Hu) as (j & Hj & ->).
        rewrite E, H0. apply first_around; [|exact Hj].
        destruct j; [|lia]. exfalso. apply Huv. rewrite E, H0. reflexivity. }
    destruct (Nat.eq_dec (i + 1) n) as [H1|H1].
    { exfalso. revert Hsep. apply (conn_not_sep _ _ v (at_ 0)).
      - apply nbrs_sym. apply BusFacts.bus_wf. exact long.
      - intros u Hu Huv. apply (BusFacts.bus_nodes ns long) in Hu.
        destruct (BusFacts.bus_node_at ns u Hu) as (j & Hj & ->). fold n in Hj.
        rewrite E. replace i with (n - 1) by lia. apply last_around.
        destruct (Nat.eq_dec j i) as [->|Hji]; [exfalso; apply Huv; rewrite E; reflexivity|].
        lia. }
    exists i. split; [lia|]. split; [lia | exact E].
  - intros (i & H0 & H1 & ->). apply inner_sep; assumption.
Qed.

End Bus.

End BusCuts.

(** X8.  The articulation points of a bus are its inner nodes: every node
    but the first and the last, each reported once. *)
Theorem X8_bus_inner_nodes_are_cut_nodes (nodes : list string) :
  NoDup nodes -> 2 <= List.length nodes ->
  exists aps,
    Nx.articulation_points (Builder.create_bus_topology nodes) = Ok aps
    /\ NoDup aps
    /\ (forall v, In v aps <->
          exists i, 0 < i /\ i + 1 < List.length nodes /\ v = nth i nodes "")
    /\ List.length aps = List.length nodes - 2.
Proof.
  intros Hnd Hlen.
  destruct (CutShapes.aps_iff_sep (Builder.create_bus_topology nodes))
    as (aps & Haps & Hnd' & Hiff).
  { apply BusFacts.bus_wf. exact Hlen. }
  { apply BusFacts.bus_connected. exact Hlen. }
  exists aps. split; [exact Haps|]. split; [exact Hnd'|]. split.
  - intros v. rewrite Hiff. apply BusCuts.bus_sep; assumption.
  - rewrite <- BusCuts.length_inner.
    apply OpsFacts.length_same_members; [exact Hnd' | apply BusCuts.nodup_inner, Hnd|].
    intros v. rewrite Hiff, BusCuts.in_inner. apply BusCuts.bus_sep; assumption.
Qed.

Lemma X8_bus_inner_nodes_are_cut_nodes_witness :
  exists aps,
    Nx.articulation_points (Builder.create_bus_topology ["a"; "b"; "c"; "d"]) = Ok aps
    /\ (In "b" aps /\ In "c" aps /\ ~ In "a" aps /\ ~ In "d" aps)
    /\ List.length aps = 2.
Proof.
  destruct (X8_bus_inner_nodes_are_cut_nodes ["a"; "b"; "c"; "d"])
    as (aps & Haps & _ & Hiff & Hlen).
  - repeat constructor; simpl; intuition discriminate.
  - simpl. lia.
  - exists aps. split; [exact Haps|]. split; [|exact Hlen].
    split; [apply Hiff; exists 1; simpl; repeat split; lia|].
    split; [apply Hiff; exists 2; simpl; repeat split; lia|].
    split; intros H; apply Hiff in H; destruct H as (i & H0 & H1 & E); simpl in H1;
      (destruct i as [|[|[|i]]]; [lia | discriminate E | discriminate E | lia]).
Defined.

(** *** Ring *)

Module RingCuts.

Import Dict DictFacts Graph GraphFacts BfsFacts DfsFacts CutFacts CutShapes.

Lemma mod_small_add (n a : nat) : a < n -> (a + n) mod n = a.
Proof.
  intros H. rewrite <- (Nat.Div0.add_mod_idemp_r a n n).
  rewrite Nat.Div0.mod_same, Nat.add_0_r. apply Nat.mod_small. exact H.
Qed.

(** Where the [k]-th step from [i] round a ring of [n] lands. *)
Lemma walk_index (n i k : nat) :
  i < n -> k < n ->
  (i + k) mod n = if i + k <? n then i + k else i + k - n.
Proof.
  intros Hi Hk. destruct (i + k <? n) eqn:E.
  - apply Nat.ltb_lt in E. apply Nat.mod_small. exact E.
  - apply Nat.ltb_ge in E. replace (i + k) with ((i + k - n) + n) at 1 by lia.
    apply mod_small_add. lia.
Qed.

Section Ring.

Variable ns : list string.
Hypothesis distinct : NoDup ns.
Hypothesis long : 3 <= List.length ns.

Let n := List.length ns.
Let G := Builder.create_ring_topology ns.
Let at_ (i : nat) : string := nth i ns "".

Lemma ring_at_inj (i j : nat) : i < n -> j < n -> at_ i = at_ j -> i = j.
Proof. apply RingFacts.node_inj. exact distinct. Qed.

Lemma ring_next (i : nat) :
  i < n -> In (at_ ((i + 1) mod n)) (nbrs G (at_ i)).
Proof.
  intros Hi. apply RingFacts.ring_nbrs; [exact long|]. exists i.
  split; [exact Hi|]. left. split; reflexivity.
Qed.

(** Without node [i], the walk round the ring from its successor passes
    every other node. *)
Lemma ring_around (i k : nat) :
  i < n -> 1 <= k -> k < n ->
  conn (nbrs G) (at_ i) (at_ ((i + 1) mod n)) (at_ ((i + k) mod n)).
Proof.
  intros Hi. induction k as [|k IH]; intros H1 Hk; [lia|].
  destruct k as [|k]; [constructor|].
  eapply reach_step; [apply IH; lia|].
  assert (Hpos : 0 < n) by lia.
  assert (Hlt : forall m, m mod n < n) by (intros m; apply Nat.mod_upper_bound; lia).
  apply in_avoid. split; [|split].
  - replace ((i + S (S k)) mod n) with (((i + S k) mod n + 1) mod n).
    + apply ring_next. apply Hlt.
    + rewrite Nat.Div0.add_mod_idemp_l. f_equal. lia.
  - intros E. apply ring_at_inj in E; [|apply Hlt | exact Hi].
    rewrite walk_index in E by lia.
    destruct (i + S k <? n) eqn:L; [apply Nat.ltb_lt in L | apply Nat.ltb_ge in L]; lia.
  - intros E. apply ring_at_inj in E; [|apply Hlt | exact Hi].
    rewrite walk_index in E by lia.
    destruct (i + S (S k) <? n) eqn:L; [apply Nat.ltb_lt in L | apply Nat.ltb_ge in L]; lia.
Qed.

Lemma ring_no_sep (v : string) : ~ sep (nbrs G) (nodes G) v.
Proof.
  intros Hsep. pose proof Hsep as (Hv & _).
  apply (RingFacts.ring_nodes ns long) in Hv.
  destruct (RingFacts.node_at ns v Hv) as (i & Hi & E). fold n in Hi.
  revert Hsep. apply (conn_not_sep _ _ v (at_ ((i + 1) mod n))).
  - apply nbrs_sym. apply RingFacts.ring_wf. exact long.
  - intros u Hu Huv. apply (RingFacts.ring_nodes ns long) in Hu.
    destruct (RingFacts.node_at ns u Hu) as (j & Hj & ->). fold n in Hj.
    assert (Hji : j <> i) by (intros ->; apply Huv; rewrite E; reflexivity).
    rewrite E.
    replace j with ((i + (if i <? j then j - i else j + n - i)) mod n).
    + apply ring_around; [exact Hi | |]; destruct (i <? j) eqn:L;
        [apply Nat.ltb_lt in L | apply Nat.ltb_ge in L | apply Nat.ltb_lt in L
         | apply Nat.ltb_ge in L]; lia.
    + destruct (i <? j) eqn:L; [apply Nat.ltb_lt in L | apply Nat.ltb_ge in L].
      * replace (i + (j - i)) with j by lia. apply Nat.mod_small. exact Hj.
      * replace (i + (j + n - i)) with (j + n) by lia. apply mod_small_add. exact Hj.
Qed.

End Ring.

End RingCuts.

(** X9.  A ring has no articulation point. *)
Theorem X9_ring_no_single_point_of_failure (nodes : list string) :
  NoDup nodes -> 3 <= List.length nodes ->
  Nx.articulation_points (Builder.create_ring_topology nodes) = Ok [].
Proof.
  intros Hnd Hlen. apply CutShapes.no_sep_none.
  - apply RingFacts.ring_wf. exact Hlen.
  - apply RingFacts.ring_connected; assumption.
  - apply RingCuts.ring_no_sep; assumption.
Qed.

Lemma X9_ring_no_single_point_of_failure_witness :
  Nx.articulation_points (Builder.create_ring_topology ["a"; "b"; "c"; "d"]) = Ok [].
Proof.
  apply (X9_ring_no_single_point_of_failure ["a"; "b"; "c"; "d"]).
  - repeat constructor; simpl; intuition discriminate.
  - simpl. lia.
Defined.

(** *** Spine-leaf *)

Module FabricCuts.

Import Dict DictFacts Graph GraphFacts BfsFacts DfsFacts CutFacts CutShapes
       SpineLeafFacts.

Section Fabric.

Variables spine_count leaf_count : Z.

Let S := Z.to_nat spine_count.
Let L := Z.to_nat leaf_count.
Let G := Builder.create_spine_leaf_topology spine_count leaf_count.
Let spine := Builder.spine_name.
Let leaf := Builder.leaf_name.
Let host (j k : nat) := Builder.host_name (Builder.leaf_name j) k.

Hypothesis some_spine : 1 <= S.
Hypothesis some_leaf : 1 <= L.

Lemma node_cases (u : string) :
  In u (nodes G) <->
  (exists i, i < S /\ u = spine i)
  \/ (exists j, j < L /\ u = leaf j)
  \/ (exists j k, j < L /\ k < 2 /\ u = host j k).
Proof.
  unfold G. rewrite sl_nodes. unfold all_nodes. rewrite !in_app_iff.
  rewrite in_spines, in_leaves, in_all_hosts.
  split; (intros [H|[H|H]]; [left; exact H | right; left; exact H | right; right]).
  - destruct H as (l & Hl & Hh). apply in_leaves in Hl. destruct Hl as (j & Hj & ->).
    apply in_hosts_of in Hh. destruct Hh as (k & Hk & ->). exists j, k. auto.
  - destruct H as (j & k & Hj & Hk & ->). exists (leaf j).
    split; [apply in_leaves; eauto | apply in_hosts_of; eauto].
Qed.

Lemma core_nbr (i j : nat) :
  i < S -> j < L ->
  In (leaf j) (nbrs G (spine i)) /\ In (spine i) (nbrs G (leaf j)).
Proof.
  intros Hi Hj.
  assert (Hs : In (spine i) (map Builder.spine_name (Builder.range spine_count)))
    by (apply in_spines; eauto).
  assert (Hl : In (leaf j) (map Builder.leaf_name (Builder.range leaf_count)))
    by (apply in_leaves; eauto).
  split; apply sl_nbrs; [left | right; left]; auto.
Qed.

Lemma access_nbr (j k : nat) :
  j < L -> k < 2 ->
  In (host j k) (nbrs G (leaf j)) /\ In (leaf j) (nbrs G (host j k)).
Proof.
  intros Hj Hk.
  assert (Hl : In (leaf j) (map Builder.leaf_name (Builder.range leaf_count)))
    by (apply in_leaves; eauto).
  assert (Hh : In (host j k) (hosts_of (leaf j))) by (apply in_hosts_of; eauto).
  split; apply sl_nbrs; [right; right; left | right; right; right]; auto.
Qed.

(** A host has its leaf for only neighbour. *)
Lemma host_nbrs (j k : nat) (w : string) :
  In w (nbrs G (host j k)) -> w = leaf j.
Proof.
  intros H. apply sl_nbrs in H.
  destruct H as [[H _]|[[_ H]|[[H _]|[Hw H]]]].
  - apply in_spines in H. destruct H as (i & _ & E).
    exfalso. exact (host_not_spine _ _ _ E).
  - apply in_leaves in H. destruct H as (i & _ & E).
    exfalso. exact (host_not_leaf _ _ _ E).
  - apply in_leaves in H. destruct H as (i & _ & E).
    exfalso. exact (host_not_leaf _ _ _ E).
  - apply in_leaves in Hw. destruct Hw as (j' & _ & ->).
    apply in_hosts_of in H. destruct H as (k' & _ & E).
    apply host_name_inj in E. destruct E as [-> _]. reflexivity.
Qed.

(** A leaf has the spines and its own hosts for neighbours. *)
Lemma leaf_nbrs (j : nat) (w : string) :
  In w (nbrs G (leaf j)) ->
  (exists i, i < S /\ w = spine i) \/ (exists k, k < 2 /\ w = host j k).
Proof.
  intros H. apply sl_nbrs in H.
  destruct H as [[H _]|[[H _]|[[_ H]|[_ H]]]].
  - apply in_spines in H. destruct H as (i & _ & E).
    exfalso. exact (spine_not_leaf _ _ (eq_sym E)).
  - left. apply in_spines. exact H.
  - right. apply in_hosts_of. exact H.
  - apply in_hosts_of in H. destruct H as (k & _ & E).
    exfalso. exact (host_not_leaf _ _ _ (eq_sym E)).
Qed.

(** Every leaf cuts its hosts off. *)
Lemma leaf_sep (j : nat) : j < L -> sep (nbrs G) (nodes G) (leaf j).
Proof.
  intros Hj. split; [apply node_cases; right; left; eauto|].
  exists [host j 0]. split; [discriminate|]. split.
  { intros x [<-|[]]. apply node_cases. right. right. exists j, 0. auto. }
  split.
  { intros [E|[]]. exact (host_not_leaf _ _ _ E). }
  split.
  { intros u w [<-|[]] Hw. right. apply host_nbrs in Hw. exact Hw. }
  exists (host j 1). split; [apply node_cases; right; right; exists j, 1; auto|].
  split.
  - intros [E|[]]. apply host_name_inj in E. destruct E as [_ E]. discriminate.
  - intros E. exact (host_not_leaf _ _ _ E).
Qed.

(** A single spine cuts two leaves or more from one another. *)
Lemma lone_spine_sep : S = 1 -> 2 <= L -> sep (nbrs G) (nodes G) (spine 0).
Proof.
  intros HS HL. split; [apply node_cases; left; exists 0; split; [lia | reflexivity]|].
  exists [leaf 0; host 0 0; host 0 1]. split; [discriminate|]. split.
  { intros x [<-|[<-|[<-|[]]]]; apply node_cases; right.
    - left. exists 0. split; [lia | reflexivity].
    - right. exists 0, 0. repeat split; lia.
    - right. exists 0, 1. repeat split; lia. }
  split.
  { intros [E|[E|[E|[]]]].
    - exact (spine_not_leaf _ _ (eq_sym E)).
    - exact (host_not_spine _ _ _ E).
    - exact (host_not_spine _ _ _ E). }
  split.
  { intros u w [<-|[<-|[<-|[]]]] Hw.
    - apply leaf_nbrs in Hw. destruct Hw as [(i & Hi & ->)|(k & Hk & ->)].
      + right. replace i with 0 by lia. reflexivity.
      + left. destruct k as [|[|k]]; simpl; auto. lia.
    - apply host_nbrs in Hw. subst w. left. simpl. auto.
    - apply host_nbrs in Hw. subst w. left. simpl. auto. }
  exists (leaf 1). split; [apply node_cases; right; left; exists 1; split; [lia | reflexivity]|].
  split.
  - intros [E|[E|[E|[]]]].
    + apply leaf_name_inj in E. discriminate.
    + exact (host_not_leaf _ _ _ E).
    + exact (host_not_leaf _ _ _ E).
  - intros E. exact (spine_not_leaf _ _ (eq_sym E)).
Qed.

(** From a spine other than [v], everything is reached without [v],
    unless [v] is a leaf. *)
Lemma around_from_spine (v : string) (i : nat) :
  i < S -> spine i <> v -> (forall j, leaf j <> v) ->
  forall u, In u (nodes G) -> u <> v -> conn (nbrs G) v (spine i) u.
Proof.
  intros Hi Hs Hl.
  assert (Hleaf : forall j, j < L -> conn (nbrs G) v (spine i) (leaf j)).
  { intros j Hj. eapply reach_step; [constructor|]. apply in_avoid.
    split; [apply core_nbr; assumption|]. auto. }
  intros u Hu Huv. apply node_cases in Hu.
  destruct Hu as [(i' & Hi' & ->)|[(j & Hj & ->)|(j & k & Hj & Hk & ->)]].
  - eapply reach_step; [apply (Hleaf 0); lia|]. apply in_avoid.
    split; [apply core_nbr; [assumption | lia]|]. auto.
  - apply Hleaf. exact Hj.
  - eapply reach_step; [apply (Hleaf j); exact Hj|]. apply in_avoid.
    split; [apply access_nbr; assumption|]. auto.
Qed.

Lemma fabric_sep (v : string) :
  sep (nbrs G) (nodes G) v <->
  (exists j, j < L /\ v = leaf j) \/ (S = 1 /\ 2 <= L /\ v = spine 0).
Proof.
  assert (Hsym : forall x y, In y (nbrs G x) -> In x (nbrs G y)).
  { apply nbrs_sym. apply sl_wf. }
  split.
  - intros Hsep. pose proof Hsep as (Hv & _). apply node_cases in Hv.
    destruct Hv as [(i & Hi & E)|[H|(j & k & Hj & Hk & E)]]; [|left; exact H|].
    + destruct (Nat.eq_dec S 1) as [HS|HS].
      * assert (i = 0) by lia. subst i.
        destruct (le_lt_dec 2 L) as [HL|HL]; [right; auto|].
        exfalso. revert Hsep. apply (conn_not_sep _ _ v (leaf 0) Hsym).
        intros u Hu Huv. apply node_cases in Hu.
        destruct Hu as [(i' & Hi' & ->)|[(j & Hj & ->)|(j & k & Hj & Hk & ->)]].
        -- exfalso. apply Huv. rewrite E. f_equal. lia.
        -- replace j with 0 by lia. constructor.
        -- assert (j = 0) by lia. subst j.
           eapply reach_step; [constructor|]. apply in_avoid.
           split; [apply access_nbr; assumption|].
           split; [|exact Huv]. rewrite E. intros E'.
           exact (spine_not_leaf _ _ (eq_sym E')).
      * exfalso. revert Hsep.
        apply (conn_not_sep _ _ v (spine (if Nat.eq_dec i 0 then 1 else 0)) Hsym).
        apply around_from_spine.
        -- destruct (Nat.eq_dec i 0); lia.
        -- rewrite E. intros E'. apply spine_name_inj in E'.
           destruct (Nat.eq_dec i 0); lia.
        -- intros j E'. rewrite E in E'. exact (spine_not_leaf _ _ (eq_sym E')).
    + exfalso. revert Hsep. apply (conn_not_sep _ _ v (spine 0) Hsym).
      apply around_from_spine.
      * lia.
      * rewrite E. intros E'. exact (host_not_spine _ _ _ (eq_sym E')).
      * intros j' E'. rewrite E in E'. exact (host_not_leaf _ _ _ (eq_sym E')).
  - intros [(j & Hj & ->)|(HS & HL & ->)].
    + apply leaf_sep. exact Hj.
    + apply lone_spine_sep; assumption.
Qed.

End Fabric.

End FabricCuts.

(** X10.  The articulation points of a spine-leaf fabric with a spine and
    a leaf or more are its leaves, each cutting off its hosts, and the
    spine when it is the only one and joins two leaves or more. *)
Theorem X10_spine_leaf_cut_nodes (spine_count leaf_count : Z) :
  let S := Z.to_nat spine_count in
  let L := Z.to_nat leaf_count in
  1 <= S -> 1 <= L ->
  exists aps,
    Nx.articulation_points (Builder.create_spine_leaf_topology spine_count leaf_count)
    = Ok aps
    /\ NoDup aps
    /\ forall v, In v aps <->
         (exists j, j < L /\ v = Builder.leaf_name j)
         \/ (S = 1 /\ 2 <= L /\ v = Builder.spine_name 0).
Proof.
  intros S L HS HL.
  destruct (CutShapes.aps_iff_sep
              (Builder.create_spine_leaf_topology spine_count leaf_count))
    as (aps & Haps & Hnd & Hiff).
  { apply SpineLeafFacts.sl_wf. }
  { apply FabricFacts.fabric_connected; assumption. }
  exists aps. split; [exact Haps|]. split; [exact Hnd|].
  intros v. rewrite Hiff. apply FabricCuts.fabric_sep; assumption.
Qed.

Lemma X10_spine_leaf_cut_nodes_witness :
  exists aps,
    Nx.articulation_points (Builder.create_spine_leaf_topology 2 4) = Ok aps
    /\ In "leaf1" aps /\ ~ In "spine1" aps.
Proof.
  destruct (X10_spine_leaf_cut_nodes 2 4) as (aps & Haps & _ & Hiff).
  - simpl. lia.
  - simpl. lia.
  - exists aps. split; [exact Haps|]. split.
    + apply Hiff. left. exists 0. split; [simpl; lia | reflexivity].
    + intros H. apply Hiff in H. destruct H as [(j & _ & E)|(E & _)].
      * exact (SpineLeafFacts.spine_not_leaf 0 j E).
      * simpl in E. discriminate.
Defined.

(* ------------------------------------------------------------------ *)
(** ** The metrics of a model with nodes *)

Module MetricsTotal.

Import Dict DictFacts Graph GraphFacts BfsFacts CutFacts.

Lemma fold_max_ge (xs : list nat) :
  forall a, a <= fold_left Nat.max xs a
            /\ forall x, In x xs -> x <= fold_left Nat.max xs a.
Proof.
  induction xs as [|y xs IH]; intros a; simpl; [split; [lia | tauto]|].
  destruct (IH (Nat.max a y)) as [H1 H2]. split; [lia|].
  intros x [<-|Hx]; [lia | apply H2; exact Hx].
Qed.

Lemma fold_min_le (xs : list nat) :
  forall a, fold_left Nat.min xs a <= a
            /\ forall x, In x xs -> fold_left Nat.min xs a <= x.
Proof.
  induction xs as [|y xs IH]; intros a; simpl; [split; [lia | tauto]|].
  destruct (IH (Nat.min a y)) as [H1 H2]. split; [lia|].
  intros x [<-|Hx]; [lia | apply H2; exact Hx].
Qed.

Lemma fold_max_in (xs : list nat) :
  forall a, fold_left Nat.max xs a = a \/ In (fold_left Nat.max xs a) xs.
Proof.
  induction xs as [|y xs IH]; intros a; simpl; [auto|].
  destruct (IH (Nat.max a y)) as [H|H]; [|auto].
  rewrite H. destruct (Nat.max_spec a y) as [[_ E]|[_ E]]; rewrite E; auto.
Qed.

Lemma fold_min_in (xs : list nat) :
  forall a, fold_left Nat.min xs a = a \/ In (fold_left Nat.min xs a) xs.
Proof.
  induction xs as [|y xs IH]; intros a; simpl; [auto|].
  destruct (IH (Nat.min a y)) as [H|H]; [|auto].
  rewrite H. destruct (Nat.min_spec a y) as [[_ E]|[_ E]]; rewrite E; auto.
Qed.

(** The greatest of a non-empty list: a member no member exceeds. *)
Lemma max_nat_spec (xs : list nat) :
  xs <> [] ->
  exists m, Nx.max_nat xs = Ok m /\ In m xs /\ forall x, In x xs -> x <= m.
Proof.
  destruct xs as [|a xs]; [congruence|]. intros _. simpl.
  exists (fold_left Nat.max xs a). split; [reflexivity|].
  destruct (fold_max_ge xs a) as [H1 H2]. split.
  - destruct (fold_max_in xs a) as [H|H]; [left; auto | right; exact H].
  - intros x [<-|Hx]; [exact H1 | apply H2; exact Hx].
Qed.

Lemma min_nat_spec (xs : list nat) :
  xs <> [] ->
  exists m, Builder.min_nat xs = Ok m /\ In m xs /\ forall x, In x xs -> m <= x.
Proof.
  destruct xs as [|a xs]; [congruence|]. intros _. simpl.
  exists (fold_left Nat.min xs a). split; [reflexivity|].
  destruct (fold_min_le xs a) as [H1 H2]. split.
  - destruct (fold_min_in xs a) as [H|H]; [left; auto | right; exact H].
  - intros x [<-|Hx]; [exact H1 | apply H2; exact Hx].
Qed.

(** The distances from a node: one entry for each node reached. *)
Lemma shortest_path_length_total (G : Graph.t) (v : string) :
  wf G -> In v (nodes G) ->
  exists len,
    Nx.shortest_path_length (nbrs G) (Nx.bfs_fuel G) v = Some len
    /\ NoDup (keys len)
    /\ incl (keys len) (nodes G)
    /\ forall x, In x (keys len) <-> reach (nbrs G) v x.
Proof.
  intros Hwf Hv.
  destruct (plain_bfs_graph G v Hwf Hv) as (l & Hl & Hnd & Hincl & Hreach).
  unfold Nx.plain_bfs in Hl.
  destruct (Nx.shortest_path_length _ _ v) as [len|]; simpl in Hl; [|discriminate].
  injection Hl as <-. exists len. auto.
Qed.

(** In a connected graph every node reaches every node. *)
Lemma connected_all (G : Graph.t) :
  wf G -> Nx.is_connected G = Ok true ->
  forall u v, In u (nodes G) -> In v (nodes G) -> reach (nbrs G) u v.
Proof.
  intros Hwf Hc u v Hu Hv.
  destruct (is_connected_nodes G true Hc) as (s & rest & Hnodes).
  pose proof (proj1 (is_connected_reach G s rest true Hwf Hnodes Hc) eq_refl) as Hs.
  eapply reach_trans; [|apply Hs; exact Hv].
  apply reach_sym; [apply nbrs_sym; exact Hwf | apply Hs; exact Hu].
Qed.

Lemma distances_cover (G : Graph.t) (v : string) (len : Dict.t nat) :
  wf G -> Nx.is_connected G = Ok true -> In v (nodes G) ->
  Nx.shortest_path_length (nbrs G) (Nx.bfs_fuel G) v = Some len ->
  List.length len = number_of_nodes G /\ len <> [].
Proof.
  intros Hwf Hc Hv Hlen.
  destruct (shortest_path_length_total G v Hwf Hv) as (len' & E & Hnd & Hincl & Hreach).
  rewrite Hlen in E. injection E as <-. split.
  - rewrite number_of_nodes_length. rewrite <- (length_map fst len).
    apply OpsFacts.length_same_members; [exact Hnd | apply (wf_nodes G Hwf)|].
    intros x. split; [apply Hincl|]. intros Hx. apply Hreach.
    apply connected_all; assumption.
  - intros ->. apply (proj2 (Hreach v)). constructor.
Qed.

Lemma eccentricity_total (G : Graph.t) (v : string) :
  wf G -> Nx.is_connected G = Ok true -> In v (nodes G) ->
  exists e, Nx.eccentricity G v = Ok e.
Proof.
  intros Hwf Hc Hv.
  destruct (shortest_path_length_total G v Hwf Hv) as (len & E & _).
  destruct (distances_cover G v len Hwf Hc Hv E) as [Hn Hne].
  unfold Nx.eccentricity. rewrite E. simpl. rewrite Hn, Nat.eqb_refl.
  destruct (max_nat_spec (values len)) as (m & Hm & _).
  - destruct len; [congruence | discriminate].
  - eauto.
Qed.

Lemma eccentricities_total (G : Graph.t) :
  wf G -> Nx.is_connected G = Ok true ->
  forall vs, incl vs (nodes G) ->
  exists es, Nx.eccentricities G vs = Ok es /\ List.length es = List.length vs.
Proof.
  intros Hwf Hc. induction vs as [|v vs IH]; intros Hincl; simpl; [exists []; auto|].
  destruct (eccentricity_total G v Hwf Hc) as [e He]; [apply Hincl; simpl; auto|].
  destruct IH as (es & Hes & Hlen); [intros x Hx; apply Hincl; simpl; auto|].
  rewrite He, Hes. simpl. exists (e :: es). simpl. auto.
Qed.

(** The diameter of a connected graph is computed. *)
Lemma diameter_total (G : Graph.t) :
  wf G -> Nx.is_connected G = Ok true -> exists d, Nx.diameter G = Ok d.
Proof.
  intros Hwf Hc.
  destruct (eccentricities_total G Hwf Hc (nodes G)) as (es & Hes & Hlen);
    [intros x Hx; exact Hx|].
  destruct (is_connected_nodes G true Hc) as (s & rest & Hnodes).
  unfold Nx.diameter. rewrite Hes. simpl.
  destruct (max_nat_spec es) as (m & Hm & _).
  - rewrite Hnodes in Hlen. destruct es; [discriminate | discriminate].
  - eauto.
Qed.

Lemma path_length_sum_total (G : Graph.t) :
  wf G -> forall vs, incl vs (nodes G) ->
  exists s, Nx.path_length_sum G vs = Ok s.
Proof.
  intros Hwf. induction vs as [|v vs IH]; intros Hincl; simpl; [eauto|].
  destruct (shortest_path_length_total G v Hwf) as (len & E & _);
    [apply Hincl; simpl; auto|].
  destruct IH as (s & Hs); [intros x Hx; apply Hincl; simpl; auto|].
  rewrite E, Hs. simpl. eauto.
Qed.

Lemma is_connected_total (G : Graph.t) :
  wf G -> nodes G <> [] -> exists b, Nx.is_connected G = Ok b.
Proof.
  intros Hwf Hne. destruct (nodes G) as [|s rest] eqn:Hnodes; [congruence|].
  destruct (is_connected_spec G s rest Hwf Hnodes) as (b & Hb & _). eauto.
Qed.

Lemma average_clustering_total (G : Graph.t) :
  nodes G <> [] -> exists q, Nx.average_clustering G = Ok q.
Proof.
  intros Hne. unfold Nx.average_clustering.
  destruct (nodes G); [congruence | eauto].
Qed.

Lemma in_degrees (G : Graph.t) (d : nat) :
  In d (values (degrees G)) <-> exists v, In v (nodes G) /\ d = degree G v.
Proof.
  unfold values, degrees. rewrite map_map. simpl. rewrite in_map_iff.
  split; intros (v & H1 & H2); exists v; auto.
Qed.

(** The snapshot of a model with a node or more. *)
Lemma metrics_snapshot (G : Graph.t) :
  wf G -> nodes G <> [] ->
  exists dv q b mx mn,
    Builder.add_topology_metrics G
    = Ok [("node_count", VInt (Z.of_nat (number_of_nodes G)));
          ("edge_count", VInt (Z.of_nat (number_of_edges G)));
          ("density", Nx.density G); ("diameter", dv);
          ("average_clustering", VFloat q); ("is_connected", VBool b);
          ("avg_degree",
           VFloat (Nx.ratio (list_sum (values (degrees G))) (number_of_nodes G)));
          ("max_degree", VInt (Z.of_nat mx)); ("min_degree", VInt (Z.of_nat mn))]
    /\ Nx.is_connected G = Ok b
    /\ Nx.average_clustering G = Ok q
    /\ (if b then exists d, Nx.diameter G = Ok d /\ dv = VInt (Z.of_nat d)
        else dv = VInf)
    /\ (exists v, In v (nodes G) /\ degree G v = mx)
    /\ (exists v, In v (nodes G) /\ degree G v = mn)
    /\ (forall v, In v (nodes G) -> mn <= degree G v <= mx).
Proof.
  intros Hwf Hne.
  destruct (is_connected_total G Hwf Hne) as [b Hb].
  destruct (average_clustering_total G Hne) as [q Hq].
  assert (Hd : exists dv, Builder.diameter_entry G = Ok dv
                 /\ if b then exists d, Nx.diameter G = Ok d /\ dv = VInt (Z.of_nat d)
                    else dv = VInf).
  { unfold Builder.diameter_entry. rewrite Hb. simpl. destruct b.
    - destruct (diameter_total G Hwf Hb) as [d Hd].
      rewrite Hd. simpl. eauto.
    - eauto. }
  destruct Hd as (dv & Hdv & Hdiam).
  assert (Hds : values (degrees G) <> []).
  { unfold values, degrees. destruct (nodes G); [congruence | discriminate]. }
  destruct (max_nat_spec _ Hds) as (mx & Hmx & Hmxin & Hmxle).
  destruct (min_nat_spec _ Hds) as (mn & Hmn & Hmnin & Hmnle).
  apply in_degrees in Hmxin, Hmnin.
  assert (Hlen : List.length (degrees G) = number_of_nodes G).
  { unfold degrees, number_of_nodes, nodes, keys.
    rewrite !length_map. reflexivity. }
  exists dv, q, b, mx, mn.
  split.
  { unfold Builder.add_topology_metrics. rewrite Hdv, Hq, Hb. simpl.
    rewrite <- Hlen.
    destruct (degrees G) as [|p ps] eqn:Hdeg; [simpl in Hds; congruence|].
    rewrite Hmx, Hmn. reflexivity. }
  split; [exact Hb|]. split; [exact Hq|]. split; [exact Hdiam|].
  split; [destruct Hmxin as (v & Hv & E); exists v; auto|].
  split; [destruct Hmnin as (v & Hv & E); exists v; auto|].
  intros v Hv.
  assert (Hin : In (degree G v) (values (degrees G))).
  { apply in_degrees. eauto. }
  split; [apply Hmnle | apply Hmxle]; exact Hin.
Qed.

End MetricsTotal.

(** X11.  On a consistent model with a node or more
    [add_topology_metrics] returns.  The snapshot has the nine entries,
    in order: the node and edge counts, the density, the diameter (the
    computed one for a connected model, infinity otherwise), the average
    clustering, the connectivity, and the average, greatest and least
    degree; the greatest and the least are degrees of nodes and bound
    every node's degree. *)
Theorem X11_metrics_of_nonempty_model (G : Graph.t) :
  Graph.wf G -> Graph.nodes G <> [] ->
  exists m b mx mn,
    Builder.add_topology_metrics G = Ok m
    /\ Dict.keys m = ["node_count"; "edge_count"; "density"; "diameter";
                      "average_clustering"; "is_connected"; "avg_degree";
                      "max_degree"; "min_degree"]
    /\ Dict.get "node_count" m = Some (VInt (Z.of_nat (Graph.number_of_nodes G)))
    /\ Dict.get "edge_count" m = Some (VInt (Z.of_nat (Graph.number_of_edges G)))
    /\ Dict.get "density" m = Some (Nx.density G)
    /\ Nx.is_connected G = Ok b
    /\ Dict.get "is_connected" m = Some (VBool b)
    /\ (if b then exists d, Nx.diameter G = Ok d
                            /\ Dict.get "diameter" m = Some (VInt (Z.of_nat d))
        else Dict.get "diameter" m = Some VInf)
    /\ Dict.get "avg_degree" m
       = Some (VFloat (Nx.ratio (list_sum (Dict.values (Graph.degrees G)))
                                (Graph.number_of_nodes G)))
    /\ Dict.get "max_degree" m = Some (VInt (Z.of_nat mx))
    /\ Dict.get "min_degree" m = Some (VInt (Z.of_nat mn))
    /\ (exists v, In v (Graph.nodes G) /\ Graph.degree G v = mx)
    /\ (exists v, In v (Graph.nodes G) /\ Graph.degree G v = mn)
    /\ (forall v, In v (Graph.nodes G) -> mn <= Graph.degree G v <= mx).
Proof.
  intros Hwf Hne.
  destruct (MetricsTotal.metrics_snapshot G Hwf Hne)
    as (dv & q & b & mx & mn & Hm & Hb & _ & Hdiam & Hmx & Hmn & Hbound).
  eexists. exists b, mx, mn. split; [exact Hm|].
  split; [reflexivity|]. split; [reflexivity|]. split; [reflexivity|].
  split; [reflexivity|]. split; [exact Hb|]. split; [reflexivity|].
  split.
  { destruct b; [destruct Hdiam as (d & Hd & ->); eauto | rewrite Hdiam; reflexivity]. }
  split; [reflexivity|]. split; [reflexivity|]. split; [reflexivity|].
  split; [exact Hmx|]. split; [exact Hmn | exact Hbound].
Qed.

Lemma X11_metrics_of_nonempty_model_witness :
  exists m,
    Builder.add_topology_metrics (Builder.create_bus_topology ["a"; "b"; "c"]) = Ok m
    /\ Dict.get "node_count" m = Some (VInt 3).
Proof.
  destruct (X11_metrics_of_nonempty_model (Builder.create_bus_topology ["a"; "b"; "c"]))
    as (m & b & mx & mn & Hm & _ & Hn & _).
  - apply BusFacts.bus_wf. simpl. lia.
  - simpl. discriminate.
  - exists m. split; [exact Hm | exact Hn].
Defined.

(* ------------------------------------------------------------------ *)
(** ** The analysis report *)

Module AnalysisFacts.

Import Dict DictFacts Graph GraphFacts BfsFacts CutFacts MetricsTotal.

(** [max(degrees, key=degrees.get)] is the first node of greatest
    degree. *)
Lemma argmax_first (g : string -> nat) (ns : list string) :
  ns <> [] ->
  exists hub pre post,
    Main.argmax (map (fun n => (n, g n)) ns) = Some (hub, g hub)
    /\ ns = pre ++ hub :: post
    /\ (forall v, In v pre -> g v < g hub)
    /\ (forall v, In v post -> g v <= g hub).
Proof.
  induction ns as [|n ns IH]; [congruence|]. intros _.
  destruct ns as [|n' ns'].
  { exists n, [], []. simpl. repeat split; intros v []. }
  destruct IH as (hub & pre & post & Ha & Hns & Hpre & Hpost); [discriminate|].
  change (Main.argmax (map (fun n => (n, g n)) (n :: n' :: ns')))
    with (match Main.argmax (map (fun n => (n, g n)) (n' :: ns')) with
          | Some (k', v') => if g n <? v' then Some (k', v') else Some (n, g n)
          | None => Some (n, g n)
          end).
  rewrite Ha. destruct (g n <? g hub) eqn:E.
  - apply Nat.ltb_lt in E. exists hub, (n :: pre), post.
    split; [reflexivity|]. split; [rewrite Hns; reflexivity|].
    split; [|exact Hpost]. intros v [<-|Hv]; [exact E | apply Hpre; exact Hv].
  - apply Nat.ltb_ge in E. exists n, [], (n' :: ns').
    split; [reflexivity|]. split; [reflexivity|].
    split; [intros v []|]. intros v Hv. rewrite Hns in Hv.
    apply in_app_iff in Hv. destruct Hv as [Hv|[<-|Hv]].
    + specialize (Hpre v Hv). lia.
    + exact E.
    + specialize (Hpost v Hv). lia.
Qed.

Lemma average_shortest_path_length_total (G : Graph.t) :
  wf G -> Nx.is_connected G = Ok true ->
  exists q, Nx.average_shortest_path_length G = Ok q.
Proof.
  intros Hwf Hc. unfold Nx.average_shortest_path_length.
  destruct (is_connected_nodes G true Hc) as (s & rest & Hnodes).
  assert (Hn : number_of_nodes G = S (List.length rest)).
  { rewrite number_of_nodes_length, Hnodes. reflexivity. }
  rewrite Hn. simpl. destruct (List.length rest =? 0); [eauto|].
  rewrite Hc. simpl.
  destruct (path_length_sum_total G Hwf (nodes G)) as [t Ht]; [intros x Hx; exact Hx|].
  rewrite Ht. simpl. eauto.
Qed.

(** The messages about a connected model: its diameter and average path
    length in the middle of the report, its articulation points at the
    end. *)
Definition path_lines (b : bool) (d : nat) (q : Q) : list Main.msg :=
  if b then [Main.MsgDiameter (VInt (Z.of_nat d)); Main.MsgAveragePathLength q]
  else [].

Definition critical_lines (b : bool) (aps : list string) : list Main.msg :=
  if b then
    match aps with
    | [] => [Main.MsgNoCriticalNodes]
    | _ :: _ => [Main.MsgCriticalNodes aps]
    end
  else [].

End AnalysisFacts.

(** X12.  On a consistent model with a node or more [analyze_topology]
    runs to its end without an exception.  It prints the header, the node
    and edge counts, the density and the connectivity; for a connected
    model the diameter and the average path length; then the average
    clustering, the average degree and the most connected node; and for a
    connected model the articulation points, or that there are none.  The
    most connected node is the first node of greatest degree. *)
Theorem X12_analysis_report_of_nonempty_model (G : Graph.t) :
  Graph.wf G -> Graph.nodes G <> [] ->
  exists b d q c hub pre post aps,
    Main.analyze_topology G
    = ([Main.MsgAnalysisHeader;
        Main.MsgNodes (VInt (Z.of_nat (Graph.number_of_nodes G)));
        Main.MsgEdges (VInt (Z.of_nat (Graph.number_of_edges G)));
        Main.MsgDensity (Nx.density G);
        Main.MsgConnected (VBool b)]
       ++ AnalysisFacts.path_lines b d q
       ++ [Main.MsgAverageClustering (VFloat c);
           Main.MsgAverageDegree
             (VFloat (Nx.ratio (list_sum (Dict.values (Graph.degrees G)))
                               (Graph.number_of_nodes G)));
           Main.MsgMostConnected hub (Graph.degree G hub)]
       ++ AnalysisFacts.critical_lines b aps,
       Ok tt)
    /\ Nx.is_connected G = Ok b
    /\ (b = true -> Nx.diameter G = Ok d
                    /\ Nx.average_shortest_path_length G = Ok q
                    /\ Nx.articulation_points G = Ok aps)
    /\ Nx.average_clustering G = Ok c
    /\ Graph.nodes G = pre ++ hub :: post
    /\ (forall v, In v pre -> Graph.degree G v < Graph.degree G hub)
    /\ (forall v, In v post -> Graph.degree G v <= Graph.degree G hub).
Proof.
  intros Hwf Hne.
  destruct (MetricsTotal.metrics_snapshot G Hwf Hne)
    as (dv & c & b & mx & mn & Hm & Hb & Hc & Hdiam & _).
  destruct (AnalysisFacts.argmax_first (Graph.degree G) (Graph.nodes G) Hne)
    as (hub & pre & post & Ha & Hns & Hpre & Hpost).
  fold (Graph.degrees G) in Ha.
  destruct b.
  - destruct Hdiam as (d & Hd & ->).
    destruct (AnalysisFacts.average_shortest_path_length_total G Hwf Hb) as [q Hq].
    destruct (CutFacts.articulation_points_spec G Hwf Hb) as (aps & Haps & _).
    exists true, d, q, c, hub, pre, post, aps.
    split; [|repeat split; auto].
    unfold Main.analyze_topology, Main.critical_nodes_report. rewrite Hm, Hq, Ha, Hb, Haps.
    destruct aps; reflexivity.
  - exists false, 0, (Qmake 0 1), c, hub, pre, post, [].
    split; [|repeat split; auto; discriminate].
    unfold Main.analyze_topology, Main.critical_nodes_report. rewrite Hm, Ha, Hb.
    reflexivity.
Qed.

Lemma X12_analysis_report_of_nonempty_model_witness :
  snd (Main.analyze_topology (Builder.create_bus_topology ["a"; "b"; "c"])) = Ok tt.
Proof.
  destruct (X12_analysis_report_of_nonempty_model
              (Builder.create_bus_topology ["a"; "b"; "c"]))
    as (b & d & q & c & hub & pre & post & aps & Hrun & _).
  - apply BusFacts.bus_wf. simpl. lia.
  - simpl. discriminate.
  - rewrite Hrun. reflexivity.
Defined.

(* ------------------------------------------------------------------ *)
(** ** The whole report of a failure simulation *)

Module FailureReport.

Import Main FailureFacts.

(** The impact analysis when both graphs are connected: the diameter
    message is printed when the diameter grew. *)
Lemma analyze_impact_diameters (G G_failed : Graph.t) (d0 d1 : nat) :
  Nx.is_connected G = Ok true ->
  Nx.is_connected G_failed = Ok true ->
  Nx.diameter G = Ok d0 ->
  Nx.diameter G_failed = Ok d1 ->
  analyze_impact G G_failed
  = (MsgRemainsConnected
       :: (if d0 <? d1 then [MsgDiameterIncreased (Fin d0) (Fin d1)] else []),
     Ok tt).
Proof.
  intros H1 H2 H3 H4. unfold analyze_impact, rbind, attempt, say, ret.
  rewrite H1. simpl. rewrite H2. simpl. rewrite H4. simpl.
  rewrite H3. simpl. destruct (d0 <? d1); reflexivity.
Qed.

(** The neighbours listed are those of the node in the caller's graph. *)
Lemma copy_neighbors (G : Graph.t) (v : string) (ns : list string) :
  Graph.wf G ->
  Graph.neighbors (Graph.copy G) v = Ok ns ->
  (forall x, In x ns <-> In x (Graph.nbrs G v))
  /\ List.length ns = List.length (Graph.nbrs G v).
Proof.
  intros Hwf Hns.
  assert (E : ns = Graph.nbrs (Graph.copy G) v).
  { unfold Graph.neighbors in Hns. unfold Graph.nbrs, Graph.adj_of.
    destruct (Dict.get v (Graph._adj (Graph.copy G))); [|discriminate].
    injection Hns as <-. reflexivity. }
  pose proof (ShapeFacts.copy_shape G Hwf) as [_ Hnb].
  assert (Hiff : forall x, In x ns <-> In x (Graph.nbrs G v)).
  { intros x. rewrite E. apply Hnb. }
  split; [exact Hiff|].
  apply OpsFacts.length_same_members; [|apply (Graph.wf_nbrs G Hwf) | exact Hiff].
  rewrite E. apply (Graph.wf_nbrs _ (CopyFacts.wf_copy G)).
Qed.

Lemma other_node (l : list string) (v : string) :
  NoDup l -> 2 <= List.length l -> exists z, In z l /\ z <> v.
Proof.
  intros Hnd Hlen. destruct l as [|s [|t rest]]; simpl in Hlen; try lia.
  destruct (string_dec s v) as [->|Hsv].
  - exists t. split; [simpl; auto|]. intros ->.
    apply NoDup_cons_iff in Hnd. apply (proj1 Hnd). simpl. auto.
  - exists s. simpl. auto.
Qed.

End FailureReport.

(** X13.  The failure simulation of a node of a connected model of three
    nodes or more ends without an exception.  It prints the node, the
    number of its neighbours and the neighbours; then, for an
    articulation point, the critical failure and the two or more
    components left; for any other node, that the network remains
    connected, and the diameters when the diameter grew. *)
Theorem X13_simulate_failure_whole_report (h : Main.heap) (G : Main.ref) (v : string) :
  G < List.length h ->
  Graph.wf (Main.deref h G) ->
  Nx.is_connected (Main.deref h G) = Ok true ->
  3 <= Graph.number_of_nodes (Main.deref h G) ->
  In v (Graph.nodes (Main.deref h G)) ->
  exists aps ns G_failed d0,
    Nx.articulation_points (Main.deref h G) = Ok aps
    /\ Graph.remove_node (Graph.copy (Main.deref h G)) v = Ok G_failed
    /\ (forall x, In x ns <-> In x (Graph.nbrs (Main.deref h G) v))
    /\ List.length ns = List.length (Graph.nbrs (Main.deref h G) v)
    /\ Nx.diameter (Main.deref h G) = Ok d0
    /\ (In v aps ->
        exists cs,
          Nx.connected_components G_failed = Ok cs
          /\ 2 <= List.length cs
          /\ snd (Main.simulate_failure h G v)
             = ([Main.MsgSimulating v; Main.MsgRemoved v (List.length ns);
                 Main.MsgAffected ns; Main.MsgCriticalFailure;
                 Main.MsgSplitInto (List.length cs)]
                ++ Main.component_msgs 1 cs, Ok tt))
    /\ (~ In v aps ->
        exists d1,
          Nx.diameter G_failed = Ok d1
          /\ snd (Main.simulate_failure h G v)
             = ([Main.MsgSimulating v; Main.MsgRemoved v (List.length ns);
                 Main.MsgAffected ns; Main.MsgRemainsConnected]
                ++ (if d0 <? d1
                    then [Main.MsgDiameterIncreased (Main.Fin d0) (Main.Fin d1)]
                    else []), Ok tt)).
Proof.
  intros HG Hwf Hconn Hn Hv.
  assert (Hhas : Graph.has_node (Main.deref h G) v = true)
    by (apply CopyFacts.has_node_In; exact Hv).
  destruct (FailureFacts.simulate_failure_run h G v HG Hhas) as (ns & g & Hns & Hg & Hrun).
  destruct (CutFacts.articulation_points_spec (Main.deref h G) Hwf Hconn)
    as (aps & Haps & Hsep & Hkeep).
  destruct (MetricsTotal.diameter_total (Main.deref h G) Hwf Hconn) as [d0 Hd0].
  destruct (FailureReport.copy_neighbors (Main.deref h G) v ns Hwf Hns) as [Hmem Hlen].
  pose proof (ShapeFacts.copy_shape (Main.deref h G) Hwf) as Hshape.
  pose proof (CopyFacts.wf_copy (Main.deref h G)) as Hwfc.
  exists aps, ns, g, d0.
  split; [exact Haps|]. split; [exact Hg|]. split; [exact Hmem|].
  split; [exact Hlen|]. split; [exact Hd0|]. split.
  - intros Hin.
    pose proof (ShapeFacts.sep_shape _ _ v Hshape (Hsep v Hin)) as Hs.
    destruct (CutFacts.sep_disconnects _ v Hwfc Hs) as (g' & Hg' & Hwf' & Hdis).
    rewrite Hg in Hg'. injection Hg' as <-.
    destruct (CutFacts.component_count g false Hwf' Hdis) as (cs & Hcs & Hcount).
    exists cs. split; [exact Hcs|]. split; [exact Hcount|].
    rewrite Hrun, (FailureFacts.analyze_impact_critical _ _ cs Hconn Hdis Hcs).
    reflexivity.
  - intros Hout.
    rewrite BfsFacts.number_of_nodes_length in Hn.
    destruct (FailureReport.other_node _ v (Graph.wf_nodes _ Hwf)) as (z & Hz & Hzv);
      [lia|].
    destruct (Hkeep v Hv Hout) as [Hone|[beta Hall]].
    { exfalso. apply Hzv. apply Hone. exact Hz. }
    destruct (CutFacts.conn_connected (Graph.copy (Main.deref h G)) v beta z Hwfc)
      as (g' & Hg' & Hwf' & Hc).
    + apply (proj1 Hshape). exact Hv.
    + apply (proj1 Hshape). exact Hz.
    + exact Hzv.
    + intros u Hu Huv. apply (ShapeFacts.conn_shape _ _ v beta u Hshape).
      apply Hall; [apply (proj1 Hshape); exact Hu | exact Huv].
    + rewrite Hg in Hg'. injection Hg' as <-.
      destruct (MetricsTotal.diameter_total g Hwf' Hc) as [d1 Hd1].
      exists d1. split; [exact Hd1|].
      rewrite Hrun, (FailureReport.analyze_impact_diameters _ _ d0 d1 Hconn Hc Hd0 Hd1).
      reflexivity.
Qed.

Lemma X13_simulate_failure_whole_report_witness :
  exists msgs,
    snd (Main.simulate_failure [Builder.create_bus_topology ["a"; "b"; "c"]] 0 "b")
    = (Main.MsgSimulating "b" :: msgs, Ok tt).
Proof.
  destruct (X13_simulate_failure_whole_report
              [Builder.create_bus_topology ["a"; "b"; "c"]] 0 "b")
    as (aps & ns & g & d0 & Haps & _ & _ & _ & _ & Hcut & _).
  - simpl. lia.
  - apply (BusFacts.bus_wf ["a"; "b"; "c"]). simpl. lia.
  - reflexivity.
  - vm_compute. lia.
  - simpl. auto.
  - vm_compute in Haps. injection Haps as <-.
    destruct Hcut as (cs & _ & _ & Hrun); [simpl; auto|].
    rewrite Hrun. eexists. reflexivity.
Defined.

(** X14.  The two ends of the failure simulation.  For a name that is
    not a node it prints that the node was not found and leaves the store
    as it was.  For the only node of a model it prints the removal and
    then fails: the connectivity test of the emptied copy raises. *)
Theorem X14_simulate_failure_edge_cases (h : Main.heap) (G : Main.ref) (v : string) :
  (Graph.has_node (Main.deref h G) v = false ->
   Main.simulate_failure h G v = (h, ([Main.MsgNodeNotFound v], Ok tt)))
  /\ (G < List.length h -> Graph.wf (Main.deref h G) ->
      Graph.nodes (Main.deref h G) = [v] ->
      exists ns,
        snd (Main.simulate_failure h G v)
        = ([Main.MsgSimulating v; Main.MsgRemoved v (List.length ns);
            Main.MsgAffected ns],
           Raise NetworkXPointlessConcept)).
Proof.
  split.
  - intros Hno. unfold Main.simulate_failure. rewrite Hno. reflexivity.
  - intros HG Hwf Hnodes.
    assert (Hv : In v (Graph.nodes (Main.deref h G))) by (rewrite Hnodes; simpl; auto).
    assert (Hhas : Graph.has_node (Main.deref h G) v = true)
      by (apply CopyFacts.has_node_In; exact Hv).
    destruct (FailureFacts.simulate_failure_run h G v HG Hhas)
      as (ns & g & Hns & Hg & Hrun).
    exists ns. rewrite Hrun.
    assert (Hc : Nx.is_connected (Main.deref h G) = Ok true).
    { apply (GenFacts.connected_from _ v Hwf Hv).
      intros x Hx. rewrite Hnodes in Hx. destruct Hx as [<-|[]]. constructor. }
    assert (Hempty : Graph.nodes g = []).
    { pose proof (ShapeFacts.copy_shape _ Hwf) as [Hsame _].
      pose proof (CutFacts.removed_nodes _ g v (CopyFacts.wf_copy _)
                    (proj2 (Hsame v) Hv) Hg) as Hrem.
      destruct (Graph.nodes g) as [|x rest]; [reflexivity|]. exfalso.
      destruct (proj1 (Hrem x)) as [Hx Hxv]; [simpl; auto|].
      apply Hsame in Hx. rewrite Hnodes in Hx. destruct Hx as [E|[]]. auto. }
    assert (Hf : Nx.is_connected g = Raise NetworkXPointlessConcept).
    { unfold Nx.is_connected. rewrite Hempty. reflexivity. }
    unfold Main.analyze_impact, Main.rbind, Main.attempt, Main.say, Main.ret.
    rewrite Hc. simpl. rewrite Hf. reflexivity.
Qed.

Lemma X14_simulate_failure_edge_cases_witness :
  exists ns,
    snd (Main.simulate_failure [Graph.add_node Graph.empty "a" []] 0 "a")
    = ([Main.MsgSimulating "a"; Main.MsgRemoved "a" (List.length ns);
        Main.MsgAffected ns],
       Raise NetworkXPointlessConcept).
Proof.
  apply (X14_simulate_failure_edge_cases [Graph.add_node Graph.empty "a" []] 0 "a").
  - simpl. lia.
  - apply GraphFacts.wf_add_node. apply GraphFacts.wf_empty.
  - reflexivity.
Defined.

(* ------------------------------------------------------------------ *)
(** ** What the link check finds and prints *)

Module CheckReport.

Import PyStr PyStrFacts CheckLinks DictFacts.

(** The two parts of an endpoint [dev:iface] as the check reads them. *)
Definition device_of (ep : string) : string := strip (before ":" ep).
Definition iface_of (ep : string) : string := lower (strip (after ":" ep)).

(** The interface names of a device, as compared. *)
Definition ifaces_of (cfg : device_cfg) : list string :=
  map lower (match Dict.get "interfaces" cfg with Some d => d | None => [] end).

(** The entry an endpoint adds to the missing interfaces, if any. *)
Definition missing_iface (parsed_configs : configs) (ep : string) : list string :=
  if contains ":" ep then
    match Dict.get (device_of ep) parsed_configs with
    | Some cfg =>
        if mem (iface_of ep) (ifaces_of cfg) then []
        else [device_of ep +++ ":" +++ iface_of ep]
    | None => []
    end
  else [].

Definition invalid_msg (ep : string) : string :=
  "Invalid endpoint format (missing ':'): " +++ ep.

Definition no_colon (ep : string) : bool := negb (contains ":" ep).

Lemma in_set_add (x y : string) (xs : list string) :
  In y (set_add x xs) <-> In y xs \/ y = x.
Proof.
  unfold set_add. destruct (mem x xs) eqn:E.
  - apply mem_In in E. split; [auto|]. intros [H| ->]; assumption.
  - rewrite in_app_iff. simpl. split; [intros [H|[H|[]]]; auto | intros [H|H]; auto].
Qed.

Lemma nodup_set_add (x : string) (xs : list string) :
  NoDup xs -> NoDup (set_add x xs).
Proof.
  intros Hnd. unfold set_add. destruct (mem x xs) eqn:E; [exact Hnd|].
  apply mem_false in E. apply NoDup_app; [exact Hnd | repeat constructor; simpl; tauto|].
  intros y Hy [<-|[]]. exact (E Hy).
Qed.

(** One endpoint. *)
Lemma check_endpoint_spec (cfg : configs) (ep : string) (st : check_state) :
  exists st',
    check_endpoint cfg ep st = Ok st'
    /\ (forall d, In d (missing_devices st') <->
                  In d (missing_devices st)
                  \/ (contains ":" ep = true /\ d = device_of ep
                      /\ Dict.get d cfg = None))
    /\ (NoDup (missing_devices st) -> NoDup (missing_devices st'))
    /\ missing_interfaces st' = missing_interfaces st ++ missing_iface cfg ep
    /\ printed st' = printed st ++ (if no_colon ep then [invalid_msg ep] else []).
Proof.
  unfold check_endpoint, missing_iface, no_colon.
  destruct (contains ":" ep) eqn:E; simpl.
  - rewrite (unpack2_split1 _ _ E). simpl.
    fold (device_of ep). fold (iface_of ep).
    destruct (Dict.get (device_of ep) cfg) as [c|] eqn:Hd.
    + fold (ifaces_of c). destruct (mem (iface_of ep) (ifaces_of c)).
      * exists st. rewrite !app_nil_r. split; [reflexivity|]. split; [|auto].
        intros d. split; [auto|]. intros [H|(_ & -> & H)]; [exact H | congruence].
      * eexists. split; [reflexivity|]. simpl. rewrite app_nil_r.
        split; [|auto].
        intros d. split; [auto|]. intros [H|(_ & -> & H)]; [exact H | congruence].
    + eexists. split; [reflexivity|]. simpl. rewrite !app_nil_r.
      split; [|split; [apply nodup_set_add | auto]].
      intros d. rewrite in_set_add. split.
      * intros [H| ->]; auto.
      * intros [H|(_ & -> & _)]; auto.
  - eexists. split; [reflexivity|]. simpl. rewrite app_nil_r.
    split; [|auto]. intros d. split; [auto|]. intros [H|(H & _)]; [exact H | discriminate].
Qed.

(** The loop over the endpoints. *)
Lemma check_endpoints_spec (cfg : configs) (eps : list string) :
  forall st,
  exists st',
    check_endpoints cfg eps st = Ok st'
    /\ (forall d, In d (missing_devices st') <->
                  In d (missing_devices st)
                  \/ exists ep, In ep eps /\ contains ":" ep = true
                                /\ d = device_of ep /\ Dict.get d cfg = None)
    /\ (NoDup (missing_devices st) -> NoDup (missing_devices st'))
    /\ missing_interfaces st'
       = missing_interfaces st ++ flat_map (missing_iface cfg) eps
    /\ printed st' = printed st ++ map invalid_msg (filter no_colon eps).
Proof.
  induction eps as [|ep eps IH]; intros st.
  - exists st. simpl. rewrite !app_nil_r. split; [reflexivity|].
    split; [|auto]. intros d. split; [auto|]. intros [H|(ep & [] & _)]. exact H.
  - destruct (check_endpoint_spec cfg ep st) as (st1 & H1 & Hd1 & Hn1 & Hi1 & Hp1).
    destruct (IH st1) as (st2 & H2 & Hd2 & Hn2 & Hi2 & Hp2).
    exists st2. simpl. rewrite H1. simpl. split; [exact H2|].
    split; [|split; [auto|split]].
    + intros d. rewrite Hd2, Hd1. split.
      * intros [[H|(Hc & Hdev & Hg)]|(ep' & Hin & Hc & Hdev & Hg)]; auto.
        -- right. exists ep. auto.
        -- right. exists ep'. auto.
      * intros [H|(ep' & [<-|Hin] & Hc & Hdev & Hg)]; auto.
        right. exists ep'. auto.
    + rewrite Hi2, Hi1, <- app_assoc. reflexivity.
    + rewrite Hp2, Hp1, <- app_assoc. f_equal.
      destruct (no_colon ep); reflexivity.
Qed.

Lemma in_endpoints_of (links : list (string * string)) (ep : string) :
  In ep (endpoints_of links) <-> exists l, In l links /\ (ep = fst l \/ ep = snd l).
Proof.
  induction links as [|[a b] links IH]; simpl.
  - split; [intros [] | intros (l & [] & _)].
  - rewrite IH. split.
    + intros [<-|[<-|(l & Hl & H)]].
      * exists (a, b). auto.
      * exists (a, b). auto.
      * exists l. auto.
    + intros (l & [<-|Hl] & H).
      * simpl in H. destruct H as [->| ->]; auto.
      * right. right. exists l. auto.
Qed.

(** *** The order of the report *)

(** Each entry is at most the one after it. *)
Fixpoint ascending (xs : list string) : Prop :=
  match xs with
  | [] => True
  | x :: rest =>
      match rest with
      | [] => True
      | y :: _ => String.leb x y = true /\ ascending rest
      end
  end.

Lemma insert_sorted_perm (x : string) (xs : list string) :
  Permutation (x :: xs) (insert_sorted x xs).
Proof.
  induction xs as [|y ys IH]; simpl; [apply Permutation_refl|].
  destruct (String.leb x y); [apply Permutation_refl|].
  eapply Permutation_trans; [apply perm_swap|]. apply perm_skip. exact IH.
Qed.

Lemma sorted_perm (xs : list string) : Permutation xs (sorted xs).
Proof.
  induction xs as [|x xs IH]; simpl; [constructor|].
  eapply Permutation_trans; [apply perm_skip; exact IH|].
  apply insert_sorted_perm.
Qed.

Lemma insert_sorted_ascending (x : string) (xs : list string) :
  ascending xs -> ascending (insert_sorted x xs).
Proof.
  induction xs as [|y ys IH]; intros H; [exact I|].
  simpl. destruct (String.leb x y) eqn:E.
  - split; [exact E | exact H].
  - assert (Hyx : String.leb y x = true).
    { destruct (String.leb_total x y) as [H'|H']; [congruence | exact H']. }
    destruct ys as [|z zs].
    + simpl. auto.
    + destruct H as [Hyz Hrest]. specialize (IH Hrest).
      simpl in IH |- *. destruct (String.leb x z); split; auto.
Qed.

Lemma sorted_ascending (xs : list string) : ascending (sorted xs).
Proof.
  induction xs as [|x xs IH]; [exact I|].
  simpl. apply insert_sorted_ascending. exact IH.
Qed.

End CheckReport.

(** X15.  What [check_links_vs_configs] finds.  A device is recorded as
    missing when an endpoint with a colon names it and the parsed
    configurations have no such key; it is recorded once.  The missing
    interfaces are recorded endpoint by endpoint, in order and with
    repetitions: an entry [dev:iface] for each endpoint of a known device
    whose interface, lower-cased, is not among the lower-cased interface
    names of the device. *)
Theorem X15_link_check_findings (parsed_configs : CheckLinks.configs)
    (links : list (string * string)) :
  exists st,
    CheckLinks.check_links_vs_configs parsed_configs links = Ok st
    /\ NoDup (CheckLinks.missing_devices st)
    /\ (forall d, In d (CheckLinks.missing_devices st) <->
          exists l ep, In l links /\ (ep = fst l \/ ep = snd l)
                       /\ PyStr.contains ":" ep = true
                       /\ d = PyStr.strip (PyStr.before ":" ep)
                       /\ Dict.get d parsed_configs = None)
    /\ CheckLinks.missing_interfaces st
       = flat_map (CheckReport.missing_iface parsed_configs)
           (CheckLinks.endpoints_of links)
    /\ (forall ep cfg k,
          PyStr.contains ":" ep = true ->
          Dict.get (PyStr.strip (PyStr.before ":" ep)) parsed_configs = Some cfg ->
          Dict.get "interfaces" cfg = Some k ->
          (CheckReport.missing_iface parsed_configs ep = []
           <-> exists name, In name k
                 /\ PyStr.lower name
                    = PyStr.lower (PyStr.strip (PyStr.after ":" ep)))).
Proof.
  unfold CheckLinks.check_links_vs_configs.
  destruct (CheckReport.check_endpoints_spec parsed_configs
              (CheckLinks.endpoints_of links) (CheckLinks.mkCheck [] [] []))
    as (st & Hst & Hdev & Hnd & Hif & _).
  rewrite Hst. simpl. eexists. split; [reflexivity|]. simpl.
  split; [apply Hnd; constructor|]. split; [|split; [exact Hif|]].
  - intros d. rewrite Hdev. simpl. split.
    + intros [[]|(ep & Hin & Hc & Hd & Hg)].
      apply CheckReport.in_endpoints_of in Hin. destruct Hin as (l & Hl & Hep).
      exists l, ep. auto.
    + intros (l & ep & Hl & Hep & Hc & Hd & Hg). right. exists ep.
      split; [apply CheckReport.in_endpoints_of; eauto | auto].
  - intros ep cfg k Hc Hg Hk. unfold CheckReport.missing_iface.
    rewrite Hc. unfold CheckReport.device_of. rewrite Hg.
    unfold CheckReport.ifaces_of. rewrite Hk.
    destruct (mem _ _) eqn:E.
    + split; [|reflexivity]. intros _. apply DictFacts.mem_In in E.
      apply in_map_iff in E. destruct E as (name & E & Hin). eauto.
    + split; [discriminate|]. intros (name & Hin & E'). exfalso.
      apply DictFacts.mem_false in E. apply E. unfold CheckReport.iface_of.
      rewrite <- E'. apply in_map. exact Hin.
Qed.

(** X16.  What [check_links_vs_configs] prints: first a line for each
    endpoint without a colon, in the order of the links; then the missing
    devices, one line each in ascending order under their heading, or
    that there are none; then the missing interfaces in the same way. *)
Theorem X16_link_check_printout (parsed_configs : CheckLinks.configs)
    (links : list (string * string)) :
  exists st ds ifs,
    CheckLinks.check_links_vs_configs parsed_configs links = Ok st
    /\ Permutation (CheckLinks.missing_devices st) ds
    /\ CheckReport.ascending ds
    /\ Permutation (CheckLinks.missing_interfaces st) ifs
    /\ CheckReport.ascending ifs
    /\ CheckLinks.printed st
       = map CheckReport.invalid_msg
           (filter CheckReport.no_colon (CheckLinks.endpoints_of links))
         ++ (match ds with
             | [] => ["No missing devices found."]
             | _ :: _ => "Missing devices in parsed configs:"
                           :: map (fun d => " - " +++ d) ds
             end)
         ++ (match ifs with
             | [] => ["No missing interfaces found."]
             | _ :: _ => String "010" "Missing interfaces in parsed configs:"
                           :: map (fun i => " - " +++ i) ifs
             end).
Proof.
  unfold CheckLinks.check_links_vs_configs.
  destruct (CheckReport.check_endpoints_spec parsed_configs
              (CheckLinks.endpoints_of links) (CheckLinks.mkCheck [] [] []))
    as (st & Hst & _ & _ & _ & Hp).
  rewrite Hst. simpl.
  eexists. exists (PyStr.sorted (CheckLinks.missing_devices st)),
                  (PyStr.sorted (CheckLinks.missing_interfaces st)).
  split; [reflexivity|]. simpl.
  split; [apply CheckReport.sorted_perm|].
  split; [apply CheckReport.sorted_ascending|].
  split; [apply CheckReport.sorted_perm|].
  split; [apply CheckReport.sorted_ascending|].
  rewrite Hp. simpl. f_equal. unfold CheckLinks.report. f_equal.
  - destruct (CheckLinks.missing_devices st) as [|d ds] eqn:E; [reflexivity|].
    destruct (PyStr.sorted (d :: ds)) as [|x xs] eqn:Es; [|reflexivity].
    pose proof (CheckReport.sorted_perm (d :: ds)) as Hperm. rewrite Es in Hperm.
    apply Permutation_sym, Permutation_nil in Hperm. discriminate.
  - destruct (CheckLinks.missing_interfaces st) as [|d ds] eqn:E; [reflexivity|].
    destruct (PyStr.sorted (d :: ds)) as [|x xs] eqn:Es; [|reflexivity].
    pose proof (CheckReport.sorted_perm (d :: ds)) as Hperm. rewrite Es in Hperm.
    apply Permutation_sym, Permutation_nil in Hperm. discriminate.
Qed.

(* ------------------------------------------------------------------ *)
(** ** The links a file yields *)

Module ReadLinksFacts.

Import PyStr PyStrFacts CheckLinks CheckLinksFacts.

Lemma lstrip_head (s : string) :
  lstrip s = "" \/ exists c r, lstrip s = String c r /\ isspace c = false.
Proof.
  induction s as [|c s IH]; simpl; [auto|].
  destruct (isspace c) eqn:E; [exact IH|]. right. eauto.
Qed.

Lemma rstrip_idem (s : string) : rstrip (rstrip s) = rstrip s.
Proof.
  induction s as [|c s IH]; [reflexivity|]. simpl.
  destruct (rstrip s) as [|d r] eqn:E.
  - destruct (isspace c) eqn:Ec; [reflexivity|]. simpl. rewrite Ec. reflexivity.
  - change (rstrip (String c (String d r)))
      with (match rstrip (String d r) with
            | EmptyString => if isspace c then EmptyString else String c EmptyString
            | r' => String c r'
            end).
    rewrite IH. reflexivity.
Qed.

(** Stripping a stripped string changes nothing. *)
Lemma strip_idem (s : string) : strip (strip s) = strip s.
Proof.
  unfold strip. destruct (lstrip_head s) as [E|(c & r & E & Hc)]; rewrite E.
  - reflexivity.
  - destruct (rstrip_head c r Hc) as [r' Hr]. rewrite Hr.
    simpl lstrip. rewrite Hc. rewrite <- Hr. apply rstrip_idem.
Qed.

Lemma lstrip_keeps_out (c : ascii) (s : string) :
  contains c s = false -> contains c (lstrip s) = false.
Proof.
  induction s as [|d s IH]; simpl; [auto|].
  destruct (Ascii.eqb c d) eqn:E; [discriminate|]. intros H.
  destruct (isspace d); [apply IH; exact H|]. simpl. rewrite E. exact H.
Qed.

Lemma rstrip_keeps_out (c : ascii) (s : string) :
  contains c s = false -> contains c (rstrip s) = false.
Proof.
  induction s as [|d s IH]; simpl; [auto|].
  destruct (Ascii.eqb c d) eqn:E; [discriminate|]. intros H.
  specialize (IH H). destruct (rstrip s) as [|e r].
  - destruct (isspace d); simpl; [reflexivity | rewrite E; reflexivity].
  - simpl. rewrite E. exact IH.
Qed.

(** Stripping adds no character. *)
Lemma strip_keeps_out (c : ascii) (s : string) :
  contains c s = false -> contains c (strip s) = false.
Proof.
  intros H. unfold strip. apply rstrip_keeps_out, lstrip_keeps_out, H.
Qed.

(** A line that yields a link. *)
Definition accepted (line : string) : bool :=
  negb (String.eqb (strip line) "" || startswith "#" (strip line))
  && contains "-" (strip line).

(** A line that yields a diagnostic. *)
Definition rejected (line : string) : bool :=
  negb (String.eqb (strip line) "" || startswith "#" (strip line))
  && negb (contains "-" (strip line)).

Definition link_of (line : string) : string * string :=
  (strip (before "-" (strip line)), strip (after "-" (strip line))).

Definition skip_msg (line : string) : string :=
  "Skipping invalid link line (missing '-'): " +++ strip line.

Lemma read_line_cases (line : string) :
  read_line line
  = Ok (if accepted line then [link_of line] else [],
        if rejected line then [skip_msg line] else []).
Proof.
  unfold read_line, accepted, rejected.
  destruct (String.eqb (strip line) "" || startswith "#" (strip line)); simpl;
    [reflexivity|].
  destruct (contains "-" (strip line)) eqn:E; simpl; [|reflexivity].
  rewrite (unpack2_split1 _ _ E). reflexivity.
Qed.

Lemma read_lines_filter (lines : list string) :
  read_lines lines
  = Ok (map link_of (filter accepted lines), map skip_msg (filter rejected lines)).
Proof.
  induction lines as [|l rest IH]; [reflexivity|].
  simpl. rewrite read_line_cases, IH. simpl.
  destruct (accepted l), (rejected l); reflexivity.
Qed.

Lemma filter_split_length {A : Type} (p q : A -> bool) (l : list A) :
  (forall x, p x = true -> q x = false) ->
  List.length (filter p l) + List.length (filter q l) <= List.length l.
Proof.
  intros H. induction l as [|x l IH]; simpl; [lia|].
  destruct (p x) eqn:Ep.
  - rewrite (H x Ep). simpl. lia.
  - destruct (q x); simpl; lia.
Qed.

End ReadLinksFacts.

(** X17.  The links [read_links] returns for a file are the pairs of its
    accepted lines, in file order: the lines that are neither blank nor
    comments and hold a dash.  A diagnostic is printed for each other
    line that is neither blank nor a comment.  Both endpoints of a
    returned link are stripped, and the left one holds no dash. *)
Theorem X17_read_links_in_file_order (fs : string -> option (list string))
    (path : string) (lines : list string) :
  fs path = Some lines ->
  exists links diags,
    CheckLinks.read_links fs path = Ok (links, diags)
    /\ links = map ReadLinksFacts.link_of (filter ReadLinksFacts.accepted lines)
    /\ diags = map ReadLinksFacts.skip_msg (filter ReadLinksFacts.rejected lines)
    /\ List.length links + List.length diags <= List.length lines
    /\ forall l r, In (l, r) links ->
         PyStr.strip l = l /\ PyStr.strip r = r /\ PyStr.contains "-" l = false.
Proof.
  intros Hfs. unfold CheckLinks.read_links. rewrite Hfs.
  rewrite ReadLinksFacts.read_lines_filter. do 2 eexists.
  split; [reflexivity|]. split; [reflexivity|]. split; [reflexivity|]. split.
  - rewrite !length_map. apply ReadLinksFacts.filter_split_length.
    intros x. unfold ReadLinksFacts.accepted, ReadLinksFacts.rejected.
    rewrite !andb_true_iff. intros [_ H]. rewrite H, andb_false_r. reflexivity.
  - intros l r Hin. apply in_map_iff in Hin. destruct Hin as (line & E & Hin).
    apply filter_In in Hin. destruct Hin as [_ Hacc].
    unfold ReadLinksFacts.link_of in E. injection E as <- <-.
    split; [apply ReadLinksFacts.strip_idem|].
    split; [apply ReadLinksFacts.strip_idem|].
    apply ReadLinksFacts.strip_keeps_out.
    apply PyStrFacts.before_after_split.
    unfold ReadLinksFacts.accepted in Hacc. apply andb_true_iff in Hacc. tauto.
Qed.

Lemma X17_read_links_in_file_order_witness :
  exists diags,
    CheckLinks.read_links
      (fun _ => Some ["# links"; "R1:Gig0/0 - R2:Gig0/1"; ""; "R3 R4"]) "links.txt"
    = Ok ([("R1:Gig0/0", "R2:Gig0/1")], diags).
Proof.
  destruct (X17_read_links_in_file_order
              (fun _ => Some ["# links"; "R1:Gig0/0 - R2:Gig0/1"; ""; "R3 R4"])
              "links.txt" ["# links"; "R1:Gig0/0 - R2:Gig0/1"; ""; "R3 R4"])
    as (links & diags & Hrun & Hlinks & _).
  - reflexivity.
  - exists diags. rewrite Hrun, Hlinks. reflexivity.
Defined.

(* ------------------------------------------------------------------ *)
(** ** A round of the connection loop *)

Module RoundFacts.

Import PyStr PyStrFacts Dict DictFacts Graph GraphFacts Main.

(** The characters [int] reads as decimal digits. *)
Definition ascii_digit (c : ascii) : bool :=
  let n := nat_of_ascii c in (48 <=? n) && (n <=? 57).

Lemma decimal_digits_cons (acc : Z) (c : ascii) (s : string) :
  decimal_digits acc (String c s)
  = if ascii_digit c
    then decimal_digits (10 * acc + Z.of_nat (nat_of_ascii c - 48))%Z s
    else Raise ValueError.
Proof. reflexivity. Qed.

Lemma all_chars_cons (p : ascii -> bool) (c : ascii) (s : string) :
  all_chars p (String c s) = p c && all_chars p s.
Proof. reflexivity. Qed.

Lemma decimal_digits_fails (s : string) :
  forall acc, all_chars ascii_digit s = false ->
              decimal_digits acc s = Raise ValueError.
Proof.
  induction s as [|c s IH]; intros acc H; [discriminate|].
  rewrite all_chars_cons in H. rewrite decimal_digits_cons.
  destruct (ascii_digit c); [|reflexivity]. apply IH. exact H.
Qed.

Lemma decimal_digits_total (s : string) :
  forall acc, all_chars ascii_digit s = true ->
              exists z, decimal_digits acc s = Ok z.
Proof.
  induction s as [|c s IH]; intros acc H; [simpl; eauto|].
  rewrite all_chars_cons in H. rewrite decimal_digits_cons.
  destruct (ascii_digit c); [|discriminate]. apply IH. exact H.
Qed.

(** Reading back a printed number. *)
Lemma decimal_digits_uint (d : Decimal.uint) :
  forall a : nat,
    decimal_digits (Z.of_nat a) (NilEmpty.string_of_uint d)
    = Ok (Z.of_nat (Nat.of_uint_acc d a)).
Proof.
  induction d as [|d IH|d IH|d IH|d IH|d IH|d IH|d IH|d IH|d IH|d IH];
    intros a; [reflexivity|..];
    cbn [NilEmpty.string_of_uint Nat.of_uint_acc];
    rewrite <- IH, Nat.tail_mul_spec, decimal_digits_cons;
    (match goal with
     | |- (if ascii_digit ?c then _ else _) = _ =>
         change (ascii_digit c) with true;
         let n := eval vm_compute in (nat_of_ascii c - 48) in
         change (nat_of_ascii c - 48) with n
     end);
    cbv iota; f_equal; lia.
Qed.

Lemma decimal_digits_of_nat (n : nat) :
  decimal_digits 0 (of_nat n) = Ok (Z.of_nat n).
Proof.
  unfold of_nat. change 0%Z with (Z.of_nat 0).
  rewrite (decimal_digits_uint (Nat.to_uint n) 0).
  change (Nat.of_uint_acc (Nat.to_uint n) 0) with (Nat.of_uint (Nat.to_uint n)).
  rewrite Unsigned.of_to. reflexivity.
Qed.

(** [int] on either side of its limit of 4300 digits. *)
Lemma int_digits_long (acc : Z) (s : string) :
  4300 < String.length s -> int_digits acc s = Raise ValueError.
Proof.
  intros H. unfold int_digits, int_max_str_digits.
  destruct (4300 <? Z.of_nat (String.length s))%Z eqn:E; [reflexivity|].
  apply Z.ltb_ge in E. lia.
Qed.

Lemma int_digits_short (acc : Z) (s : string) :
  String.length s <= 4300 -> int_digits acc s = decimal_digits acc s.
Proof.
  intros H. unfold int_digits, int_max_str_digits.
  destruct (4300 <? Z.of_nat (String.length s))%Z eqn:E; [|reflexivity].
  apply Z.ltb_lt in E. lia.
Qed.

Lemma int_digits_fails (s : string) (acc : Z) :
  all_chars ascii_digit s = false -> int_digits acc s = Raise ValueError.
Proof.
  intros H. unfold int_digits.
  destruct (int_max_str_digits <? Z.of_nat (String.length s))%Z; [reflexivity|].
  apply decimal_digits_fails. exact H.
Qed.

Lemma int_digits_of_nat (n : nat) :
  String.length (of_nat n) <= 4300 -> int_digits 0 (of_nat n) = Ok (Z.of_nat n).
Proof.
  intros H. rewrite (int_digits_short _ _ H). apply decimal_digits_of_nat.
Qed.

Lemma digits_of_uint (d : Decimal.uint) :
  all_chars isdigit_char (NilEmpty.string_of_uint d) = true
  /\ all_chars (fun c => negb (isspace c)) (NilEmpty.string_of_uint d) = true.
Proof.
  induction d as [|d [IH1 IH2]|d [IH1 IH2]|d [IH1 IH2]|d [IH1 IH2]|d [IH1 IH2]
                  |d [IH1 IH2]|d [IH1 IH2]|d [IH1 IH2]|d [IH1 IH2]|d [IH1 IH2]];
    [split; reflexivity|..];
    cbn [NilEmpty.string_of_uint]; rewrite !all_chars_cons, IH1, IH2;
    split; reflexivity.
Qed.

Lemma of_nat_nonempty (n : nat) : of_nat n <> "".
Proof.
  unfold of_nat. intros E.
  assert (Hd : Nat.to_uint n = Decimal.Nil).
  { destruct (Nat.to_uint n); simpl in E; try discriminate. reflexivity. }
  pose proof (Unsigned.of_to n) as H. rewrite Hd in H. simpl in H. subst n.
  discriminate Hd.
Qed.

Lemma isdigit_of_nat (n : nat) : isdigit (of_nat n) = true.
Proof.
  unfold isdigit. apply andb_true_iff. split.
  - apply negb_true_iff, String.eqb_neq, of_nat_nonempty.
  - apply digits_of_uint.
Qed.

Lemma rstrip_nospace (s : string) :
  all_chars (fun c => negb (isspace c)) s = true -> rstrip s = s.
Proof.
  induction s as [|c s IH]; [reflexivity|]. rewrite all_chars_cons.
  intros H. apply andb_true_iff in H. destruct H as [Hc Hs].
  apply negb_true_iff in Hc. simpl. rewrite (IH Hs).
  destruct s; [rewrite Hc|]; reflexivity.
Qed.

Lemma strip_nospace (s : string) :
  all_chars (fun c => negb (isspace c)) s = true -> strip s = s.
Proof.
  intros H. unfold strip.
  assert (E : lstrip s = s).
  { destruct s as [|c s]; [reflexivity|]. rewrite all_chars_cons in H.
    apply andb_true_iff in H. destruct H as [Hc _]. apply negb_true_iff in Hc.
    simpl. rewrite Hc. reflexivity. }
  rewrite E. apply rstrip_nospace. exact H.
Qed.

Lemma strip_of_nat (n : nat) : strip (of_nat n) = of_nat n.
Proof. apply strip_nospace. apply digits_of_uint. Qed.

(** The attributes of a link entered by hand. *)
Definition custom_link (bw : Z) : attrs :=
  [("bandwidth", VInt bw); ("mtu", VInt 1500); ("up", VBool true);
   ("link_type", VStr "ethernet")].

End RoundFacts.

(** X18.  A round of the connection loop of [create_custom_topology]
    never raises, and ends the loop only on [done].  For a connection
    between two entered nodes not yet linked it adds one link and no
    node: with bandwidth 1000 when the bandwidth typed is not a digit
    string, with the number typed when it is a decimal number of at most
    4300 digits, and with the value of the digits when it is any string
    of at most 4300 decimal digits; a digit string [int] cannot read (a
    superscript digit, or more than 4300 digits) leaves the graph as it
    was and is answered with the error message. *)
Theorem X18_connection_round_outcomes (nodes : list string) (G : Graph.t)
    (connection bandwidth : string) :
  let c := PyStr.strip connection in
  let node1 := PyStr.strip (PyStr.before "-" c) in
  let node2 := PyStr.strip (PyStr.after "-" c) in
  let round := Main.connection_round nodes G connection bandwidth in
  (exists msgs signal,
     snd round = (msgs, Ok signal)
     /\ (signal = Main.Break <-> PyStr.lower c = "done")
     /\ (signal = Main.Break -> fst round = G /\ msgs = []))
  /\ (String.eqb (PyStr.lower c) "done" = false ->
      PyStr.contains "-" c = true ->
      mem node1 nodes = true -> mem node2 nodes = true ->
      Graph.has_edge G node1 node2 = false ->
      (Main.isdigit (PyStr.strip bandwidth) = false ->
       round = (Graph.add_edge G node1 node2 (RoundFacts.custom_link 1000),
                ([Main.MsgAdded node1 node2], Ok Main.Continue)))
      /\ (forall n, PyStr.strip bandwidth = PyStr.of_nat n ->
          String.length (PyStr.of_nat n) <= 4300 ->
          round = (Graph.add_edge G node1 node2
                     (RoundFacts.custom_link (Z.of_nat n)),
                   ([Main.MsgAdded node1 node2], Ok Main.Continue)))
      /\ (Main.isdigit (PyStr.strip bandwidth) = true ->
          Main.all_chars RoundFacts.ascii_digit (PyStr.strip bandwidth) = true ->
          String.length (PyStr.strip bandwidth) <= 4300 ->
          exists bw,
            Main.decimal_digits 0 (PyStr.strip bandwidth) = Ok bw
            /\ round = (Graph.add_edge G node1 node2 (RoundFacts.custom_link bw),
                        ([Main.MsgAdded node1 node2], Ok Main.Continue)))
      /\ (Main.isdigit (PyStr.strip bandwidth) = true ->
          Main.all_chars RoundFacts.ascii_digit (PyStr.strip bandwidth) = false ->
          round = (G, ([Main.MsgErrorAdding ValueError], Ok Main.Continue)))
      /\ (Main.isdigit (PyStr.strip bandwidth) = true ->
          4300 < String.length (PyStr.strip bandwidth) ->
          round = (G, ([Main.MsgErrorAdding ValueError], Ok Main.Continue)))
      /\ (Graph.wf G -> In node1 (Graph.nodes G) -> In node2 (Graph.nodes G) ->
          forall bw,
            let G' := Graph.add_edge G node1 node2 (RoundFacts.custom_link bw) in
            Graph.wf G'
            /\ Graph.nodes G' = Graph.nodes G
            /\ Graph.number_of_edges G' = S (Graph.number_of_edges G)
            /\ Graph.get_edge_data G' node1 node2
               = Some (RoundFacts.custom_link bw))).
Proof.
  intros c node1 node2 round. split.
  - subst round. unfold Main.connection_round. fold c.
    destruct (String.eqb (PyStr.lower c) "done") eqn:Ed.
    { apply String.eqb_eq in Ed. exists [], Main.Break. simpl. tauto. }
    apply String.eqb_neq in Ed.
    assert (Hc : forall (g : Graph.t) (m : Main.msg),
               exists msgs signal,
                 snd (g, Main.rbind (Main.say m) (fun _ => Main.ret Main.Continue))
                 = (msgs, Ok signal)
                 /\ (signal = Main.Break <-> PyStr.lower c = "done")
                 /\ (signal = Main.Break ->
                     fst (g, Main.rbind (Main.say m) (fun _ => Main.ret Main.Continue)) = G
                     /\ msgs = [])).
    { intros g m. exists [m], Main.Continue. simpl.
      split; [reflexivity|]. split; [split; [discriminate | contradiction]|].
      discriminate. }
    destruct (negb (PyStr.contains "-" c)); [apply Hc|].
    destruct (PyStr.unpack2 _) as [[n1 n2]|e]; [|apply Hc].
    destruct (negb (mem _ nodes) || negb (mem _ nodes)); [apply Hc|].
    destruct (Graph.has_edge G _ _); [apply Hc|].
    destruct (if Main.isdigit _ then _ else _) as [bw|e]; apply Hc.
  - intros Hdone Hdash H1 H2 Hedge.
    assert (Hround : round
              = match (if Main.isdigit (PyStr.strip bandwidth)
                       then Main.int_digits 0 (PyStr.strip bandwidth)
                       else Ok 1000%Z) with
                | Raise e => (G, ([Main.MsgErrorAdding e], Ok Main.Continue))
                | Ok bw => (Graph.add_edge G node1 node2 (RoundFacts.custom_link bw),
                            ([Main.MsgAdded node1 node2], Ok Main.Continue))
                end).
    { subst round. unfold Main.connection_round. fold c.
      rewrite Hdone, Hdash. simpl.
      rewrite (PyStrFacts.unpack2_split1 _ _ Hdash).
      fold node1. fold node2. rewrite H1, H2, Hedge. simpl.
      destruct (if Main.isdigit _ then _ else _); reflexivity. }
    split; [|split; [|split; [|split; [|split]]]].
    + intros Hd. rewrite Hround, Hd. reflexivity.
    + intros n Hn Hlen. rewrite Hround, Hn, RoundFacts.isdigit_of_nat,
        (RoundFacts.int_digits_of_nat _ Hlen). reflexivity.
    + intros Hd Hgood Hlen.
      destruct (RoundFacts.decimal_digits_total _ 0%Z Hgood) as [bw Hbw].
      exists bw. split; [exact Hbw|].
      rewrite Hround, Hd, (RoundFacts.int_digits_short _ _ Hlen), Hbw.
      reflexivity.
    + intros Hd Hbad. rewrite Hround, Hd, (RoundFacts.int_digits_fails _ _ Hbad).
      reflexivity.
    + intros Hd Hlong. rewrite Hround, Hd, (RoundFacts.int_digits_long _ _ Hlong).
      reflexivity.
    + intros Hwf Hn1 Hn2 bw G'. subst G'.
      split; [apply GraphFacts.wf_add_edge; exact Hwf|]. split; [|split].
      * rewrite GraphFacts.nodes_add_edge, !GraphFacts.nodes_ensure_node.
        assert (E1 : Graph.has_node G node1 = true)
          by (apply CopyFacts.has_node_In; exact Hn1).
        rewrite E1.
        assert (E2 : Graph.has_node (Graph.ensure_node G node1) node2 = true).
        { apply CopyFacts.has_node_In. apply GraphFacts.in_nodes_ensure_node. auto. }
        rewrite E2. reflexivity.
      * apply CountFacts.number_of_edges_add_edge_new; [exact Hwf|].
        intros Hin. apply GenFacts.has_edge_nbrs in Hin. congruence.
      * rewrite GraphFacts.get_edge_data_add_edge by apply (Graph.wf_keys G Hwf).
        rewrite !String.eqb_refl. simpl. unfold GraphFacts.edge_datadict.
        destruct (Graph.get_edge_data G node1 node2) as [d|] eqn:Eg; [|reflexivity].
        exfalso.
        assert (Graph.has_edge G node1 node2 = true)
          by (apply EdgeFacts.has_edge_get_edge_data; eauto).
        congruence.
Qed.

Lemma X18_connection_round_outcomes_witness :
  Main.connection_round ["a"; "b"]
    (Graph.add_node (Graph.add_node Graph.empty "a" []) "b" []) " a - b " "250"
  = (Graph.add_edge (Graph.add_node (Graph.add_node Graph.empty "a" []) "b" [])
       "a" "b" (RoundFacts.custom_link 250),
     ([Main.MsgAdded "a" "b"], Ok Main.Continue)).
Proof.
  apply (proj1 (proj2 (proj2 (X18_connection_round_outcomes ["a"; "b"]
           (Graph.add_node (Graph.add_node Graph.empty "a" []) "b" [])
           " a - b " "250")
           eq_refl eq_refl eq_refl eq_refl eq_refl)) 250).
  - reflexivity.
  - simpl. lia.
Defined.

(* ------------------------------------------------------------------ *)
(** ** The sections of a hybrid topology *)

Module HybridFacts.

Import Dict DictFacts Graph GraphFacts OpsFacts Builder.

(** The additions [nx.union] replays for one of its arguments. *)
Definition graph_ops (X : Graph.t) : list op :=
  map (fun nd => AddNode (fst nd) (snd nd)) (_node X)
  ++ map (fun e => AddEdge (fst (fst e)) (snd (fst e)) (snd e)) (edges X).

Lemma union_run (G H : Graph.t) (U : Graph.t) :
  Nx.union G H = Ok U -> U = run (graph_ops H) (run (graph_ops G) empty).
Proof.
  unfold Nx.union. destruct (existsb _ _); [discriminate|].
  intros E. injection E as <-. unfold graph_ops.
  rewrite !run_app, !run_map. reflexivity.
Qed.

Lemma union_raises (G H : Graph.t) (x : string) :
  In x (nodes G) -> In x (nodes H) -> Nx.union G H = Raise NetworkXError.
Proof.
  intros HG HH. unfold Nx.union.
  assert (E : existsb (fun n => mem n (nodes H)) (nodes G) = true).
  { apply existsb_exists. exists x. split; [exact HG | apply mem_In; exact HH]. }
  rewrite E. reflexivity.
Qed.

Lemma union_returns (G H : Graph.t) :
  (forall x, In x (nodes G) -> ~ In x (nodes H)) ->
  exists U, Nx.union G H = Ok U.
Proof.
  intros Hd. unfold Nx.union.
  destruct (existsb _ _) eqn:E; [|eauto].
  apply existsb_exists in E. destruct E as (x & HG & HH).
  apply mem_In in HH. exfalso. exact (Hd x HG HH).
Qed.

Lemma union_error (G H : Graph.t) (e : exn) :
  Nx.union G H = Raise e -> e = NetworkXError.
Proof.
  unfold Nx.union. destruct (existsb _ _); [|discriminate]. congruence.
Qed.

(** Every reported edge joins a node to one of its neighbours. *)
Lemma in_edges_from (adj : Dict.t (Dict.t attrs)) :
  forall seen e, In e (edges_from adj seen) ->
    exists nb vd, In (fst (fst e), nb) adj /\ In vd nb /\ snd (fst e) = fst vd.
Proof.
  induction adj as [|[n nb] rest IH]; intros seen e H; simpl in H; [destruct H|].
  apply in_app_iff in H. destruct H as [H|H].
  - apply in_map_iff in H. destruct H as (vd & <- & Hvd).
    apply filter_In in Hvd. exists nb, vd. simpl. tauto.
  - destruct (IH _ _ H) as (nb' & vd & H1 & H2 & H3).
    exists nb', vd. simpl. auto.
Qed.

Lemma edges_endpoints (X : Graph.t) (e : string * string * attrs) :
  wf X -> In e (edges X) ->
  In (fst (fst e)) (nodes X) /\ In (snd (fst e)) (nodes X).
Proof.
  intros Hwf He. destruct (in_edges_from _ _ _ He) as (nb & vd & H1 & H2 & H3).
  assert (Hnd : NoDup (keys (_adj X))).
  { rewrite (wf_keys X Hwf). apply (wf_nodes X Hwf). }
  apply (wf_closed X Hwf). rewrite H3.
  rewrite (ShapeFacts.in_adj_nbrs X _ nb Hnd H1). apply in_map. exact H2.
Qed.

Lemma in_graph_ops (X : Graph.t) (x : string) :
  wf X -> (In x (flat_map mentions (graph_ops X)) <-> In x (nodes X)).
Proof.
  intros Hwf. unfold graph_ops. rewrite flat_map_app, in_app_iff, !in_flat_map.
  split.
  - intros [(o & Ho & Hx)|(o & Ho & Hx)]; apply in_map_iff in Ho.
    + destruct Ho as (nd & <- & Hnd). simpl in Hx. destruct Hx as [<-|[]].
      unfold nodes, keys. apply in_map. exact Hnd.
    + destruct Ho as (e & <- & He). destruct (edges_endpoints X e Hwf He) as [H1 H2].
      simpl in Hx. destruct Hx as [<-|[<-|[]]]; assumption.
  - intros Hx. left. unfold nodes, keys in Hx. apply in_map_iff in Hx.
    destruct Hx as (nd & <- & Hnd). exists (AddNode (fst nd) (snd nd)).
    split; [apply in_map_iff; eauto | simpl; auto].
Qed.

(** The union holds the nodes of both graphs. *)
Lemma union_nodes (G H U : Graph.t) :
  wf G -> wf H -> Nx.union G H = Ok U ->
  wf U /\ forall x, In x (nodes U) <-> In x (nodes G) \/ In x (nodes H).
Proof.
  intros HG HH E. apply union_run in E. subst U. split.
  - apply wf_run, wf_run, wf_empty.
  - intros x. rewrite !in_nodes_run, (in_graph_ops G x HG), (in_graph_ops H x HH).
    simpl. tauto.
Qed.

Lemma wf_section (group_type : string) (ns : list string) :
  wf (hybrid_section group_type ns).
Proof.
  unfold hybrid_section.
  destruct (String.eqb group_type "core"); [apply MeshFacts.mesh_wf|].
  destruct (String.eqb group_type "distribution").
  { destruct (List.length ns <? 3) eqn:E.
    - unfold create_ring_topology. rewrite E. apply wf_empty.
    - apply Nat.ltb_ge in E. apply RingFacts.ring_wf. exact E. }
  destruct (String.eqb group_type "access").
  { destruct (List.length ns <? 2) eqn:E.
    - unfold create_star_topology. rewrite E. apply wf_empty.
    - apply Nat.ltb_ge in E. destruct ns as [|c [|o os]]; simpl in E; try lia.
      apply StarFacts.star_wf. discriminate. }
  destruct (List.length ns <? 2) eqn:E.
  - unfold create_bus_topology. rewrite E. apply wf_empty.
  - apply Nat.ltb_ge in E. apply BusFacts.bus_wf. exact E.
Qed.

Definition section_nodes (g : string * list string) : list string :=
  nodes (hybrid_section (fst g) (snd g)).

(** No section shares an id with what came before it. *)
Fixpoint apart (seen : list string) (groups : Dict.t (list string)) : Prop :=
  match groups with
  | [] => True
  | g :: rest =>
      (forall x, In x seen -> ~ In x (section_nodes g))
      /\ apart (seen ++ section_nodes g) rest
  end.

Lemma apart_members (groups : Dict.t (list string)) :
  forall seen seen', (forall x, In x seen' <-> In x seen) ->
                     apart seen groups -> apart seen' groups.
Proof.
  induction groups as [|g rest IH]; intros seen seen' Hiff H; [exact I|].
  destruct H as [H1 H2]. split.
  - intros x Hx. apply H1, Hiff, Hx.
  - apply (IH (seen ++ section_nodes g)); [|exact H2].
    intros x. rewrite !in_app_iff, Hiff. tauto.
Qed.

Lemma sections_error (groups : Dict.t (list string)) :
  forall G e, hybrid_sections groups G = Raise e -> e = NetworkXError.
Proof.
  induction groups as [|[k ns] rest IH]; intros G e; simpl; [discriminate|].
  destruct (Nx.union G (hybrid_section k ns)) as [U|e'] eqn:E; simpl.
  - apply IH.
  - intros H. injection H as <-. exact (union_error _ _ _ E).
Qed.

(** An id already in the graph that a later section names stops the
    construction. *)
Lemma sections_clash (groups : Dict.t (list string)) (x : string) :
  forall G, wf G -> In x (nodes G) ->
    (exists g, In g groups /\ In x (section_nodes g)) ->
    hybrid_sections groups G = Raise NetworkXError.
Proof.
  induction groups as [|[k ns] rest IH]; intros G Hwf Hx (g & Hg & Hs);
    [destruct Hg|].
  simpl. destruct (Nx.union G (hybrid_section k ns)) as [U|e] eqn:E; simpl.
  - destruct (union_nodes _ _ _ Hwf (wf_section k ns) E) as [HwfU HU].
    destruct Hg as [<-|Hg].
    + unfold section_nodes in Hs. simpl in Hs.
      rewrite (union_raises _ _ x Hx Hs) in E. discriminate.
    + apply (IH U HwfU); [apply HU; auto | eauto].
  - rewrite (union_error _ _ _ E). reflexivity.
Qed.

Lemma sections_apart (groups : Dict.t (list string)) :
  forall G, wf G -> apart (nodes G) groups ->
    exists G', hybrid_sections groups G = Ok G'
               /\ wf G'
               /\ forall x, In x (nodes G') <->
                            In x (nodes G)
                            \/ exists g, In g groups /\ In x (section_nodes g).
Proof.
  induction groups as [|[k ns] rest IH]; intros G Hwf Hap.
  - exists G. simpl. split; [reflexivity|]. split; [exact Hwf|].
    intros x. split; [auto|]. intros [H|(g & [] & _)]. exact H.
  - destruct Hap as [H1 H2]. simpl.
    destruct (union_returns G (hybrid_section k ns) H1) as [U E].
    rewrite E. simpl.
    destruct (union_nodes _ _ _ Hwf (wf_section k ns) E) as [HwfU HU].
    destruct (IH U HwfU) as (G' & HG' & Hwf' & Hn').
    { apply (apart_members rest (nodes G ++ section_nodes (k, ns))); [|exact H2].
      intros x. rewrite in_app_iff. apply HU. }
    exists G'. split; [exact HG'|]. split; [exact Hwf'|].
    intros x. rewrite Hn', HU. split.
    + intros [[H|H]|(g & Hg & Hs)]; auto.
      * right. exists (k, ns). auto.
      * right. exists g. auto.
    + intros [H|(g & [<-|Hg] & Hs)]; auto.
      right. exists g. auto.
Qed.

Lemma nodes_fold_add_edge {A : Type} (f : Graph.t -> A -> Graph.t) (xs : list A) :
  (forall g a x, In x (nodes g) -> In x (nodes (f g a))) ->
  forall g x, In x (nodes g) -> In x (nodes (fold_left f xs g)).
Proof.
  intros Hf. induction xs as [|a xs IH]; intros g x Hx; simpl; [exact Hx|].
  apply IH, Hf, Hx.
Qed.

(** The interconnection step only adds to the graph of the sections. *)
Lemma hybrid_returns (groups : Dict.t (list string)) (G : Graph.t) :
  hybrid_sections groups empty = Ok G ->
  exists G', create_hybrid_topology groups = Ok G'
             /\ forall x, In x (nodes G) -> In x (nodes G').
Proof.
  intros E. unfold create_hybrid_topology. rewrite E. simpl.
  eexists. split; [reflexivity|]. intros x Hx.
  assert (Hadd : forall (l : attrs) (xs : list string) g u y,
             In y (nodes g) ->
             In y (nodes (fold_left (fun g' v => add_edge g' u v l) xs g))).
  { intros l xs g u y. apply nodes_fold_add_edge.
    intros g' a z Hz. apply in_nodes_add_edge. auto. }
  assert (Hadd' : forall (l : attrs) (xs : list string) g u y,
             In y (nodes g) ->
             In y (nodes (fold_left (fun g' v => add_edge g' v u l) xs g))).
  { intros l xs g u y. apply nodes_fold_add_edge.
    intros g' a z Hz. apply in_nodes_add_edge. auto. }
  destruct (get "distribution" groups) as [dist|];
    destruct (get "core" groups) as [core|];
    destruct (get "access" groups) as [access|];
    repeat (apply nodes_fold_add_edge; [intros; auto|]); auto.
Qed.

(** Two sections that share an id. *)
Lemma sections_clash_pair (g1 g2 : string * list string)
    (mid post : Dict.t (list string)) (x : string) :
  In x (section_nodes g1) -> In x (section_nodes g2) ->
  forall pre G, wf G ->
    hybrid_sections (pre ++ g1 :: mid ++ g2 :: post) G = Raise NetworkXError.
Proof.
  intros H1 H2.
  assert (Hstep : forall k ns rest G,
             wf G ->
             (forall U, wf U ->
                        (forall y, In y (nodes U) <->
                                   In y (nodes G) \/ In y (section_nodes (k, ns))) ->
                        hybrid_sections rest U = Raise NetworkXError) ->
             hybrid_sections ((k, ns) :: rest) G = Raise NetworkXError).
  { intros k ns rest G Hwf Hrest. simpl.
    destruct (Nx.union G (hybrid_section k ns)) as [U|e] eqn:E; simpl.
    - destruct (union_nodes _ _ _ Hwf (wf_section k ns) E) as [HwfU HU].
      apply Hrest; [exact HwfU | exact HU].
    - rewrite (union_error _ _ _ E). reflexivity. }
  induction pre as [|[k ns] pre IH]; intros G Hwf.
  - destruct g1 as [k1 ns1]. simpl app. apply Hstep; [exact Hwf|].
    intros U HwfU HU. apply (sections_clash _ x U HwfU).
    + apply HU. auto.
    + exists g2. split; [apply in_app_iff; simpl; auto | exact H2].
  - simpl app. apply Hstep; [exact Hwf|]. intros U HwfU _. apply IH. exact HwfU.
Qed.

End HybridFacts.

(** X19.  The groups of a hybrid topology must not share ids.  When the
    sections built for two groups have a node in common the construction
    raises the error of [nx.union]; when no section shares a node with
    the sections before it the construction returns a graph that holds
    the nodes of every section.  No other exception is raised. *)
Theorem X19_hybrid_groups_must_not_share_ids (node_groups : Dict.t (list string)) :
  (forall pre g1 mid g2 post x,
     node_groups = pre ++ g1 :: mid ++ g2 :: post ->
     In x (HybridFacts.section_nodes g1) ->
     In x (HybridFacts.section_nodes g2) ->
     Builder.create_hybrid_topology node_groups = Raise NetworkXError)
  /\ (HybridFacts.apart [] node_groups ->
      exists G,
        Builder.create_hybrid_topology node_groups = Ok G
        /\ forall g x, In g node_groups -> In x (HybridFacts.section_nodes g) ->
                       In x (Graph.nodes G))
  /\ (forall e, Builder.create_hybrid_topology node_groups = Raise e ->
                e = NetworkXError).
Proof.
  split; [|split].
  - intros pre g1 mid g2 post x -> H1 H2. unfold Builder.create_hybrid_topology.
    rewrite (HybridFacts.sections_clash_pair g1 g2 mid post x H1 H2 pre Graph.empty
               GraphFacts.wf_empty).
    reflexivity.
  - intros Hap.
    destruct (HybridFacts.sections_apart node_groups Graph.empty GraphFacts.wf_empty Hap)
      as (G & HG & _ & Hn).
    destruct (HybridFacts.hybrid_returns node_groups G HG) as (G' & HG' & Hsub).
    exists G'. split; [exact HG'|]. intros g x Hg Hx. apply Hsub, Hn. eauto.
  - intros e. unfold Builder.create_hybrid_topology.
    destruct (Builder.hybrid_sections node_groups Graph.empty) as [G|e'] eqn:E; simpl.
    + discriminate.
    + intros H. injection H as <-. exact (HybridFacts.sections_error _ _ _ E).
Qed.

Lemma X19_hybrid_groups_must_not_share_ids_witness :
  Builder.create_hybrid_topology
    [("core", ["r1"; "r2"]); ("access", ["sw"; "r1"])]
  = Raise NetworkXError.
Proof.
  apply (proj1 (X19_hybrid_groups_must_not_share_ids
                  [("core", ["r1"; "r2"]); ("access", ["sw"; "r1"])])
           [] ("core", ["r1"; "r2"]) [] ("access", ["sw"; "r1"]) [] "r1").
  - reflexivity.
  - vm_compute. auto.
  - vm_compute. auto.
Defined.

(* ------------------------------------------------------------------ *)
(** ** The partial mesh *)

Module PartialMesh.

Import Dict DictFacts Graph GraphFacts OpsFacts Dispatch.

(** What [random.sample] promises for a population without repeats:
    that many members of it, no two the same. *)
Definition fair (sample : nat -> list string -> nat -> list string) : Prop :=
  forall i population k,
    NoDup population -> k <= List.length population ->
    NoDup (sample i population k)
    /\ List.length (sample i population k) = k
    /\ incl (sample i population k) population.

Definition random_link (choice : nat -> list Z -> Z) (c : nat) : attrs :=
  Builder.link (choice c [100; 1000; 10000]%Z) 1500 "ethernet".

Section Partial.

Variable sample : nat -> list string -> nat -> list string.
Variable choice : nat -> list Z -> Z.
Hypothesis sample_fair : fair sample.

Variable ns : list string.
Hypothesis distinct : NoDup ns.

Let n := List.length ns.
Let k := Nat.min 3 (n - 1).

(** What holds of the graph all along the construction. *)
Record inv (G : Graph.t) : Prop := mkInv {
  inv_wf : wf G;
  inv_nodes : forall x, In x (nodes G) <-> In x ns;
  inv_loop : forall x y, In y (nbrs G x) -> x <> y;
  inv_data : forall x y a, get_edge_data G x y = Some a ->
                           exists c, a = random_link choice c
}.

Definition start : Graph.t :=
  fold_left (fun g node => add_node g node [("device_type", VStr "router")])
    ns empty.

Lemma start_run :
  start = run (map (fun node => AddNode node [("device_type", VStr "router")]) ns) empty.
Proof. unfold start. rewrite run_map. reflexivity. Qed.

Lemma start_no_nbrs (x y : string) : ~ In y (nbrs start x).
Proof.
  rewrite start_run, GenFacts.in_nbrs_built. intros H.
  apply existsb_exists in H. destruct H as (o & Ho & Hl).
  apply in_map_iff in Ho. destruct Ho as (z & <- & _). discriminate.
Qed.

Lemma inv_start : inv start.
Proof.
  split.
  - rewrite start_run. apply wf_run, wf_empty.
  - intros x. rewrite start_run, GenFacts.in_nodes_built, in_flat_map. split.
    + intros (o & Ho & Hx). apply in_map_iff in Ho. destruct Ho as (z & <- & Hz).
      simpl in Hx. destruct Hx as [<-|[]]. exact Hz.
    + intros Hx. exists (AddNode x [("device_type", VStr "router")]).
      split; [apply in_map_iff; exists x; auto | simpl; auto].
  - intros x y H. exfalso. exact (start_no_nbrs x y H).
  - intros x y a H. exfalso. apply (start_no_nbrs x y). apply in_nbrs. eauto.
Qed.

(** One target. *)
Lemma connect_one (node target : string) (st : Graph.t * nat) :
  inv (fst st) -> In node ns -> In target ns -> node <> target ->
  let st' := connect_targets choice node [target] st in
  inv (fst st')
  /\ (forall x y, In y (nbrs (fst st) x) -> In y (nbrs (fst st') x))
  /\ In target (nbrs (fst st') node)
  /\ number_of_edges (fst st') <= S (number_of_edges (fst st)).
Proof.
  intros [Hwf Hn Hl Hd] Hnode Htarget Hne. simpl.
  destruct (has_edge (fst st) node target) eqn:E.
  - split; [split; assumption|]. split; [auto|].
    split; [apply GenFacts.has_edge_nbrs; exact E | lia].
  - simpl.
    assert (Hk : keys (_adj (fst st)) = nodes (fst st)) by apply (wf_keys _ Hwf).
    assert (Hnew : ~ In target (nbrs (fst st) node)).
    { intros H. apply GenFacts.has_edge_nbrs in H. congruence. }
    split; [split|split; [|split]].
    + apply wf_add_edge. exact Hwf.
    + intros x. rewrite in_nodes_add_edge, Hn. split; [|auto].
      intros [->|[->|H]]; assumption.
    + intros x y H. apply in_nbrs_add_edge in H; [|exact Hk].
      destruct H as [H|[[-> ->]|[-> ->]]]; [apply Hl; exact H | exact Hne | auto].
    + intros x y a. rewrite get_edge_data_add_edge by exact Hk.
      destruct (_ || _).
      * intros H. injection H as <-. exists (snd st).
        unfold edge_datadict.
        destruct (get_edge_data (fst st) node target) as [d|] eqn:Eg; [|reflexivity].
        exfalso. apply Hnew. apply in_nbrs. eauto.
      * apply Hd.
    + intros x y H. apply in_nbrs_add_edge; [exact Hk | auto].
    + apply in_nbrs_add_edge; [exact Hk | auto].
    + rewrite CountFacts.number_of_edges_add_edge_new by assumption. lia.
Qed.

Lemma connect_targets_cons (node t : string) (ts : list string) (st : Graph.t * nat) :
  connect_targets choice node (t :: ts) st
  = connect_targets choice node ts (connect_targets choice node [t] st).
Proof. reflexivity. Qed.

(** The targets of one node. *)
Lemma connect_all (node : string) (targets : list string) :
  In node ns -> incl targets ns -> ~ In node targets ->
  forall st, inv (fst st) ->
    let st' := connect_targets choice node targets st in
    inv (fst st')
    /\ (forall x y, In y (nbrs (fst st) x) -> In y (nbrs (fst st') x))
    /\ incl targets (nbrs (fst st') node)
    /\ number_of_edges (fst st')
       <= number_of_edges (fst st) + List.length targets.
Proof.
  intros Hnode. induction targets as [|t ts IH]; intros Hincl Hout st Hinv.
  - simpl. split; [exact Hinv|]. split; [auto|]. split; [intros x []|lia].
  - rewrite connect_targets_cons.
    destruct (connect_one node t st Hinv Hnode) as (H1 & H2 & H3 & H4).
    { apply Hincl. simpl. auto. }
    { intros ->. apply Hout. simpl. auto. }
    destruct (IH (fun x Hx => Hincl x (or_intror Hx))
                 (fun Hx => Hout (or_intror Hx))
                 (connect_targets choice node [t] st) H1) as (I1 & I2 & I3 & I4).
    split; [exact I1|]. split; [auto|]. split.
    + intros x [<-|Hx]; [apply I2; exact H3 | apply I3; exact Hx].
    + simpl List.length. lia.
Qed.

Lemma population (node : string) :
  In node ns ->
  let pop := filter (fun x => negb (String.eqb x node)) ns in
  NoDup pop /\ k <= List.length pop /\ incl pop ns /\ ~ In node pop.
Proof.
  intros Hnode pop. subst pop.
  pose proof (MeshFacts.length_filter_neq node ns distinct Hnode) as Hlen.
  split; [apply NoDup_filter; exact distinct|].
  split; [unfold k, n; lia|]. split.
  - intros x Hx. apply filter_In in Hx. tauto.
  - intros Hx. apply filter_In in Hx. destruct Hx as [_ Hx].
    rewrite String.eqb_refl in Hx. discriminate.
Qed.

(** The loop over the nodes. *)
Lemma partial_loop_spec (todo : list string) :
  incl todo ns ->
  forall i st, inv (fst st) ->
  exists st',
    partial_loop sample choice i ns todo st = Ok st'
    /\ inv (fst st')
    /\ (forall x y, In y (nbrs (fst st) x) -> In y (nbrs (fst st') x))
    /\ (forall v, In v todo -> k <= List.length (nbrs (fst st') v))
    /\ number_of_edges (fst st')
       <= number_of_edges (fst st) + k * List.length todo.
Proof.
  induction todo as [|node rest IH]; intros Hincl i st Hinv.
  - exists st. simpl. split; [reflexivity|]. split; [exact Hinv|].
    split; [auto|]. split; [intros v []|lia].
  - assert (Hnode : In node ns) by (apply Hincl; simpl; auto).
    destruct (population node Hnode) as (Hnd & Hk & Hpop & Hout).
    destruct (sample_fair i _ k Hnd Hk) as (Snd & Slen & Sincl).
    cbn [partial_loop]. unfold random_sample. fold n. fold k.
    apply Nat.ltb_ge in Hk as Hk'. rewrite Hk'. simpl.
    set (targets := sample i (filter (fun x => negb (String.eqb x node)) ns) k) in *.
    destruct (connect_all node targets Hnode) with (st := st)
      as (C1 & C2 & C3 & C4).
    { intros x Hx. apply Hpop, Sincl, Hx. }
    { intros Hx. apply Hout, Sincl, Hx. }
    { exact Hinv. }
    destruct (IH (fun x Hx => Hincl x (or_intror Hx)) (S i)
                 (connect_targets choice node targets st) C1)
      as (st' & E & I1 & I2 & I3 & I4).
    exists st'. split; [exact E|]. split; [exact I1|]. split; [auto|]. split.
    + intros v [<-|Hv]; [|apply I3; exact Hv].
      rewrite <- Slen. apply NoDup_incl_length; [exact Snd|].
      intros x Hx. apply I2, C3, Hx.
    + simpl List.length. rewrite Slen in C4. lia.
Qed.

Lemma start_edges : number_of_edges start = 0.
Proof.
  rewrite CountFacts.number_of_edges_sum. unfold CountFacts.degree_sum.
  assert (H : list_sum (values (degrees start)) = 0).
  { assert (E : list_sum (values (degrees start))
                 = list_sum (map (degree start) (nodes start))).
    { unfold degrees, values. rewrite map_map. reflexivity. }
    rewrite E, (list_sum_const (degree start) 0 (nodes start)); [lia|].
    intros x _. rewrite degree_no_loop by apply start_no_nbrs.
    destruct (nbrs start x) as [|y l] eqn:En; [reflexivity|].
    exfalso. apply (start_no_nbrs x y). rewrite En. simpl. auto. }
  rewrite H. reflexivity.
Qed.

(** The partial mesh of distinct ids. *)
Lemma partial_mesh_spec :
  exists G,
    create_mesh_topology sample choice ns true = Ok G
    /\ inv G
    /\ (forall v, In v ns -> k <= degree G v)
    /\ number_of_edges G <= k * n.
Proof.
  destruct (partial_loop_spec ns (fun x Hx => Hx) 0 (start, 0) inv_start)
    as (st & E & Hinv & _ & Hdeg & Hedges).
  exists (fst st). unfold create_mesh_topology. fold start. rewrite E. simpl.
  split; [reflexivity|]. split; [exact Hinv|]. split.
  - intros v Hv. rewrite degree_no_loop; [apply Hdeg; exact Hv|].
    intros H. exact (inv_loop _ Hinv v v H eq_refl).
  - simpl in Hedges. rewrite start_edges in Hedges. exact Hedges.
Qed.

(** With four nodes or fewer every node is linked to every other. *)
Lemma small_complete (G : Graph.t) :
  n <= 4 -> inv G -> (forall v, In v ns -> k <= degree G v) ->
  forall x y, In y (nbrs G x) <-> In x ns /\ In y ns /\ x <> y.
Proof.
  intros Hn Hinv Hdeg x y.
  pose proof (inv_wf _ Hinv) as Hwf. split.
  - intros H. pose proof (wf_closed G Hwf x y H) as [Hx Hy].
    apply (inv_nodes _ Hinv) in Hx, Hy. split; [exact Hx|]. split; [exact Hy|].
    apply (inv_loop _ Hinv x y H).
  - intros (Hx & Hy & Hne).
    assert (Hsub : incl (nbrs G x) (filter (fun z => negb (String.eqb z x)) ns)).
    { intros z Hz. apply filter_In. split.
      - apply (inv_nodes _ Hinv). apply (wf_closed G Hwf x z Hz).
      - apply negb_true_iff, String.eqb_neq. intros ->.
        exact (inv_loop _ Hinv x x Hz eq_refl). }
    apply (NoDup_length_incl (wf_nbrs G Hwf x)) in Hsub.
    + apply Hsub. apply filter_In. split; [exact Hy|].
      apply negb_true_iff, String.eqb_neq. congruence.
    + pose proof (MeshFacts.length_filter_neq x ns distinct Hx) as Hlen.
      specialize (Hdeg x Hx). rewrite degree_no_loop in Hdeg.
      * unfold k, n in *. lia.
      * intros H. exact (inv_loop _ Hinv x x H eq_refl).
Qed.

End Partial.

End PartialMesh.

(** X20.  The partial mesh, whatever [random.sample] and
    [random.choice] return.  For distinct ids the construction returns a
    graph on these ids without self-loops, in which every node has at
    least [min(3, n - 1)] links, with at most that many links per node
    in all, each carrying a bandwidth drawn by [random.choice]; with four
    ids or fewer it links every id to every other and is connected.  An
    id with too few other ids to draw from (a repeated id in a short
    list) makes [random.sample] raise. *)
Theorem X20_partial_mesh (sample : nat -> list string -> nat -> list string)
    (choice : nat -> list Z -> Z) (nodes : list string) :
  let n := List.length nodes in
  let k := Nat.min 3 (n - 1) in
  (PartialMesh.fair sample -> NoDup nodes ->
   exists G,
     Dispatch.create_mesh_topology sample choice nodes true = Ok G
     /\ Graph.wf G
     /\ (forall x, In x (Graph.nodes G) <-> In x nodes)
     /\ (forall x y, Graph.has_edge G x y = true ->
                     x <> y /\ In x nodes /\ In y nodes)
     /\ (forall v, In v nodes -> k <= Graph.degree G v)
     /\ Graph.number_of_edges G <= k * n
     /\ (forall x y a, Graph.get_edge_data G x y = Some a ->
           exists c, a = Builder.link (choice c [100; 1000; 10000]%Z) 1500 "ethernet")
     /\ (n <= 4 ->
         (forall x y, Graph.has_edge G x y = true <->
                      In x nodes /\ In y nodes /\ x <> y)
         /\ (nodes <> [] -> Nx.is_connected G = Ok true)))
  /\ ((exists node, In node nodes
         /\ List.length (filter (fun x => negb (String.eqb x node)) nodes) < k) ->
      Dispatch.create_mesh_topology sample choice nodes true = Raise ValueError).
Proof.
  intros n k. split.
  - intros Hfair Hnd.
    destruct (PartialMesh.partial_mesh_spec sample choice Hfair nodes Hnd)
      as (G & HG & Hinv & Hdeg & Hedges).
    pose proof (PartialMesh.inv_wf _ _ _ Hinv) as Hwf.
    pose proof (PartialMesh.inv_nodes _ _ _ Hinv) as Hn.
    exists G. split; [exact HG|]. split; [exact Hwf|]. split; [exact Hn|]. split.
    { intros x y H. apply GenFacts.has_edge_nbrs in H.
      split; [apply (PartialMesh.inv_loop _ _ _ Hinv x y H)|].
      destruct (Graph.wf_closed G Hwf x y H) as [Hx Hy]. split; apply Hn; assumption. }
    split; [exact Hdeg|]. split; [exact Hedges|]. split.
    { intros x y a H. destruct (PartialMesh.inv_data _ _ _ Hinv x y a H) as [c Hc].
      exists c. exact Hc. }
    intros Hsmall.
    pose proof (PartialMesh.small_complete choice nodes Hnd G Hsmall Hinv Hdeg) as Hall.
    split.
    { intros x y. rewrite GenFacts.has_edge_nbrs. apply Hall. }
    intros Hne. destruct nodes as [|s rest] eqn:E; [congruence|]. rewrite <- E in *.
    assert (Hs : In s nodes) by (rewrite E; simpl; auto).
    apply (GenFacts.connected_from G s Hwf); [apply Hn; exact Hs|].
    intros x Hx. apply Hn in Hx.
    destruct (string_dec s x) as [<-|Hsx]; [constructor|].
    eapply BfsFacts.reach_step; [constructor|]. apply Hall. auto.
  - intros (node & Hnode & Hshort). unfold Dispatch.create_mesh_topology.
    assert (Hloop : forall todo i st,
               In node todo ->
               Dispatch.partial_loop sample choice i nodes todo st = Raise ValueError).
    { induction todo as [|v rest IH]; intros i st Hin; [destruct Hin|].
      cbn [Dispatch.partial_loop]. unfold Dispatch.random_sample.
      fold n. fold k.
      destruct (List.length (filter (fun x => negb (String.eqb x v)) nodes) <? k) eqn:E;
        [reflexivity|].
      simpl. apply IH. destruct Hin as [->|Hin]; [|exact Hin].
      apply Nat.ltb_ge in E. lia. }
    rewrite (Hloop nodes 0 _ Hnode). reflexivity.
Qed.

Lemma X20_partial_mesh_witness :
  (exists G,
     Dispatch.create_mesh_topology (fun _ population k => firstn k population)
       (fun _ _ => 1000%Z) ["a"; "b"; "c"; "d"] true = Ok G
     /\ Nx.is_connected G = Ok true)
  /\ Dispatch.create_mesh_topology (fun _ population k => firstn k population)
       (fun _ _ => 1000%Z) ["a"; "a"; "b"] true = Raise ValueError.
Proof.
  split.
  - destruct (proj1 (X20_partial_mesh (fun _ population k => firstn k population)
                       (fun _ _ => 1000%Z) ["a"; "b"; "c"; "d"]))
      as (G & HG & _ & _ & _ & _ & _ & _ & Hsmall).
    + intros i population k Hnd Hk. split; [|split].
      * rewrite <- (firstn_skipn k population) in Hnd.
        apply NoDup_app_remove_r in Hnd. exact Hnd.
      * apply firstn_length_le. exact Hk.
      * intros x Hx. rewrite <- (firstn_skipn k population).
        apply in_app_iff. auto.
    + repeat constructor; simpl; intuition discriminate.
    + exists G. split; [exact HG|]. apply Hsmall; [simpl; lia | discriminate].
  - apply (proj2 (X20_partial_mesh (fun _ population k => firstn k population)
                    (fun _ _ => 1000%Z) ["a"; "a"; "b"])).
    exists "a". split; [simpl; auto | simpl; lia].
Defined.

(* ------------------------------------------------------------------ *)
(** ** Topologies built by type *)

Module DispatchFacts.

Import Dict DictFacts Graph GraphFacts Dispatch.

(** The default ids [node1], [node2], ... *)
Definition names (n : nat) : list string := map node_name (seq 0 n).

Lemma node_name_inj (i j : nat) : node_name i = node_name j -> i = j.
Proof.
  unfold node_name. intros H. apply SpineLeafFacts.append_inj_l in H.
  apply SpineLeafFacts.of_nat_inj in H. lia.
Qed.

Lemma nodup_names (n : nat) : NoDup (names n).
Proof.
  unfold names. apply SpineLeafFacts.nodup_map_inj.
  - intros i j. apply node_name_inj.
  - apply seq_NoDup.
Qed.

Lemma length_names (n : nat) : List.length (names n) = n.
Proof. unfold names. rewrite length_map, length_seq. reflexivity. Qed.

Lemma names_cons (n : nat) :
  names (S n) = node_name 0 :: map node_name (seq 1 n).
Proof. reflexivity. Qed.

(** The tree on distinct ids. *)
Lemma tree_of_names (ns : list string) (bf : Z) :
  NoDup ns -> ns <> [] -> (1 <= bf)%Z ->
  exists G,
    Builder.create_tree_topology (List.length ns) ns bf = Some G
    /\ wf G
    /\ nodes G = ns
    /\ S (number_of_edges G) = number_of_nodes G
    /\ Nx.is_connected G = Ok true.
Proof.
  intros Hnd Hne Hbf. destruct ns as [|root others]; [congruence|].
  destruct (TreeShape.tree_complete root others bf (List.length (root :: others))
              Hnd Hbf) as (G & HG & Hinv); [simpl; lia|].
  destruct Hinv as [Hwf Hnodes Hroot Hedges Hreach].
  rewrite app_nil_r in Hnodes.
  exists G. split; [exact HG|]. split; [exact Hwf|]. split; [exact Hnodes|].
  split; [exact Hedges|].
  apply (GenFacts.connected_from G root Hwf Hroot Hreach).
Qed.


(** The star, ring, tree and bus on the default ids. *)
Lemma by_type_default (sample : nat -> list string -> nat -> list string)
    (choice : nat -> list Z -> Z) (kw : kwargs) (t : TopologyType) :
  let n := Z.to_nat (kwarg (node_count kw) 5%Z) in
  3 <= n -> (1 <= kwarg (branching_factor kw) 2)%Z ->
  In t [STAR; RING; TREE; BUS] ->
  exists G,
    build_topology_by_type sample choice t None kw = Ok G
    /\ wf G
    /\ (forall x, In x (nodes G) <-> exists i, i < n /\ x = node_name i)
    /\ number_of_nodes G = n
    /\ number_of_edges G = match t with RING => n | _ => n - 1 end
    /\ Nx.is_connected G = Ok true.
Proof.
  intros n Hn Hbf Ht.
  assert (Hnames : map node_name
                     (Builder.range (kwarg (node_count kw) 5%Z))
                   = names n) by reflexivity.
  pose proof (nodup_names n) as Hnd.
  pose proof (length_names n) as Hlen.
  assert (Hin : forall x, In x (names n) <->
                          exists i, i < n /\ x = node_name i).
  { intros x. unfold names. rewrite in_map_iff. split.
    - intros (i & <- & Hi). apply in_seq in Hi. exists i. split; [lia | reflexivity].
    - intros (i & Hi & ->). exists i. split; [reflexivity | apply in_seq; lia]. }
  destruct (names n) as [|center others] eqn:E; [simpl in Hlen; lia|].
  assert (Hne : others <> []) by (destruct others; [simpl in Hlen; lia | discriminate]).
  rewrite <- E in *.
  simpl in Ht. destruct Ht as [<-|[<-|[<-|[<-|[]]]]].
  + exists (Builder.create_star_topology (names n)).
    split; [unfold build_topology_by_type; rewrite Hnames; reflexivity|].
    rewrite E in *. split; [apply StarFacts.star_wf; exact Hne|].
    split; [intros x; rewrite (StarFacts.star_nodes center others Hne); apply Hin|].
    split; [rewrite (StarFacts.star_node_count center others Hnd Hne);
            simpl in Hlen; lia|].
    split; [rewrite (StarFacts.star_edge_count center others Hnd Hne);
            simpl in Hlen; lia|].
    apply StarFacts.star_connected. exact Hne.
  + exists (Builder.create_ring_topology (names n)).
    split; [unfold build_topology_by_type; rewrite Hnames; reflexivity|].
    assert (H3 : 3 <= List.length (names n)) by lia.
    split; [apply RingFacts.ring_wf; exact H3|].
    split; [intros x; rewrite (RingFacts.ring_nodes _ H3); apply Hin|].
    split; [rewrite BfsFacts.number_of_nodes_length,
              (RingFacts.ring_node_count _ Hnd H3); exact Hlen|].
    split; [rewrite (RingFacts.ring_edge_count _ Hnd H3); exact Hlen|].
    apply RingFacts.ring_connected; assumption.
  + destruct (tree_of_names (names n)
                (kwarg (branching_factor kw) 2%Z) Hnd)
      as (G & HG & Hwf & Hnodes & Hedges & Hconn);
      [rewrite E; discriminate | exact Hbf|].
    exists G.
    split; [unfold build_topology_by_type, build_from_nodes;
            rewrite Hnames, HG; reflexivity|].
    split; [exact Hwf|].
    split; [intros x; rewrite Hnodes; apply Hin|].
    assert (Hcount : Graph.number_of_nodes G = n).
    { rewrite BfsFacts.number_of_nodes_length, Hnodes. exact Hlen. }
    split; [exact Hcount|]. split; [lia | exact Hconn].
  + exists (Builder.create_bus_topology (names n)).
    split; [unfold build_topology_by_type; rewrite Hnames; reflexivity|].
    assert (H2 : 2 <= List.length (names n)) by lia.
    split; [apply BusFacts.bus_wf; exact H2|].
    split; [intros x; rewrite (BusFacts.bus_nodes _ H2); apply Hin|].
    split; [rewrite (BusFacts.bus_node_count _ Hnd H2); exact Hlen|].
    split; [rewrite (BusFacts.bus_edge_count _ Hnd H2); lia|].
    apply BusFacts.bus_connected. exact H2.
Qed.

End DispatchFacts.

(** X21.  [build_topology_by_type] without a node list.  It names the
    nodes [node1 .. nodeN], five when no count is passed.  For three
    nodes or more the star, ring, tree and bus are connected graphs on
    these N nodes, with N edges for the ring and N - 1 for the others (the
    tree for a branching factor of one or more, two when none is passed).
    The spine-leaf fabric takes its counts from the keywords, two spines
    and four leaves when none is passed.  With a node list the spine-leaf
    type builds nothing: the result is the empty graph. *)
Theorem X21_build_topology_by_type
    (sample : nat -> list string -> nat -> list string)
    (choice : nat -> list Z -> Z) (kw : Dispatch.kwargs) :
  let n := Z.to_nat (Dispatch.kwarg (Dispatch.node_count kw) 5%Z) in
  let S := Z.to_nat (Dispatch.kwarg (Dispatch.spine_count kw) 2%Z) in
  let L := Z.to_nat (Dispatch.kwarg (Dispatch.leaf_count kw) 4%Z) in
  (3 <= n -> (1 <= Dispatch.kwarg (Dispatch.branching_factor kw) 2)%Z ->
   forall t, In t [Dispatch.STAR; Dispatch.RING; Dispatch.TREE; Dispatch.BUS] ->
     exists G,
       Dispatch.build_topology_by_type sample choice t None kw = Ok G
       /\ Graph.wf G
       /\ (forall x, In x (Graph.nodes G) <->
                     exists i, i < n /\ x = Dispatch.node_name i)
       /\ Graph.number_of_nodes G = n
       /\ Graph.number_of_edges G
          = match t with Dispatch.RING => n | _ => n - 1 end
       /\ Nx.is_connected G = Ok true)
  /\ (1 <= S -> 1 <= L ->
      exists G,
        Dispatch.build_topology_by_type sample choice Dispatch.SPINE_LEAF None kw
        = Ok G
        /\ Graph.wf G
        /\ Graph.number_of_nodes G = S + 3 * L
        /\ Nx.is_connected G = Ok true)
  /\ (forall nodes,
        Dispatch.build_topology_by_type sample choice Dispatch.SPINE_LEAF
          (Some nodes) kw
        = Ok Graph.empty).
Proof.
  intros n S L. split; [|split].
  - intros Hn Hbf t Ht.
    apply (DispatchFacts.by_type_default sample choice kw t Hn Hbf Ht).
  - intros HS HL. eexists. split; [reflexivity|].
    split; [apply SpineLeafFacts.sl_wf|].
    split; [apply FabricFacts.fabric_node_count|].
    apply FabricFacts.fabric_connected; assumption.
  - intros nodes. reflexivity.
Qed.

Lemma X21_build_topology_by_type_witness :
  exists G,
    Dispatch.build_topology_by_type (fun _ population k => firstn k population)
      (fun _ _ => 1000%Z) Dispatch.RING None Dispatch.no_kwargs = Ok G
    /\ Graph.number_of_nodes G = 5
    /\ Graph.number_of_edges G = 5
    /\ Nx.is_connected G = Ok true.
Proof.
  destruct (proj1 (X21_build_topology_by_type (fun _ population k => firstn k population)
                     (fun _ _ => 1000%Z) Dispatch.no_kwargs))
    with (t := Dispatch.RING) as (G & HG & _ & _ & Hn & He & Hc).
  - simpl. lia.
  - simpl. lia.
  - simpl. auto.
  - exists G. auto.
Defined.

(* ------------------------------------------------------------------ *)
(** ** Topologies of a predefined size *)

Module QuickFacts.

Import Dict DictFacts Graph GraphFacts Dispatch.

Definition known : list string :=
  ["star"; "ring"; "mesh"; "tree"; "spine_leaf"; "bus"; "hybrid"].

Lemma wf_fold {A : Type} (f : Graph.t -> A -> Graph.t) (xs : list A) :
  (forall g a, wf g -> wf (f g a)) ->
  forall g, wf g -> wf (fold_left f xs g).
Proof.
  intros Hf. induction xs as [|a xs IH]; intros g Hg; simpl; [exact Hg|].
  apply IH, Hf, Hg.
Qed.

Lemma sections_wf (groups : Dict.t (list string)) :
  forall G G', wf G -> Builder.hybrid_sections groups G = Ok G' -> wf G'.
Proof.
  induction groups as [|[k ns] rest IH]; intros G G' Hwf; simpl.
  - intros E. injection E as <-. exact Hwf.
  - destruct (Nx.union G (Builder.hybrid_section k ns)) as [U|e] eqn:E; simpl;
      [|discriminate].
    apply IH.
    apply (HybridFacts.union_nodes _ _ _ Hwf (HybridFacts.wf_section k ns) E).
Qed.

(** A hybrid topology is a consistent graph. *)
Lemma hybrid_wf (groups : Dict.t (list string)) (G : Graph.t) :
  Builder.create_hybrid_topology groups = Ok G -> wf G.
Proof.
  unfold Builder.create_hybrid_topology.
  destruct (Builder.hybrid_sections groups empty) as [G0|e] eqn:E; simpl;
    [|discriminate].
  pose proof (sections_wf groups empty G0 wf_empty E) as Hwf.
  intros H. injection H as <-.
  assert (Hadd : forall (l : attrs) (xs : list string) g u,
             wf g -> wf (fold_left (fun g' v => add_edge g' u v l) xs g)).
  { intros l xs g u. apply wf_fold. intros. apply wf_add_edge. assumption. }
  assert (Hadd' : forall (l : attrs) (xs : list string) g u,
             wf g -> wf (fold_left (fun g' v => add_edge g' v u l) xs g)).
  { intros l xs g u. apply wf_fold. intros. apply wf_add_edge. assumption. }
  destruct (get "distribution" groups) as [dist|];
    destruct (get "core" groups) as [core|];
    destruct (get "access" groups) as [access|];
    repeat (apply wf_fold; [intros; auto|]); auto.
Qed.

Lemma hybrid_default :
  exists G,
    Builder.create_hybrid_topology default_node_groups = Ok G
    /\ wf G
    /\ Nx.is_connected G = Ok true
    /\ number_of_nodes G = 9.
Proof.
  assert (Hc : match Builder.create_hybrid_topology default_node_groups with
               | Ok G => (c <- Nx.is_connected G ;; Ok (c, number_of_nodes G))
               | Raise e => Raise e
               end = Ok (true, 9)) by (vm_compute; reflexivity).
  destruct (Builder.create_hybrid_topology default_node_groups) as [G|e] eqn:E;
    [|discriminate].
  exists G. split; [reflexivity|]. split; [apply (hybrid_wf _ _ E)|].
  destruct (Nx.is_connected G) as [c|e]; simpl in Hc; [|discriminate].
  injection Hc as -> ->. auto.
Qed.

Section Quick.

Variable sample : nat -> list string -> nat -> list string.
Variable choice : nat -> list Z -> Z.
Hypothesis sample_fair : PartialMesh.fair sample.

(** What [quick_topology] builds once the size is looked up. *)
Definition pick (config : Z * Z * Z) (topology_name : string) : result Graph.t :=
  match get topology_name (topology_map config) with
  | None => Ok empty
  | Some (topo_type, kw) => build_topology_by_type sample choice topo_type None kw
  end.

Lemma pick_known (nc sc lc : Z) (name : string) :
  3 <= Z.to_nat nc -> 1 <= Z.to_nat sc -> 1 <= Z.to_nat lc ->
  In name known ->
  exists G,
    pick (nc, sc, lc) name = Ok G
    /\ wf G
    /\ nodes G <> []
    /\ (name <> "mesh" -> Nx.is_connected G = Ok true)
    /\ (In name ["star"; "ring"; "mesh"; "tree"; "bus"] ->
        number_of_nodes G = Z.to_nat nc).
Proof.
  intros Hn Hs Hl Hname.
  assert (Hconn : forall G, Nx.is_connected G = Ok true -> nodes G <> []).
  { intros G H. destruct (CutFacts.is_connected_nodes G true H) as (s & r & E).
    rewrite E. discriminate. }
  assert (Hfour : forall t kw,
             In t [STAR; RING; TREE; BUS] ->
             node_count kw = Some nc ->
             (1 <= kwarg (branching_factor kw) 2)%Z ->
             exists G,
               build_topology_by_type sample choice t None kw = Ok G
               /\ wf G /\ nodes G <> []
               /\ Nx.is_connected G = Ok true
               /\ number_of_nodes G = Z.to_nat nc).
  { intros t kw Ht Hnc Hbf.
    destruct (DispatchFacts.by_type_default sample choice kw t)
      as (G & HG & Hwf & _ & Hcount & _ & Hc);
      [rewrite Hnc; exact Hn | exact Hbf | exact Ht|].
    rewrite Hnc in Hcount. exists G. auto 10. }
  unfold known in Hname. simpl in Hname.
  destruct Hname as [<-|[<-|[<-|[<-|[<-|[<-|[<-|[]]]]]]]]; unfold pick; simpl get.
  - destruct (Hfour STAR (mkKwargs (Some nc) None None None None None))
      as (G & HG & Hwf & Hne & Hc & Hcount); [simpl; auto | reflexivity | simpl; lia|].
    exists G. auto 10.
  - destruct (Hfour RING (mkKwargs (Some nc) None None None None None))
      as (G & HG & Hwf & Hne & Hc & Hcount); [simpl; auto | reflexivity | simpl; lia|].
    exists G. auto 10.
  - pose proof (DispatchFacts.nodup_names (Z.to_nat nc)) as Hnd.
    destruct (PartialMesh.partial_mesh_spec sample choice sample_fair _ Hnd)
      as (G & HG & Hinv & _).
    exists G. split; [exact HG|].
    pose proof (PartialMesh.inv_wf _ _ _ Hinv) as Hwf.
    pose proof (PartialMesh.inv_nodes _ _ _ Hinv) as Hnodes.
    split; [exact Hwf|]. split.
    + intros E. assert (Hin : In (node_name 0) (nodes G)).
      { apply Hnodes. unfold DispatchFacts.names. apply in_map. apply in_seq. lia. }
      rewrite E in Hin. destruct Hin.
    + split; [congruence|]. intros _.
      rewrite (GenFacts.number_of_nodes_members G _ Hwf Hnd Hnodes).
      apply DispatchFacts.length_names.
  - destruct (Hfour TREE (mkKwargs (Some nc) None None None (Some 2%Z) None))
      as (G & HG & Hwf & Hne & Hc & Hcount); [simpl; auto | reflexivity | simpl; lia|].
    exists G. auto 10.
  - eexists. split; [reflexivity|]. split; [apply SpineLeafFacts.sl_wf|].
    assert (Hc : Nx.is_connected (Builder.create_spine_leaf_topology sc lc) = Ok true)
      by (apply FabricFacts.fabric_connected; lia).
    split; [apply Hconn; exact Hc|]. split; [intros _; exact Hc|].
    simpl. intros [H|[H|[H|[H|[H|[]]]]]]; discriminate.
  - destruct (Hfour BUS (mkKwargs (Some nc) None None None None None))
      as (G & HG & Hwf & Hne & Hc & Hcount); [simpl; auto | reflexivity | simpl; lia|].
    exists G. auto 10.
  - destruct hybrid_default as (G & HG & Hwf & Hc & _).
    exists G. split; [exact HG|]. split; [exact Hwf|].
    split; [apply Hconn; exact Hc|]. split; [intros _; exact Hc|].
    simpl. intros [H|[H|[H|[H|[H|[]]]]]]; discriminate.
Qed.

Lemma pick_unknown (config : Z * Z * Z) (name : string) :
  ~ In name known -> pick config name = Ok empty.
Proof.
  intros Hname. unfold pick, topology_map. cbn [get].
  repeat match goal with
         | |- context [String.eqb name ?s] =>
             let E := fresh "E" in
             destruct (String.eqb name s) eqn:E;
             [apply String.eqb_eq in E; exfalso; apply Hname; rewrite E;
              unfold known; simpl; tauto|]
         end.
  reflexivity.
Qed.

(** The size looked up: the node, spine and leaf counts. *)
Lemma size_cases (size name : string) :
  quick_topology sample choice name size
  = pick (if String.eqb size "small" then (4, 2, 2)
          else if String.eqb size "large" then (10, 3, 6)
          else (6, 2, 4))%Z name.
Proof.
  unfold quick_topology, pick, size_configs.
  cbn [get]. destruct (String.eqb size "small") eqn:E1; [reflexivity|].
  destruct (String.eqb size "medium") eqn:E2.
  - apply String.eqb_eq in E2. subst size. reflexivity.
  - destruct (String.eqb size "large"); reflexivity.
Qed.

End Quick.

End QuickFacts.

(** X22.  [quick_topology] never raises, whatever the name and the size
    (the partial mesh for any outcome of [random.sample] that respects
    its contract).  For the seven names of its table it returns a
    consistent graph with nodes, on which [add_topology_metrics]
    returns; the graph is connected for every name but [mesh]; the star,
    ring, mesh, tree and bus have 4 nodes for [small], 10 for [large] and
    6 for [medium] and for any other size.  For any other name it returns
    the empty graph, on which [add_topology_metrics] raises. *)
Theorem X22_quick_topology (sample : nat -> list string -> nat -> list string)
    (choice : nat -> list Z -> Z) (topology_name size : string) :
  PartialMesh.fair sample ->
  exists G,
    Dispatch.quick_topology sample choice topology_name size = Ok G
    /\ (In topology_name QuickFacts.known ->
        Graph.wf G
        /\ Graph.nodes G <> []
        /\ (exists metrics, Builder.add_topology_metrics G = Ok metrics)
        /\ (topology_name <> "mesh" -> Nx.is_connected G = Ok true)
        /\ (In topology_name ["star"; "ring"; "mesh"; "tree"; "bus"] ->
            Graph.number_of_nodes G
            = if String.eqb size "small" then 4
              else if String.eqb size "large" then 10 else 6))
    /\ (~ In topology_name QuickFacts.known ->
        G = Graph.empty
        /\ Builder.add_topology_metrics G = Raise NetworkXPointlessConcept).
Proof.
  intros Hfair. rewrite QuickFacts.size_cases.
  destruct (in_dec string_dec topology_name QuickFacts.known) as [Hin|Hout].
  - assert (Hpick : forall nc sc lc,
               3 <= Z.to_nat nc -> 1 <= Z.to_nat sc -> 1 <= Z.to_nat lc ->
               exists G,
                 QuickFacts.pick sample choice (nc, sc, lc) topology_name = Ok G
                 /\ (In topology_name QuickFacts.known ->
                     Graph.wf G
                     /\ Graph.nodes G <> []
                     /\ (exists metrics, Builder.add_topology_metrics G = Ok metrics)
                     /\ (topology_name <> "mesh" -> Nx.is_connected G = Ok true)
                     /\ (In topology_name ["star"; "ring"; "mesh"; "tree"; "bus"] ->
                         Graph.number_of_nodes G = Z.to_nat nc))
                 /\ (~ In topology_name QuickFacts.known ->
                     G = Graph.empty
                     /\ Builder.add_topology_metrics G
                        = Raise NetworkXPointlessConcept)).
    { intros nc sc lc Hn Hs Hl.
      destruct (QuickFacts.pick_known sample choice Hfair nc sc lc topology_name
                  Hn Hs Hl Hin) as (G & HG & Hwf & Hne & Hc & Hcount).
      exists G. split; [exact HG|]. split; [|contradiction].
      intros _. split; [exact Hwf|]. split; [exact Hne|]. split; [|auto].
      destruct (MetricsTotal.metrics_snapshot G Hwf Hne)
        as (dv & q & b & mx & mn & Hm & _). eauto. }
    destruct (String.eqb size "small"); [apply Hpick; simpl; lia|].
    destruct (String.eqb size "large"); apply Hpick; simpl; lia.
  - exists Graph.empty.
    split; [apply QuickFacts.pick_unknown; exact Hout|].
    split; [contradiction|]. intros _. split; reflexivity.
Qed.

Lemma X22_quick_topology_witness :
  exists G,
    Dispatch.quick_topology (fun _ population k => firstn k population)
      (fun _ _ => 1000%Z) "ring" "small" = Ok G
    /\ Graph.number_of_nodes G = 4
    /\ Nx.is_connected G = Ok true.
Proof.
  destruct (X22_quick_topology (fun _ population k => firstn k population)
              (fun _ _ => 1000%Z) "ring" "small") as (G & HG & Hknown & _).
  - intros i population k Hnd Hk. split; [|split].
    + rewrite <- (firstn_skipn k population) in Hnd.
      apply NoDup_app_remove_r in Hnd. exact Hnd.
    + apply firstn_length_le. exact Hk.
    + intros x Hx. rewrite <- (firstn_skipn k population).
      apply in_app_iff. auto.
  - destruct Hknown as (_ & _ & _ & Hc & Hn); [simpl; auto|].
    exists G. split; [exact HG|]. split.
    + apply Hn. simpl. auto.
    + apply Hc. discriminate.
Defined.

(* ------------------------------------------------------------------ *)
(** ** The comparison table *)

Module CompareFacts.

Import Dict DictFacts Graph GraphFacts Dispatch Compare.

Section Table.

Variable sample : nat -> list string -> nat -> list string.
Variable choice : nat -> list Z -> Z.
Hypothesis sample_fair : PartialMesh.fair sample.

(** The metrics of one topology of the table. *)
Definition measured (topo_name : string) : result (Dict.t value) :=
  G <- quick_topology sample choice topo_name "small" ;;
  Builder.add_topology_metrics G.

Lemma collect_cons (topo_name : string) (rest : list string) :
  collect sample choice (topo_name :: rest)
  = (metrics <- measured topo_name ;;
     results <- collect sample choice rest ;;
     Ok ((topo_name, metrics) :: results)).
Proof.
  unfold measured. cbn [collect].
  destruct (quick_topology sample choice topo_name "small"); reflexivity.
Qed.

(** The small mesh is the complete graph on four nodes, whatever is
    drawn. *)
Lemma small_mesh :
  exists G,
    quick_topology sample choice "mesh" "small" = Ok G
    /\ wf G
    /\ nodes G <> []
    /\ number_of_nodes G = 4
    /\ number_of_edges G = 6
    /\ list_sum (values (degrees G)) = 12
    /\ Nx.is_connected G = Ok true.
Proof.
  pose proof (DispatchFacts.nodup_names 4) as Hnd.
  destruct (PartialMesh.partial_mesh_spec sample choice sample_fair _ Hnd)
    as (G & HG & Hinv & Hdeg & _).
  pose proof (PartialMesh.inv_wf _ _ _ Hinv) as Hwf.
  pose proof (PartialMesh.inv_nodes _ _ _ Hinv) as Hnodes.
  assert (Hall : forall x y, In y (nbrs G x) <->
                   In x (DispatchFacts.names 4) /\ In y (DispatchFacts.names 4)
                   /\ x <> y).
  { apply (PartialMesh.small_complete choice _ Hnd G); [simpl; lia | exact Hinv|].
    exact Hdeg. }
  assert (Hthree : forall v, In v (DispatchFacts.names 4) -> degree G v = 3).
  { intros v Hv.
    rewrite (OpsFacts.degree_by_members G v
               (filter (fun y => negb (String.eqb y v)) (DispatchFacts.names 4))).
    - pose proof (MeshFacts.length_filter_neq v _ Hnd Hv) as Hlen.
      rewrite DispatchFacts.length_names in Hlen. lia.
    - exact Hwf.
    - apply NoDup_filter. exact Hnd.
    - intros y. rewrite Hall, filter_In, negb_true_iff, String.eqb_neq. split.
      + intros (_ & Hy & Hne). split; [exact Hy | congruence].
      + intros (Hy & Hne). repeat split; [exact Hv | exact Hy | congruence].
    - rewrite filter_In, String.eqb_refl. simpl. intros [_ H]. discriminate. }
  assert (Hsum : list_sum (values (degrees G)) = 12).
  { rewrite (GenFacts.degree_sum_members G _ Hwf Hnd Hnodes).
    rewrite (OpsFacts.list_sum_const (degree G) 3 _ Hthree).
    rewrite DispatchFacts.length_names. reflexivity. }
  assert (Hfirst : In (node_name 0) (DispatchFacts.names 4)) by (simpl; auto).
  exists G. split; [exact HG|]. split; [exact Hwf|]. split.
  { intros E. apply Hnodes in Hfirst. rewrite E in Hfirst. destruct Hfirst. }
  split.
  { rewrite (GenFacts.number_of_nodes_members G _ Hwf Hnd Hnodes).
    apply DispatchFacts.length_names. }
  split.
  { rewrite CountFacts.number_of_edges_sum. unfold CountFacts.degree_sum.
    rewrite Hsum. reflexivity. }
  split; [exact Hsum|].
  apply (GenFacts.connected_from G (node_name 0) Hwf); [apply Hnodes; exact Hfirst|].
  intros x Hx. apply Hnodes in Hx.
  destruct (string_dec (node_name 0) x) as [<-|Hne]; [constructor|].
  eapply BfsFacts.reach_step; [constructor|]. apply Hall. auto.
Qed.

(** The entries of the mesh a row is printed from. *)
Lemma measured_mesh :
  exists dv q mx mn,
    measured "mesh"
    = Ok [("node_count", VInt 4); ("edge_count", VInt 6);
          ("density", VFloat 1); ("diameter", dv);
          ("average_clustering", VFloat q); ("is_connected", VBool true);
          ("avg_degree", VFloat 3);
          ("max_degree", VInt (Z.of_nat mx)); ("min_degree", VInt (Z.of_nat mn))].
Proof.
  destruct small_mesh as (G & HG & Hwf & Hne & Hn & He & Hsum & Hc).
  destruct (MetricsTotal.metrics_snapshot G Hwf Hne)
    as (dv & q & b & mx & mn & Hm & Hb & _).
  rewrite Hc in Hb. injection Hb as <-.
  exists dv, q, mx, mn. unfold measured. rewrite HG. simpl. rewrite Hm.
  unfold Nx.density. rewrite Hn, He, Hsum. reflexivity.
Qed.

End Table.

End CompareFacts.

(** X23.  The comparison table does not depend on what is drawn for the
    partial mesh: [compare_topologies] runs to its end and prints, under
    the title and the column headings, the rows of the star, ring, mesh,
    tree, spine-leaf fabric and bus of the small size, all connected; the
    small mesh has the six links of the complete graph on its four
    nodes. *)
Theorem X23_comparison_table (sample : nat -> list string -> nat -> list string)
    (choice : nat -> list Z -> Z) :
  PartialMesh.fair sample ->
  Compare.compare_topologies sample choice
  = ([Compare.LineTitle; Compare.LineColumns; Compare.LineRule;
      Compare.LineRow "star" (VInt 4) (VInt 3) (VFloat (1 # 2)) true (VFloat (3 # 2));
      Compare.LineRow "ring" (VInt 4) (VInt 4) (VFloat (2 # 3)) true (VFloat 2);
      Compare.LineRow "mesh" (VInt 4) (VInt 6) (VFloat 1) true (VFloat 3);
      Compare.LineRow "tree" (VInt 4) (VInt 3) (VFloat (1 # 2)) true (VFloat (3 # 2));
      Compare.LineRow "spine_leaf" (VInt 8) (VInt 8) (VFloat (2 # 7)) true (VFloat 2);
      Compare.LineRow "bus" (VInt 4) (VInt 3) (VFloat (1 # 2)) true (VFloat (3 # 2))],
     Ok tt).
Proof.
  intros Hfair.
  destruct (CompareFacts.measured_mesh sample choice Hfair) as (dv & q & mx & mn & Hmesh).
  assert (Hstar : CompareFacts.measured sample choice "star"
                  = Ok [("node_count", VInt 4); ("edge_count", VInt 3);
                        ("density", VFloat (1 # 2)); ("diameter", VInt 2);
                        ("average_clustering", VFloat 0); ("is_connected", VBool true);
                        ("avg_degree", VFloat (3 # 2)); ("max_degree", VInt 3);
                        ("min_degree", VInt 1)]) by (vm_compute; reflexivity).
  assert (Hring : CompareFacts.measured sample choice "ring"
                  = Ok [("node_count", VInt 4); ("edge_count", VInt 4);
                        ("density", VFloat (2 # 3)); ("diameter", VInt 2);
                        ("average_clustering", VFloat 0); ("is_connected", VBool true);
                        ("avg_degree", VFloat 2); ("max_degree", VInt 2);
                        ("min_degree", VInt 2)]) by (vm_compute; reflexivity).
  assert (Htree : CompareFacts.measured sample choice "tree"
                  = Ok [("node_count", VInt 4); ("edge_count", VInt 3);
                        ("density", VFloat (1 # 2)); ("diameter", VInt 3);
                        ("average_clustering", VFloat 0); ("is_connected", VBool true);
                        ("avg_degree", VFloat (3 # 2)); ("max_degree", VInt 2);
                        ("min_degree", VInt 1)]) by (vm_compute; reflexivity).
  assert (Hfabric : CompareFacts.measured sample choice "spine_leaf"
                    = Ok [("node_count", VInt 8); ("edge_count", VInt 8);
                          ("density", VFloat (2 # 7)); ("diameter", VInt 4);
                          ("average_clustering", VFloat 0); ("is_connected", VBool true);
                          ("avg_degree", VFloat 2); ("max_degree", VInt 4);
                          ("min_degree", VInt 1)]) by (vm_compute; reflexivity).
  assert (Hbus : CompareFacts.measured sample choice "bus"
                 = Ok [("node_count", VInt 4); ("edge_count", VInt 3);
                       ("density", VFloat (1 # 2)); ("diameter", VInt 3);
                       ("average_clustering", VFloat 0); ("is_connected", VBool true);
                       ("avg_degree", VFloat (3 # 2)); ("max_degree", VInt 2);
                       ("min_degree", VInt 1)]) by (vm_compute; reflexivity).
  unfold Compare.compare_topologies.
  rewrite !CompareFacts.collect_cons, Hstar, Hring, Hmesh, Htree, Hfabric, Hbus.
  reflexivity.
Qed.

Lemma X23_comparison_table_witness :
  snd (Compare.compare_topologies (fun _ population k => firstn k population)
         (fun _ _ => 1000%Z)) = Ok tt.
Proof.
  rewrite (X23_comparison_table (fun _ population k => firstn k population)
             (fun _ _ => 1000%Z)); [reflexivity|].
  intros i population k Hnd Hk. split; [|split].
  - rewrite <- (firstn_skipn k population) in Hnd.
    apply NoDup_app_remove_r in Hnd. exact Hnd.
  - apply firstn_length_le. exact Hk.
  - intros x Hx. rewrite <- (firstn_skipn k population).
    apply in_app_iff. auto.
Defined.

(* ------------------------------------------------------------------ *)
(** ** The edge list *)

Module EdgeList.

Import Dict DictFacts Graph GraphFacts.

(** The entries of [l] that satisfy [p]. *)
Definition count {A : Type} (p : A -> bool) (l : list A) : nat :=
  List.length (filter p l).

Lemma count_cons {A : Type} (p : A -> bool) (x : A) (l : list A) :
  count p (x :: l) = (if p x then 1 else 0) + count p l.
Proof. unfold count. simpl. destruct (p x); reflexivity. Qed.

Lemma count_keys {V : Type} (p : string -> bool) (d : Dict.t V) :
  List.length (filter (fun kv => p (fst kv)) d) = count p (keys d).
Proof.
  unfold count, keys. induction d as [|[k v] d IH]; simpl; [reflexivity|].
  destruct (p k); simpl; rewrite IH; reflexivity.
Qed.

Lemma count_ext {A : Type} (p q : A -> bool) (l : list A) :
  (forall x, In x l -> p x = q x) -> count p l = count q l.
Proof.
  induction l as [|x l IH]; intros H; [reflexivity|].
  rewrite !count_cons, (H x) by (simpl; auto).
  rewrite IH; [reflexivity|]. intros y Hy. apply H. simpl. auto.
Qed.

Lemma count_or {A : Type} (p q : A -> bool) (l : list A) :
  (forall x, In x l -> p x && q x = false) ->
  count (fun x => p x || q x) l = count p l + count q l.
Proof.
  induction l as [|x l IH]; intros H; [reflexivity|].
  rewrite !count_cons, IH by (intros y Hy; apply H; simpl; auto).
  specialize (H x (or_introl eq_refl)).
  destruct (p x), (q x); simpl in *; try discriminate; lia.
Qed.

Lemma count_is (n : string) (l : list string) :
  NoDup l -> count (String.eqb n) l = if mem n l then 1 else 0.
Proof.
  induction 1 as [|y l Hy Hl IH]; [reflexivity|].
  rewrite count_cons, IH. simpl. destruct (String.eqb n y) eqn:E.
  - apply String.eqb_eq in E. subst y. apply mem_false in Hy. rewrite Hy. reflexivity.
  - reflexivity.
Qed.

(** Two lists without repeats have as many entries of the one in the
    other as of the other in the one. *)
Lemma count_inter (a b : list string) :
  NoDup a -> NoDup b ->
  count (fun x => mem x b) a = count (fun y => mem y a) b.
Proof.
  intros Ha Hb. unfold count.
  apply OpsFacts.length_same_members.
  - apply NoDup_filter. exact Ha.
  - apply NoDup_filter. exact Hb.
  - intros x. rewrite !filter_In, !mem_In. tauto.
Qed.

Lemma sum_count {A : Type} (p : A -> bool) (l : list A) :
  list_sum (map (fun x => if p x then 1 else 0) l) = count p l.
Proof.
  induction l as [|x l IH]; [reflexivity|].
  rewrite count_cons. simpl. rewrite IH. reflexivity.
Qed.

Lemma sum_count_keys {V : Type} (p : string -> bool) (d : Dict.t V) :
  list_sum (map (fun e => if p (fst e) then 1 else 0) d) = count p (keys d).
Proof.
  induction d as [|[k v] d IH]; [reflexivity|].
  unfold keys. simpl map. rewrite count_cons. simpl. unfold keys in IH.
  rewrite IH. reflexivity.
Qed.

Definition entries : Type := Dict.t (Dict.t attrs).

(** The neighbours of an entry that are not in [seen]. *)
Definition fresh_nbrs (seen : list string) (nb : Dict.t attrs) : nat :=
  count (fun v => negb (mem v seen)) (keys nb).

Definition loop_at (n : string) (nb : Dict.t attrs) : nat :=
  if mem n (keys nb) then 1 else 0.

(** The degree sum of the part of the graph outside [seen]. *)
Definition inner_degrees (seen : list string) (es : entries) : nat :=
  list_sum (map (fun e => fresh_nbrs seen (snd e) + loop_at (fst e) (snd e)) es).

Lemma fresh_nbrs_cons (n : string) (seen : list string) (nb : Dict.t attrs) :
  NoDup (keys nb) -> ~ In n seen ->
  fresh_nbrs seen nb = fresh_nbrs (n :: seen) nb + loop_at n nb.
Proof.
  intros Hnd Hn. unfold fresh_nbrs, loop_at.
  rewrite <- (count_is n (keys nb) Hnd), <- count_or.
  - apply count_ext. intros x _. simpl.
    destruct (String.eqb x n) eqn:E.
    + apply String.eqb_eq in E. subst x. rewrite String.eqb_refl.
      apply mem_false in Hn. rewrite Hn. reflexivity.
    + rewrite String.eqb_sym, E. destruct (mem x seen); reflexivity.
  - intros x _. simpl. destruct (String.eqb x n) eqn:E.
    + reflexivity.
    + rewrite String.eqb_sym, E. apply andb_false_r.
Qed.

(** The part of the adjacency still to go, and the keys gone by. *)
Definition sound (seen : list string) (es : entries) : Prop :=
  NoDup (keys es)
  /\ (forall x, In x seen -> ~ In x (keys es))
  /\ (forall n nb, In (n, nb) es ->
        NoDup (keys nb)
        /\ forall v, In v (keys nb) -> In v seen \/ In v (keys es))
  /\ (forall x nbx y nby, In (x, nbx) es -> In (y, nby) es ->
        In y (keys nbx) -> In x (keys nby)).

Lemma sound_tail (seen : list string) (n : string) (nb : Dict.t attrs)
    (rest : entries) :
  sound seen ((n, nb) :: rest) -> sound (n :: seen) rest.
Proof.
  intros (Hnd & Hdis & Hnb & Hsym). simpl in Hnd.
  apply NoDup_cons_iff in Hnd. destruct Hnd as [Hn Hnd].
  split; [exact Hnd|]. split; [|split].
  - intros x [<-|Hx]; [exact Hn|]. intros H. apply (Hdis x Hx). simpl. auto.
  - intros m mb Hm. destruct (Hnb m mb (or_intror Hm)) as [H1 H2].
    split; [exact H1|]. intros v Hv. destruct (H2 v Hv) as [H|[H|H]].
    + left. simpl. auto.
    + left. simpl. auto.
    + right. exact H.
  - intros x nbx y nby Hx Hy. apply Hsym; simpl; auto.
Qed.

(** Every link is counted from both of its ends. *)
Lemma inner_degrees_twice (es : entries) :
  forall seen, sound seen es ->
    inner_degrees seen es = 2 * List.length (edges_from es seen).
Proof.
  induction es as [|[n nb] rest IH]; intros seen Hs; [reflexivity|].
  pose proof (sound_tail _ _ _ _ Hs) as Hs'.
  destruct Hs as (Hnd & Hdis & Hnb & Hsym).
  pose proof Hnd as Hnd0. simpl in Hnd0.
  apply NoDup_cons_iff in Hnd0. destruct Hnd0 as [Hn Hndr].
  assert (Hseen : ~ In n seen).
  { intros H. apply (Hdis n H). simpl. auto. }
  destruct (Hnb n nb (or_introl eq_refl)) as [Hk Hin].
  (* the contribution of the entry *)
  assert (Hlen : List.length (edges_from ((n, nb) :: rest) seen)
                 = fresh_nbrs seen nb + List.length (edges_from rest (n :: seen))).
  { simpl. rewrite length_app, length_map. unfold fresh_nbrs.
    rewrite <- (count_keys (fun v => negb (mem v seen)) nb). reflexivity. }
  (* the neighbours of the entry among the entries to come *)
  assert (Hahead : fresh_nbrs (n :: seen) nb
                   = count (fun v => mem v (keys rest)) (keys nb)).
  { unfold fresh_nbrs. apply count_ext. intros v Hv. simpl.
    destruct (String.eqb v n) eqn:E.
    - apply String.eqb_eq in E. subst v. symmetry. apply mem_false. exact Hn.
    - apply String.eqb_neq in E.
      destruct (Hin v Hv) as [H|[H|H]].
      + pose proof H as H'. apply mem_In in H'. rewrite H'. simpl.
        symmetry. apply mem_false. intros Hr. apply (Hdis v H). simpl. auto.
      + simpl in H. congruence.
      + pose proof H as H'. apply mem_In in H'. rewrite H'.
        assert (Hout : mem v seen = false).
        { apply mem_false. intros Hv'. apply (Hdis v Hv'). simpl. auto. }
        rewrite Hout. reflexivity. }
  (* the entries to come that have the entry for neighbour *)
  assert (Hback : list_sum (map (fun e => loop_at n (snd e)) rest)
                  = count (fun v => mem v (keys rest)) (keys nb)).
  { rewrite <- (count_inter (keys rest) (keys nb) Hndr Hk).
    rewrite <- (sum_count_keys (fun x => mem x (keys nb)) rest).
    apply CountFacts.list_sum_map_ext. intros [x nbx] Hx. unfold loop_at. simpl.
    destruct (mem n (keys nbx)) eqn:E1, (mem x (keys nb)) eqn:E2; try reflexivity.
    - apply mem_In in E1. apply mem_false in E2. exfalso. apply E2.
      apply (Hsym x nbx n nb); simpl; auto.
    - apply mem_false in E1. apply mem_In in E2. exfalso. apply E1.
      apply (Hsym n nb x nbx); simpl; auto. }
  (* the entries to come, with and without the entry *)
  assert (Hrest : inner_degrees seen rest
                  = inner_degrees (n :: seen) rest
                    + list_sum (map (fun e => loop_at n (snd e)) rest)).
  { unfold inner_degrees. rewrite <- CountFacts.list_sum_map_add.
    apply CountFacts.list_sum_map_ext. intros [x nbx] Hx. simpl.
    destruct (Hnb x nbx (or_intror Hx)) as [Hkx _].
    rewrite (fresh_nbrs_cons n seen nbx Hkx Hseen). lia. }
  assert (Hhead : inner_degrees seen ((n, nb) :: rest)
                  = fresh_nbrs seen nb + loop_at n nb + inner_degrees seen rest)
    by reflexivity.
  rewrite Hhead, Hrest, (IH _ Hs'), Hback, Hlen.
  rewrite (fresh_nbrs_cons n seen nb Hk Hseen), Hahead. lia.
Qed.

(** [G.edges] lists every link once: its length is the number of
    edges. *)
Lemma length_edges (G : Graph.t) :
  wf G -> List.length (edges G) = number_of_edges G.
Proof.
  intros Hwf.
  assert (Hnd : NoDup (keys (_adj G))).
  { rewrite (wf_keys G Hwf). apply (wf_nodes G Hwf). }
  assert (Hs : sound [] (_adj G)).
  { split; [exact Hnd|]. split; [intros x []|]. split.
    - intros n nb Hin.
      rewrite <- (ShapeFacts.in_adj_nbrs G n nb Hnd Hin). split.
      + apply (wf_nbrs G Hwf).
      + intros v Hv. right. rewrite (wf_keys G Hwf).
        apply (wf_closed G Hwf n v Hv).
    - intros x nbx y nby Hx Hy Hin.
      rewrite <- (ShapeFacts.in_adj_nbrs G y nby Hnd Hy).
      rewrite <- (ShapeFacts.in_adj_nbrs G x nbx Hnd Hx) in Hin.
      apply (BfsFacts.nbrs_sym G Hwf). exact Hin. }
  pose proof (inner_degrees_twice (_adj G) [] Hs) as Htwice.
  assert (Hdeg : inner_degrees [] (_adj G) = CountFacts.degree_sum G).
  { rewrite CountFacts.degree_sum_map, <- (wf_keys G Hwf).
    unfold keys at 1. rewrite map_map.
    unfold inner_degrees. apply CountFacts.list_sum_map_ext.
    intros [n nb] Hin. simpl.
    rewrite CountFacts.degree_nbrs, (ShapeFacts.in_adj_nbrs G n nb Hnd Hin).
    unfold fresh_nbrs, loop_at, count.
    assert (E : forall l : list string, filter (fun v => negb (mem v [])) l = l).
    { induction l as [|x l IH]; [reflexivity|].
      simpl. f_equal. exact IH. }
    rewrite E. reflexivity. }
  rewrite CountFacts.number_of_edges_sum, <- Hdeg, Htwice.
  unfold edges. rewrite Nat.mul_comm, Nat.div_mul by discriminate. reflexivity.
Qed.

End EdgeList.

Module EdgeMembers.

Import Dict DictFacts Graph GraphFacts EdgeList.

(** Where an entry of the edge list comes from. *)
Lemma in_edges_from_iff (adj : entries) (e : string * string * attrs) :
  forall seen,
    In e (edges_from adj seen) <->
    exists pre n nb post vd,
      adj = pre ++ (n, nb) :: post
      /\ In vd nb
      /\ ~ In (fst vd) seen /\ ~ In (fst vd) (keys pre)
      /\ e = (n, fst vd, snd vd).
Proof.
  induction adj as [|[n nb] rest IH]; intros seen.
  - simpl. split; [intros [] | intros (pre & m & mb & post & vd & H & _)].
    destruct pre; discriminate.
  - simpl. rewrite in_app_iff, in_map_iff, IH. split.
    + intros [(vd & <- & Hvd)|(pre & m & mb & post & vd & E & Hin & Hs & Hp & He)].
      * apply filter_In in Hvd. destruct Hvd as [Hvd Hseen].
        apply negb_true_iff, mem_false in Hseen.
        exists [], n, nb, rest, vd. simpl. tauto.
      * exists ((n, nb) :: pre), m, mb, post, vd. simpl. rewrite E.
        split; [reflexivity|]. split; [exact Hin|].
        split; [intros H; apply Hs; simpl; auto|].
        split; [|exact He]. intros [H|H]; [apply Hs; simpl; auto | exact (Hp H)].
    + intros (pre & m & mb & post & vd & E & Hin & Hs & Hp & He).
      destruct pre as [|[n' nb'] pre]; simpl in E; injection E as -> -> ->.
      * left. exists vd. split; [symmetry; exact He|].
        apply filter_In. split; [exact Hin|].
        apply negb_true_iff, mem_false. exact Hs.
      * right. exists pre, m, mb, post, vd. split; [reflexivity|].
        split; [exact Hin|]. simpl in Hp.
        split; [intros [H|H]; [apply Hp; auto | exact (Hs H)]|].
        split; [tauto | exact He].
Qed.

(** A listed edge is a link of the graph, with its attributes. *)
Lemma edge_listed_is_link (G : Graph.t) (u v : string) (a : attrs) :
  wf G -> In (u, v, a) (edges G) -> get_edge_data G u v = Some a.
Proof.
  intros Hwf H. apply in_edges_from_iff in H.
  destruct H as (pre & n & nb & post & vd & E & Hin & _ & _ & He).
  injection He as -> -> ->.
  assert (Hnd : NoDup (keys (_adj G))).
  { rewrite (wf_keys G Hwf). apply (wf_nodes G Hwf). }
  assert (Hentry : In (n, nb) (_adj G)) by (rewrite E; apply in_app_iff; simpl; auto).
  unfold get_edge_data, adj_of.
  rewrite (OpsFacts.nodup_get n nb (_adj G) Hnd Hentry).
  apply OpsFacts.nodup_get; [|destruct vd; exact Hin].
  rewrite <- (ShapeFacts.in_adj_nbrs G n nb Hnd Hentry). apply (wf_nbrs G Hwf).
Qed.

(** Every link is listed, from one of its ends. *)
Lemma link_is_listed (G : Graph.t) (u v : string) :
  wf G -> In v (nbrs G u) ->
  exists a, In (u, v, a) (edges G) \/ In (v, u, a) (edges G).
Proof.
  intros Hwf Huv.
  assert (Hnd : NoDup (keys (_adj G))).
  { rewrite (wf_keys G Hwf). apply (wf_nodes G Hwf). }
  pose proof (BfsFacts.nbrs_sym G Hwf u v Huv) as Hvu.
  destruct (ShapeFacts.nbrs_in_adj G u v Huv) as (nbu & vdu & Hu & Hvdu & Efu).
  destruct (ShapeFacts.nbrs_in_adj G v u Hvu) as (nbv & vdv & Hv & Hvdv & Efv).
  destruct (in_split _ _ Hu) as (pre & post & E).
  destruct (in_dec string_dec v (keys pre)) as [Hbefore|Hafter].
  - (* [v] comes first: the link is listed from [v] *)
    exists (snd vdv). right. apply in_edges_from_iff.
    unfold keys in Hbefore. apply in_map_iff in Hbefore.
    destruct Hbefore as ([v' nbv'] & Ev & Hpre). simpl in Ev. subst v'.
    destruct (in_split _ _ Hpre) as (p1 & p2 & Ep).
    assert (Hsame : nbv' = nbv).
    { assert (H1 : get v (_adj G) = Some nbv') .
      { apply OpsFacts.nodup_get; [exact Hnd|]. rewrite E, Ep.
        apply in_app_iff. left. apply in_app_iff. simpl. auto. }
      rewrite (OpsFacts.nodup_get v nbv (_adj G) Hnd Hv) in H1. congruence. }
    subst nbv'.
    exists p1, v, nbv, (p2 ++ (u, nbu) :: post), vdv.
    split; [rewrite E, Ep, <- app_assoc; reflexivity|].
    split; [exact Hvdv|]. split; [intros []|]. split; [|rewrite Efv; reflexivity].
    rewrite Efv. rewrite E, Ep, <- app_assoc, BfsFacts.keys_app in Hnd.
    apply (DfsFacts.nodup_app_disjoint _ _ Hnd).
    unfold keys. rewrite <- app_comm_cons, map_cons, map_app. simpl.
    right. apply in_app_iff. right. simpl. auto.
  - exists (snd vdu). left. apply in_edges_from_iff.
    exists pre, u, nbu, post, vdu.
    split; [exact E|]. split; [exact Hvdu|]. split; [intros []|].
    split; [rewrite Efu; exact Hafter | rewrite Efu; reflexivity].
Qed.

End EdgeMembers.

(* ------------------------------------------------------------------ *)
(** ** The text reports *)

Module ReportFacts.

Import Dict DictFacts Graph GraphFacts Reports.

Lemma neighbors_ok (G : Graph.t) (n : string) :
  wf G -> In n (nodes G) -> neighbors G n = Ok (nbrs G n).
Proof.
  intros Hwf Hn. unfold neighbors, nbrs, adj_of.
  destruct (get n (_adj G)) eqn:E; [reflexivity|].
  apply get_None in E. rewrite (wf_keys G Hwf) in E. contradiction.
Qed.

(** The adjacency part: a line for each node, none fails. *)
Lemma adjacency_lines_ok (G : Graph.t) (vs : list string) :
  wf G -> incl vs (nodes G) ->
  adjacency_lines G vs
  = (map (fun n => VizNeighbors n (neighbors_text (nbrs G n))) vs, Ok tt).
Proof.
  intros Hwf. induction vs as [|v vs IH]; intros Hincl; [reflexivity|].
  simpl. rewrite (neighbors_ok G v Hwf) by (apply Hincl; simpl; auto).
  rewrite IH by (intros x Hx; apply Hincl; simpl; auto). reflexivity.
Qed.

Lemma in_connection_lines (G : Graph.t) (u v : string) (bw lt : value) (up : bool) :
  In (VizConnection u v bw lt up) (connection_lines G) ->
  exists a, In (u, v, a) (edges G).
Proof.
  unfold connection_lines. intros H. apply in_map_iff in H.
  destruct H as ([[u' v'] a] & E & Hin). simpl in E. injection E as -> -> _ _ _.
  eauto.
Qed.

End ReportFacts.

(** X24.  On a consistent graph [simple_visualize] writes the whole file
    without an exception: the title, a line for each node, the
    connections heading with the number of edges and as many connection
    lines, and a line for each node with its neighbours, or [isolated]
    when it has none.  Every connection line is a link of the graph, and
    every link has its line, from one end or the other. *)
Theorem X24_simple_visualize_file (G : Graph.t) :
  Graph.wf G ->
  exists nodes_part links_part,
    Reports.simple_visualize G
    = ([Reports.VizTitle; Reports.VizNodes] ++ nodes_part
       ++ [Reports.VizConnections (List.length links_part)] ++ links_part
       ++ [Reports.VizAdjacency]
       ++ map (fun n => Reports.VizNeighbors n
                          (Reports.neighbors_text (Graph.nbrs G n)))
            (Graph.nodes G),
       Ok tt)
    /\ List.length nodes_part = Graph.number_of_nodes G
    /\ List.length links_part = Graph.number_of_edges G
    /\ (forall u v bw lt up,
          In (Reports.VizConnection u v bw lt up) links_part ->
          Graph.has_edge G u v = true)
    /\ (forall u v, Graph.has_edge G u v = true ->
          exists bw lt up,
            In (Reports.VizConnection u v bw lt up) links_part
            \/ In (Reports.VizConnection v u bw lt up) links_part).
Proof.
  intros Hwf. exists (Reports.node_lines G), (Reports.connection_lines G).
  assert (Hlinks : List.length (Reports.connection_lines G) = Graph.number_of_edges G).
  { unfold Reports.connection_lines. rewrite length_map.
    apply EdgeList.length_edges. exact Hwf. }
  split.
  { unfold Reports.simple_visualize.
    rewrite (ReportFacts.adjacency_lines_ok G (Graph.nodes G) Hwf) by (intros x Hx; exact Hx).
    rewrite Hlinks. reflexivity. }
  split; [unfold Reports.node_lines, Graph.number_of_nodes; apply length_map|].
  split; [exact Hlinks|]. split.
  - intros u v bw lt up H.
    destruct (ReportFacts.in_connection_lines G u v bw lt up H) as [a Ha].
    apply EdgeFacts.has_edge_get_edge_data. exists a.
    apply EdgeMembers.edge_listed_is_link; assumption.
  - intros u v H. apply GenFacts.has_edge_nbrs in H.
    destruct (EdgeMembers.link_is_listed G u v Hwf H) as (a & Ha).
    exists (Reports.attr "bandwidth" (VStr "?") a),
           (Reports.attr "link_type" (VStr "unknown") a),
           (Compare.truthy (Reports.attr "up" (VBool true) a)).
    unfold Reports.connection_lines.
    destruct Ha as [Ha|Ha]; [left | right]; apply in_map_iff;
      eexists; (split; [|exact Ha]); reflexivity.
Qed.

Lemma X24_simple_visualize_file_witness :
  snd (Reports.simple_visualize (Builder.create_bus_topology ["a"; "b"; "c"])) = Ok tt.
Proof.
  destruct (X24_simple_visualize_file (Builder.create_bus_topology ["a"; "b"; "c"]))
    as (ns & ls & Hrun & _).
  - apply BusFacts.bus_wf. simpl. lia.
  - rewrite Hrun. reflexivity.
Defined.

(** X25.  [export_topology_summary] computes the metrics before it opens
    the file: on a graph without nodes it raises and writes nothing.  On
    a consistent graph with nodes it writes the whole summary without an
    exception: the counts, the density and the connectivity, the diameter
    for a connected graph only, the clustering and the average degree,
    then a line for each node and a line for each edge. *)
Theorem X25_export_topology_summary (G : Graph.t) :
  (Graph.nodes G = [] ->
   Reports.export_topology_summary G = (None, Raise NetworkXPointlessConcept))
  /\ (Graph.wf G -> Graph.nodes G <> [] ->
      exists b d q nodes_part edges_part,
        Nx.is_connected G = Ok b
        /\ (b = true -> Nx.diameter G = Ok d)
        /\ Nx.average_clustering G = Ok q
        /\ Reports.export_topology_summary G
           = (Some ([Reports.SumTitle;
                     Reports.SumNodes (VInt (Z.of_nat (Graph.number_of_nodes G)));
                     Reports.SumEdges (VInt (Z.of_nat (Graph.number_of_edges G)));
                     Reports.SumDensity (Nx.density G);
                     Reports.SumConnected b]
                    ++ (if b then [Reports.SumDiameter (VInt (Z.of_nat d))] else [])
                    ++ [Reports.SumClustering (VFloat q);
                        Reports.SumAverageDegree
                          (VFloat (Nx.ratio
                                     (list_sum (Dict.values (Graph.degrees G)))
                                     (Graph.number_of_nodes G)));
                        Reports.SumNodeDetails]
                    ++ nodes_part ++ [Reports.SumEdgeDetails] ++ edges_part),
              Ok tt)
        /\ List.length nodes_part = Graph.number_of_nodes G
        /\ List.length edges_part = Graph.number_of_edges G).
Proof.
  split.
  - intros Hempty. unfold Reports.export_topology_summary.
    assert (E : Builder.add_topology_metrics G = Raise NetworkXPointlessConcept).
    { unfold Builder.add_topology_metrics, Builder.diameter_entry, Nx.is_connected.
      rewrite Hempty. reflexivity. }
    rewrite E. reflexivity.
  - intros Hwf Hne.
    destruct (MetricsTotal.metrics_snapshot G Hwf Hne)
      as (dv & q & b & mx & mn & Hm & Hb & Hq & Hdiam & _).
    unfold Reports.export_topology_summary. rewrite Hm.
    destruct b.
    + destruct Hdiam as (d & Hd & ->).
      exists true, d, q. do 2 eexists.
      split; [exact Hb|]. split; [intros _; exact Hd|]. split; [exact Hq|].
      split; [reflexivity|].
      split; [unfold Graph.number_of_nodes; apply length_map|].
      rewrite length_map. apply EdgeList.length_edges. exact Hwf.
    + exists false, 0, q. do 2 eexists.
      split; [exact Hb|]. split; [discriminate|]. split; [exact Hq|].
      split; [reflexivity|].
      split; [unfold Graph.number_of_nodes; apply length_map|].
      rewrite length_map. apply EdgeList.length_edges. exact Hwf.
Qed.

Lemma X25_export_topology_summary_witness :
  Reports.export_topology_summary (Builder.create_ring_topology ["a"; "b"])
  = (None, Raise NetworkXPointlessConcept).
Proof.
  apply (proj1 (X25_export_topology_summary (Builder.create_ring_topology ["a"; "b"]))).
  reflexivity.
Defined.

(* ------------------------------------------------------------------ *)
(** ** The failure simulation and the caller's graph *)

(** C1, the absent id.  For an id that is not a node of the graph
    [simulate_failure] raises nothing: it prints that the node was not
    found and returns normally, with the store as it was. *)
Lemma C1_absent_node_is_reported_not_raised :
  let G := Builder.create_star_topology ["h"; "x"; "y"; "z"] in
  Graph.has_node G "q" = false
  /\ Main.simulate_failure [G] 0 "q" = ([G], ([Main.MsgNodeNotFound "q"], Ok tt))
  /\ (forall e : exn, snd (snd (Main.simulate_failure [G] 0 "q")) <> Raise e).
Proof.
  split; [reflexivity|]. split; [reflexivity|]. intros e. discriminate.
Qed.

(** C1.  Node-failure simulation never changes the caller's graph: after
    the call the caller's reference, and every other reference the caller
    holds, leads to the value it led to before.  For an id that is not a
    node the store is left as it was, the run prints that the node was
    not found and returns normally.  For an id that is a node exactly one
    new object is allocated, and it is the copy of the caller's graph
    with the node removed: the failed node is not a node of it, its nodes
    are the other nodes of the caller's graph, and its links are the
    links of the caller's graph between those. *)
Theorem C1_simulate_failure_preserves_original
    (h : Main.heap) (G : Main.ref) (node_to_fail : string) :
  G < List.length h ->
  let h' := fst (Main.simulate_failure h G node_to_fail) in
  Main.deref h' G = Main.deref h G
  /\ (forall r, r < List.length h -> Main.deref h' r = Main.deref h r)
  /\ (Graph.has_node (Main.deref h G) node_to_fail = false ->
      Main.simulate_failure h G node_to_fail
      = (h, ([Main.MsgNodeNotFound node_to_fail], Ok tt)))
  /\ (Graph.has_node (Main.deref h G) node_to_fail = true ->
      exists G_failed,
        Graph.remove_node (Graph.copy (Main.deref h G)) node_to_fail = Ok G_failed
        /\ h' = h ++ [G_failed]
        /\ Main.deref h' (List.length h) = G_failed
        /\ Graph.has_node G_failed node_to_fail = false
        /\ (forall x, Graph.has_edge G_failed node_to_fail x = false
                      /\ Graph.has_edge G_failed x node_to_fail = false)
        /\ (Graph.wf (Main.deref h G) ->
            (forall x, In x (Graph.nodes G_failed)
                       <-> In x (Graph.nodes (Main.deref h G)) /\ x <> node_to_fail)
            /\ (forall x y, Graph.has_edge G_failed x y = true
                            <-> Graph.has_edge (Main.deref h G) x y = true
                                /\ x <> node_to_fail /\ y <> node_to_fail))).
Proof.
  intros HG h'.
  assert (Hpresent :
            Graph.has_node (Main.deref h G) node_to_fail = true ->
            exists G_failed,
              Graph.remove_node (Graph.copy (Main.deref h G)) node_to_fail
              = Ok G_failed
              /\ h' = h ++ [G_failed]).
  { intros Hhas. subst h'. unfold Main.simulate_failure. rewrite Hhas. simpl.
    assert (Hnew : Main.deref (h ++ [Graph.copy (Main.deref h G)]) (List.length h)
                   = Graph.copy (Main.deref h G)).
    { apply (MainFacts.deref_alloc_new h). }
    rewrite Hnew.
    assert (Hin : In node_to_fail (Graph.nodes (Graph.copy (Main.deref h G)))).
    { apply CopyFacts.in_nodes_copy. apply CopyFacts.has_node_In. exact Hhas. }
    destruct (GraphFacts.remove_node_spec _ node_to_fail
                (CopyFacts.wf_copy (Main.deref h G)) Hin)
      as (g & Hg & _).
    rewrite Hg.
    assert (Hnb : exists ns,
               Graph.neighbors (Graph.copy (Main.deref h G)) node_to_fail = Ok ns).
    { unfold Graph.neighbors.
      destruct (Dict.get node_to_fail (Graph._adj (Graph.copy (Main.deref h G))))
        eqn:E; [eexists; reflexivity|].
      apply DictFacts.get_None in E.
      rewrite (Graph.wf_keys _ (CopyFacts.wf_copy (Main.deref h G))) in E.
      tauto. }
    destruct Hnb as [ns Hns]. rewrite Hns. simpl.
    exists g. split; [reflexivity|]. apply MainFacts.store_last. }
  assert (Hold : forall r, r < List.length h -> Main.deref h' r = Main.deref h r).
  { intros r Hr.
    destruct (Graph.has_node (Main.deref h G) node_to_fail) eqn:Hhas.
    - destruct (Hpresent eq_refl) as (g & _ & Hh'). rewrite Hh'.
      apply MainFacts.deref_app_old. exact Hr.
    - subst h'. unfold Main.simulate_failure. rewrite Hhas. reflexivity. }
  split; [apply Hold; exact HG|]. split; [exact Hold|]. split.
  - intros Hhas. unfold Main.simulate_failure. rewrite Hhas. reflexivity.
  - intros Hhas. destruct (Hpresent Hhas) as (g & Hg & Hh').
    exists g. split; [exact Hg|]. split; [exact Hh'|].
    pose proof (CopyFacts.wf_copy (Main.deref h G)) as Hwc.
    assert (Hin : In node_to_fail (Graph.nodes (Graph.copy (Main.deref h G)))).
    { apply CopyFacts.in_nodes_copy. apply CopyFacts.has_node_In. exact Hhas. }
    pose proof (CutFacts.removed_nodes _ _ _ Hwc Hin Hg) as Hnodes.
    pose proof (fun x y => GraphFacts.in_nbrs_removed _ _ node_to_fail x y Hwc Hg Hin)
      as Hnbrs.
    split.
    { rewrite Hh'. apply MainFacts.deref_alloc_new. }
    split.
    { destruct (Graph.has_node g node_to_fail) eqn:E; [|reflexivity].
      apply CopyFacts.has_node_In in E. apply Hnodes in E. tauto. }
    split.
    { intros x. split.
      - destruct (Graph.has_edge g node_to_fail x) eqn:E; [|reflexivity].
        apply GenFacts.has_edge_nbrs in E. apply Hnbrs in E. tauto.
      - destruct (Graph.has_edge g x node_to_fail) eqn:E; [|reflexivity].
        apply GenFacts.has_edge_nbrs in E. apply Hnbrs in E. tauto. }
    intros Hwf. destruct (ShapeFacts.copy_shape _ Hwf) as [Sn Sb]. split.
    + intros x. rewrite Hnodes, Sn. tauto.
    + intros x y. rewrite !GenFacts.has_edge_nbrs, Hnbrs, Sb. tauto.
Qed.

Lemma C1_simulate_failure_preserves_original_witness :
  let G := Builder.create_star_topology ["h"; "x"; "y"; "z"] in
  Main.deref (fst (Main.simulate_failure [G] 0 "h")) 0 = G.
Proof.
  exact (proj1 (C1_simulate_failure_preserves_original
                  [Builder.create_star_topology ["h"; "x"; "y"; "z"]] 0 "h"
                  (Nat.lt_0_succ 0))).
Defined.

(* ------------------------------------------------------------------ *)
(** ** Where the articulation points are reported *)

Module CriticalReport.

Import Dict DictFacts Graph GraphFacts DfsFacts CutFacts MetricsTotal.

(** The two messages of the analysis about articulation points. *)
Definition is_critical (m : Main.msg) : bool :=
  match m with
  | Main.MsgCriticalNodes _ | Main.MsgNoCriticalNodes => true
  | _ => false
  end.

Definition critical_free (report : list Main.msg) : bool :=
  forallb (fun m => negb (is_critical m)) report.

(** The last message of the analysis of a connected model. *)
Definition critical_line (aps : list string) : Main.msg :=
  match aps with
  | [] => Main.MsgNoCriticalNodes
  | _ :: _ => Main.MsgCriticalNodes aps
  end.

(** The run of [analyze_topology] on a consistent model with a node or
    more: everything it prints before it comes to the articulation
    points, and what it prints about them. *)
Lemma analysis_run (G : Graph.t) :
  wf G -> nodes G <> [] ->
  exists m b body,
    Builder.add_topology_metrics G = Ok m
    /\ keys m = MetricsFacts.metric_keys
    /\ get "is_connected" m = Some (VBool b)
    /\ Nx.is_connected G = Ok b
    /\ critical_free body = true
    /\ if b then
         exists aps,
           Nx.articulation_points G = Ok aps
           /\ NoDup aps
           /\ (forall v, In v aps <-> sep (nbrs G) (nodes G) v)
           /\ Main.analyze_topology G = (body ++ [critical_line aps], Ok tt)
       else Main.analyze_topology G = (body, Ok tt).
Proof.
  intros Hwf Hne.
  destruct (metrics_snapshot G Hwf Hne)
    as (dv & c & b & mx & mn & Hm & Hb & Hc & Hdiam & _).
  destruct (AnalysisFacts.argmax_first (degree G) (nodes G) Hne)
    as (hub & pre & post & Ha & _).
  fold (degrees G) in Ha.
  destruct b.
  - destruct Hdiam as (d & Hd & ->). eexists. exists true.
    destruct (AnalysisFacts.average_shortest_path_length_total G Hwf Hb) as [q Hq].
    destruct (CutShapes.aps_iff_sep G Hwf Hb) as (aps & Haps & Hnd & Hiff).
    exists ([Main.MsgAnalysisHeader;
             Main.MsgNodes (VInt (Z.of_nat (number_of_nodes G)));
             Main.MsgEdges (VInt (Z.of_nat (number_of_edges G)));
             Main.MsgDensity (Nx.density G);
             Main.MsgConnected (VBool true);
             Main.MsgDiameter (VInt (Z.of_nat d));
             Main.MsgAveragePathLength q;
             Main.MsgAverageClustering (VFloat c);
             Main.MsgAverageDegree
               (VFloat (Nx.ratio (list_sum (values (degrees G)))
                                 (number_of_nodes G)));
             Main.MsgMostConnected hub (degree G hub)]).
    split; [exact Hm|]. split; [reflexivity|]. split; [reflexivity|].
    split; [exact Hb|]. split; [reflexivity|].
    exists aps. split; [exact Haps|]. split; [exact Hnd|]. split; [exact Hiff|].
    unfold Main.analyze_topology, Main.critical_nodes_report.
    rewrite Hm, Hq, Ha, Hb, Haps. destruct aps; reflexivity.
  - eexists. exists false.
    exists ([Main.MsgAnalysisHeader;
             Main.MsgNodes (VInt (Z.of_nat (number_of_nodes G)));
             Main.MsgEdges (VInt (Z.of_nat (number_of_edges G)));
             Main.MsgDensity (Nx.density G);
             Main.MsgConnected (VBool false);
             Main.MsgAverageClustering (VFloat c);
             Main.MsgAverageDegree
               (VFloat (Nx.ratio (list_sum (values (degrees G)))
                                 (number_of_nodes G)));
             Main.MsgMostConnected hub (degree G hub)]).
    split; [exact Hm|]. split; [reflexivity|]. split; [reflexivity|].
    split; [exact Hb|]. split; [reflexivity|].
    unfold Main.analyze_topology, Main.critical_nodes_report.
    rewrite Hm, Ha, Hb. reflexivity.
Qed.

End CriticalReport.

(** C7, amended.  A metrics snapshot holds only the nine scalar entries,
    none of them a list of articulation points.  The articulation points
    are computed by [analyze_topology], and only for a connected model.
    On a consistent model with a node or more the analysis runs to its
    end; for a connected model its last message gives the articulation
    points, which are the nodes that separate the model, or says that
    there are none, and no earlier message is about them; for a
    disconnected model no message is about them. *)
Theorem C7_articulation_points_reported_by_analysis (G : Graph.t) :
  (forall m, Builder.add_topology_metrics G = Ok m ->
     forall k v, In (k, v) m ->
       In k MetricsFacts.metric_keys /\ MetricsFacts.is_list v = false)
  /\ (Graph.wf G -> Graph.nodes G <> [] ->
      exists m b report,
        Builder.add_topology_metrics G = Ok m
        /\ Dict.keys m = MetricsFacts.metric_keys
        /\ Dict.get "is_connected" m = Some (VBool b)
        /\ Nx.is_connected G = Ok b
        /\ Main.analyze_topology G = (report, Ok tt)
        /\ (b = true ->
            exists aps body,
              Nx.articulation_points G = Ok aps
              /\ NoDup aps
              /\ (forall v, In v aps
                            <-> DfsFacts.sep (Graph.nbrs G) (Graph.nodes G) v)
              /\ report
                 = body ++ [match aps with
                            | [] => Main.MsgNoCriticalNodes
                            | _ :: _ => Main.MsgCriticalNodes aps
                            end]
              /\ CriticalReport.critical_free body = true)
        /\ (b = false -> CriticalReport.critical_free report = true)).
Proof.
  split; [apply MetricsFacts.metrics_entries|].
  intros Hwf Hne.
  destruct (CriticalReport.analysis_run G Hwf Hne)
    as (m & b & body & Hm & Hk & Hget & Hb & Hfree & Hrun).
  exists m, b. destruct b.
  - destruct Hrun as (aps & Haps & Hnd & Hiff & Hrun).
    exists (body ++ [CriticalReport.critical_line aps]).
    repeat (split; [assumption|]). split.
    + intros _. exists aps, body. repeat (split; [assumption|]).
      split; [reflexivity | exact Hfree].
    + discriminate.
  - exists body. repeat (split; [assumption|]). split.
    + discriminate.
    + intros _. exact Hfree.
Qed.

Lemma C7_articulation_points_reported_by_analysis_witness :
  exists body,
    Main.analyze_topology (Builder.create_bus_topology ["a"; "b"; "c"])
    = (body ++ [Main.MsgCriticalNodes ["b"]], Ok tt)
    /\ CriticalReport.critical_free body = true.
Proof.
  destruct (proj2 (C7_articulation_points_reported_by_analysis
                     (Builder.create_bus_topology ["a"; "b"; "c"])))
    as (m & b & report & Hm & Hk & Hget & Hb & Hrun & Hyes & Hno).
  - apply BusFacts.bus_wf. simpl. lia.
  - simpl. discriminate.
  - assert (Eb : b = true).
    { assert (E : Nx.is_connected (Builder.create_bus_topology ["a"; "b"; "c"])
                  = Ok true) by reflexivity.
      rewrite E in Hb. injection Hb as <-. reflexivity. }
    destruct (Hyes Eb) as (aps & body & Haps & _ & _ & Hrep & Hfree).
    assert (Ea : aps = ["b"]).
    { assert (E : Nx.articulation_points (Builder.create_bus_topology ["a"; "b"; "c"])
                  = Ok ["b"]) by reflexivity.
      rewrite E in Haps. injection Haps as <-. reflexivity. }
    exists body. rewrite Hrun, Hrep, Ea. split; [reflexivity | exact Hfree].
Defined.

(* ------------------------------------------------------------------ *)
(** ** Reading and checking a link file, line by line *)

Module LinkFile.

Import PyStr PyStrFacts CheckLinks CheckLinksFacts CheckReport ReadLinksFacts.

(** What [read_links] returns for a file, around one of its lines: the
    links and the diagnostics of the lines before, of the line, and of
    the lines after, in this order. *)
Lemma read_links_around (fs fs1 fs2 : string -> option (list string))
    (path : string) (pre post : list string) (line : string) :
  fs path = Some (pre ++ line :: post) ->
  fs1 path = Some pre -> fs2 path = Some post ->
  exists l1 d1 l2 d2,
    read_links fs1 path = Ok (l1, d1)
    /\ read_links fs2 path = Ok (l2, d2)
    /\ read_links fs path
       = Ok (l1 ++ (if accepted line then [link_of line] else []) ++ l2,
             d1 ++ (if rejected line then [skip_msg line] else []) ++ d2).
Proof.
  intros H H1 H2. unfold read_links. rewrite H, H1, H2.
  rewrite !read_lines_filter. do 4 eexists.
  split; [reflexivity|]. split; [reflexivity|].
  rewrite !filter_app, !map_app. simpl.
  destruct (accepted line), (rejected line); reflexivity.
Qed.

(** What the check has printed and recorded when it returns. *)
Lemma check_links_run (cfg : configs) (links : list (string * string)) :
  exists st0,
    check_links_vs_configs cfg links
    = Ok (mkCheck (missing_devices st0) (missing_interfaces st0)
            (printed st0 ++ report st0))
    /\ (forall d, In d (missing_devices st0) <->
          exists ep, In ep (endpoints_of links) /\ contains ":" ep = true
                     /\ d = device_of ep /\ Dict.get d cfg = None)
    /\ missing_interfaces st0 = flat_map (missing_iface cfg) (endpoints_of links)
    /\ printed st0 = map invalid_msg (filter no_colon (endpoints_of links)).
Proof.
  unfold check_links_vs_configs.
  destruct (check_endpoints_spec cfg (endpoints_of links) (mkCheck [] [] []))
    as (st & Hst & Hdev & _ & Hif & Hp).
  rewrite Hst. simpl. exists st. split; [reflexivity|]. split; [|split].
  - intros d. rewrite Hdev. simpl. tauto.
  - exact Hif.
  - exact Hp.
Qed.

End LinkFile.

(** C9.  Link-list processing is never fatal.  For a path that is not a
    file [read_links] returns the empty link list and says so.  For a
    file it always returns, and what a line contributes sits between what
    the lines before it and the lines after it contribute: a blank line
    and a line starting with [#] nothing; a line without a dash no link
    and one diagnostic; any other line one link, so that the line
    [R1:Gig0/0 - R2:Gig0/1] gives the pair of its two endpoints.  The
    existence check always returns; every endpoint without a colon, on
    either side of any link, is reported as invalid, and every other
    endpoint is still checked, whatever precedes it: its device is
    recorded when unknown, its interface when the device lacks it.  The
    invalid endpoints are printed first, in the order of the links. *)
Theorem C9_link_processing_never_fatal :
  (forall fs path, fs path = None ->
     CheckLinks.read_links fs path = Ok ([], ["Links file not found: " +++ path]))
  /\ (forall fs path, exists links diags,
        CheckLinks.read_links fs path = Ok (links, diags))
  /\ (forall fs fs1 fs2 path pre line post,
        fs path = Some (pre ++ line :: post) ->
        fs1 path = Some pre -> fs2 path = Some post ->
        exists l1 d1 l2 d2,
          CheckLinks.read_links fs1 path = Ok (l1, d1)
          /\ CheckLinks.read_links fs2 path = Ok (l2, d2)
          /\ (PyStr.strip line = ""
              \/ PyStr.startswith "#" (PyStr.strip line) = true ->
              CheckLinks.read_links fs path = Ok (l1 ++ l2, d1 ++ d2))
          /\ (PyStr.strip line <> "" ->
              PyStr.startswith "#" (PyStr.strip line) = false ->
              PyStr.contains "-" (PyStr.strip line) = false ->
              CheckLinks.read_links fs path
              = Ok (l1 ++ l2,
                    d1 ++ ["Skipping invalid link line (missing '-'): "
                           +++ PyStr.strip line] ++ d2))
          /\ (PyStr.strip line <> "" ->
              PyStr.startswith "#" (PyStr.strip line) = false ->
              PyStr.contains "-" (PyStr.strip line) = true ->
              CheckLinks.read_links fs path
              = Ok (l1 ++ [(PyStr.strip (PyStr.before "-" (PyStr.strip line)),
                            PyStr.strip (PyStr.after "-" (PyStr.strip line)))]
                       ++ l2,
                    d1 ++ d2))
          /\ (line = "R1:Gig0/0 - R2:Gig0/1" ->
              CheckLinks.read_links fs path
              = Ok (l1 ++ [("R1:Gig0/0", "R2:Gig0/1")] ++ l2, d1 ++ d2)))
  /\ (forall fs path,
        fs path = Some ["# lab"; ""; "R1-R2"; "no dash here";
                        "R1:Gig0/0 - R2:Gig0/1"] ->
        CheckLinks.read_links fs path
        = Ok ([("R1", "R2"); ("R1:Gig0/0", "R2:Gig0/1")],
              ["Skipping invalid link line (missing '-'): no dash here"]))
  /\ (forall cfg links, exists st,
        CheckLinks.check_links_vs_configs cfg links = Ok st
        /\ (forall l ep, In l links -> ep = fst l \/ ep = snd l ->
              PyStr.contains ":" ep = false ->
              In ("Invalid endpoint format (missing ':'): " +++ ep)
                 (CheckLinks.printed st))
        /\ (forall l ep, In l links -> ep = fst l \/ ep = snd l ->
              PyStr.contains ":" ep = true ->
              Dict.get (PyStr.strip (PyStr.before ":" ep)) cfg = None ->
              In (PyStr.strip (PyStr.before ":" ep)) (CheckLinks.missing_devices st))
        /\ (forall l ep c, In l links -> ep = fst l \/ ep = snd l ->
              PyStr.contains ":" ep = true ->
              Dict.get (PyStr.strip (PyStr.before ":" ep)) cfg = Some c ->
              mem (PyStr.lower (PyStr.strip (PyStr.after ":" ep)))
                  (CheckReport.ifaces_of c) = false ->
              In (PyStr.strip (PyStr.before ":" ep) +++ ":"
                  +++ PyStr.lower (PyStr.strip (PyStr.after ":" ep)))
                 (CheckLinks.missing_interfaces st))
        /\ exists summary,
             CheckLinks.printed st
             = map (fun ep => "Invalid endpoint format (missing ':'): " +++ ep)
                   (filter (fun ep => negb (PyStr.contains ":" ep))
                           (CheckLinks.endpoints_of links))
               ++ summary)
  /\ CheckLinks.check_links_vs_configs [] [("R1", "R2"); ("R3", "R9:Gig0/0")]
     = Ok (CheckLinks.mkCheck ["R9"] []
             ["Invalid endpoint format (missing ':'): R1";
              "Invalid endpoint format (missing ':'): R2";
              "Invalid endpoint format (missing ':'): R3";
              "Missing devices in parsed configs:"; " - R9";
              "No missing interfaces found."]).
Proof.
  split; [|split; [|split; [|split; [|split]]]].
  - intros fs path H. unfold CheckLinks.read_links. rewrite H. reflexivity.
  - intros fs path. unfold CheckLinks.read_links. destruct (fs path).
    + apply CheckLinksFacts.read_lines_total.
    + do 2 eexists; reflexivity.
  - intros fs fs1 fs2 path pre line post H H1 H2.
    destruct (LinkFile.read_links_around fs fs1 fs2 path pre post line H H1 H2)
      as (l1 & d1 & l2 & d2 & E1 & E2 & E).
    exists l1, d1, l2, d2. split; [exact E1|]. split; [exact E2|].
    unfold ReadLinksFacts.accepted, ReadLinksFacts.rejected,
      ReadLinksFacts.link_of, ReadLinksFacts.skip_msg in E.
    split; [|split; [|split]].
    + intros Hskip.
      assert (Hb : String.eqb (PyStr.strip line) ""
                   || PyStr.startswith "#" (PyStr.strip line) = true).
      { apply orb_true_iff. destruct Hskip as [Hs|Hs]; [left | right; exact Hs].
        apply String.eqb_eq. exact Hs. }
      rewrite Hb in E. exact E.
    + intros Hne Hc Hd. apply String.eqb_neq in Hne.
      rewrite Hne, Hc, Hd in E. exact E.
    + intros Hne Hc Hd. apply String.eqb_neq in Hne.
      rewrite Hne, Hc, Hd in E. exact E.
    + intros ->. exact E.
  - intros fs path H. unfold CheckLinks.read_links. rewrite H. reflexivity.
  - intros cfg links.
    destruct (LinkFile.check_links_run cfg links) as (st0 & Hrun & Hdev & Hif & Hp).
    eexists. split; [exact Hrun|]. simpl.
    assert (Hep : forall l ep, In l links -> ep = fst l \/ ep = snd l ->
                               In ep (CheckLinks.endpoints_of links)).
    { intros l ep Hl Hor. apply CheckReport.in_endpoints_of. eauto. }
    split; [|split; [|split]].
    + intros l ep Hl Hor Hc. apply in_app_iff. left. rewrite Hp.
      apply in_map_iff. exists ep. split; [reflexivity|].
      apply filter_In. split; [eauto|]. unfold CheckReport.no_colon.
      rewrite Hc. reflexivity.
    + intros l ep Hl Hor Hc Hg. apply Hdev. exists ep.
      split; [eauto|]. split; [exact Hc|]. split; [reflexivity | exact Hg].
    + intros l ep c Hl Hor Hc Hg Hm. rewrite Hif. apply in_flat_map.
      exists ep. split; [eauto|]. unfold CheckReport.missing_iface.
      rewrite Hc. unfold CheckReport.device_of, CheckReport.iface_of.
      rewrite Hg, Hm. simpl. auto.
    + exists (CheckLinks.report st0). rewrite Hp. reflexivity.
  - reflexivity.
Qed.
